(** * Thought Memory Store: tag parser, store, graph and reflection engine

    A shallow embedding of the Python sources
      - thought_wrapper/core.py          (tag parsers and cleaners)
      - thought_wrapper/tms/models.py    (Thought and its validation)
      - thought_wrapper/tms/store.py     (ThoughtStore)
      - thought_wrapper/tms/graph.py     (ThoughtGraph)
      - thought_wrapper/tms/reflection.py (ReflectionEngine)

    Conventions of the embedding.
      - A Python [str] is a list of characters ([list ascii], the Latin-1
        range of code points).
      - A raised exception is the [Err] branch of [result].
      - The SQLite tables are lists of rows in rowid order; an upsert
        rewrites the row in place, an insert appends.  A SELECT returns
        its rows in the order of the plan that SQLite runs for it (the
        order of the index that it reads), written out at each query.
      - A compiled regular expression is modelled by its anchored matcher:
        the length of the match that the backtracking engine finds at the
        head of the remaining text.  [Re.sub] and [Re.findall] are the
        leftmost, non-overlapping scans of [re.sub] and [re.findall].
      - Embedding components are IEEE binary64 values ([spec_float]); the
        blob column holds their binary32 roundings.  Scores, ages, weights
        and confidences are exact rationals ([Q]): the ranking arithmetic
        is read over the rationals, not over binary64.  A rational is
        never a NaN or an infinity: what is proved of the order of the
        scores is stated for vectors whose components are numbers
        ([finite_vectors]).
      - A timestamp is the instant it denotes, in microseconds since the
        epoch; the ISO-8601 text of a column is that instant again.
      - The cosine of two embeddings needs a square root and is a
        parameter ([cosine]) of the operations that search the index. *)

From Stdlib Require Import String Ascii List Bool Arith ZArith Lia.
From Stdlib Require Import DecimalString DecimalNat QArith Lqa Floats.SpecFloat Sorting.Sorted.
Import ListNotations.
Close Scope Q_scope.

Set Implicit Arguments.

(** ** Python builtins on strings *)

Module Py.

Definition text := list ascii.

Definition T (s : string) : text := list_ascii_of_string s.

Definition NL : ascii := "010"%char.
Definition TAB : ascii := "009"%char.
Definition SP : ascii := " "%char.

(** [str.isspace] on one character (also the class [\s] of [re] on str
    patterns), for code points below 256. *)
Definition is_space (c : ascii) : bool :=
  let n := nat_of_ascii c in
  ((9 <=? n) && (n <=? 13)) || ((28 <=? n) && (n <=? 32))
  || (n =? 133) || (n =? 160).

(** The class [[ \t]]. *)
Definition is_blank (c : ascii) : bool :=
  Ascii.eqb c SP || Ascii.eqb c TAB.

Definition is_nl (c : ascii) : bool := Ascii.eqb c NL.

Fixpoint take_while (p : ascii -> bool) (s : text) : text :=
  match s with
  | c :: s' => if p c then c :: take_while p s' else []
  | [] => []
  end.

Fixpoint drop_while (p : ascii -> bool) (s : text) : text :=
  match s with
  | c :: s' => if p c then drop_while p s' else s
  | [] => []
  end.

(** [s.strip()] *)
Definition strip (s : text) : text :=
  rev (drop_while is_space (rev (drop_while is_space s))).

(** The characters that pydantic's [str_strip_whitespace] removes: the
    validator trims with the Unicode property [White_Space], which, unlike
    [str.isspace], does not hold of the separators U+001C to U+001F. *)
Definition is_white_space (c : ascii) : bool :=
  let n := nat_of_ascii c in
  ((9 <=? n) && (n <=? 13)) || (n =? 32) || (n =? 133) || (n =? 160).

(** A [str] field validated under [str_strip_whitespace=True]. *)
Definition strip_whitespace (s : text) : text :=
  rev (drop_while is_white_space (rev (drop_while is_white_space s))).

(** [s.startswith(p)] *)
Fixpoint starts_with (p s : text) : bool :=
  match p, s with
  | [], _ => true
  | a :: p', b :: s' => Ascii.eqb a b && starts_with p' s'
  | _ :: _, [] => false
  end.

(** [s.find(p)], as an offset into [s]. *)
Fixpoint str_find (p s : text) : option nat :=
  if starts_with p s then Some 0
  else match s with
       | [] => None
       | _ :: s' => option_map S (str_find p s')
       end.

(** Offset of the first occurrence of the character [c]. *)
Fixpoint index_of (c : ascii) (s : text) : option nat :=
  match s with
  | [] => None
  | a :: s' => if Ascii.eqb a c then Some 0 else option_map S (index_of c s')
  end.

(** [str(n)] for a non-negative integer. *)
Definition str_of_nat (n : nat) : text :=
  T (NilEmpty.string_of_uint (Nat.to_uint n)).

(** [s[a:b]] for [0 <= a], [0 <= b]. *)
Definition slice (s : text) (a b : nat) : text := firstn (b - a) (skipn a s).

Fixpoint text_eqb (a b : text) : bool :=
  match a, b with
  | [], [] => true
  | x :: a', y :: b' => Ascii.eqb x y && text_eqb a' b'
  | _, _ => false
  end.

(** [a < b] on strings: the order of the code points, which is also the
    order of the UTF-8 bytes that SQLite compares. *)
Fixpoint text_ltb (a b : text) : bool :=
  match a, b with
  | _, [] => false
  | [], _ :: _ => true
  | x :: a', y :: b' =>
      (nat_of_ascii x <? nat_of_ascii y)
      || ((nat_of_ascii x =? nat_of_ascii y) && text_ltb a' b')
  end.

(** A [dict] with string keys, in insertion order. *)
Definition dict (V : Type) := list (text * V).

Fixpoint dict_set {V} (d : dict V) (k : text) (v : V) : dict V :=
  match d with
  | [] => [(k, v)]
  | (k', v') :: d' =>
      if text_eqb k' k then (k', v) :: d' else (k', v') :: dict_set d' k v
  end.

Fixpoint dict_get {V} (d : dict V) (k : text) : option V :=
  match d with
  | [] => None
  | (k', v') :: d' => if text_eqb k' k then Some v' else dict_get d' k
  end.

Definition dict_keys {V} (d : dict V) : list text := map fst d.
Definition dict_values {V} (d : dict V) : list V := map snd d.

(** Exceptions. *)
Inductive error :=
| ValueError (msg : string)
| TypeError (msg : string)
| ValidationError (msg : string)
| SqliteError (msg : string).

Inductive result (A : Type) :=
| Ok (a : A)
| Err (e : error).
Arguments Ok {A} a.
Arguments Err {A} e.

Definition bind {A B} (r : result A) (k : A -> result B) : result B :=
  match r with
  | Ok a => k a
  | Err e => Err e
  end.

End Py.

Export Py.

Notation "x <- r ;; k" := (bind r (fun x => k))
  (at level 61, r at next level, right associativity).

(** ** The [re] scans *)

Module Re.

(** The scan of [re.sub(pattern, repl, s)] for a pattern that never matches
    the empty string.  [m s] is the length of the match at the head of [s].
    [fuel] bounds the number of scan positions; [length s] is enough. *)
Fixpoint sub_from (fuel : nat) (m : text -> option nat) (repl s : text) : text :=
  match fuel, s with
  | S fuel', c :: s' =>
      match m s with
      | Some (S n) => repl ++ sub_from fuel' m repl (skipn n s')
      | _ => c :: sub_from fuel' m repl s'
      end
  | _, _ => []
  end.

Definition sub (m : text -> option nat) (repl s : text) : text :=
  sub_from (length s) m repl s.

(** The scan of [re.findall] / [re.finditer]: [m s] is the captured value
    and the length of the match at the head of [s]. *)
Fixpoint findall_from {A} (fuel : nat) (m : text -> option (A * nat)) (s : text)
  : list A :=
  match fuel, s with
  | S fuel', c :: s' =>
      match m s with
      | Some (a, S n) => a :: findall_from fuel' m (skipn n s')
      | _ => findall_from fuel' m s'
      end
  | _, _ => []
  end.

Definition findall {A} (m : text -> option (A * nat)) (s : text) : list A :=
  findall_from (length s) m s.

End Re.

(** ** core.py *)

Module Core.

Record _TagMatch := mkTagMatch {
  start : nat;
  end_ : nat;
  content : text
}.

Definition _validate_tag_name (tag_name : text) : result unit :=
  match strip tag_name with
  | [] => Err (ValueError "tag_name must be a non-empty string")
  | _ => Ok tt
  end.

(** The literal ["/" + tag_name + "["]. *)
Definition marker_of (tag_name : text) : text := T "/" ++ tag_name ++ T "[".
#[global] Arguments marker_of : simpl never.

(** Pattern [/<tag>\[(.*?)\]] with DOTALL: the literal, then the shortest
    run of any characters that is followed by a closing bracket. *)
Definition tag_pattern (tag_name : text) (s : text) : option (text * nat) :=
  let marker := marker_of tag_name in
  if starts_with marker s then
    let body := skipn (length marker) s in
    match index_of "]"%char body with
    | Some j => Some (firstn j body, length marker + j + 1)
    | None => None
    end
  else None.

(** Pattern [\s*/<tag>\[.*?\]\s*]: the same with the whitespace around. *)
Definition tag_ws_pattern (tag_name : text) (s : text) : option nat :=
  let lead := take_while is_space s in
  match tag_pattern tag_name (drop_while is_space s) with
  | Some (c, n) =>
      let rest := skipn n (drop_while is_space s) in
      Some (length lead + n + length (take_while is_space rest))
  | None => None
  end.

(** Pattern [[ \t]+\n]. *)
Definition blank_nl_pattern (s : text) : option nat :=
  match take_while is_blank s, drop_while is_blank s with
  | (_ :: _) as b, c :: _ => if is_nl c then Some (length b + 1) else None
  | _, _ => None
  end.

(** Pattern [\n[ \t]+]. *)
Definition nl_blank_pattern (s : text) : option nat :=
  match s with
  | c :: s' =>
      if is_nl c then
        match take_while is_blank s' with
        | [] => None
        | b => Some (1 + length b)
        end
      else None
  | [] => None
  end.

(** Pattern [\n{3,}]. *)
Definition nl3_pattern (s : text) : option nat :=
  let n := length (take_while is_nl s) in
  if 3 <=? n then Some n else None.

Definition collapse_ws (s : text) : text :=
  let s := Re.sub blank_nl_pattern [NL] s in
  let s := Re.sub nl_blank_pattern [NL] s in
  Re.sub nl3_pattern [NL; NL] s.

Definition regex_matches (text0 tag_name : text) : list text :=
  Re.findall (tag_pattern tag_name) text0.

(** The loop [for idx, content in enumerate(matches)]. *)
Fixpoint fill_dict (tag_name : text) (idx : nat) (contents : list text)
  (thoughts : dict text) : dict text :=
  match contents with
  | [] => thoughts
  | c :: cs =>
      fill_dict tag_name (S idx) cs
        (dict_set thoughts (tag_name ++ T "_" ++ str_of_nat idx) (strip c))
  end.

Definition parse_thought_tags (text0 tag_name : text) : result (dict text) :=
  _ <- _validate_tag_name tag_name ;;
  Ok (fill_dict tag_name 0 (regex_matches text0 tag_name) []).

Definition clean_thought_tags (text0 tag_name : text) : result text :=
  _ <- _validate_tag_name tag_name ;;
  let cleaned := Re.sub (tag_ws_pattern tag_name) [NL] text0 in
  Ok (strip (collapse_ws cleaned)).

(** The inner [while cursor < len(text)] loop: the offset, from the cursor,
    of the bracket that brings [depth] back to zero. *)
Fixpoint scan_close (depth : Z) (s : text) : option nat :=
  match s with
  | [] => None
  | c :: s' =>
      if Ascii.eqb c "["%char then option_map S (scan_close (depth + 1) s')
      else if Ascii.eqb c "]"%char then
        if (depth - 1 =? 0)%Z then Some 0
        else option_map S (scan_close (depth - 1) s')
      else option_map S (scan_close depth s')
  end.

(** The outer [while scan_idx < len(text)] loop; [s] is [text[scan_idx:]].
    Every round moves [scan_idx] forward, so [length s] rounds are enough. *)
Fixpoint iter_from (fuel : nat) (marker : text) (scan_idx : nat) (s : text)
  : list _TagMatch :=
  match fuel with
  | O => []
  | S fuel' =>
      match s with
      | [] => []
      | _ :: _ =>
          match str_find marker s with
          | None => []
          | Some k =>
              let start0 := scan_idx + k in
              let body := skipn (k + length marker) s in
              match scan_close 1 body with
              | Some j =>
                  mkTagMatch start0 (start0 + length marker + j + 1) (firstn j body)
                  :: iter_from fuel' marker (start0 + length marker + j + 1)
                       (skipn (S j) body)
              | None => iter_from fuel' marker (start0 + 1) (skipn (S k) s)
              end
          end
      end
  end.

Definition _iter_tag_matches_linear (text0 tag_name : text) : list _TagMatch :=
  iter_from (length text0) (marker_of tag_name) 0 text0.

Definition parse_thought_tags_linear (text0 tag_name : text) : result (dict text) :=
  _ <- _validate_tag_name tag_name ;;
  Ok (fill_dict tag_name 0
        (map content (_iter_tag_matches_linear text0 tag_name)) []).

(** The loop that builds [out_parts], already joined. *)
Fixpoint join_parts (text0 : text) (cursor : nat) (matches : list _TagMatch)
  : text :=
  match matches with
  | [] => skipn cursor text0
  | m :: ms => slice text0 cursor (start m) ++ [NL] ++ join_parts text0 (end_ m) ms
  end.

Definition clean_thought_tags_linear (text0 tag_name : text) : result text :=
  _ <- _validate_tag_name tag_name ;;
  match _iter_tag_matches_linear text0 tag_name with
  | [] => Ok (strip (Re.sub nl3_pattern [NL; NL] text0))
  | matches => Ok (strip (collapse_ws (join_parts text0 0 matches)))
  end.

End Core.

Import Core.

(** The default [tag_name]. *)
Definition thought_tag : text := T "thought".

(** *** Vocabulary of the parser properties *)

(** Every occurrence of the marker in [x] is closed by a balancing bracket. *)
Definition no_unclosed_tags (x tag_name : text) : bool :=
  let marker := marker_of tag_name in
  forallb
    (fun i =>
       implb (starts_with marker (skipn i x))
         (match scan_close 1 (skipn (i + length marker) x) with
          | Some _ => true
          | None => false
          end))
    (seq 0 (length x)).

(** No tag starts inside the bracket-balanced content of another tag: the
    content of no match of the linear parser holds the marker. *)
Definition no_nested_tags (x tag_name : text) : Prop :=
  Forall (fun m => str_find (marker_of tag_name) (content m) = None)
    (_iter_tag_matches_linear x tag_name).

(** No content captured by the regex parser holds an opening bracket. *)
Definition regex_contents_flat (x tag_name : text) : Prop :=
  Forall (fun c => ~ In "["%char c) (regex_matches x tag_name).


(** ** Numbers and sequences of Python *)

Module PyNum.

(** A Python [float]: an IEEE binary64 value. *)
Definition float := spec_float.

(** [numpy.float32(x)]: round to nearest even into binary32. *)
Definition float32_of_float (x : float) : float :=
  match x with
  | S754_finite s m e => binary_round 24 128 s m e
  | _ => x
  end.

(** A binary32 value read as a Python float (exact). *)
Definition float_of_float32 (x : float) : float :=
  match x with
  | S754_finite s m e => binary_round 53 1024 s m e
  | _ => x
  end.

Definition Qltb (a b : Q) : bool := negb (Qle_bool b a).

(** [max(a, b)]: the first of the largest. *)
Definition py_max (a b : Q) : Q := if Qltb a b then b else a.

(** [l[:n]] for any integer [n]. *)
Definition py_firstn {A} (n : Z) (l : list A) : list A :=
  if (0 <=? n)%Z then firstn (Z.to_nat n) l
  else firstn (length l - Z.to_nat (- n)) l.

(** [sorted(l, key=key, reverse=True)]: stable, largest key first. *)
Fixpoint insert_desc {A} (key : A -> Q) (x : A) (l : list A) : list A :=
  match l with
  | [] => [x]
  | y :: l' => if Qltb (key x) (key y) then y :: insert_desc key x l' else x :: l
  end.

Fixpoint sort_desc {A} (key : A -> Q) (l : list A) : list A :=
  match l with
  | [] => []
  | x :: l' => insert_desc key x (sort_desc key l')
  end.

(** A stable sort by a string key, smallest first. *)
Fixpoint insert_asc_text {A} (key : A -> text) (x : A) (l : list A) : list A :=
  match l with
  | [] => [x]
  | y :: l' =>
      if text_ltb (key y) (key x) then y :: insert_asc_text key x l' else x :: l
  end.

Fixpoint sort_asc_text {A} (key : A -> text) (l : list A) : list A :=
  match l with
  | [] => []
  | x :: l' => insert_asc_text key x (sort_asc_text key l')
  end.

(** [ORDER BY key DESC] on integers: a stable sort, largest first. *)
Fixpoint insert_desc_z {A} (key : A -> Z) (x : A) (l : list A) : list A :=
  match l with
  | [] => [x]
  | y :: l' => if (key x <? key y)%Z then y :: insert_desc_z key x l' else x :: l
  end.

Fixpoint sort_desc_z {A} (key : A -> Z) (l : list A) : list A :=
  match l with
  | [] => []
  | x :: l' => insert_desc_z key x (sort_desc_z key l')
  end.

Definition mem (x : text) (l : list text) : bool := existsb (text_eqb x) l.

Definition is_nil {A} (l : list A) : bool :=
  match l with
  | [] => true
  | _ :: _ => false
  end.

(** [all-or-nothing map]: the list comprehension [[f(x) for x in l]] when
    [f] may raise. *)
Fixpoint map_result {A B} (f : A -> result B) (l : list A) : result (list B) :=
  match l with
  | [] => Ok []
  | x :: l' => y <- f x ;; ys <- map_result f l' ;; Ok (y :: ys)
  end.

End PyNum.

Export PyNum.

(** ** tms/models.py *)

Module Models.

Record Thought := mkThought {
  id : text;
  timestamp_utc : Z;
  session_id : text;
  category : text;
  confidence : Q;
  tags : list text;
  raw_text : text;
  cleaned_text : text;
  embedding_vector : list float;
  embedding_dim : Z
}.

(** [Thought(...)]: the field constraints of the model
    ([str_strip_whitespace], which applies to every [str] of the model, then
    [min_length]; [ge]/[le]) and then [_validate_embedding]. *)
Definition Thought_new (id0 : text) (ts : Z) (session0 category0 : text)
  (confidence0 : Q) (tags0 : list text) (raw0 cleaned0 : text)
  (vector : list float) (dim0 : option Z) : result Thought :=
  let session := strip_whitespace session0 in
  let category1 := strip_whitespace category0 in
  let raw := strip_whitespace raw0 in
  let cleaned := strip_whitespace cleaned0 in
  if is_nil session then Err (ValidationError "session_id: min_length") else
  if is_nil category1 then Err (ValidationError "category: min_length") else
  if negb (Qle_bool 0 confidence0 && Qle_bool confidence0 1)
  then Err (ValidationError "confidence: ge=0.0, le=1.0") else
  if is_nil raw then Err (ValidationError "raw_text: min_length") else
  if is_nil cleaned then Err (ValidationError "cleaned_text: min_length") else
  if is_nil vector then Err (ValidationError "embedding_vector: min_length") else
  let dim := match dim0 with
             | Some d => d
             | None => Z.of_nat (length vector)
             end in
  if (dim <=? 0)%Z then Err (ValidationError "embedding_dim must be positive") else
  if negb (Z.of_nat (length vector) =? dim)%Z
  then Err (ValidationError "embedding_vector length does not match embedding_dim")
  else Ok (mkThought (strip_whitespace id0) ts session category1 confidence0
             (map strip_whitespace tags0) raw cleaned vector dim).

(** A [Thought] as the constructor leaves it. *)
Definition Thought_valid (t : Thought) : Prop :=
  Thought_new (id t) (timestamp_utc t) (session_id t) (category t)
    (confidence t) (tags t) (raw_text t) (cleaned_text t)
    (embedding_vector t) (Some (embedding_dim t)) = Ok t.

Record ThoughtFilters := mkFilters {
  f_session_id : option text;
  f_category : option text;
  f_min_confidence : option Q;
  f_start_time_utc : option Z;
  f_end_time_utc : option Z;
  f_tags_any : option (list text)
}.

(** [ThoughtFilters()] *)
Definition no_filters : ThoughtFilters :=
  mkFilters None None None None None None.

Record ScoredThought := mkScored {
  thought : Thought;
  semantic_score : Q;
  recency_score : Q;
  score : Q
}.

Record ReflectionResult := mkReflectionResult {
  reflection_text : text;
  prompt_used : text;
  recalled_thoughts : list Thought;
  stored_reflections : list Thought
}.

End Models.

Export Models.

(** ** tms/store.py *)

Module Store.

(** A row of [sessions] ([created_at_utc] and [metadata_json] are written
    and never read). *)
Record SessionRow := mkSessionRow {
  s_session_id : text;
  s_parent_session_id : option text
}.

(** A row of [thoughts] ([payload_json] is written and never read);
    [r_tags_json] is the JSON array, [r_embedding_blob] the float32 values
    of the blob in order. *)
Record ThoughtRow := mkRow {
  r_id : text;
  r_timestamp_utc : Z;
  r_session_id : text;
  r_category : text;
  r_confidence : Q;
  r_tags_json : list text;
  r_raw_text : text;
  r_cleaned_text : text;
  r_embedding_dim : Z;
  r_embedding_blob : list float
}.

(** Rows of [thought_graph_nodes] and [thought_graph_edges]
    ([created_at_utc] and [metadata_json] are written and never read). *)
Record NodeRow := mkNodeRow {
  n_thought_id : text;
  n_session_id : text;
  n_timestamp_utc : Z
}.

Record EdgeRow := mkEdgeRow {
  e_source_id : text;
  e_target_id : text;
  e_relation : text;
  e_weight : Q
}.

Inductive backend_kind := NumpyBackend | FaissBackend.

(** The vector index: [_ids] and the rows [_matrix[:_size]].  The rows are
    the float32 vectors; their normalisation is part of [cosine]. *)
Record VectorIndex := mkIndex {
  ix_ids : list text;
  ix_matrix : list (list float)
}.

(** The store object with the database it owns; the graph works on the
    same connection. *)
Record State := mkState {
  store_embedding_dim : Z;
  vector_backend : backend_kind;
  sessions : list SessionRow;
  thoughts : list ThoughtRow;
  vector_index : VectorIndex;
  graph_nodes : list NodeRow;
  graph_edges : list EdgeRow
}.

Definition with_tables (st : State) (ss : list SessionRow) (rows : list ThoughtRow)
  : State :=
  mkState (store_embedding_dim st) (vector_backend st) ss rows
    (vector_index st) (graph_nodes st) (graph_edges st).

Definition with_index (st : State) (ix : VectorIndex) : State :=
  mkState (store_embedding_dim st) (vector_backend st) (sessions st) (thoughts st)
    ix (graph_nodes st) (graph_edges st).

Definition with_nodes (st : State) (ns : list NodeRow) : State :=
  mkState (store_embedding_dim st) (vector_backend st) (sessions st) (thoughts st)
    (vector_index st) ns (graph_edges st).

Definition with_edges (st : State) (es : list EdgeRow) : State :=
  mkState (store_embedding_dim st) (vector_backend st) (sessions st) (thoughts st)
    (vector_index st) (graph_nodes st) es.

(** [ThoughtStore(embedding_dim=dim, vector_backend=...)] on a new database. *)
Definition new_store (dim : Z) (b : backend_kind) : State :=
  mkState dim b [] [] (mkIndex [] []) [] [].

Definition _vector_to_blob (vector : list float) : list float :=
  map float32_of_float vector.

Definition _blob_to_vector (blob : list float) (dim : Z) : result (list float) :=
  if negb (Z.of_nat (length blob) =? dim)%Z
  then Err (ValueError "Embedding blob size mismatch")
  else Ok (map float_of_float32 blob).

(** The values bound to the INSERT of [batch_store]. *)
Definition row_of_thought (t : Thought) : ThoughtRow :=
  mkRow (id t) (timestamp_utc t) (session_id t) (category t) (confidence t)
    (tags t) (raw_text t) (cleaned_text t) (embedding_dim t)
    (_vector_to_blob (embedding_vector t)).

Definition _row_to_thought (row : ThoughtRow) : result Thought :=
  vector <- _blob_to_vector (r_embedding_blob row) (r_embedding_dim row) ;;
  Thought_new (r_id row) (r_timestamp_utc row) (r_session_id row) (r_category row)
    (r_confidence row) (r_tags_json row) (r_raw_text row) (r_cleaned_text row)
    vector (Some (r_embedding_dim row)).

(** [INSERT ... ON CONFLICT(session_id) DO NOTHING] with a null parent. *)
Definition insert_session_if_absent (ss : list SessionRow) (sid : text)
  : list SessionRow :=
  if existsb (fun s => text_eqb (s_session_id s) sid) ss then ss
  else ss ++ [mkSessionRow sid None].

(** [INSERT ... ON CONFLICT(session_id) DO UPDATE SET parent_session_id=...]. *)
Fixpoint upsert_session (ss : list SessionRow) (sid : text) (parent : option text)
  : list SessionRow :=
  match ss with
  | [] => [mkSessionRow sid parent]
  | s :: ss' =>
      if text_eqb (s_session_id s) sid then mkSessionRow sid parent :: ss'
      else s :: upsert_session ss' sid parent
  end.

(** [INSERT INTO thoughts ... ON CONFLICT(id) DO UPDATE SET ...]. *)
Fixpoint upsert_row (rows : list ThoughtRow) (r : ThoughtRow) : list ThoughtRow :=
  match rows with
  | [] => [r]
  | r' :: rows' =>
      if text_eqb (r_id r') (r_id r) then r :: rows' else r' :: upsert_row rows' r
  end.

(** [create_session]; [metadata] is what [json.dumps(metadata or {})] gives
    for the argument: the JSON text (never read again), or the exception
    raised for a value that JSON cannot represent; [None] is the default.
    The exception is raised after the INSERT of the parent and nothing is
    rolled back: the parent row is in the transaction that the INSERT
    opened, and the reads that follow on the connection see it.  The state
    returned is what these reads see; that the transaction is still open is
    not recorded in it. *)
Definition create_session (st : State) (sid : text) (parent : option text)
  (metadata : option (result text)) : State * result unit :=
  if is_nil (strip sid) then (st, Err (ValueError "session_id must be non-empty"))
  else
    let ss1 := match parent with
               | Some p => if is_nil (strip p) then sessions st
                           else insert_session_if_absent (sessions st) p
               | None => sessions st
               end in
    match metadata with
    | Some (Err e) => (with_tables st ss1 (thoughts st), Err e)
    | _ => (with_tables st (upsert_session ss1 sid parent) (thoughts st), Ok tt)
    end.

Definition get_session_parent (st : State) (sid : text) : option text :=
  match find (fun s => text_eqb (s_session_id s) sid) (sessions st) with
  | Some s => s_parent_session_id s
  | None => None
  end.

(** The loop of [get_session_lineage]; [lineage] also is [visited].
    [None]: out of fuel. *)
Fixpoint lineage_loop (fuel : nat) (st : State) (current : option text)
  (lineage : list text) : option (list text) :=
  match current with
  | None => Some lineage
  | Some [] => Some lineage
  | Some c =>
      if mem c lineage then Some lineage
      else match fuel with
           | O => None
           | S fuel' =>
               lineage_loop fuel' st (get_session_parent st c) (lineage ++ [c])
           end
  end.

(** Every round adds a session id that was not there: one round for the
    first id and one for each row of [sessions] are enough. *)
Definition get_session_lineage (st : State) (sid : text) (include_self : bool)
  : list text :=
  let current := if include_self then Some sid else get_session_parent st sid in
  match lineage_loop (S (length (sessions st))) st current [] with
  | Some l => l
  | None => []
  end.

(** *** The vector index (either backend) *)

Fixpoint position (x : text) (l : list text) : option nat :=
  match l with
  | [] => None
  | y :: l' => if text_eqb y x then Some 0 else option_map S (position x l')
  end.

Fixpoint set_nth {A} (n : nat) (x : A) (l : list A) : list A :=
  match n, l with
  | O, _ :: l' => x :: l'
  | S n', y :: l' => y :: set_nth n' x l'
  | _, [] => []
  end.

(** [_NumpyVectorBackend.upsert] *)
Definition index_upsert (dim : Z) (ix : VectorIndex) (thought_id : text)
  (vector : list float) : result VectorIndex :=
  let vec := map float32_of_float vector in
  if negb (Z.of_nat (length vec) =? dim)%Z
  then Err (ValueError "Vector dimension mismatch while upserting numpy index")
  else match position thought_id (ix_ids ix) with
       | Some idx => Ok (mkIndex (ix_ids ix) (set_nth idx vec (ix_matrix ix)))
       | None => Ok (mkIndex (ix_ids ix ++ [thought_id]) (ix_matrix ix ++ [vec]))
       end.

(** [build]: [_ids] is replaced before the shape is checked. *)
Definition index_build (dim : Z) (ix : VectorIndex) (items : list (text * list float))
  : VectorIndex * result unit :=
  let ids := map fst items in
  match items with
  | [] => (mkIndex ids [], Ok tt)
  | _ :: _ =>
      let mat := map (fun it => map float32_of_float (snd it)) items in
      if forallb (fun row => (Z.of_nat (length row) =? dim)%Z) mat
      then (mkIndex ids mat, Ok tt)
      else (mkIndex ids (ix_matrix ix),
            Err (ValueError "Vector dimension mismatch while building index"))
  end.

(** [search]: inner products against the query, the [top_k] largest first. *)
Definition index_search (cosine : list float -> list float -> Q) (dim : Z)
  (ix : VectorIndex) (query_vector : list float) (top_k : Z)
  : result (list (text * Q)) :=
  match ix_matrix ix with
  | [] => Ok []
  | _ :: _ =>
      let q := map float32_of_float query_vector in
      if negb (Z.of_nat (length q) =? dim)%Z
      then Err (ValueError "query vector dimension does not match embedding_dim")
      else
        let scores := map (fun row => cosine row q) (ix_matrix ix) in
        let k := Z.max 1 (Z.min top_k (Z.of_nat (length (ix_matrix ix)))) in
        Ok (firstn (Z.to_nat k)
              (sort_desc snd (combine (ix_ids ix) scores)))
  end.

Definition _rebuild_vector_index_locked (st : State) : State * result unit :=
  match map_result
          (fun row =>
             vec <- _blob_to_vector (r_embedding_blob row) (r_embedding_dim row) ;;
             Ok (r_id row, vec))
          (thoughts st) with
  | Err e => (st, Err e)
  | Ok items =>
      let (ix, r) := index_build (store_embedding_dim st) (vector_index st) items in
      (with_index st ix, r)
  end.

(** *** Writes *)

(** The statements of the transaction of [batch_store].  [fault i] tells
    that a statement for the [i]-th thought raises [sqlite3.Error] (full
    disk, locked database); [None] is the rollback. *)
Fixpoint insert_thoughts (fault : nat -> bool) (i : nat)
  (ss : list SessionRow) (rows : list ThoughtRow) (ts : list Thought)
  : option (list SessionRow * list ThoughtRow) :=
  match ts with
  | [] => Some (ss, rows)
  | t :: ts' =>
      if fault i then None
      else insert_thoughts fault (S i)
             (insert_session_if_absent ss (session_id t))
             (upsert_row rows (row_of_thought t)) ts'
  end.

(** The loop of upserts after the commit; it stops at the first that raises. *)
Fixpoint upsert_all (dim : Z) (ix : VectorIndex) (ts : list Thought)
  : VectorIndex * result unit :=
  match ts with
  | [] => (ix, Ok tt)
  | t :: ts' =>
      match index_upsert dim ix (id t) (embedding_vector t) with
      | Ok ix' => upsert_all dim ix' ts'
      | Err e => (ix, Err e)
      end
  end.

Definition batch_store (fault : nat -> bool) (st : State) (thoughts_list : list Thought)
  : State * result (list Thought) :=
  match thoughts_list with
  | [] => (st, Ok [])
  | _ :: _ =>
      if existsb (fun t => negb (embedding_dim t =? store_embedding_dim st)%Z)
           thoughts_list
      then (st, Err (ValueError "Thought embedding_dim does not match store embedding_dim"))
      else
        match insert_thoughts fault 0 (sessions st) (thoughts st) thoughts_list with
        | None => (st, Err (SqliteError "rolled back"))
        | Some (ss, rows) =>
            let st1 := with_tables st ss rows in
            match vector_backend st with
            | NumpyBackend =>
                let (ix, r) := upsert_all (store_embedding_dim st) (vector_index st)
                                 thoughts_list in
                (with_index st1 ix,
                 match r with
                 | Ok _ => Ok thoughts_list
                 | Err e => Err e
                 end)
            | FaissBackend =>
                let (st2, r) := _rebuild_vector_index_locked st1 in
                (st2,
                 match r with
                 | Ok _ => Ok thoughts_list
                 | Err e => Err e
                 end)
            end
        end
  end.

(** [store(thought)] is [batch_store([thought])[0]]. *)
Definition store (fault : nat -> bool) (st : State) (t : Thought)
  : State * result Thought :=
  let (st', r) := batch_store fault st [t] in
  (st', match r with
        | Ok (t0 :: _) => Ok t0
        | Ok [] => Err (ValueError "IndexError")
        | Err e => Err e
        end).

Definition no_fault (i : nat) : bool := false.

(** *** Reads *)

Definition get_thought_by_id (st : State) (thought_id : text)
  : result (option Thought) :=
  match find (fun r => text_eqb (r_id r) thought_id) (thoughts st) with
  | None => Ok None
  | Some row => t <- _row_to_thought row ;; Ok (Some t)
  end.

Definition tags_intersect (a b : list text) : bool :=
  existsb (fun x => mem x b) a.

Definition opt_test {A} (o : option A) (p : A -> bool) : bool :=
  match o with
  | Some a => p a
  | None => true
  end.

(** The WHERE clause built by [_query_rows_locked]. *)
Definition sql_where (filters : ThoughtFilters) (row : ThoughtRow) : bool :=
  opt_test (f_session_id filters) (fun s => text_eqb (r_session_id row) s)
  && opt_test (f_category filters) (fun c => text_eqb (r_category row) c)
  && opt_test (f_min_confidence filters) (fun m => Qle_bool m (r_confidence row))
  && opt_test (f_start_time_utc filters) (fun t => (t <=? r_timestamp_utc row)%Z)
  && opt_test (f_end_time_utc filters) (fun t => (r_timestamp_utc row <=? t)%Z).

(** [if filters.tags_any:] and the set intersection. *)
Definition tags_any_test (filters : ThoughtFilters) (row : ThoughtRow) : bool :=
  match f_tags_any filters with
  | None => true
  | Some [] => true
  | Some ts => tags_intersect ts (r_tags_json row)
  end.

(** The rows that pass the WHERE clause, in the order in which the plan of
    the SELECT meets rows of equal [timestamp_utc], which [ORDER BY
    timestamp_utc DESC] leaves open.  Without an equality on [session_id]
    or [category] SQLite reads [idx_thoughts_timestamp] backwards: of two
    rows with the same timestamp the later row comes first.  With one, it
    reads [idx_thoughts_session] or [idx_thoughts_category] and sorts the
    rows found: rows with the same timestamp stay in rowid order. *)
Definition sql_scan (filters : ThoughtFilters) (rows : list ThoughtRow)
  : list ThoughtRow :=
  match f_session_id filters, f_category filters with
  | None, None => rev rows
  | _, _ => rows
  end.

Definition _query_rows_locked (st : State) (filters : ThoughtFilters) (limit : Z)
  : list ThoughtRow :=
  let rows := firstn (Z.to_nat (Z.max 1 limit))
                (sort_desc_z r_timestamp_utc
                   (sql_scan filters (filter (sql_where filters) (thoughts st)))) in
  filter (tags_any_test filters) rows.

Definition retrieve (st : State) (filters : ThoughtFilters) (limit : Z)
  : result (list Thought) :=
  map_result _row_to_thought (_query_rows_locked st filters limit).

(** [SELECT * FROM thoughts WHERE id IN (...)]: SQLite looks the ids up in
    the index of the primary key, smallest first, so the rows come in the
    order of their ids, whatever the order of [ids]. *)
Definition _fetch_rows_by_ids_locked (st : State) (ids : list text)
  : list ThoughtRow :=
  sort_asc_text r_id (filter (fun r => mem (r_id r) ids) (thoughts st)).

Definition _row_matches_filters (row : ThoughtRow) (filters : ThoughtFilters) : bool :=
  sql_where filters row && tags_any_test filters row.

(** [max(0.0, (now - ts).total_seconds())] *)
Definition age_of (now ts : Z) : Q :=
  py_max 0 (inject_Z (now - ts) / inject_Z 1000000)%Q.

(** The loop that folds [max_age], from [1.0]. *)
Definition max_age_of (ages : list Q) : Q :=
  fold_left py_max ages 1%Q.

(** [{thought_id: score for thought_id, score in candidates}] *)
Definition dict_of_pairs {V} (l : list (text * V)) : dict V :=
  fold_left (fun d kv => dict_set d (fst kv) (snd kv)) l [].

(** One item of [scored].  The similarity and the score are rationals: the
    float of the source is a number whenever the vectors of the index and
    the query are ([finite_vectors]), and only then is it compared. *)
Definition score_row (alpha : Q) (id_to_score : dict Q) (max_age : Q)
  (now : Z) (row : ThoughtRow) : result ScoredThought :=
  let age := age_of now (r_timestamp_utc row) in
  let semantic := match dict_get id_to_score (r_id row) with
                  | Some s => s
                  | None => (-1)%Q
                  end in
  let recency := (1 - age / max_age)%Q in
  let score0 := (alpha * semantic + (1 - alpha) * recency)%Q in
  t <- _row_to_thought row ;;
  Ok (mkScored t semantic recency score0).

(** The candidates that survive the metadata filters, as rows. *)
Definition surviving_rows (st : State) (candidates : list (text * Q))
  (filters : ThoughtFilters) : list ThoughtRow :=
  filter (fun row => _row_matches_filters row filters)
    (_fetch_rows_by_ids_locked st (dict_keys (dict_of_pairs candidates))).

(** [semantic_search] from the candidates on. *)
Definition rank_candidates (now : Z) (st : State) (candidates : list (text * Q))
  (filters : ThoughtFilters) (limit : Z) (alpha : Q) : result (list ScoredThought) :=
  match candidates with
  | [] => Ok []
  | _ :: _ =>
      let id_to_score := dict_of_pairs candidates in
      match surviving_rows st candidates filters with
      | [] => Ok []
      | filtered_rows =>
          let max_age := max_age_of
                           (map (fun r => age_of now (r_timestamp_utc r)) filtered_rows) in
          scored <- map_result (score_row alpha id_to_score max_age now) filtered_rows ;;
          Ok (firstn (Z.to_nat (Z.max 1 limit)) (sort_desc score scored))
      end
  end.

Definition semantic_search (cosine : list float -> list float -> Q) (now : Z)
  (st : State) (query_vector : list float) (filters : ThoughtFilters)
  (limit : Z) (alpha : Q) (max_candidates : Z) : result (list ScoredThought) :=
  if negb (Qle_bool 0 alpha && Qle_bool alpha 1)
  then Err (ValueError "alpha must be in [0.0, 1.0]")
  else
    candidates <- index_search cosine (store_embedding_dim st) (vector_index st)
                    query_vector (Z.max (limit * 10) (Z.min max_candidates 1000)) ;;
    rank_candidates now st candidates filters limit alpha.

End Store.

Export Store.

(** ** tms/graph.py *)

Module Graph.

(** [ThoughtGraph(store)] works on the store's connection: its tables are
    part of [State].  The in-memory projection (networkx or igraph) is
    written by [link_many] and read by no operation; it is left out. *)

(** The loop of [link_many] inside its transaction.  [fault i] tells that
    the INSERT of the [i]-th edge raises [sqlite3.Error]; [None] is the
    rollback. *)
Fixpoint insert_edges (fault : nat -> bool) (i : nat) (es : list EdgeRow)
  (edges : list EdgeRow) : option (list EdgeRow) :=
  match edges with
  | [] => Some es
  | e :: rest =>
      if text_eqb (e_source_id e) (e_target_id e) then insert_edges fault (S i) es rest
      else if fault i then None
      else insert_edges fault (S i) (es ++ [e]) rest
  end.

Definition link_many (fault : nat -> bool) (st : State) (edges : list EdgeRow)
  : State * result unit :=
  match edges with
  | [] => (st, Ok tt)
  | _ :: _ =>
      match insert_edges fault 0 (graph_edges st) edges with
      | Some es => (with_edges st es, Ok tt)
      | None => (st, Err (SqliteError "rolled back"))
      end
  end.

Definition link (fault : nat -> bool) (st : State) (source_id target_id : text)
  (relation : text) (weight : Q) (bidirectional : bool) : State * result unit :=
  if is_nil source_id || is_nil target_id
  then (st, Err (ValueError "source_id and target_id must be non-empty"))
  else if text_eqb source_id target_id then (st, Ok tt)
  else if Qltb weight 0 then (st, Err (ValueError "weight must be non-negative"))
  else
    let edges := [mkEdgeRow source_id target_id relation weight]
                 ++ (if bidirectional
                     then [mkEdgeRow target_id source_id relation weight]
                     else []) in
    link_many fault st edges.

(** [INSERT INTO thought_graph_nodes ... ON CONFLICT(thought_id) DO UPDATE]. *)
Fixpoint upsert_node (ns : list NodeRow) (n : NodeRow) : list NodeRow :=
  match ns with
  | [] => [n]
  | n' :: ns' =>
      if text_eqb (n_thought_id n') (n_thought_id n) then n :: ns'
      else n' :: upsert_node ns' n
  end.

(** The SELECT of [_link_temporal_successor]. *)
Definition previous_node (st : State) (t : Thought) : option NodeRow :=
  hd_error
    (sort_desc_z n_timestamp_utc
       (filter
          (fun n => text_eqb (n_session_id n) (session_id t)
                    && negb (text_eqb (n_thought_id n) (id t))
                    && (n_timestamp_utc n <=? timestamp_utc t)%Z)
          (graph_nodes st))).

Definition _link_temporal_successor (fault : nat -> bool) (st : State) (t : Thought)
  : State * result unit :=
  match previous_node st t with
  | None => (st, Ok tt)
  | Some row => link fault st (n_thought_id row) (id t) (T "temporal-successor") 1 false
  end.

(** The loop over [nearest] in [add_thought]; the [k]-th call of [link]
    made by [add_thought] gets the faults [faults k]. *)
Fixpoint link_nearest (faults : nat -> nat -> bool) (k : nat) (st : State)
  (t : Thought) (semantic_threshold : Q) (nearest : list ScoredThought)
  : State * result unit :=
  match nearest with
  | [] => (st, Ok tt)
  | item :: rest =>
      if text_eqb (id (thought item)) (id t)
      then link_nearest faults k st t semantic_threshold rest
      else if Qltb (semantic_score item) semantic_threshold
      then link_nearest faults k st t semantic_threshold rest
      else
        match link (faults k) st (id (thought item)) (id t)
                (T "semantic-similarity") (semantic_score item) false with
        | (st', Ok _) => link_nearest faults (S k) st' t semantic_threshold rest
        | (st', Err e) => (st', Err e)
        end
  end.

(** [if store_if_missing and self._store.get_thought_by_id(thought.id) is
    None: self._store.store(thought)], taken without I/O failure. *)
Definition store_missing (st : State) (t : Thought) (store_if_missing : bool)
  : State * result unit :=
  if store_if_missing then
    match get_thought_by_id st (id t) with
    | Err e => (st, Err e)
    | Ok (Some _) => (st, Ok tt)
    | Ok None =>
        match store no_fault st t with
        | (st', Ok _) => (st', Ok tt)
        | (st', Err e) => (st', Err e)
        end
    end
  else (st, Ok tt).

(** The upsert into [thought_graph_nodes], committed at once. *)
Definition add_node (st : State) (t : Thought) : State :=
  with_nodes st
    (upsert_node (graph_nodes st) (mkNodeRow (id t) (session_id t) (timestamp_utc t))).

(** [add_thought].  The write of the thought and of the node come before
    every edge and are taken without I/O failure; [faults k] are the
    faults of the [k]-th call of [link] (the temporal one is call 0 when
    [temporal_link] is set). *)
Definition add_thought (cosine : list float -> list float -> Q) (now : Z)
  (faults : nat -> nat -> bool) (st : State) (t : Thought)
  (store_if_missing : bool) (semantic_neighbors : Z) (semantic_threshold : Q)
  (temporal_link : bool) : State * result Thought :=
  match store_missing st t store_if_missing with
  | (st0, Err e) => (st0, Err e)
  | (st0, Ok _) =>
      let st1 := add_node st0 t in
      let linked :=
        if temporal_link then _link_temporal_successor (faults 0) st1 t
        else (st1, Ok tt) in
      match linked with
      | (st2, Err e) => (st2, Err e)
      | (st2, Ok _) =>
          if (0 <? semantic_neighbors)%Z then
            match semantic_search cosine now st2 (embedding_vector t) no_filters
                    (semantic_neighbors + 5) 1 500 with
            | Err e => (st2, Err e)
            | Ok nearest =>
                match link_nearest faults 1 st2 t semantic_threshold nearest with
                | (st3, Ok _) => (st3, Ok t)
                | (st3, Err e) => (st3, Err e)
                end
            end
          else (st2, Ok t)
      end
  end.

(** The inner [for row in rows] loop of [neighbors]. *)
Fixpoint visit_rows (relations : option (list text)) (rows : list EdgeRow)
  (depth : Z) (seen out : list text) (queue : list (text * Z))
  : list text * list text * list (text * Z) :=
  match rows with
  | [] => (seen, out, queue)
  | row :: rows' =>
      let nxt := e_target_id row in
      let skip_relation :=
        match relations with
        | None => false
        | Some [] => false
        | Some rels => negb (mem (e_relation row) rels)
        end in
      if skip_relation then visit_rows relations rows' depth seen out queue
      else if mem nxt seen then visit_rows relations rows' depth seen out queue
      else visit_rows relations rows' depth (seen ++ [nxt]) (out ++ [nxt])
             (queue ++ [(nxt, (depth + 1)%Z)])
  end.

(** The [while queue and len(out) < limit] loop; [None]: out of fuel. *)
Fixpoint bfs (fuel : nat) (st : State) (hops : Z) (relations : option (list text))
  (limit : Z) (seen out : list text) (queue : list (text * Z))
  : option (list text) :=
  match queue with
  | [] => Some out
  | (node, depth) :: queue' =>
      if negb (Z.of_nat (length out) <? limit)%Z then Some out
      else match fuel with
           | O => None
           | S fuel' =>
               if (hops <=? depth)%Z
               then bfs fuel' st hops relations limit seen out queue'
               else
                 let remaining := Z.max 1 (limit - Z.of_nat (length out)) in
                 let fetch_cap := Z.max (remaining * 2) 8 in
                 let rows := firstn (Z.to_nat fetch_cap)
                               (filter (fun e => text_eqb (e_source_id e) node)
                                  (graph_edges st)) in
                 let '(seen', out', queue'') :=
                   visit_rows relations rows depth seen out queue' in
                 bfs fuel' st hops relations limit seen' out' queue''
           end
  end.

(** Every round takes one entry off the queue, and an entry is a thought id
    seen for the first time: the start and one per edge at most. *)
Definition neighbors (st : State) (thought_id : text) (hops : Z)
  (relations : option (list text)) (limit : Z) : list text :=
  if (hops <=? 0)%Z then []
  else match bfs (S (length (graph_edges st))) st hops relations limit
               [thought_id] [] [(thought_id, 0%Z)] with
       | Some out => out
       | None => []
       end.

End Graph.

Export Graph.

(** ** tms/store.py: [recall_from_prior_sessions] *)

Module Recall.

(** The inner [for n_id in neighbors] loop. *)
Fixpoint expand_neighbors (st : State) (lineage : list text) (item : ScoredThought)
  (ns : list text) (expanded : dict ScoredThought) : result (dict ScoredThought) :=
  match ns with
  | [] => Ok expanded
  | n_id :: ns' =>
      match dict_get expanded n_id with
      | Some _ => expand_neighbors st lineage item ns' expanded
      | None =>
          found <- get_thought_by_id st n_id ;;
          match found with
          | None => expand_neighbors st lineage item ns' expanded
          | Some t =>
              if negb (mem (session_id t) lineage)
              then expand_neighbors st lineage item ns' expanded
              else expand_neighbors st lineage item ns'
                     (dict_set expanded n_id
                        (mkScored t (semantic_score item * (85 # 100))%Q
                           (recency_score item)
                           (score item * (85 # 100))%Q))
          end
      end
  end.

(** The outer [for item in list(semantic[:5])] loop. *)
Fixpoint expand_seeds (st : State) (lineage : list text) (graph_hops : Z)
  (seeds : list ScoredThought) (expanded : dict ScoredThought)
  : result (dict ScoredThought) :=
  match seeds with
  | [] => Ok expanded
  | item :: seeds' =>
      expanded' <- expand_neighbors st lineage item
                     (neighbors st (id (thought item)) graph_hops None 25) expanded ;;
      expand_seeds st lineage graph_hops seeds' expanded'
  end.

(** [graph] tells whether a graph was passed. *)
Definition recall_from_prior_sessions (cosine : list float -> list float -> Q)
  (now : Z) (st : State) (query_vector : list float) (current_session_id : text)
  (graph : bool) (limit : Z) (alpha : Q) (graph_hops : Z)
  : result (list ScoredThought) :=
  match get_session_lineage st current_session_id false with
  | [] => Ok []
  | lineage =>
      found <- semantic_search cosine now st query_vector no_filters
                 (Z.max 30 (limit * 4)) alpha 500 ;;
      let semantic := filter (fun item => mem (session_id (thought item)) lineage)
                        found in
      if negb graph || (graph_hops <=? 0)%Z then Ok (py_firstn limit semantic)
      else
        let expanded := dict_of_pairs
                          (map (fun item => (id (thought item), item)) semantic) in
        expanded' <- expand_seeds st lineage graph_hops (firstn 5 semantic) expanded ;;
        Ok (py_firstn limit (sort_desc score (dict_values expanded')))
  end.

End Recall.

Export Recall.

(** ** tms/embeddings.py, tms/prompt_helpers.py, tms/reflection.py *)

Module Reflection.

(** What the engine takes from outside: the similarity of the index, the
    embedder ([embed] returns [dimension] components), [uuid4()] as the
    [n]-th identifier drawn, [float(s)] on attribute text ([None] is
    [ValueError]) and the format [:.2f]. *)
Record Env := mkEnv {
  cosine : list float -> list float -> Q;
  dimension : Z;
  embed : text -> list float;
  uuid4 : nat -> text;
  float_of_text : text -> option Q;
  format_2f : Q -> text
}.

Definition DQ : ascii := "034"%char.

(** The class [\w] for code points below 256. *)
Definition is_word (c : ascii) : bool :=
  let n := nat_of_ascii c in
  ((48 <=? n) && (n <=? 57)) || ((65 <=? n) && (n <=? 90)) || (n =? 95)
  || ((97 <=? n) && (n <=? 122)) || (n =? 170) || ((178 <=? n) && (n <=? 179))
  || (n =? 181) || ((185 <=? n) && (n <=? 186)) || ((188 <=? n) && (n <=? 190))
  || ((192 <=? n) && (n <=? 214)) || ((216 <=? n) && (n <=? 246))
  || ((248 <=? n) && (n <=? 255)).

(** [c.lower()] on the letters A-Z. *)
Definition lower (c : ascii) : ascii :=
  let n := nat_of_ascii c in
  if (65 <=? n) && (n <=? 90) then ascii_of_nat (n + 32) else c.

(** A literal under IGNORECASE (the literal is in lower case). *)
Fixpoint starts_with_ci (p s : text) : bool :=
  match p, s with
  | [], _ => true
  | a :: p', b :: s' => Ascii.eqb a (lower b) && starts_with_ci p' s'
  | _ :: _, [] => false
  end.

(** The shortest prefix of [s] that is followed by the literal [p]. *)
Fixpoint find_ci (p s : text) : option nat :=
  if starts_with_ci p s then Some 0
  else match s with
       | [] => None
       | _ :: s' => option_map S (find_ci p s')
       end.

Definition open_tag : text := T "<thought".
Definition close_tag : text := T "</thought>".

(** [_THOUGHT_PATTERN], with IGNORECASE and DOTALL: the literal [<thought],
    a word boundary, the longest run without [>] (group 1) and [>], then
    the shortest text (group 2) that is followed by [</thought>].  The
    value is (group 1, group 2). *)
Definition _THOUGHT_PATTERN (s : text) : option ((text * text) * nat) :=
  if starts_with_ci open_tag s then
    let r1 := skipn (length open_tag) s in
    match r1 with
    | [] => None
    | c :: _ =>
        if is_word c then None
        else match index_of ">"%char r1 with
             | None => None
             | Some i =>
                 let r2 := skipn (S i) r1 in
                 match find_ci close_tag r2 with
                 | None => None
                 | Some j =>
                     Some ((firstn i r1, firstn j r2),
                           length open_tag + S i + j + length close_tag)
                 end
             end
    end
  else None.

(** [_ATTR_PATTERN]: a run of word characters (group 1), an equals sign
    with optional whitespace around it, and a double-quoted value
    (group 2). *)
Definition _ATTR_PATTERN (s : text) : option ((text * text) * nat) :=
  match take_while is_word s with
  | [] => None
  | name =>
      let r1 := drop_while is_space (drop_while is_word s) in
      match r1 with
      | c :: r2 =>
          if Ascii.eqb c "="%char then
            let r3 := drop_while is_space r2 in
            match r3 with
            | q :: r4 =>
                if Ascii.eqb q DQ then
                  match index_of DQ r4 with
                  | Some j =>
                      Some ((name, firstn j r4),
                            length s - length r4 + S j)
                  | None => None
                  end
                else None
            | [] => None
            end
          else None
      | [] => None
      end
  end.

Record ParsedStructuredThought := mkParsed {
  thought_id : text;
  p_category : text;
  p_confidence : Q;
  p_content : text
}.

(** [min(a, b)]: the first of the smallest. *)
Definition py_min (a b : Q) : Q := if Qltb b a then b else a.

(** The body of the loop of [parse_structured_thoughts] for one match;
    [n] counts the identifiers drawn so far. *)
Definition parse_one (env : Env) (default_category : text) (default_confidence : Q)
  (n : nat) (m : text * text) : option ParsedStructuredThought :=
  let attrs_raw := fst m in
  let content0 := strip (snd m) in
  if is_nil content0 then None
  else
    let attrs := dict_of_pairs
                   (map (fun kv => (map lower (fst kv), snd kv))
                      (Re.findall _ATTR_PATTERN attrs_raw)) in
    let tid := match dict_get attrs (T "id") with
               | Some v => v
               | None => uuid4 env n
               end in
    let cat0 := match dict_get attrs (T "category") with
                | Some v => strip v
                | None => strip default_category
                end in
    let cat := if is_nil cat0 then default_category else cat0 in
    let conf0 := match dict_get attrs (T "confidence") with
                 | Some v => match float_of_text env v with
                             | Some q => q
                             | None => default_confidence
                             end
                 | None => default_confidence
                 end in
    Some (mkParsed tid cat (py_max 0 (py_min 1 conf0)) content0).

Fixpoint parse_matches (env : Env) (default_category : text)
  (default_confidence : Q) (n : nat) (ms : list (text * text))
  : list ParsedStructuredThought :=
  match ms with
  | [] => []
  | m :: ms' =>
      match parse_one env default_category default_confidence n m with
      | Some p => p :: parse_matches env default_category default_confidence (S n) ms'
      | None => parse_matches env default_category default_confidence n ms'
      end
  end.

Definition parse_structured_thoughts (env : Env) (n : nat) (text0 : text)
  (default_category : text) (default_confidence : Q)
  : list ParsedStructuredThought :=
  parse_matches env default_category default_confidence n
    (Re.findall _THOUGHT_PATTERN text0).

(** [REFLECTION_TEMPLATES] *)
Definition REFLECTION_TEMPLATES : dict text :=
  [ (T "reasoning",
     T "Review recalled thoughts and produce 1-3 high-signal reasoning reflections. Use <thought ...> tags with category='reflection'.");
    (T "summarization",
     T "Summarize recalled thoughts into actionable memory nuggets. Use <thought ...> tags with category='summary'.");
    (T "contradiction_detection",
     T "Detect contradictions or tension between recalled thoughts. Emit corrected reflections with category='reflection'.");
    (T "planning",
     T "Convert recalled thoughts into next-step plans. Use <thought ...> tags with category='plan'.") ].

Definition build_reflection_prompt (mode query recalled_context : text)
  : result text :=
  match dict_get REFLECTION_TEMPLATES mode with
  | None => Err (ValueError "Unsupported reflection mode")
  | Some template =>
      Ok (template ++ [NL; NL] ++ T "Query:" ++ [NL] ++ query ++ [NL; NL]
          ++ T "Recalled Thoughts:" ++ [NL] ++ recalled_context ++ [NL; NL]
          ++ T "Return only <thought ...> tags.")
  end.

(** ["\n".join(parts)] *)
Fixpoint join_lines (parts : list text) : text :=
  match parts with
  | [] => []
  | [p] => p
  | p :: ps => p ++ [NL] ++ join_lines ps
  end.

Definition context_line (env : Env) (t : Thought) : text :=
  T "- (" ++ session_id t ++ T "/" ++ category t ++ T "/"
  ++ format_2f env (confidence t) ++ T ") " ++ cleaned_text t.

Definition thought_tag_text (tid category0 confidence0 body : text) : text :=
  T "<thought id=" ++ [DQ] ++ tid ++ [DQ] ++ T " category=" ++ [DQ] ++ category0
  ++ [DQ] ++ T " confidence=" ++ [DQ] ++ confidence0 ++ [DQ] ++ T ">" ++ body
  ++ T "</thought>".

(** [_default_reflection_text]; it draws the identifiers [n] and [n + 1]. *)
Definition _default_reflection_text (env : Env) (n : nat) (mode query : text)
  (recalled : list Thought) : text :=
  let first := match recalled with
               | t :: _ => cleaned_text t
               | [] => T "No prior memory for query: " ++ query
               end in
  let second := match recalled with
                | _ :: t :: _ => cleaned_text t
                | [t] => cleaned_text t
                | [] => T "Need additional evidence before confidence increases."
                end in
  let two c1 k1 b1 c2 k2 b2 :=
    thought_tag_text (uuid4 env n) c1 k1 (b1 ++ first) ++ [NL]
    ++ thought_tag_text (uuid4 env (S n)) c2 k2 (b2 ++ second) in
  if text_eqb mode (T "summarization") then
    two (T "summary") (T "0.93") (T "Summary memory: ")
        (T "summary") (T "0.88") (T "Actionable summary: ")
  else if text_eqb mode (T "contradiction_detection") then
    two (T "reflection") (T "0.91") (T "Potential contradiction check: ")
        (T "reflection") (T "0.86") (T "Reconciliation candidate: ")
  else if text_eqb mode (T "planning") then
    two (T "plan") (T "0.92") (T "Next step: operationalize ")
        (T "plan") (T "0.87") (T "Validation step: verify against ")
  else
    two (T "reflection") (T "0.94") (T "Reasoning check: ")
        (T "reflection") (T "0.89") (T "Risk note: ").

(** The loop that builds [to_store]. *)
Definition reflection_thought (env : Env) (now : Z) (session : text) (mode : text)
  (item : ParsedStructuredThought) : result Thought :=
  let vector := embed env (p_content item) in
  Thought_new (thought_id item) now session (p_category item) (p_confidence item)
    [T "reflection"; mode] (p_content item) (p_content item) vector
    (Some (Z.of_nat (length vector))).

(** The loop over [stored] when a graph is attached: the node and its
    temporal link, and the pending edge from the first recalled thought. *)
Fixpoint add_reflections (env : Env) (now : Z) (st : State) (stored : list Thought)
  (recalled : list Thought) (pending : list EdgeRow)
  : State * result (list EdgeRow) :=
  match stored with
  | [] => (st, Ok pending)
  | t :: stored' =>
      match add_thought (cosine env) now (fun _ => no_fault) st t false 0 (80 # 100) true with
      | (st', Err e) => (st', Err e)
      | (st', Ok _) =>
          add_reflections env now st' stored' recalled
            (pending
             ++ map (fun r => mkEdgeRow (id r) (id t) (T "explicit-reference") 1)
                  (firstn 1 recalled))
      end
  end.

(** [ReflectionEngine.reflect]; [graph] tells whether the engine has a
    graph, [n] counts the identifiers drawn so far, [llm_callable] is a
    function of the prompt.  [latency_ms] is left out. *)
Definition reflect (env : Env) (now : Z) (n : nat) (st : State) (graph : bool)
  (query current_session_id mode : text) (top_k : Z)
  (reflection_session_id : option text) (llm_callable : option (text -> text))
  : State * result ReflectionResult :=
  match dict_get REFLECTION_TEMPLATES mode with
  | None => (st, Err (ValueError "Unsupported reflection mode"))
  | Some _ =>
  let query_vector := embed env query in
  match semantic_search (cosine env) now st query_vector
          (mkFilters (Some current_session_id) None None None None None)
          top_k (95 # 100) 500 with
  | Err e => (st, Err e)
  | Ok current_hits =>
  match recall_from_prior_sessions (cosine env) now st query_vector
          current_session_id graph top_k (95 # 100) 1 with
  | Err e => (st, Err e)
  | Ok prior_hits =>
  let merged := dict_of_pairs
                  (map (fun hit => (id (thought hit), thought hit))
                     (current_hits ++ prior_hits)) in
  let recalled := firstn (Z.to_nat (Z.max 1 top_k)) (dict_values merged) in
  let context := match recalled with
                 | [] => T "- (none)"
                 | _ => join_lines (map (context_line env) recalled)
                 end in
  match build_reflection_prompt mode query context with
  | Err e => (st, Err e)
  | Ok prompt =>
  let reflection_text0 :=
    match llm_callable with
    | None => _default_reflection_text env n mode query recalled
    | Some llm => llm prompt
    end in
  let parsed := parse_structured_thoughts env (n + 2) reflection_text0
                  (if text_eqb mode (T "planning") then T "plan" else T "reflection")
                  (9 # 10) in
  let session := match reflection_session_id with
                 | Some ((_ :: _) as r) => r
                 | _ => current_session_id
                 end in
  let created :=
    match reflection_session_id with
    | Some ((_ :: _) as r) =>
        if negb (text_eqb r current_session_id)
        then create_session st r (Some current_session_id) None
        else create_session st current_session_id None None
    | _ => create_session st current_session_id None None
    end in
  match created with
  | (st1, Err e) => (st1, Err e)
  | (st1, Ok _) =>
  match map_result (reflection_thought env now session mode) parsed with
  | Err e => (st1, Err e)
  | Ok to_store =>
  match (match to_store with
         | [] => (st1, Ok [])
         | _ :: _ => batch_store no_fault st1 to_store
         end) with
  | (st2, Err e) => (st2, Err e)
  | (st2, Ok stored) =>
  let linked :=
    if graph then
      match add_reflections env now st2 stored recalled [] with
      | (st3, Err e) => (st3, Err e)
      | (st3, Ok pending_edges) =>
          match pending_edges with
          | [] => (st3, Ok tt)
          | _ :: _ => link_many no_fault st3 pending_edges
          end
      end
    else (st2, Ok tt) in
  match linked with
  | (st4, Err e) => (st4, Err e)
  | (st4, Ok _) =>
      (st4, Ok (mkReflectionResult reflection_text0 prompt recalled stored))
  end end end end end end end end.

End Reflection.

Export Reflection.

(** ** core.py: [parse_and_clean] *)

Definition parse_and_clean (text0 tag_name : text) (linear : bool)
  : result (text * dict text) :=
  if linear then
    thoughts <- parse_thought_tags_linear text0 tag_name ;;
    cleaned <- clean_thought_tags_linear text0 tag_name ;;
    Ok (cleaned, thoughts)
  else
    thoughts <- parse_thought_tags text0 tag_name ;;
    cleaned <- clean_thought_tags text0 tag_name ;;
    Ok (cleaned, thoughts).

(** ** tms/graph.py: [find_paths] and [temporal_range] *)

Module GraphQueries.

(** [adjacency.get(node, [])]: target and relation of the edges that leave
    [node], in the order of the table. *)
Definition adjacency_of (st : State) (node : text) : list (text * text) :=
  map (fun e => (e_target_id e, e_relation e))
    (filter (fun e => text_eqb (e_source_id e) node) (graph_edges st)).

(** The [for nxt, rel in adjacency.get(last, [])] loop; it stops at the
    [break]. *)
Fixpoint extend_path (relations : option (list text)) (target_id : text) (limit : Z)
  (path : list text) (adj : list (text * text))
  (paths queue : list (list text)) : list (list text) * list (list text) :=
  match adj with
  | [] => (paths, queue)
  | (nxt, rel) :: adj' =>
      let skip_relation :=
        match relations with
        | None => false
        | Some [] => false
        | Some rels => negb (mem rel rels)
        end in
      if skip_relation then extend_path relations target_id limit path adj' paths queue
      else if mem nxt path
      then extend_path relations target_id limit path adj' paths queue
      else
        let new_path := path ++ [nxt] in
        if text_eqb nxt target_id then
          let paths' := paths ++ [new_path] in
          if (limit <=? Z.of_nat (length paths'))%Z then (paths', queue)
          else extend_path relations target_id limit path adj' paths' queue
        else extend_path relations target_id limit path adj' paths (queue ++ [new_path])
  end.

(** The [while queue and len(paths) < limit] loop; [None]: out of fuel. *)
Fixpoint find_loop (fuel : nat) (st : State) (target_id : text) (max_depth limit : Z)
  (relations : option (list text)) (paths queue : list (list text))
  : option (list (list text)) :=
  match queue with
  | [] => Some paths
  | path :: queue' =>
      if negb (Z.of_nat (length paths) <? limit)%Z then Some paths
      else match fuel with
           | O => None
           | S fuel' =>
               if (max_depth <=? Z.of_nat (length path) - 1)%Z
               then find_loop fuel' st target_id max_depth limit relations paths queue'
               else
                 let '(paths', queue'') :=
                   extend_path relations target_id limit path
                     (adjacency_of st (last path [])) paths queue' in
                 find_loop fuel' st target_id max_depth limit relations paths' queue''
           end
  end.

(** A bound on the rounds that a path with [d] edges to go can cause, when
    a node has at most [width] edges: itself and its extensions. *)
Fixpoint path_weight (width d : nat) : nat :=
  match d with
  | O => 1
  | S d' => 1 + width * path_weight width d'
  end.

Definition find_paths (st : State) (source_id target_id : text) (max_depth limit : Z)
  (relations : option (list text)) : list (list text) :=
  if text_eqb source_id target_id then [[source_id]]
  else match find_loop (path_weight (length (graph_edges st)) (Z.to_nat max_depth))
               st target_id max_depth limit relations [] [[source_id]] with
       | Some paths => paths
       | None => []
       end.

(** [ORDER BY key ASC], ties in the order of the input. *)
Fixpoint insert_asc_z {A} (key : A -> Z) (x : A) (l : list A) : list A :=
  match l with
  | [] => [x]
  | y :: l' => if (key y <? key x)%Z then y :: insert_asc_z key x l' else x :: l
  end.

Fixpoint sort_asc_z {A} (key : A -> Z) (l : list A) : list A :=
  match l with
  | [] => []
  | x :: l' => insert_asc_z key x (sort_asc_z key l')
  end.

(** The rows of the JOIN of [temporal_range] that pass its WHERE clause:
    a node in the range (and of the session), with the thought of its id. *)
Definition temporal_rows (st : State) (start_time_utc end_time_utc : Z)
  (session_id0 : option text) : list (NodeRow * ThoughtRow) :=
  flat_map
    (fun n =>
       map (fun r => (n, r))
         (filter (fun r => text_eqb (r_id r) (n_thought_id n)) (thoughts st)))
    (filter
       (fun n => (start_time_utc <=? n_timestamp_utc n)%Z
                 && (n_timestamp_utc n <=? end_time_utc)%Z
                 && opt_test session_id0 (fun s => text_eqb (n_session_id n) s))
       (graph_nodes st)).

Definition temporal_range (st : State) (start_time_utc end_time_utc : Z)
  (session_id0 : option text) (limit : Z) : result (list Thought) :=
  let rows := firstn (Z.to_nat (Z.max 1 limit))
                (sort_asc_z (fun p => n_timestamp_utc (fst p))
                   (temporal_rows st start_time_utc end_time_utc session_id0)) in
  map_result (fun p => _row_to_thought (snd p)) rows.

End GraphQueries.

Export GraphQueries.

(** ** tms/pipeline.py *)

Module Pipeline.

(** [ParseStoreResult] of models.py; its field [thoughts] is
    [stored_thoughts] here ([thoughts] is the table of the store). *)
Record ParseStoreResult := mkParseStoreResult {
  cleaned_output : text;
  stored_thoughts : list Thought;
  used_linear_fallback : bool
}.

(** The linear parse is preferred when it has more entries, or an entry
    longer than the regex parse has under the same key. *)
Definition should_use_linear (regex_thoughts linear_thoughts : dict text) : bool :=
  (length regex_thoughts <? length linear_thoughts)
  || (negb (is_nil linear_thoughts)
      && existsb
           (fun kv =>
              length (match dict_get regex_thoughts (fst kv) with
                      | Some v => v
                      | None => []
                      end) <? length (snd kv))
           linear_thoughts).

(** The loop that builds [thought_objects]; the [k]-th thought takes the
    identifier [uuid4 env (n + k)]. *)
Fixpoint thought_objects (env : Env) (now : Z) (n : nat) (session_id0 category0 : text)
  (confidence0 : Q) (tags0 : list text) (contents : list text)
  : result (list Thought) :=
  match contents with
  | [] => Ok []
  | content0 :: rest =>
      let clean_content := strip content0 in
      let vector := embed env clean_content in
      t <- Thought_new (uuid4 env n) now session_id0 category0 confidence0 tags0
             content0 clean_content vector (Some (Z.of_nat (length vector))) ;;
      ts <- thought_objects env now (S n) session_id0 category0 confidence0 tags0 rest ;;
      Ok (t :: ts)
  end.

(** [parse_and_store]; the embedder is the one of [env], [fault] are the
    faults of the inserts of the batch. *)
Definition parse_and_store (env : Env) (now : Z) (n : nat) (fault : nat -> bool)
  (st : State) (raw_output session_id0 category0 : text) (confidence0 : Q)
  (tags0 : option (list text)) (tag_name : text) (linear_fallback : bool)
  : State * result ParseStoreResult :=
  if is_nil (strip session_id0)
  then (st, Err (ValueError "session_id must be non-empty"))
  else
    match parse_thought_tags raw_output tag_name with
    | Err e => (st, Err e)
    | Ok regex_thoughts =>
    match clean_thought_tags raw_output tag_name with
    | Err e => (st, Err e)
    | Ok cleaned0 =>
    let chosen :=
      if linear_fallback then
        match parse_thought_tags_linear raw_output tag_name with
        | Err e => Err e
        | Ok linear_thoughts =>
            if should_use_linear regex_thoughts linear_thoughts then
              match clean_thought_tags_linear raw_output tag_name with
              | Err e => Err e
              | Ok cleaned1 => Ok (linear_thoughts, cleaned1, true)
              end
            else Ok (regex_thoughts, cleaned0, false)
        end
      else Ok (regex_thoughts, cleaned0, false) in
    match chosen with
    | Err e => (st, Err e)
    | Ok (thoughts_map, cleaned, used) =>
    let common_tags := match tags0 with
                       | Some l => l
                       | None => []
                       end in
    match thought_objects env now n session_id0 category0 confidence0 common_tags
            (dict_values thoughts_map) with
    | Err e => (st, Err e)
    | Ok objects =>
        match objects with
        | [] => (st, Ok (mkParseStoreResult cleaned [] used))
        | _ :: _ =>
            match batch_store fault st objects with
            | (st', Err e) => (st', Err e)
            | (st', Ok _) => (st', Ok (mkParseStoreResult cleaned objects used))
            end
        end
    end end end end.

End Pipeline.

Export Pipeline.
(** ** Notions used by the proofs *)

Definition head_space (s : text) : bool :=
  match s with
  | [] => true
  | c :: _ => is_space c
  end.

(** [ws_del b s s']: [s'] is [s] with some whitespace characters deleted,
    each of them next to a kept whitespace character, at the start of the
    text (flag [b]) or at its end: no two words of [s] are joined in [s']. *)
Inductive ws_del : bool -> text -> text -> Prop :=
| wd_nil b : ws_del b [] []
| wd_keep b c s s' : ws_del (is_space c) s s' -> ws_del b (c :: s) (c :: s')
| wd_drop b c s s' :
    is_space c = true -> ws_del b s s' -> b = true \/ head_space s' = true ->
    ws_del b (c :: s) s'.


(** [np bad p s]: no two neighbours of [p :: s] are a [bad] pair. *)
Fixpoint np (bad : ascii -> ascii -> bool) (p : ascii) (s : text) : Prop :=
  match s with
  | [] => True
  | c :: s' => bad p c = false /\ np bad c s'
  end.

Definition no_pair (bad : ascii -> ascii -> bool) (s : text) : Prop :=
  match s with
  | [] => True
  | c :: s' => np bad c s'
  end.

(** A blank right before a newline; a blank right after a newline. *)
Definition bad_bn (a b : ascii) : bool := is_blank a && is_nl b.
Definition bad_nb (a b : ascii) : bool := is_nl a && is_blank b.

(** [runs_ok k s]: after [k] newlines, [s] never completes a run of three. *)
Fixpoint runs_ok (k : nat) (s : text) : Prop :=
  match s with
  | [] => True
  | c :: s' => if is_nl c then k < 2 /\ runs_ok (S k) s' else runs_ok 0 s'
  end.

(** The text is what the cleaners leave behind: it has neither a blank next
    to a newline nor three newlines in a row, and [strip] does not change it. *)
Definition tidy (s : text) : Prop :=
  no_pair bad_bn s /\ no_pair bad_nb s /\ runs_ok 0 s /\ strip s = s.

(** [has_tag Q marker s]: the marker occurs in [s] and what follows it
    satisfies [Q] (a closing bracket follows, for the regex parser; the
    bracket that balances the marker's follows, for the linear parser). *)
Definition has_tag (Q : text -> Prop) (marker s : text) : Prop :=
  exists a r, s = a ++ marker ++ r /\ Q r.

Definition closes_later (r : text) : Prop := In "]"%char r.
Definition closes_balanced (r : text) : Prop := scan_close 1 r <> None.

(** The bracket depth after reading [u] from depth [d]; [None] when the
    bracket that brings the depth to zero lies in [u]. *)
Fixpoint depth_thru (d : Z) (u : text) : option Z :=
  match u with
  | [] => Some d
  | c :: u' =>
      if Ascii.eqb c "["%char then depth_thru (d + 1) u'
      else if Ascii.eqb c "]"%char then
        if (d - 1 =? 0)%Z then None else depth_thru (d - 1) u'
      else depth_thru d u'
  end.

Definition closesb (d : Z) (s : text) : bool :=
  match scan_close d s with
  | Some _ => true
  | None => false
  end.

(** The text that the linear cleaner joins, computed along the scan of
    [iter_from]: [pending] is the scanned text not yet written out
    ([text[cursor:scan_idx]]) and [s] is [text[scan_idx:]]. *)
Fixpoint joined_from (fuel : nat) (marker pending s : text) : text :=
  match fuel with
  | O => pending ++ s
  | S fuel' =>
      match s with
      | [] => pending ++ s
      | _ :: _ =>
          match str_find marker s with
          | None => pending ++ s
          | Some k =>
              let body := skipn (k + length marker) s in
              match scan_close 1 body with
              | Some j =>
                  pending ++ firstn k s ++ [NL]
                  ++ joined_from fuel' marker [] (skipn (S j) body)
              | None =>
                  joined_from fuel' marker (pending ++ firstn (S k) s) (skipn (S k) s)
              end
          end
      end
  end.

(** *** Vocabulary of the store properties *)

(** The thought that [_row_to_thought] rebuilds from the row of [t]: [t]
    with every component of the embedding rounded to float32. *)
Definition rehydrated (t : Thought) : Thought :=
  mkThought (id t) (timestamp_utc t) (session_id t) (category t) (confidence t)
    (tags t) (raw_text t) (cleaned_text t)
    (map (fun x => float_of_float32 (float32_of_float x)) (embedding_vector t))
    (embedding_dim t).

(** Every row has the dimension of the store and a blob of that many
    values: what [batch_store] writes. *)
Definition store_wf (st : State) : Prop :=
  Forall
    (fun r => r_embedding_dim r = store_embedding_dim st /\
              Z.of_nat (length (r_embedding_blob r)) = r_embedding_dim r)
    (thoughts st).

(** Every row can be read back as a thought. *)
Definition rows_decode (st : State) : Prop :=
  Forall (fun r => exists t, _row_to_thought r = Ok t) (thoughts st).

(** A validation failure or an insert failure occurs in the batch. *)
Definition batch_fails (fault : nat -> bool) (st : State) (ts : list Thought) : bool :=
  existsb (fun t => negb (embedding_dim t =? store_embedding_dim st)%Z) ts
  || existsb fault (seq 0 (length ts)).

(** The invariant of the [thoughts] table: every row was written from a
    validated thought of the dimension of the store. *)
Definition store_inv (st : State) : Prop :=
  Forall
    (fun r => exists t, Thought_valid t /\
                embedding_dim t = store_embedding_dim st /\ r = row_of_thought t)
    (thoughts st).

(** The transaction of [batch_store] as a fold. *)
Definition batch_rows (rows : list ThoughtRow) (ts : list Thought) : list ThoughtRow :=
  fold_left (fun rs t => upsert_row rs (row_of_thought t)) ts rows.

Definition batch_sessions (ss : list SessionRow) (ts : list Thought) : list SessionRow :=
  fold_left (fun s t => insert_session_if_absent s (session_id t)) ts ss.


(** [a] may come before [b] in a list sorted by [key], largest first. *)
Definition key_ge {A} (key : A -> Q) (a b : A) : Prop := (key b <= key a)%Q.

(** What [semantic_search] computes for the row [row], given the candidate
    scores, the largest age and the clock. *)
Definition scored_from (alpha : Q) (candidates : list (text * Q)) (max_age : Q)
  (now : Z) (row : ThoughtRow) (it : ScoredThought) : Prop :=
  _row_to_thought row = Ok (thought it) /\
  semantic_score it = match dict_get (dict_of_pairs candidates) (r_id row) with
                      | Some s => s
                      | None => (-1)%Q
                      end /\
  recency_score it = (1 - age_of now (r_timestamp_utc row) / max_age)%Q /\
  score it = (alpha * semantic_score it + (1 - alpha) * recency_score it)%Q.

(** *** Vocabulary of the graph properties *)

(** The invariant of the specification on the edge table. *)
Definition edge_ok (e : EdgeRow) : Prop :=
  e_source_id e <> e_target_id e /\ (0 <= e_weight e)%Q.

Definition edges_ok (st : State) : Prop := Forall edge_ok (graph_edges st).

Definition no_self_edges (st : State) : Prop :=
  Forall (fun e => e_source_id e <> e_target_id e) (graph_edges st).

(** The edges one call of [add_thought] sets out to create, in the order of
    its calls of [link]: the temporal edge, then one edge per neighbour
    that is not the thought itself and reaches the threshold. *)
Definition temporal_edges (st1 : State) (t : Thought) (temporal_link : bool)
  : list EdgeRow :=
  if temporal_link then
    match previous_node st1 t with
    | Some row => [mkEdgeRow (n_thought_id row) (id t) (T "temporal-successor") 1]
    | None => []
    end
  else [].

Definition semantic_edges (t : Thought) (semantic_threshold : Q)
  (nearest : list ScoredThought) : list EdgeRow :=
  map (fun item => mkEdgeRow (id (thought item)) (id t) (T "semantic-similarity")
                     (semantic_score item))
    (filter (fun item => negb (text_eqb (id (thought item)) (id t))
                         && negb (Qltb (semantic_score item) semantic_threshold))
       nearest).

Definition intended_edges (cosine : list float -> list float -> Q) (now : Z)
  (st : State) (t : Thought) (store_if_missing : bool) (semantic_neighbors : Z)
  (semantic_threshold : Q) (temporal_link : bool) : list EdgeRow :=
  match store_missing st t store_if_missing with
  | (_, Err _) => []
  | (st0, Ok _) =>
      let st1 := add_node st0 t in
      temporal_edges st1 t temporal_link
      ++ (if (0 <? semantic_neighbors)%Z then
            match semantic_search cosine now st1 (embedding_vector t) no_filters
                    (semantic_neighbors + 5) 1 500 with
            | Ok nearest => semantic_edges t semantic_threshold nearest
            | Err _ => []
            end
          else [])
  end.

(** *** Vocabulary of the recall properties *)

(** The item attached to a neighbour [t] reached from [seed]. *)
Definition decayed (seed : ScoredThought) (t : Thought) : ScoredThought :=
  mkScored t (semantic_score seed * (85 # 100))%Q (recency_score seed)
    (score seed * (85 # 100))%Q.

(** [k] is a neighbour of one of [seeds], stored in a session of the
    lineage, and [it] is its decayed item. *)
Definition reached_from (st : State) (lineage : list text) (graph_hops : Z)
  (seeds : list ScoredThought) (k : text) (it : ScoredThought) : Prop :=
  exists seed t,
    In seed seeds /\
    In k (neighbors st (id (thought seed)) graph_hops None 25) /\
    get_thought_by_id st k = Ok (Some t) /\
    mem (session_id t) lineage = true /\
    it = decayed seed t.

(** *** Vocabulary of the reflection properties *)

(** The scan finds a tag whose content is not blank: what
    [parse_structured_thoughts] keeps. *)
Definition parseable (s : text) : Prop :=
  exists m, In m (Re.findall _THOUGHT_PATTERN s) /\ strip (snd m) <> [].

(** [s] holds a tag [<thought attrs>content</thought>]: the attributes
    have no [>] and do not go on the tag name, the content has no [<] and
    is not blank. *)
Definition well_formed_tag (s : text) : Prop :=
  exists pre attrs body post,
    s = pre ++ open_tag ++ attrs ++ T ">" ++ body ++ close_tag ++ post /\
    ~ In ">"%char attrs /\
    match attrs with
    | [] => True
    | c :: _ => is_word c = false
    end /\
    ~ In "<"%char body /\
    strip body <> [].

(** The engine can run on the store: the rows were written by
    [batch_store], the embedder has the dimension of the store, and the
    session ids are not blank. *)
Definition reflect_ready (env : Env) (st : State) (current_session_id : text)
  (reflection_session_id : option text) : Prop :=
  store_inv st /\
  (0 < dimension env)%Z /\
  dimension env = store_embedding_dim st /\
  (forall s, Z.of_nat (length (embed env s)) = dimension env) /\
  strip current_session_id <> [] /\
  (forall r, reflection_session_id = Some r -> r <> [] -> strip r <> []).

(** *** Vocabulary of the termination arguments *)

(** The targets of the edges that were not seen yet, each once. *)
Definition unseen (st : State) (seen : list text) : list text :=
  nodup (list_eq_dec ascii_dec)
    (filter (fun x => negb (mem x seen)) (map e_target_id (graph_edges st))).

(** *** Vocabulary of the limits and of the ranking *)

(** [top] is the row that the SELECT of [_query_rows_locked] yields first:
    a row that passes the WHERE clause and has the largest timestamp of
    these; of several rows with that timestamp, the last of the table when
    the plan reads the index of the timestamps backwards (no equality on
    [session_id] or [category]), and the first of the table otherwise. *)
Definition most_recent (filters : ThoughtFilters) (rows : list ThoughtRow)
  (top : ThoughtRow) : Prop :=
  exists pre post,
    filter (sql_where filters) rows = pre ++ top :: post /\
    (forall r, In r (pre ++ post) -> (r_timestamp_utc r <= r_timestamp_utc top)%Z) /\
    forall r, In r (match f_session_id filters, f_category filters with
                    | None, None => post
                    | _, _ => pre
                    end) ->
              (r_timestamp_utc r < r_timestamp_utc top)%Z.

(** The float32 value of the component is a number: neither an infinity
    nor a NaN. *)
Definition finite32 (x : float) : bool :=
  match float32_of_float x with
  | S754_zero _ | S754_finite _ _ _ => true
  | _ => false
  end.

(** Every vector of the index and the query have float32 components that
    are numbers.  Then every inner product of the index is a number, and
    so is every score: the domain on which the scores are read as
    rationals. *)
Definition finite_vectors (st : State) (query_vector : list float) : Prop :=
  Forall (fun row => forallb finite32 row = true) (ix_matrix (vector_index st)) /\
  forallb finite32 query_vector = true.

(** The rows are in the order of their ids, smallest first. *)
Definition id_ascending (rows : list ThoughtRow) : Prop :=
  StronglySorted (fun a b => text_ltb (r_id b) (r_id a) = false) rows.

(** ** Notions used by the further properties *)

(** Every element of [l] but the last has the next one as its parent. *)
Fixpoint parent_chain (st : State) (l : list text) : Prop :=
  match l with
  | a :: (b :: _) as l' => get_session_parent st a = Some b /\ parent_chain st l'
  | _ => True
  end.

(** Why the walk up the parents stopped after [l]: the last session has no
    parent, an empty one, or one that is in [l] already. *)
Definition lineage_ends (st : State) (l : list text) : Prop :=
  match get_session_parent st (last l []) with
  | None => True
  | Some [] => True
  | Some p => In p l
  end.

(** The primary key of [thoughts]. *)
Definition table_ids_unique (st : State) : Prop := NoDup (map r_id (thoughts st)).

(** The vector index holds one vector for each stored thought and nothing
    else. *)
Definition index_synced (st : State) : Prop :=
  NoDup (ix_ids (vector_index st)) /\
  length (ix_ids (vector_index st)) = length (ix_matrix (vector_index st)) /\
  forall k, In k (ix_ids (vector_index st)) <-> In k (map r_id (thoughts st)).

(** The edge is not a self-edge. *)
Definition not_self (e : EdgeRow) : bool :=
  negb (text_eqb (e_source_id e) (e_target_id e)).

(** The INSERT of some edge that [link_many] does not skip fails. *)
Definition edge_fault (fault : nat -> bool) (i : nat) (edges : list EdgeRow) : bool :=
  existsb (fun ie => fault (fst ie) && not_self (snd ie))
    (combine (seq i (length edges)) edges).

(** The relation filter of [neighbors] and [find_paths]: an absent or empty
    set lets every relation through. *)
Definition allowed (relations : option (list text)) (relation : text) : bool :=
  match relations with
  | None => true
  | Some [] => true
  | Some rels => mem relation rels
  end.

(** One edge of the table from [a] to [b], of an allowed relation. *)
Definition edge_step (st : State) (relations : option (list text)) (a b : text)
  : Prop :=
  exists e, In e (graph_edges st) /\ e_source_id e = a /\ e_target_id e = b /\
    allowed relations (e_relation e) = true.

(** [walk st relations n a b]: [n] such edges lead from [a] to [b]. *)
Inductive walk (st : State) (relations : option (list text))
  : nat -> text -> text -> Prop :=
| walk_here a : walk st relations 0 a a
| walk_step n a b c :
    walk st relations n a b -> edge_step st relations b c ->
    walk st relations (S n) a c.

(** The primary key of [thought_graph_nodes]. *)
Definition node_ids_unique (st : State) : Prop :=
  NoDup (map n_thought_id (graph_nodes st)).

(** [x] is reached from [start] by one to [hops] allowed edges. *)
Definition within_hops (st : State) (relations : option (list text)) (hops : Z)
  (start x : text) : Prop :=
  exists m, 1 <= m /\ (Z.of_nat m <= hops)%Z /\ walk st relations m start x.

(** What the loop of [neighbors] keeps: the ids seen are the start and the
    ids put out, each once, every id put out is within reach, and every
    entry of the queue is reached by as many edges as its depth says. *)
Definition bfs_inv (st : State) (relations : option (list text)) (hops : Z)
  (start : text) (seen out : list text) (queue : list (text * Z)) : Prop :=
  seen = start :: out /\ NoDup seen /\
  Forall (within_hops st relations hops start) out /\
  Forall (fun nd => exists m, Z.of_nat m = snd nd /\ walk st relations m start (fst nd))
    queue.

(** Every element of [p] but the last is joined to the next one by an edge
    of an allowed relation. *)
Fixpoint path_ok (st : State) (relations : option (list text)) (p : list text) : Prop :=
  match p with
  | a :: (b :: _) as p' => edge_step st relations a b /\ path_ok st relations p'
  | _ => True
  end.

(** A path that [find_paths] builds: it starts at the source, repeats no
    node, follows edges and has at most [max_depth] of them. *)
Definition path_from (st : State) (relations : option (list text)) (source_id : text)
  (max_depth : Z) (p : list text) : Prop :=
  hd_error p = Some source_id /\ NoDup p /\ path_ok st relations p /\
  (Z.of_nat (length p) - 1 <= max_depth)%Z.

(** The edges a path may still take, and the rounds the queue may cause. *)
Definition edges_left (max_depth : Z) (p : list text) : nat :=
  Z.to_nat (max_depth - (Z.of_nat (length p) - 1)).

Definition queue_weight (width : nat) (max_depth : Z) (queue : list (list text)) : nat :=
  list_sum (map (fun p => path_weight width (edges_left max_depth p)) queue).

(** A row of the JOIN of [temporal_range]: a node within the range (and of
    the session asked for) and the stored thought of its id. *)
Definition temporal_hit (st : State) (start_time_utc end_time_utc : Z)
  (session_id0 : option text) (p : NodeRow * ThoughtRow) : Prop :=
  In (fst p) (graph_nodes st) /\ In (snd p) (thoughts st) /\
  r_id (snd p) = n_thought_id (fst p) /\
  (start_time_utc <= n_timestamp_utc (fst p) <= end_time_utc)%Z /\
  (forall s, session_id0 = Some s -> n_session_id (fst p) = s).

(** The key of the [i]-th tag: [f"{tag_name}_{i}"]. *)
Definition key_of (tag_name : text) (i : nat) : text :=
  tag_name ++ T "_" ++ str_of_nat i.

(** The mapping that a parser builds from the contents it found. *)
Definition numbered (tag_name : text) (contents : list text) : dict text :=
  combine (map (key_of tag_name) (seq 0 (length contents))) (map strip contents).

(** The tag name has neither whitespace nor brackets. *)
Definition plain_tag (tag_name : text) : Prop :=
  Forall (fun c => is_space c = false) tag_name /\
  Forall (fun c => Ascii.eqb c "[" = false /\ Ascii.eqb c "]" = false) tag_name.

(** The contents of the tags that a parser finds in a text, in the order of
    the text: the linear parser's or the regex parser's. *)
Definition tag_contents (linear : bool) (text0 tag_name : text) : list text :=
  if linear then map content (_iter_tag_matches_linear text0 tag_name)
  else regex_matches text0 tag_name.

(** ** Example data *)

Module Examples.

(** The double nearest to [0.1], and what it becomes as a float32. *)
Definition tenth : float := S754_finite false 7205759403792794 (-56).
Definition tenth32 : float := S754_finite false 7205759511166976 (-56).
Definition one_float : float := S754_finite false 4503599627370496 (-52).

Definition example_thought (id0 : text) (ts : Z) (tags0 : list text)
  (vec : list float) : Thought :=
  mkThought id0 ts (T "s1") (T "fact") (1 # 2) tags0 (T "raw") (T "clean")
    vec (Z.of_nat (length vec)).

Definition tenth_thought : Thought := example_thought (T "t1") 0 [] [tenth].

(** A batch whose second thought has three components. *)
Definition long_thought : Thought :=
  example_thought (T "t2") 0 [] [tenth; tenth; tenth].

Definition unit_store : State := new_store 1 NumpyBackend.

(** An older thought tagged [x] and a newer one without tags, stored. *)
Definition old_tagged : Thought := example_thought (T "old") 1 [T "x"] [one_float].
Definition new_untagged : Thought := example_thought (T "new") 2 [] [one_float].

Definition two_thoughts : State :=
  fst (batch_store no_fault unit_store [old_tagged; new_untagged]).

Definition tagged_x : ThoughtFilters :=
  mkFilters None None None None None (Some [T "x"]).

(** An edge of negative weight between two different thoughts. *)
Definition negative_edge : EdgeRow :=
  mkEdgeRow (T "a") (T "b") (T "explicit-reference") (-1).

(** The cosine of two vectors of one component: the product of the signs. *)
Definition sign_of (x : float) : Q :=
  match x with
  | S754_finite true _ _ => (-1)%Q
  | S754_finite false _ _ => 1%Q
  | _ => 0%Q
  end.

Definition cosine1 (row q : list float) : Q :=
  match row, q with
  | [x], [y] => (sign_of x * sign_of y)%Q
  | _, _ => 0%Q
  end.

Definition minus_one_float : float := S754_finite true 4503599627370496 (-52).

Definition no_faults (k i : nat) : bool := false.

(** Thought [a] with vector [[1.0]], then thought [b] with [[-1.0]] in the
    same session, one microsecond later. *)
Definition thought_a : Thought := example_thought (T "a") 1 [] [one_float].
Definition thought_b : Thought := example_thought (T "b") 2 [] [minus_one_float].

Definition graph_with_a : State :=
  fst (add_thought cosine1 10 no_faults unit_store thought_a true 3 (8 # 10) true).

(** Session [s2] continues [s1]; [s1] holds [a] and [b], and the graph
    has the edge from [a] to [b]. *)
Definition recall_store : State :=
  let st1 := fst (create_session unit_store (T "s2") (Some (T "s1")) None) in
  let st2 := fst (batch_store no_fault st1 [thought_a; thought_b]) in
  fst (link no_fault st2 (T "a") (T "b") (T "explicit-reference") 1 false).

(** The inner product of two vectors of the plane whose components are
    [1.0], [-1.0] or [0.0]. *)
Definition zero_float : float := S754_zero false.

Definition plane_cosine (row q : list float) : Q :=
  match row, q with
  | [x1; x2], [y1; y2] => (sign_of x1 * sign_of y1 + sign_of x2 * sign_of y2)%Q
  | _, _ => 0%Q
  end.

(** Two thoughts stored in a store of dimension 2: [a], ten seconds after
    the epoch, with the vector [[0.0, 1.0]], and then [b], at the epoch,
    with the vector [[1.0, 0.0]]. *)
Definition north_a : Thought :=
  example_thought (T "a") 10000000 [] [zero_float; one_float].
Definition east_b : Thought :=
  example_thought (T "b") 0 [] [one_float; zero_float].

Definition plane_store : State :=
  fst (batch_store no_fault (new_store 2 NumpyBackend) [north_a; east_b]).

(** Session [s2] continues [s1], which holds 31 thoughts [n0] ... [n30],
    [n_i] stored [i] microseconds after the epoch; [n30] has the vector
    [[1.0]] and the others [[-1.0]].  The graph has the edge from [n30] to
    [n0]. *)
Definition numbered_thought (i : nat) : Thought :=
  example_thought (T "n" ++ str_of_nat i) (Z.of_nat i) []
    [if i =? 30 then one_float else minus_one_float].

Definition crowded_store : State :=
  let st1 := fst (create_session unit_store (T "s2") (Some (T "s1")) None) in
  let st2 := fst (batch_store no_fault st1 (map numbered_thought (seq 0 31))) in
  fst (link no_fault st2 (T "n30") (T "n0") (T "explicit-reference") 1 false).

(** An engine whose embedder returns [[1.0]] for every text. *)
Definition env1 : Env :=
  mkEnv cosine1 1 (fun _ => [one_float]) (fun n => T "u" ++ str_of_nat n)
    (fun _ => None) (fun _ => T "0.50").

(** A model that answers with a tag without content, and one that answers
    with a note. *)
Definition empty_tag_llm (prompt : text) : text := T "<thought></thought>".
Definition note_llm (prompt : text) : text :=
  T "ok <thought category=" ++ [DQ] ++ T "plan" ++ [DQ] ++ T ">ship it</thought>.".

End Examples.
(** * Proofs *)

(** ** Lists and characters *)

Lemma text_len_ind (P : text -> Prop) :
  (forall s, (forall s', length s' < length s -> P s') -> P s) ->
  forall s, P s.
Proof.
  intros H s.
  remember (length s) as n eqn:En.
  revert s En.
  induction n as [n IH] using lt_wf_ind.
  intros s En. apply H. intros s' Hlt. apply (IH (length s')); lia.
Qed.

Ltac len_ind s IH := revert s; refine (text_len_ind _ _); intros s IH.

Lemma take_drop_while p s : take_while p s ++ drop_while p s = s.
Proof.
  induction s as [|c s IH]; simpl; auto.
  destruct (p c); simpl; congruence.
Qed.

Lemma take_while_all p s : Forall (fun c => p c = true) (take_while p s).
Proof.
  induction s as [|c s IH]; simpl; auto.
  destruct (p c) eqn:E; auto.
Qed.

Lemma drop_while_head p s c r : drop_while p s = c :: r -> p c = false.
Proof.
  induction s as [|a s IH]; simpl; try discriminate.
  destruct (p a) eqn:E; auto.
  intros [= <- <-]; auto.
Qed.

Lemma skipn_length_le {A} n (l : list A) : length (skipn n l) <= length l.
Proof. rewrite length_skipn. lia. Qed.

Lemma starts_with_app p s : starts_with p (p ++ s) = true.
Proof.
  induction p as [|a p IH]; simpl; auto.
  rewrite Ascii.eqb_refl; auto.
Qed.

Lemma starts_with_split p s :
  starts_with p s = true -> s = p ++ skipn (length p) s.
Proof.
  revert s; induction p as [|a p IH]; intros [|b s]; simpl; auto; try discriminate.
  rewrite andb_true_iff, Ascii.eqb_eq. intros [-> H]. f_equal; auto.
Qed.

Lemma index_of_split c s j :
  index_of c s = Some j ->
  s = firstn j s ++ c :: skipn (S j) s /\ ~ In c (firstn j s).
Proof.
  revert j; induction s as [|a s IH]; simpl; intros j; try discriminate.
  destruct (Ascii.eqb a c) eqn:E.
  - intros [= <-]. apply Ascii.eqb_eq in E. subst. simpl; auto.
  - destruct (index_of c s) as [j'|]; simpl; try discriminate.
    intros [= <-]. destruct (IH j' eq_refl) as [H1 H2].
    simpl. split; [f_equal; exact H1|].
    intros [->|H]; [rewrite Ascii.eqb_refl in E; discriminate|auto].
Qed.

Lemma index_of_none c s : index_of c s = None <-> ~ In c s.
Proof.
  induction s as [|a s IH]; simpl; [tauto|].
  destruct (Ascii.eqb a c) eqn:E.
  - apply Ascii.eqb_eq in E. split; [discriminate|intros H; exfalso; auto].
  - assert (a <> c) by (intros ->; rewrite Ascii.eqb_refl in E; discriminate).
    destruct (index_of c s); simpl.
    + split; [discriminate|]. intros H1.
      assert (H2 : ~ In c s) by tauto. apply IH in H2. discriminate.
    + split; auto. intros _ [?|H1]; [auto|]. destruct IH as [IH _].
      apply IH; auto.
Qed.

(** ** The scans unfold *)

Module ReFacts.
Import Re.

Lemma sub_from_enough m repl fuel1 :
  forall fuel2 s, length s <= fuel1 -> length s <= fuel2 ->
  sub_from fuel1 m repl s = sub_from fuel2 m repl s.
Proof.
  induction fuel1 as [|f1 IH]; intros [|f2] [|c s] H1 H2; simpl in *; try lia; auto.
  pose proof (fun n => skipn_length_le n s) as Hs.
  destruct (m (c :: s)) as [[|n]|]; f_equal; apply IH; try lia;
    specialize (Hs n); lia.
Qed.

Lemma sub_nil m repl : sub m repl [] = [].
Proof. reflexivity. Qed.

Lemma sub_cons m repl c s :
  sub m repl (c :: s) =
  match m (c :: s) with
  | Some (S n) => repl ++ sub m repl (skipn n s)
  | _ => c :: sub m repl s
  end.
Proof.
  unfold sub. simpl.
  destruct (m (c :: s)) as [[|n]|]; auto.
  f_equal. apply sub_from_enough; auto. apply skipn_length_le.
Qed.

Lemma findall_from_enough {A} (m : text -> option (A * nat)) fuel1 :
  forall fuel2 s, length s <= fuel1 -> length s <= fuel2 ->
  findall_from fuel1 m s = findall_from fuel2 m s.
Proof.
  induction fuel1 as [|f1 IH]; intros [|f2] [|c s] H1 H2; simpl in *; try lia; auto.
  pose proof (fun n => skipn_length_le n s) as Hs.
  destruct (m (c :: s)) as [[a [|n]]|];
    [apply IH; lia | f_equal; apply IH; specialize (Hs n); lia | apply IH; lia].
Qed.

Lemma findall_nil {A} (m : text -> option (A * nat)) : findall m [] = [].
Proof. reflexivity. Qed.

Lemma findall_cons {A} (m : text -> option (A * nat)) c s :
  findall m (c :: s) =
  match m (c :: s) with
  | Some (a, S n) => a :: findall m (skipn n s)
  | _ => findall m s
  end.
Proof.
  unfold findall. simpl.
  destruct (m (c :: s)) as [[a [|n]]|]; auto.
  f_equal. apply findall_from_enough; auto. apply skipn_length_le.
Qed.

(** A scan whose pattern matches at no position leaves the text as it is. *)
Lemma sub_no_match m repl s :
  (forall a b, s = a ++ b -> m b = None) -> sub m repl s = s.
Proof.
  induction s as [|c s IH]; intros H; [reflexivity|].
  rewrite sub_cons, (H [] (c :: s) eq_refl). f_equal.
  apply IH. intros a b ->. apply (H (c :: a) b eq_refl).
Qed.

Lemma findall_no_match {A} (m : text -> option (A * nat)) s :
  (forall a b, s = a ++ b -> m b = None) -> findall m s = [].
Proof.
  induction s as [|c s IH]; intros H; [reflexivity|].
  rewrite findall_cons, (H [] (c :: s) eq_refl).
  apply IH. intros a b ->. apply (H (c :: a) b eq_refl).
Qed.

End ReFacts.

(** ** The regex parser against the linear parser *)

Lemma str_find_some p s k :
  str_find p s = Some k ->
  starts_with p (skipn k s) = true /\
  (forall a b, s = a ++ b -> length a < k -> starts_with p b = false).
Proof.
  revert k; induction s as [|c s IH]; intros k; simpl.
  - destruct (starts_with p []) eqn:E; [|discriminate].
    intros [= <-]. split; auto. intros; lia.
  - destruct (starts_with p (c :: s)) eqn:E.
    + intros [= <-]. split; auto. intros; lia.
    + destruct (str_find p s) as [k'|]; simpl; [|discriminate].
      intros [= <-]. destruct (IH k' eq_refl) as [H1 H2]. split; auto.
      intros [|a0 a] b Hs Hl; simpl in *.
      * subst b. exact E.
      * injection Hs as -> ->. apply (H2 a b eq_refl). lia.
Qed.

Lemma str_find_none p s :
  str_find p s = None -> forall a b, s = a ++ b -> starts_with p b = false.
Proof.
  induction s as [|c s IH]; simpl.
  - destruct (starts_with p []) eqn:E; [discriminate|].
    intros _ a b Hs. symmetry in Hs. apply app_eq_nil in Hs as [_ ->]. exact E.
  - destruct (starts_with p (c :: s)) eqn:E; [discriminate|].
    destruct (str_find p s); simpl; [discriminate|].
    intros _ [|a0 a] b Hs; simpl in *.
    + subst b. exact E.
    + injection Hs as -> ->. eapply IH; eauto.
Qed.

Lemma str_find_le p s k : str_find p s = Some k -> k <= length s.
Proof.
  revert k; induction s as [|c s IH]; intros k; simpl.
  - destruct (starts_with p []); [intros [= <-]; lia|discriminate].
  - destruct (starts_with p (c :: s)); [intros [= <-]; lia|].
    destruct (str_find p s) as [k'|]; simpl; [|discriminate].
    intros [= <-]. specialize (IH k' eq_refl). lia.
Qed.

Lemma scan_close_flat body j :
  index_of "]"%char body = Some j ->
  ~ In "["%char (firstn j body) ->
  scan_close 1 body = Some j.
Proof.
  revert j; induction body as [|c s IH]; intros j; simpl; [discriminate|].
  destruct (Ascii.eqb c "]") eqn:E.
  - intros [= <-] _. apply Ascii.eqb_eq in E. subst c. reflexivity.
  - destruct (index_of "]" s) as [j'|]; simpl; [|discriminate].
    intros [= <-] Hn. simpl in Hn.
    destruct (Ascii.eqb c "[") eqn:E2.
    + apply Ascii.eqb_eq in E2. tauto.
    + rewrite (IH j' eq_refl); auto.
Qed.

Lemma scan_close_needs_bracket d s :
  ~ In "]"%char s -> scan_close d s = None.
Proof.
  revert d; induction s as [|c s IH]; intros d Hn; simpl; auto.
  simpl in Hn.
  destruct (Ascii.eqb c "[") eqn:E1; [rewrite IH; auto|].
  destruct (Ascii.eqb c "]") eqn:E2.
  - apply Ascii.eqb_eq in E2. tauto.
  - rewrite IH; auto.
Qed.

Section LinearVsRegex.

Variable tag : text.
Hypothesis tag_no_close : ~ In "]"%char tag.

Local Abbreviation marker := (marker_of tag).

Lemma marker_no_close : ~ In "]"%char marker.
Proof.
  unfold marker_of. simpl. intros [H|H]; [discriminate|].
  apply in_app_or in H as [H|[H|[]]]; [auto|discriminate].
Qed.

Lemma marker_length : length marker = S (length tag + 1).
Proof. unfold marker_of. simpl. rewrite length_app. reflexivity. Qed.

Lemma tag_pattern_needs_bracket s :
  ~ In "]"%char s -> tag_pattern tag s = None.
Proof.
  intros Hn. unfold tag_pattern.
  destruct (starts_with marker s); auto.
  destruct (index_of "]" (skipn (length marker) s)) eqn:E; auto.
  apply index_of_split in E as [E _].
  exfalso. apply Hn. rewrite <- (firstn_skipn (length marker) s).
  apply in_or_app. right. rewrite E. apply in_or_app. right. left. reflexivity.
Qed.

Lemma findall_needs_bracket s :
  ~ In "]"%char s -> Re.findall (tag_pattern tag) s = [].
Proof.
  intros Hn. apply ReFacts.findall_no_match. intros a b ->.
  apply tag_pattern_needs_bracket. intros H. apply Hn. apply in_or_app. auto.
Qed.

Lemma findall_skip_to s k :
  str_find marker s = Some k ->
  Re.findall (tag_pattern tag) s = Re.findall (tag_pattern tag) (skipn k s).
Proof.
  revert k; induction s as [|c s IH]; intros k; cbn [str_find].
  - destruct (starts_with marker []); [intros [= <-]; auto|discriminate].
  - destruct (starts_with marker (c :: s)) eqn:E; [intros [= <-]; auto|].
    destruct (str_find marker s) as [k'|] eqn:Ef; cbn [option_map]; [|discriminate].
    intros [= <-]. cbn [skipn]. rewrite ReFacts.findall_cons.
    unfold tag_pattern at 1. rewrite E. auto.
Qed.

Lemma findall_no_marker s :
  str_find marker s = None -> Re.findall (tag_pattern tag) s = [].
Proof.
  intros Hf. apply ReFacts.findall_no_match. intros a b Hs.
  unfold tag_pattern. rewrite (str_find_none _ Hf a b Hs). auto.
Qed.

Lemma iter_needs_bracket fuel : forall idx s,
  ~ In "]"%char s -> iter_from fuel marker idx s = [].
Proof.
  induction fuel as [|fuel IH]; intros idx s Hn; cbn [iter_from]; auto.
  destruct s as [|c s]; auto.
  destruct (str_find marker (c :: s)) as [k|]; auto.
  rewrite scan_close_needs_bracket.
  - apply IH. intros H. apply Hn.
    rewrite <- (firstn_skipn (S k) (c :: s)). apply in_or_app. auto.
  - intros H. apply Hn.
    rewrite <- (firstn_skipn (k + length marker) (c :: s)). apply in_or_app. auto.
Qed.

(** Where no captured content holds an opening bracket, the two scans find
    the same matches. *)
Lemma linear_matches_regex fuel : forall idx s,
  length s <= fuel ->
  Forall (fun c => ~ In "["%char c) (Re.findall (tag_pattern tag) s) ->
  map content (iter_from fuel marker idx s) = Re.findall (tag_pattern tag) s.
Proof.
  induction fuel as [|fuel IH]; intros idx s Hl Hflat.
  - destruct s; simpl in *; [reflexivity|lia].
  - cbn [iter_from]. destruct s as [|c s]; [reflexivity|].
    destruct (str_find marker (c :: s)) as [k|] eqn:Ef.
    2:{ rewrite findall_no_marker; auto. }
    pose proof (str_find_some _ _ Ef) as [Hk _].
    pose proof (str_find_le _ _ Ef) as Hkl.
    rewrite (findall_skip_to _ Ef) in Hflat |- *.
    pose proof (starts_with_split _ _ Hk) as Hs1.
    rewrite skipn_skipn in Hs1. rewrite (Nat.add_comm (length marker) k) in Hs1.
    set (body := skipn (k + length marker) (c :: s)) in *.
    assert (Hbl : length body <= fuel).
    { pose proof (f_equal (@length _) Hs1) as Hlen.
      rewrite length_app, marker_length in Hlen.
      pose proof (skipn_length_le k (c :: s)). simpl in *. lia. }
    assert (Htail : skipn (S k) (c :: s) = tl marker ++ body).
    { change (S k) with (1 + k). rewrite <- skipn_skipn, Hs1. reflexivity. }
    assert (Hpat : tag_pattern tag (skipn k (c :: s)) =
                   match index_of "]"%char body with
                   | Some j => Some (firstn j body, length marker + j + 1)
                   | None => None
                   end).
    { unfold tag_pattern. rewrite Hk, skipn_skipn.
      rewrite (Nat.add_comm (length marker) k). reflexivity. }
    assert (Hcons : skipn k (c :: s) = "/"%char :: tl marker ++ body).
    { rewrite Hs1. reflexivity. }
    rewrite Hcons, ReFacts.findall_cons, <- Hcons, Hpat in Hflat |- *.
    destruct (index_of "]"%char body) as [j|] eqn:Ej.
    + rewrite (Nat.add_1_r (length marker + j)) in Hflat |- *.
      assert (Hrest : skipn (length marker + j) (tl marker ++ body) = skipn (S j) body).
      { rewrite marker_length. unfold marker_of.
        change (tl (T "/" ++ tag ++ T "[")) with (tag ++ T "[").
        replace (S (length tag + 1) + j) with (S j + length (tag ++ T "["))
          by (rewrite length_app; simpl; lia).
        rewrite <- skipn_skipn, skipn_app, skipn_all, Nat.sub_diag.
        reflexivity. }
      rewrite Hrest in Hflat |- *.
      inversion Hflat as [|? ? Hc Hflat']; subst.
      rewrite (scan_close_flat _ Ej Hc). cbn [map content]. f_equal.
      apply IH; auto. pose proof (skipn_length_le (S j) body). lia.
    + apply index_of_none in Ej.
      rewrite scan_close_needs_bracket by auto.
      rewrite iter_needs_bracket, findall_needs_bracket; auto.
      * intros H. apply in_app_or in H as [H|H]; auto.
        apply marker_no_close. right. exact H.
      * rewrite Htail. intros H. apply in_app_or in H as [H|H]; auto.
        apply marker_no_close. right. exact H.
Qed.

End LinearVsRegex.

(** C7, as stated, fails: a tag nested in the balanced content of another is
    one match for the linear parser and two for the regex parser, although
    every tag of the input is closed. *)
Lemma regex_keys_not_subset_linear :
  no_unclosed_tags (T "/thought[a [x] /thought[b] ]") thought_tag = true /\
  exists dr dl,
    parse_thought_tags (T "/thought[a [x] /thought[b] ]") thought_tag = Ok dr /\
    parse_thought_tags_linear (T "/thought[a [x] /thought[b] ]") thought_tag = Ok dl /\
    In (T "thought_1") (dict_keys dr) /\
    ~ In (T "thought_1") (dict_keys dl) /\
    ~ incl (dict_keys dr) (dict_keys dl).
Proof.
  split; [reflexivity|].
  eexists. eexists. split; [reflexivity|]. split; [reflexivity|].
  assert (Hin : In (T "thought_1")
                  (dict_keys [(T "thought_0", T "a [x"); (T "thought_1", T "b")])).
  { right. left. reflexivity. }
  assert (Hout : ~ In (T "thought_1")
                   (dict_keys [(T "thought_0", T "a [x] /thought[b]")])).
  { intros [H|[]]. discriminate H. }
  split; [exact Hin|]. split; [exact Hout|].
  intros Hincl. apply Hout. apply Hincl. exact Hin.
Qed.

(** ** Whitespace clean-up: what the cleaners delete *)

Lemma is_nl_eq c : is_nl c = true <-> c = NL.
Proof. unfold is_nl. apply Ascii.eqb_eq. Qed.

Lemma is_blank_space c : is_blank c = true -> is_space c = true.
Proof.
  unfold is_blank. rewrite orb_true_iff, !Ascii.eqb_eq. intros [->| ->]; reflexivity.
Qed.

Lemma is_blank_not_nl c : is_blank c = true -> is_nl c = false.
Proof.
  unfold is_blank. rewrite orb_true_iff, !Ascii.eqb_eq. intros [->| ->]; reflexivity.
Qed.

Lemma is_nl_space c : is_nl c = true -> is_space c = true.
Proof. rewrite is_nl_eq. intros ->. reflexivity. Qed.

Lemma is_space_not_bracket c :
  is_space c = true -> Ascii.eqb c "[" = false /\ Ascii.eqb c "]" = false.
Proof.
  intros H. split.
  - destruct (Ascii.eqb_spec c "["); auto. subst. discriminate H.
  - destruct (Ascii.eqb_spec c "]"); auto. subst. discriminate H.
Qed.

Lemma ws_del_refl s : forall b, ws_del b s s.
Proof. induction s; intros b; constructor; auto. Qed.

Lemma ws_del_true b s s' : ws_del b s s' -> ws_del true s s'.
Proof.
  induction 1; [constructor|constructor; auto|].
  apply wd_drop; auto.
Qed.

Lemma ws_del_In b s s' c : ws_del b s s' -> In c s' -> In c s.
Proof.
  induction 1; simpl; auto.
  intros [->|H1]; auto.
Qed.

Lemma ws_del_drop_prefix bl : forall b s s',
  Forall (fun c => is_space c = true) bl ->
  b = true \/ head_space s' = true ->
  ws_del b s s' -> ws_del b (bl ++ s) s'.
Proof.
  induction bl as [|c bl IH]; intros b s s' Hbl Hj Hd; simpl; auto.
  inversion Hbl; subst. apply wd_drop; auto.
Qed.

Lemma ws_del_drop_suffix core : forall b trail,
  Forall (fun c => is_space c = true) trail ->
  ws_del b (core ++ trail) core.
Proof.
  induction core as [|c core IH]; intros b trail Ht; simpl.
  - induction Ht; [constructor|]. apply wd_drop; auto.
  - constructor. auto.
Qed.

(** A word that starts right after a kept non-space character is kept whole. *)
Lemma ws_del_word w : forall s r',
  Forall (fun c => is_space c = false) w ->
  ws_del false s (w ++ r') ->
  exists r, s = w ++ r /\ ws_del false r r'.
Proof.
  induction w as [|c w IH]; intros s r' Hw Hd; simpl in *.
  - exists s. auto.
  - inversion Hw as [|? ? Hc Hw']; subst.
    inversion Hd as [| b0 c0 s0 s0' Hd' | b0 c0 s0 s0' Hc0 Hd' Hj]; subst.
    + rewrite Hc in Hd'. destruct (IH _ _ Hw' Hd') as [r [-> Hr]].
      exists r. auto.
    + simpl in Hj. rewrite Hc in Hj. destruct Hj; discriminate.
Qed.

(** An occurrence of a word in the output is an occurrence in the input. *)
Lemma ws_del_occurrence b s s' : ws_del b s s' ->
  forall w a' r', w <> [] ->
  Forall (fun c => is_space c = false) w ->
  s' = a' ++ w ++ r' ->
  exists a r, s = a ++ w ++ r /\ ws_del false r r'.
Proof.
  induction 1 as [b | b c s s' Hd IH | b c s s' Hc Hd IH Hj]; intros w a' r' Hne Hw Hs.
  - destruct a'; destruct w; simpl in Hs; try discriminate. congruence.
  - destruct a' as [|a0 a'].
    + destruct w as [|c' w]; [congruence|]. simpl in Hs. injection Hs as <- ->.
      inversion Hw as [|? ? Hc' Hw']; subst. rewrite Hc' in Hd.
      destruct (ws_del_word _ Hw' Hd) as [r [-> Hr]].
      exists [], r. auto.
    + simpl in Hs. injection Hs as <- ->.
      destruct (IH w a' r' Hne Hw eq_refl) as [a [r [-> Hr]]].
      exists (c :: a), r. auto.
  - destruct (IH w a' r' Hne Hw Hs) as [a [r [-> Hr]]].
    exists (c :: a), r. auto.
Qed.

Lemma ws_del_scan_close b s s' : ws_del b s s' ->
  forall d, scan_close d s' <> None -> scan_close d s <> None.
Proof.
  induction 1 as [b | b c s s' Hd IH | b c s s' Hc Hd IH Hj]; intros d; auto.
  - cbn [scan_close].
    destruct (Ascii.eqb c "["); [|destruct (Ascii.eqb c "]"); [destruct (d - 1 =? 0)%Z|]];
      try (intros _; discriminate);
      match goal with
      | |- option_map S (scan_close ?d' _) <> None -> _ =>
          specialize (IH d');
          destruct (scan_close d' s'); destruct (scan_close d' s); simpl; try congruence;
          intros _; exfalso; apply IH; congruence
      end.
  - intros Hn. cbn [scan_close].
    destruct (is_space_not_bracket _ Hc) as [-> ->].
    specialize (IH d Hn). destruct (scan_close d s); simpl; congruence.
Qed.

(** *** What each pattern matches *)

Lemma sub_match m repl c s n l rest :
  m (c :: s) = Some n -> c :: s = l ++ rest -> n = length l -> l <> [] ->
  Re.sub m repl (c :: s) = repl ++ Re.sub m repl rest.
Proof.
  intros Hm Hs Hn Hl. rewrite ReFacts.sub_cons, Hm.
  destruct l as [|c' l]; [congruence|]. simpl in Hn. subst n.
  simpl in Hs. injection Hs as <- ->.
  rewrite skipn_app, skipn_all, Nat.sub_diag. reflexivity.
Qed.

Lemma sub_no_match_here m repl c s :
  m (c :: s) = None -> Re.sub m repl (c :: s) = c :: Re.sub m repl s.
Proof. intros Hm. rewrite ReFacts.sub_cons, Hm. reflexivity. Qed.

Lemma take_while_nil p s : take_while p s = [] -> drop_while p s = s.
Proof. destruct s as [|c s]; simpl; auto. destruct (p c); [discriminate|auto]. Qed.

Lemma blank_nl_cases s :
  blank_nl_pattern s = None \/
  exists bl rest,
    s = (bl ++ [NL]) ++ rest /\ blank_nl_pattern s = Some (length (bl ++ [NL])) /\
    bl <> [] /\ Forall (fun c => is_blank c = true) bl.
Proof.
  unfold blank_nl_pattern.
  pose proof (take_drop_while is_blank s) as Hs.
  pose proof (take_while_all is_blank s) as Hb.
  destruct (take_while is_blank s) as [|b bl]; auto.
  destruct (drop_while is_blank s) as [|c rest]; auto.
  destruct (is_nl c) eqn:E; auto.
  apply is_nl_eq in E. subst c. right. exists (b :: bl), rest.
  rewrite <- app_assoc. simpl in *. rewrite length_app. simpl.
  repeat split; auto. discriminate.
Qed.

Lemma blank_nl_extend b s :
  is_blank b = true ->
  (blank_nl_pattern s <> None \/ exists r, s = NL :: r) ->
  blank_nl_pattern (b :: s) <> None.
Proof.
  intros Hb H. unfold blank_nl_pattern in *. simpl. rewrite Hb.
  destruct H as [H|[r ->]].
  - destruct (take_while is_blank s) as [|x bl] eqn:Et; [congruence|].
    destruct (drop_while is_blank s) as [|c rest]; [congruence|].
    destruct (is_nl c); congruence.
  - simpl. discriminate.
Qed.

Lemma blank_nl_head c s :
  is_blank c = false -> blank_nl_pattern (c :: s) = None.
Proof. intros H. unfold blank_nl_pattern. simpl. rewrite H. reflexivity. Qed.

Lemma nl_blank_cases s :
  nl_blank_pattern s = None \/
  exists bl rest,
    s = (NL :: bl) ++ rest /\ nl_blank_pattern s = Some (length (NL :: bl)) /\
    bl <> [] /\ Forall (fun c => is_blank c = true) bl /\
    (forall c r, rest = c :: r -> is_blank c = false).
Proof.
  unfold nl_blank_pattern. destruct s as [|c s]; auto.
  destruct (is_nl c) eqn:E; auto. apply is_nl_eq in E. subst c.
  pose proof (take_drop_while is_blank s) as Hs.
  pose proof (take_while_all is_blank s) as Hb.
  destruct (take_while is_blank s) as [|b bl] eqn:Et; auto.
  right. exists (b :: bl), (drop_while is_blank s). simpl in *.
  repeat split; auto; try congruence.
  intros c r Hr. eapply drop_while_head; eauto.
Qed.

Lemma nl3_cases s :
  nl3_pattern s = None \/
  exists nls rest,
    s = (NL :: NL :: NL :: nls) ++ rest /\
    nl3_pattern s = Some (length (NL :: NL :: NL :: nls)) /\
    Forall (fun c => is_nl c = true) nls /\
    (forall c r, rest = c :: r -> is_nl c = false).
Proof.
  unfold nl3_pattern.
  pose proof (take_drop_while is_nl s) as Hs.
  pose proof (take_while_all is_nl s) as Hb.
  pose proof (@drop_while_head is_nl s) as Hd.
  destruct (take_while is_nl s) as [|a [|b [|c nls]]]; auto.
  right. exists nls, (drop_while is_nl s).
  inversion Hb as [|? ? Ha Hb1]; subst. inversion Hb1 as [|? ? Hb' Hb2]; subst.
  inversion Hb2 as [|? ? Hc' Hb3]; subst.
  apply is_nl_eq in Ha, Hb', Hc'. subst.
  repeat split; auto.
Qed.

(** *** The three whitespace rewrites and [strip] only delete whitespace *)

Lemma blanks_are_spaces bl :
  Forall (fun c => is_blank c = true) bl -> Forall (fun c => is_space c = true) bl.
Proof. apply Forall_impl. apply is_blank_space. Qed.

Lemma nls_are_spaces bl :
  Forall (fun c => is_nl c = true) bl -> Forall (fun c => is_space c = true) bl.
Proof. apply Forall_impl. apply is_nl_space. Qed.

Lemma sub_blank_nl_ws_del s : forall b, ws_del b s (Re.sub blank_nl_pattern [NL] s).
Proof.
  len_ind s IH. intros b.
  destruct s as [|c s]; [constructor|].
  destruct (blank_nl_cases (c :: s)) as [Hn|[bl [rest [Hs [Hm [Hne Hb]]]]]].
  - rewrite sub_no_match_here by auto. constructor. apply IH. simpl; lia.
  - rewrite (@sub_match _ [NL] _ _ _ _ _ Hm Hs eq_refl) by (destruct bl; discriminate).
    rewrite Hs, <- app_assoc. apply ws_del_drop_prefix.
    + apply blanks_are_spaces; auto.
    + right. reflexivity.
    + simpl. constructor. apply IH.
      rewrite Hs, !length_app. simpl. lia.
Qed.

Lemma sub_nl_blank_ws_del s : forall b, ws_del b s (Re.sub nl_blank_pattern [NL] s).
Proof.
  len_ind s IH. intros b.
  destruct s as [|c s]; [constructor|].
  destruct (nl_blank_cases (c :: s)) as [Hn|[bl [rest [Hs [Hm [Hne [Hb Hr]]]]]]].
  - rewrite sub_no_match_here by auto. constructor. apply IH. simpl; lia.
  - rewrite (@sub_match _ [NL] _ _ _ _ _ Hm Hs eq_refl) by discriminate.
    rewrite Hs. simpl. constructor. change (is_space NL) with true.
    apply ws_del_drop_prefix; auto.
    + apply blanks_are_spaces; auto.
    + apply IH. rewrite Hs. simpl. rewrite length_app. lia.
Qed.

Lemma sub_nl3_ws_del s : forall b, ws_del b s (Re.sub nl3_pattern [NL; NL] s).
Proof.
  len_ind s IH. intros b.
  destruct s as [|c s]; [constructor|].
  destruct (nl3_cases (c :: s)) as [Hn|[nls [rest [Hs [Hm [Hb Hr]]]]]].
  - rewrite sub_no_match_here by auto. constructor. apply IH. simpl; lia.
  - rewrite (@sub_match _ [NL; NL] _ _ _ _ _ Hm Hs eq_refl) by discriminate.
    rewrite Hs. simpl. constructor. constructor. change (is_space NL) with true.
    apply (@ws_del_drop_prefix (NL :: nls)); auto.
    + constructor; [reflexivity|]. apply nls_are_spaces; auto.
    + apply IH. rewrite Hs. simpl. rewrite length_app. lia.
Qed.


(** *** [strip] *)

Lemma drop_while_fix p s :
  (forall c r, s = c :: r -> p c = false) -> drop_while p s = s.
Proof.
  destruct s as [|c s]; simpl; auto. intros H. rewrite (H c s eq_refl). auto.
Qed.

Lemma strip_split s :
  exists lead trail,
    s = lead ++ strip s ++ trail /\
    Forall (fun c => is_space c = true) lead /\
    Forall (fun c => is_space c = true) trail.
Proof.
  unfold strip.
  exists (take_while is_space s),
         (rev (take_while is_space (rev (drop_while is_space s)))).
  split; [|split].
  - rewrite <- rev_app_distr, take_drop_while, rev_involutive, take_drop_while.
    reflexivity.
  - apply take_while_all.
  - apply Forall_rev. apply take_while_all.
Qed.

Lemma strip_ends s :
  (forall c r, strip s = c :: r -> is_space c = false) /\
  (forall c r, rev (strip s) = c :: r -> is_space c = false).
Proof.
  unfold strip. rewrite rev_involutive. split.
  - intros c r Hs.
    pose proof (take_drop_while is_space (rev (drop_while is_space s))) as Hsplit.
    apply (f_equal (@rev _)) in Hsplit.
    rewrite rev_app_distr, rev_involutive, Hs in Hsplit. simpl in Hsplit.
    eapply drop_while_head. symmetry. exact Hsplit.
  - intros c r. apply drop_while_head.
Qed.

Lemma strip_fix s :
  (forall c r, s = c :: r -> is_space c = false) ->
  (forall c r, rev s = c :: r -> is_space c = false) ->
  strip s = s.
Proof.
  intros H1 H2. unfold strip.
  rewrite (drop_while_fix _ H1), (drop_while_fix _ H2). apply rev_involutive.
Qed.

Lemma strip_idem s : strip (strip s) = strip s.
Proof. destruct (strip_ends s). apply strip_fix; auto. Qed.

(** *** The whitespace of pydantic *)

Lemma white_space_is_space c : is_white_space c = true -> is_space c = true.
Proof.
  destruct c as [[] [] [] [] [] [] [] []]; vm_compute; intros H;
    first [reflexivity | discriminate H].
Qed.

Lemma not_space_not_white c : is_space c = false -> is_white_space c = false.
Proof.
  intros H. destruct (is_white_space c) eqn:E; [|reflexivity].
  apply white_space_is_space in E. congruence.
Qed.

Lemma strip_whitespace_ends s :
  (forall c r, strip_whitespace s = c :: r -> is_white_space c = false) /\
  (forall c r, rev (strip_whitespace s) = c :: r -> is_white_space c = false).
Proof.
  unfold strip_whitespace. rewrite rev_involutive. split.
  - intros c r Hs.
    pose proof (take_drop_while is_white_space (rev (drop_while is_white_space s)))
      as Hsplit.
    apply (f_equal (@rev _)) in Hsplit.
    rewrite rev_app_distr, rev_involutive, Hs in Hsplit. simpl in Hsplit.
    eapply drop_while_head. symmetry. exact Hsplit.
  - intros c r. apply drop_while_head.
Qed.

Lemma strip_whitespace_fix s :
  (forall c r, s = c :: r -> is_white_space c = false) ->
  (forall c r, rev s = c :: r -> is_white_space c = false) ->
  strip_whitespace s = s.
Proof.
  intros H1 H2. unfold strip_whitespace.
  rewrite (drop_while_fix _ H1), (drop_while_fix _ H2). apply rev_involutive.
Qed.

Lemma strip_whitespace_idem s : strip_whitespace (strip_whitespace s) = strip_whitespace s.
Proof. destruct (strip_whitespace_ends s). apply strip_whitespace_fix; auto. Qed.

(** What [str.strip] leaves is not touched by pydantic. *)
Lemma strip_whitespace_strip s : strip_whitespace (strip s) = strip s.
Proof.
  destruct (strip_ends s) as [H1 H2].
  apply strip_whitespace_fix; intros c r E; apply not_space_not_white; eauto.
Qed.

Lemma drop_while_In p s c : In c (drop_while p s) -> In c s.
Proof.
  induction s as [|a s IH]; simpl; auto.
  destruct (p a); auto.
Qed.

Lemma drop_while_keeps_In p s c : In c s -> p c = false -> In c (drop_while p s).
Proof.
  induction s as [|a s IH]; intros Hin Hp; [destruct Hin|]. simpl.
  destruct (p a) eqn:E; [|exact Hin].
  destruct Hin as [->|Hin]; [congruence|auto].
Qed.

(** A text that [str.strip] does not empty is not emptied by pydantic. *)
Lemma strip_whitespace_nonempty s : strip s <> [] -> strip_whitespace s <> [].
Proof.
  intros Hs. destruct (strip s) as [|c r] eqn:E; [congruence|].
  assert (Hc : is_space c = false) by (eapply (proj1 (strip_ends s)); exact E).
  assert (Hin : In c s).
  { assert (H : In c (strip s)) by (rewrite E; left; reflexivity).
    unfold strip in H. apply in_rev in H. apply drop_while_In in H.
    apply in_rev in H. apply drop_while_In in H. exact H. }
  apply not_space_not_white in Hc.
  assert (H : In c (strip_whitespace s)).
  { unfold strip_whitespace. apply in_rev. rewrite rev_involutive.
    apply drop_while_keeps_In; auto.
    apply in_rev. rewrite rev_involutive. apply drop_while_keeps_In; auto. }
  intros E'. rewrite E' in H. destruct H.
Qed.

Lemma strip_ws_del s : ws_del true s (strip s).
Proof.
  destruct (strip_split s) as [lead [trail [Hs [Hl Ht]]]].
  rewrite Hs at 1. apply ws_del_drop_prefix; auto.
  apply ws_del_drop_suffix; auto.
Qed.

(** *** Forbidden neighbours *)

Lemma np_no_pair bad p s : np bad p s -> no_pair bad s.
Proof. destruct s; simpl; tauto. Qed.

Lemma np_app bad a : forall p b, np bad p (a ++ b) -> no_pair bad b.
Proof.
  induction a as [|c a IH]; intros p b; simpl.
  - apply np_no_pair.
  - intros [_ H]. eauto.
Qed.

Lemma no_pair_app_r bad a b : no_pair bad (a ++ b) -> no_pair bad b.
Proof. destruct a; simpl; auto. apply np_app. Qed.

Lemma np_app_l bad a : forall p b, np bad p (a ++ b) -> np bad p a.
Proof.
  induction a as [|c a IH]; intros p b; simpl; auto.
  intros [H1 H2]. eauto.
Qed.

Lemma no_pair_app_l bad a b : no_pair bad (a ++ b) -> no_pair bad a.
Proof. destruct a; simpl; auto. apply np_app_l. Qed.

Lemma np_of_no_pair bad p s :
  (forall c, bad p c = false) -> no_pair bad s -> np bad p s.
Proof. destruct s; simpl; auto. Qed.

Lemma np_after_nls bad nls : forall p rest,
  Forall (fun c => is_nl c = true) nls ->
  np bad p (nls ++ rest) -> p = NL \/ nls <> [] -> np bad NL rest.
Proof.
  induction nls as [|c nls IH]; intros p rest Hn Hp Hor; simpl in *.
  - destruct Hor as [->|]; [auto|congruence].
  - inversion Hn as [|? ? Hc Hn']; subst. apply is_nl_eq in Hc. subst c.
    destruct Hp as [_ Hp]. apply (IH NL); auto.
Qed.

Lemma runs_ok_le k s : runs_ok k s -> forall k', k' <= k -> runs_ok k' s.
Proof.
  revert k; induction s as [|c s IH]; intros k H k' Hle; simpl in *; auto.
  destruct (is_nl c); auto. destruct H. split; [lia|]. apply (IH (S k)); auto. lia.
Qed.

Lemma runs_ok_app_r a : forall k b, runs_ok k (a ++ b) -> runs_ok 0 b.
Proof.
  induction a as [|c a IH]; intros k b H; simpl in *.
  - apply (runs_ok_le _ H). lia.
  - destruct (is_nl c); [destruct H|]; eauto.
Qed.

Lemma runs_ok_app_l a : forall k b, runs_ok k (a ++ b) -> runs_ok k a.
Proof.
  induction a as [|c a IH]; intros k b H; simpl in *; auto.
  destruct (is_nl c); [destruct H; split|]; eauto.
Qed.

(** *** A tidy text is left alone by the whitespace rewrites *)

Lemma no_bad_bn_no_match y :
  no_pair bad_bn y -> forall a b, y = a ++ b -> blank_nl_pattern b = None.
Proof.
  intros Hy a b ->. apply no_pair_app_r in Hy.
  destruct (blank_nl_cases b) as [Hn|[bl [rest [Hs [_ [Hne Hb]]]]]]; auto.
  exfalso. subst b. rewrite <- app_assoc in Hy. simpl in Hy.
  clear a. induction bl as [|x bl IH]; [congruence|].
  inversion Hb as [|? ? Hx Hb']; subst.
  destruct bl as [|z bl].
  - simpl in Hy. destruct Hy as [Hy _]. unfold bad_bn in Hy.
    rewrite Hx in Hy. discriminate.
  - apply IH; auto; try discriminate. simpl in Hy |- *. tauto.
Qed.

Lemma no_bad_nb_no_match y :
  no_pair bad_nb y -> forall a b, y = a ++ b -> nl_blank_pattern b = None.
Proof.
  intros Hy a b ->. apply no_pair_app_r in Hy.
  destruct (nl_blank_cases b) as [Hn|[bl [rest [Hs [_ [Hne [Hb _]]]]]]]; auto.
  exfalso. subst b. destruct bl as [|x bl]; [congruence|].
  inversion Hb as [|? ? Hx Hb']; subst.
  simpl in Hy. destruct Hy as [Hy _]. unfold bad_nb in Hy.
  rewrite Hx in Hy. discriminate.
Qed.

Lemma runs_ok_no_match y :
  runs_ok 0 y -> forall a b, y = a ++ b -> nl3_pattern b = None.
Proof.
  intros Hy a b ->. apply runs_ok_app_r in Hy.
  destruct (nl3_cases b) as [Hn|[nls [rest [Hs [_ _]]]]]; auto.
  exfalso. subst b. simpl in Hy. lia.
Qed.

Lemma tidy_collapse_ws y : tidy y -> collapse_ws y = y.
Proof.
  intros [H1 [H2 [H3 _]]]. unfold collapse_ws.
  rewrite (ReFacts.sub_no_match _ _ (no_bad_bn_no_match H1)).
  rewrite (ReFacts.sub_no_match _ _ (no_bad_nb_no_match H2)).
  apply ReFacts.sub_no_match. apply runs_ok_no_match; auto.
Qed.

(** *** The whitespace rewrites produce a tidy text *)

Lemma nl_blank_head c s : is_nl c = false -> nl_blank_pattern (c :: s) = None.
Proof. intros H. simpl. rewrite H. reflexivity. Qed.

Lemma sub_blank_nl_np s : forall p,
  blank_nl_pattern (p :: s) = None ->
  np bad_bn p (Re.sub blank_nl_pattern [NL] s).
Proof.
  len_ind s IH. intros p Hp.
  destruct s as [|c s]; [exact I|].
  destruct (blank_nl_cases (c :: s)) as [Hn|[bl [rest [Hs [Hm [Hne Hb]]]]]].
  - rewrite sub_no_match_here by auto. split; [|apply IH; auto].
    unfold bad_bn. destruct (is_blank p) eqn:Ep; auto. simpl.
    destruct (is_nl c) eqn:Ec; auto. apply is_nl_eq in Ec. subst c.
    exfalso. apply (@blank_nl_extend p (NL :: s) Ep); eauto.
  - rewrite (@sub_match _ [NL] _ _ _ _ _ Hm Hs eq_refl) by (destruct bl; discriminate).
    simpl. split.
    + unfold bad_bn. destruct (is_blank p) eqn:Ep; auto.
      exfalso. apply (@blank_nl_extend p (c :: s) Ep); auto. left. congruence.
    + apply IH; [|apply blank_nl_head; reflexivity].
      rewrite Hs, !length_app. simpl. lia.
Qed.

Lemma sub_blank_nl_no_pair s : no_pair bad_bn (Re.sub blank_nl_pattern [NL] s).
Proof.
  destruct s as [|c s]; [exact I|].
  destruct (blank_nl_cases (c :: s)) as [Hn|[bl [rest [Hs [Hm [Hne Hb]]]]]].
  - rewrite sub_no_match_here by auto. simpl. apply sub_blank_nl_np; auto.
  - rewrite (@sub_match _ [NL] _ _ _ _ _ Hm Hs eq_refl) by (destruct bl; discriminate).
    simpl. apply sub_blank_nl_np. apply blank_nl_head. reflexivity.
Qed.

Lemma bad_bn_after_nl c : bad_bn NL c = false.
Proof. reflexivity. Qed.

Lemma bad_nb_before_nl c : bad_nb c NL = false.
Proof. unfold bad_nb. apply andb_false_r. Qed.

Lemma sub_nl_blank_keeps_bn s : forall p,
  np bad_bn p s -> np bad_bn p (Re.sub nl_blank_pattern [NL] s).
Proof.
  len_ind s IH. intros p Hp.
  destruct s as [|c s]; [exact I|].
  destruct (nl_blank_cases (c :: s)) as [Hn|[bl [rest [Hs [Hm [Hne [Hb Hr]]]]]]].
  - rewrite sub_no_match_here by auto. destruct Hp as [H1 H2].
    split; auto; apply IH; simpl; auto.
  - rewrite (@sub_match _ [NL] _ _ _ _ _ Hm Hs eq_refl) by discriminate.
    rewrite Hs in Hp. simpl in Hp |- *. destruct Hp as [H1 H2]. split; auto.
    apply IH.
    + rewrite Hs. simpl. rewrite length_app. lia.
    + apply np_of_no_pair; [apply bad_bn_after_nl|]. eapply np_app; eauto.
Qed.

Lemma nl_blank_extend p c s :
  is_nl p = true -> is_blank c = true -> nl_blank_pattern (p :: c :: s) <> None.
Proof. intros Hp Hc. simpl. rewrite Hp, Hc. discriminate. Qed.

Lemma sub_nl_blank_np s : forall p,
  nl_blank_pattern (p :: s) = None ->
  np bad_nb p (Re.sub nl_blank_pattern [NL] s).
Proof.
  len_ind s IH. intros p Hp.
  destruct s as [|c s]; [exact I|].
  destruct (nl_blank_cases (c :: s)) as [Hn|[bl [rest [Hs [Hm [Hne [Hb Hr]]]]]]].
  - rewrite sub_no_match_here by auto. split; [|apply IH; auto].
    unfold bad_nb. destruct (is_nl p) eqn:Ep; auto. simpl.
    destruct (is_blank c) eqn:Ec; auto.
    exfalso. apply (@nl_blank_extend p c s); auto.
  - rewrite (@sub_match _ [NL] _ _ _ _ _ Hm Hs eq_refl) by discriminate.
    simpl. split; [apply bad_nb_before_nl|].
    apply IH; [rewrite Hs; simpl; rewrite length_app; lia|].
    simpl. destruct rest as [|x rest]; auto.
    simpl. rewrite (Hr x rest eq_refl). reflexivity.
Qed.

Lemma sub_nl_blank_no_pair s : no_pair bad_nb (Re.sub nl_blank_pattern [NL] s).
Proof.
  destruct s as [|c s]; [exact I|].
  destruct (nl_blank_cases (c :: s)) as [Hn|[bl [rest [Hs [Hm [Hne [Hb Hr]]]]]]].
  - rewrite sub_no_match_here by auto. simpl. apply sub_nl_blank_np; auto.
  - rewrite (@sub_match _ [NL] _ _ _ _ _ Hm Hs eq_refl) by discriminate.
    simpl. apply sub_nl_blank_np.
    simpl. destruct rest as [|x rest]; auto.
    simpl. rewrite (Hr x rest eq_refl). reflexivity.
Qed.

Lemma sub_nl3_keeps bad s : bad NL NL = false -> forall p,
  np bad p s -> np bad p (Re.sub nl3_pattern [NL; NL] s).
Proof.
  intros Hbad. len_ind s IH. intros p Hp.
  destruct s as [|c s]; [exact I|].
  destruct (nl3_cases (c :: s)) as [Hn|[nls [rest [Hs [Hm [Hb Hr]]]]]].
  - rewrite sub_no_match_here by auto. destruct Hp as [H1 H2].
    split; auto; apply IH; simpl; auto.
  - rewrite (@sub_match _ [NL; NL] _ _ _ _ _ Hm Hs eq_refl) by discriminate.
    rewrite Hs in Hp. simpl in Hp |- *. destruct Hp as [H1 [_ [_ H2]]].
    repeat split; auto.
    apply IH; [rewrite Hs; simpl; rewrite length_app; lia|].
    apply (@np_after_nls bad nls NL); auto.
Qed.

Lemma sub_nl_blank_keeps_bn' s :
  no_pair bad_bn s -> no_pair bad_bn (Re.sub nl_blank_pattern [NL] s).
Proof.
  destruct s as [|c s]; [auto|]. intros H.
  destruct (nl_blank_cases (c :: s)) as [Hn|[bl [rest [Hs [Hm [Hne [Hb Hr]]]]]]].
  - rewrite sub_no_match_here by auto. simpl. apply sub_nl_blank_keeps_bn; auto.
  - rewrite (@sub_match _ [NL] _ _ _ _ _ Hm Hs eq_refl) by discriminate.
    simpl. apply sub_nl_blank_keeps_bn.
    apply np_of_no_pair; [apply bad_bn_after_nl|].
    rewrite Hs in H. apply (@no_pair_app_r bad_bn (NL :: bl)). exact H.
Qed.

Lemma sub_nl3_keeps' bad s : bad NL NL = false ->
  no_pair bad s -> no_pair bad (Re.sub nl3_pattern [NL; NL] s).
Proof.
  intros Hbad. destruct s as [|c s]; [auto|]. intros H.
  destruct (nl3_cases (c :: s)) as [Hn|[nls [rest [Hs [Hm [Hb Hr]]]]]].
  - rewrite sub_no_match_here by auto. simpl. apply sub_nl3_keeps; auto.
  - rewrite (@sub_match _ [NL; NL] _ _ _ _ _ Hm Hs eq_refl) by discriminate.
    simpl. split; auto. apply sub_nl3_keeps; auto.
    rewrite Hs in H. simpl in H. destruct H as [_ [_ H]].
    apply (@np_after_nls bad nls NL); auto.
Qed.

Lemma sub_nl3_runs s : forall k,
  k = 0 \/ k + length (take_while is_nl s) < 3 ->
  runs_ok k (Re.sub nl3_pattern [NL; NL] s).
Proof.
  len_ind s IH. intros k Hk.
  destruct s as [|c s]; [exact I|].
  destruct (nl3_cases (c :: s)) as [Hn|[nls [rest [Hs [Hm [Hb Hr]]]]]].
  - rewrite sub_no_match_here by auto.
    unfold nl3_pattern in Hn.
    destruct (3 <=? length (take_while is_nl (c :: s))) eqn:E3; [discriminate|].
    apply Nat.leb_gt in E3.
    cbn [runs_ok]. cbn [take_while] in Hk, E3.
    destruct (is_nl c) eqn:Ec.
    + cbn [length] in Hk, E3. split; [lia|]. apply IH; [simpl; lia|]. right. lia.
    + apply IH; [simpl; lia|]. left. reflexivity.
  - rewrite (@sub_match _ [NL; NL] _ _ _ _ _ Hm Hs eq_refl) by discriminate.
    assert (Hk0 : k = 0).
    { destruct Hk as [|Hk]; auto. rewrite Hs in Hk. simpl in Hk. lia. }
    subst k. simpl. repeat split; try lia.
    apply IH; [rewrite Hs; simpl; rewrite length_app; lia|]. right.
    destruct rest as [|x rest]; simpl; [lia|].
    rewrite (Hr x rest eq_refl). simpl. lia.
Qed.

Lemma strip_keeps_no_pair bad s : no_pair bad s -> no_pair bad (strip s).
Proof.
  destruct (strip_split s) as [lead [trail [Hs _]]]. intros H.
  rewrite Hs in H. apply no_pair_app_r in H. apply no_pair_app_l in H. exact H.
Qed.

Lemma strip_keeps_runs s : runs_ok 0 s -> runs_ok 0 (strip s).
Proof.
  destruct (strip_split s) as [lead [trail [Hs _]]]. intros H.
  rewrite Hs in H. apply runs_ok_app_r in H. apply runs_ok_app_l in H. exact H.
Qed.

Lemma tidy_strip_collapse s : tidy (strip (collapse_ws s)).
Proof.
  unfold tidy, collapse_ws. repeat split.
  - apply strip_keeps_no_pair. apply sub_nl3_keeps'; [reflexivity|].
    apply sub_nl_blank_keeps_bn'. apply sub_blank_nl_no_pair.
  - apply strip_keeps_no_pair. apply sub_nl3_keeps'; [reflexivity|].
    apply sub_nl_blank_no_pair.
  - apply strip_keeps_runs. apply sub_nl3_runs. left. reflexivity.
  - apply strip_idem.
Qed.

Lemma tidy_strip_nl3 s : runs_ok 0 (strip (Re.sub nl3_pattern [NL; NL] s)).
Proof. apply strip_keeps_runs. apply sub_nl3_runs. left. reflexivity. Qed.

(** ** Tags do not survive cleaning *)

Lemma sub_In m repl c s : In c (Re.sub m repl s) -> In c repl \/ In c s.
Proof.
  len_ind s IH. destruct s as [|x s]; [simpl; auto|].
  rewrite ReFacts.sub_cons.
  assert (Hrec : forall n, In c (Re.sub m repl (skipn n s)) -> In c repl \/ In c (x :: s)).
  { intros n H. apply IH in H.
    - destruct H; auto. right. right.
      rewrite <- (firstn_skipn n s). apply in_or_app. auto.
    - pose proof (skipn_length_le n s). simpl. lia. }
  destruct (m (x :: s)) as [[|n]|].
  - intros [->|H]; [simpl; auto|]. destruct (Hrec 0 H); auto.
  - intros H. apply in_app_or in H as [H|H]; eauto.
  - intros [->|H]; [simpl; auto|]. destruct (Hrec 0 H); auto.
Qed.

(** A prefix of the output without a newline was copied from the input. *)
Lemma sub_prefix_kept m w : forall s r,
  ~ In NL w -> Re.sub m [NL] s = w ++ r ->
  exists r0, s = w ++ r0 /\ Re.sub m [NL] r0 = r.
Proof.
  induction w as [|x w IH]; intros s r Hw Hs; simpl in *.
  - exists s. auto.
  - destruct s as [|c s]; [discriminate|].
    rewrite ReFacts.sub_cons in Hs.
    destruct (m (c :: s)) as [[|n]|]; simpl in Hs; injection Hs as Hc Hs.
    + subst c. destruct (IH s r) as [r0 [-> Hr]]; auto. exists r0; auto.
    + exfalso. apply Hw. auto.
    + subst c. destruct (IH s r) as [r0 [-> Hr]]; auto. exists r0; auto.
Qed.

Section TagsAndCleaning.

Variable tag : text.
Hypothesis tag_no_space : Forall (fun c => is_space c = false) tag.

Local Abbreviation marker := (marker_of tag).

Lemma marker_no_space : Forall (fun c => is_space c = false) marker.
Proof.
  unfold marker_of. simpl. constructor; [reflexivity|].
  apply Forall_app. split; auto.
Qed.

Lemma marker_not_nil : marker <> [].
Proof. discriminate. Qed.

Lemma marker_no_nl : ~ In NL marker.
Proof.
  intros H. pose proof marker_no_space as Hm.
  rewrite Forall_forall in Hm. apply Hm in H. discriminate.
Qed.

Lemma has_tag_app Q a s : has_tag Q marker s -> has_tag Q marker (a ++ s).
Proof.
  intros [a' [r [-> Hr]]]. exists (a ++ a'), r. rewrite <- app_assoc. auto.
Qed.

Lemma has_tag_cons Q c s :
  has_tag Q marker (c :: s) ->
  (exists r, c :: s = marker ++ r /\ Q r) \/ has_tag Q marker s.
Proof.
  intros [[|a0 a] [r [Hs Hr]]]; simpl in Hs.
  - left. exists r. auto.
  - injection Hs as -> ->. right. exists a, r. auto.
Qed.

Lemma tag_pattern_has_tag s : tag_pattern tag s <> None ->
  has_tag closes_later marker s.
Proof.
  unfold tag_pattern. destruct (starts_with marker s) eqn:E; [|congruence].
  destruct (index_of "]" (skipn (length marker) s)) as [j|] eqn:Ej; [|congruence].
  intros _. exists [], (skipn (length marker) s). split.
  - cbn [app]. apply starts_with_split; auto.
  - unfold closes_later. destruct (index_of_split _ _ Ej) as [H _].
    rewrite H. apply in_or_app. right. left. reflexivity.
Qed.

Lemma tag_ws_pattern_has_tag s : tag_ws_pattern tag s <> None ->
  has_tag closes_later marker s.
Proof.
  unfold tag_ws_pattern. intros H.
  rewrite <- (take_drop_while is_space s). apply has_tag_app.
  apply tag_pattern_has_tag. destruct (tag_pattern tag (drop_while is_space s)); congruence.
Qed.

Lemma tag_pattern_here r : closes_later r ->
  exists c n, tag_pattern tag (marker ++ r) = Some (c, S n).
Proof.
  intros Hr. unfold tag_pattern.
  rewrite starts_with_app, skipn_app, skipn_all, Nat.sub_diag. cbn [skipn app].
  destruct (index_of "]" r) as [j|] eqn:Ej.
  - rewrite Nat.add_1_r. eauto.
  - apply index_of_none in Ej. contradiction.
Qed.

Lemma tag_ws_pattern_here r : closes_later r ->
  exists n, tag_ws_pattern tag (marker ++ r) = Some (S n).
Proof.
  intros Hr. destruct (tag_pattern_here r Hr) as [c [n Hn]].
  unfold tag_ws_pattern.
  change (drop_while is_space (marker ++ r)) with (marker ++ r).
  change (take_while is_space (marker ++ r)) with (@nil ascii).
  rewrite Hn. cbn [length Nat.add]. eauto.
Qed.

Lemma tag_ws_pattern_pos s : tag_ws_pattern tag s <> Some 0.
Proof.
  unfold tag_ws_pattern, tag_pattern.
  destruct (starts_with marker (drop_while is_space s)); [|discriminate].
  destruct (index_of "]" _); [|discriminate].
  rewrite !Nat.add_1_r, Nat.add_succ_r. simpl. discriminate.
Qed.

(** The regex cleaner's first rewrite leaves no tag behind. *)
Lemma sub_tags_no_tag s :
  ~ has_tag closes_later marker (Re.sub (tag_ws_pattern tag) [NL] s).
Proof.
  len_ind s IH. destruct s as [|c s].
  - intros [a [r [H _]]]. destruct a; discriminate.
  - rewrite ReFacts.sub_cons.
    destruct (tag_ws_pattern tag (c :: s)) as [[|n]|] eqn:E.
    + exfalso. eapply tag_ws_pattern_pos; eauto.
    + intros H. apply has_tag_cons in H as [[r [H _]]|H].
      * discriminate H.
      * revert H. apply IH. pose proof (skipn_length_le n s). simpl. lia.
    + intros H. apply has_tag_cons in H as [[r [H Hr]]|H].
      * unfold marker_of in H. simpl in H. injection H as -> H.
        apply sub_prefix_kept in H as [r0 [-> Hr0]].
        2:{ intros Hin. apply marker_no_nl. right. exact Hin. }
        assert (Hc : closes_later r0).
        { subst r. unfold closes_later in *. apply sub_In in Hr as [[H|[]]|H]; auto.
          discriminate. }
        destruct (tag_ws_pattern_here r0 Hc) as [n Hn].
        assert (E' : tag_ws_pattern tag (marker ++ r0) = None) by exact E.
        congruence.
      * revert H. apply IH. simpl. lia.
Qed.

Lemma ws_del_has_tag Q b s s' :
  (forall r r', ws_del false r r' -> Q r' -> Q r) ->
  ws_del b s s' -> has_tag Q marker s' -> has_tag Q marker s.
Proof.
  intros HQ Hd [a' [r' [Hs Hr]]].
  destruct (@ws_del_occurrence b s s' Hd marker a' r' marker_not_nil marker_no_space Hs)
    as [a [r [-> Hd']]].
  exists a, r. eauto.
Qed.

Lemma closes_later_ws_del r r' : ws_del false r r' -> closes_later r' -> closes_later r.
Proof. unfold closes_later. intros. eapply ws_del_In; eauto. Qed.

Lemma closes_balanced_ws_del r r' :
  ws_del false r r' -> closes_balanced r' -> closes_balanced r.
Proof. unfold closes_balanced. intros. eapply ws_del_scan_close; eauto. Qed.

Lemma nl3_keeps_no_tag Q s :
  (forall r r', ws_del false r r' -> Q r' -> Q r) ->
  ~ has_tag Q marker s ->
  ~ has_tag Q marker (strip (Re.sub nl3_pattern [NL; NL] s)).
Proof.
  intros HQ Hn H. apply Hn.
  apply (ws_del_has_tag HQ (@sub_nl3_ws_del s true)).
  apply (ws_del_has_tag HQ (@strip_ws_del _)). exact H.
Qed.

Lemma collapse_keeps_no_tag Q s :
  (forall r r', ws_del false r r' -> Q r' -> Q r) ->
  ~ has_tag Q marker s ->
  ~ has_tag Q marker (strip (collapse_ws s)).
Proof.
  intros HQ Hn H. apply Hn. unfold collapse_ws in H.
  apply (ws_del_has_tag HQ (@sub_blank_nl_ws_del s true)).
  apply (ws_del_has_tag HQ (@sub_nl_blank_ws_del _ true)).
  apply (ws_del_has_tag HQ (@sub_nl3_ws_del _ true)).
  apply (ws_del_has_tag HQ (@strip_ws_del _)). exact H.
Qed.

(** Without a tag, neither the regex parser nor the regex cleaner's first
    rewrite finds a match. *)
Lemma no_tag_findall y :
  ~ has_tag closes_later marker y -> regex_matches y tag = [].
Proof.
  intros Hn. apply ReFacts.findall_no_match. intros a b ->.
  destruct (tag_pattern tag b) eqn:E; auto.
  exfalso. apply Hn. apply has_tag_app. apply tag_pattern_has_tag. congruence.
Qed.

Lemma no_tag_sub_tags y :
  ~ has_tag closes_later marker y -> Re.sub (tag_ws_pattern tag) [NL] y = y.
Proof.
  intros Hn. apply ReFacts.sub_no_match. intros a b ->.
  destruct (tag_ws_pattern tag b) eqn:E; auto.
  exfalso. apply Hn. apply has_tag_app. apply tag_ws_pattern_has_tag. congruence.
Qed.

(** The regex cleaner: cleaning twice is cleaning once, and the regex parser
    finds nothing in a cleaned text. *)
Lemma clean_regex_fixed x :
  let y := strip (collapse_ws (Re.sub (tag_ws_pattern tag) [NL] x)) in
  strip (collapse_ws (Re.sub (tag_ws_pattern tag) [NL] y)) = y /\
  regex_matches y tag = [].
Proof.
  intros y.
  assert (Hn : ~ has_tag closes_later marker y).
  { apply collapse_keeps_no_tag; [apply closes_later_ws_del|apply sub_tags_no_tag]. }
  assert (Ht : tidy y) by apply tidy_strip_collapse.
  split; [|apply no_tag_findall; auto].
  rewrite (no_tag_sub_tags Hn), (tidy_collapse_ws Ht). apply Ht.
Qed.

End TagsAndCleaning.

(** ** The linear scan *)

Lemma scan_close_lt d s j : scan_close d s = Some j -> j < length s.
Proof.
  revert d j; induction s as [|c s IH]; intros d j; simpl; [discriminate|].
  destruct (Ascii.eqb c "["); [|destruct (Ascii.eqb c "]"); [destruct (d - 1 =? 0)%Z|]];
    try (intros [= <-]; lia);
    match goal with
    | |- option_map S (scan_close ?d' s) = _ -> _ =>
        destruct (scan_close d' s) as [j'|] eqn:E; simpl; [|discriminate];
        intros [= <-]; apply IH in E; lia
    end.
Qed.

Lemma starts_with_length p s : starts_with p s = true -> length p <= length s.
Proof.
  revert s; induction p as [|a p IH]; intros [|b s]; simpl; try lia; try discriminate.
  rewrite andb_true_iff. intros [_ H]. apply IH in H. lia.
Qed.

Lemma str_find_bound p s k :
  str_find p s = Some k -> k + length p <= length s.
Proof.
  intros H. destruct (str_find_some _ _ H) as [H1 _].
  apply starts_with_length in H1. rewrite length_skipn in H1.
  pose proof (str_find_le _ _ H). lia.
Qed.

Lemma str_find_split p s k :
  str_find p s = Some k -> s = firstn k s ++ p ++ skipn (k + length p) s.
Proof.
  intros H. destruct (str_find_some _ _ H) as [H1 _].
  apply starts_with_split in H1. rewrite skipn_skipn in H1.
  rewrite (Nat.add_comm k), <- H1. symmetry. apply firstn_skipn.
Qed.

Lemma str_find_skipn p s k :
  str_find p s = Some k -> skipn k s = p ++ skipn (k + length p) s.
Proof.
  intros H. destruct (str_find_some _ _ H) as [H1 _].
  apply starts_with_split in H1. rewrite skipn_skipn in H1.
  rewrite (Nat.add_comm k). exact H1.
Qed.

Lemma app_eq_app_ge {A} (p s a r : list A) :
  p ++ s = a ++ r -> length p <= length a ->
  exists a2, a = p ++ a2 /\ s = a2 ++ r.
Proof.
  revert a; induction p as [|x p IH]; intros a H Hl; simpl in *.
  - exists a. auto.
  - destruct a as [|y a]; simpl in *; [lia|]. injection H as -> H.
    destruct (IH a H) as [a2 [-> ->]]; [lia|]. exists a2. auto.
Qed.

Lemma closesb_app u : forall d w,
  closesb d (u ++ w) =
  match depth_thru d u with
  | None => true
  | Some d' => closesb d' w
  end.
Proof.
  unfold closesb.
  induction u as [|c u IH]; intros d w; simpl; auto.
  destruct (Ascii.eqb c "["); [|destruct (Ascii.eqb c "]"); [destruct (d - 1 =? 0)%Z|]];
    auto;
    match goal with
    | |- context [scan_close ?d' (u ++ w)] =>
        rewrite <- (IH d' w); destruct (scan_close d' (u ++ w)); reflexivity
    end.
Qed.

Lemma depth_thru_app u : forall d w,
  depth_thru d (u ++ w) =
  match depth_thru d u with
  | None => None
  | Some d' => depth_thru d' w
  end.
Proof.
  induction u as [|c u IH]; intros d w; simpl; auto.
  destruct (Ascii.eqb c "["); [|destruct (Ascii.eqb c "]"); [destruct (d - 1 =? 0)%Z|]];
    auto.
Qed.

Lemma depth_thru_pos u : forall d d',
  (1 <= d)%Z -> depth_thru d u = Some d' -> (1 <= d')%Z.
Proof.
  induction u as [|c u IH]; intros d d' Hd; simpl.
  - intros [= <-]. auto.
  - destruct (Ascii.eqb c "["); [apply IH; lia|].
    destruct (Ascii.eqb c "]"); [|apply IH; lia].
    destruct (d - 1 =? 0)%Z eqn:E; [discriminate|].
    apply Z.eqb_neq in E. apply IH. lia.
Qed.

Lemma depth_thru_shift u : forall d d' k,
  (1 <= d)%Z -> (0 <= k)%Z ->
  depth_thru d u = Some d' -> depth_thru (d + k) u = Some (d' + k)%Z.
Proof.
  induction u as [|c u IH]; intros d d' k Hd Hk; simpl.
  - intros [= <-]. auto.
  - destruct (Ascii.eqb c "[").
    + intros H. replace (d + k + 1)%Z with (d + 1 + k)%Z by lia. apply IH; auto. lia.
    + destruct (Ascii.eqb c "]"); [|apply IH; auto].
      destruct (d - 1 =? 0)%Z eqn:E; [discriminate|].
      apply Z.eqb_neq in E.
      assert (E' : (d + k - 1 =? 0)%Z = false) by (apply Z.eqb_neq; lia).
      rewrite E'. intros H.
      replace (d + k - 1)%Z with (d - 1 + k)%Z by lia. apply IH; auto. lia.
Qed.

(** A successful inner loop reads a balanced content and stops on the
    bracket that closes it. *)
Lemma scan_close_split s : forall d j,
  scan_close d s = Some j ->
  s = firstn j s ++ "]"%char :: skipn (S j) s /\
  depth_thru d (firstn j s) = Some 1%Z.
Proof.
  induction s as [|c s IH]; intros d j; simpl; [discriminate|].
  destruct (Ascii.eqb c "[") eqn:E1.
  - destruct (scan_close (d + 1) s) as [j'|] eqn:E; simpl; [|discriminate].
    intros [= <-]. destruct (IH _ _ E) as [H1 H2]. simpl. rewrite E1.
    split; [f_equal; exact H1|exact H2].
  - destruct (Ascii.eqb c "]") eqn:E2.
    + destruct (d - 1 =? 0)%Z eqn:E3.
      * intros [= <-]. apply Ascii.eqb_eq in E2. subst c. simpl. split; auto.
        apply Z.eqb_eq in E3. f_equal. lia.
      * destruct (scan_close (d - 1) s) as [j'|] eqn:E; simpl; [|discriminate].
        intros [= <-]. destruct (IH _ _ E) as [H1 H2]. simpl. rewrite E1, E2, E3.
        split; [f_equal; exact H1|exact H2].
    + destruct (scan_close d s) as [j'|] eqn:E; simpl; [|discriminate].
      intros [= <-]. destruct (IH _ _ E) as [H1 H2]. simpl. rewrite E1, E2.
      split; [f_equal; exact H1|exact H2].
Qed.

Section LinearCleaning.

Variable tag : text.
Hypothesis tag_no_space : Forall (fun c => is_space c = false) tag.
Hypothesis tag_no_bracket :
  Forall (fun c => Ascii.eqb c "[" = false /\ Ascii.eqb c "]" = false) tag.

Local Abbreviation marker := (marker_of tag).

Lemma depth_thru_plain u : forall d,
  Forall (fun c => Ascii.eqb c "[" = false /\ Ascii.eqb c "]" = false) u ->
  depth_thru d u = Some d.
Proof.
  induction u as [|c u IH]; intros d Hu; simpl; auto.
  inversion Hu as [|? ? [H1 H2] Hu']; subst. rewrite H1, H2. auto.
Qed.

Lemma depth_thru_marker d : depth_thru d marker = Some (d + 1)%Z.
Proof.
  unfold marker_of. cbn [T list_ascii_of_string app depth_thru Ascii.eqb].
  change (depth_thru d (tag ++ ["["%char]) = Some (d + 1)%Z).
  rewrite depth_thru_app, depth_thru_plain by auto. reflexivity.
Qed.

Lemma depth_thru_match d body j :
  (1 <= d)%Z -> scan_close 1 body = Some j ->
  depth_thru d (marker ++ firstn j body ++ ["]"%char]) = Some d.
Proof.
  intros Hd Hj. destruct (scan_close_split _ _ Hj) as [_ H].
  rewrite depth_thru_app, depth_thru_marker, depth_thru_app.
  apply (@depth_thru_shift _ 1%Z 1%Z d) in H; try lia.
  rewrite (Z.add_comm d 1), H. cbn [depth_thru Ascii.eqb Bool.eqb].
  destruct (1 + d - 1 =? 0)%Z eqn:E; [apply Z.eqb_eq in E; lia|].
  f_equal. lia.
Qed.

Lemma closesb_nl d s : closesb d (NL :: s) = closesb d s.
Proof. unfold closesb. simpl. destruct (scan_close d s); reflexivity. Qed.

Lemma skipn_body_split s k j :
  str_find marker s = Some k ->
  scan_close 1 (skipn (k + length marker) s) = Some j ->
  s = firstn k s ++ (marker ++ firstn j (skipn (k + length marker) s) ++ ["]"%char])
      ++ skipn (S j) (skipn (k + length marker) s).
Proof.
  intros Hk Hj. rewrite (str_find_split _ _ Hk) at 1.
  destruct (scan_close_split _ _ Hj) as [H _]. rewrite H at 1.
  rewrite <- !app_assoc. reflexivity.
Qed.

(** Joining replaces balanced spans by a newline: the depth of what follows
    is the same. *)
Lemma closesb_joined fuel : forall pending s d,
  (1 <= d)%Z ->
  closesb d (joined_from fuel marker pending s) = closesb d (pending ++ s).
Proof.
  induction fuel as [|fuel IH]; intros pending s d Hd; cbn [joined_from]; auto.
  destruct s as [|c s]; auto.
  destruct (str_find marker (c :: s)) as [k|] eqn:Ek; auto.
  destruct (scan_close 1 (skipn (k + length marker) (c :: s))) as [j|] eqn:Ej.
  - pose proof (skipn_body_split _ Ek Ej) as Hsplit.
    set (body := skipn (k + length marker) (c :: s)) in *.
    transitivity (closesb d ((pending ++ firstn k (c :: s))
                             ++ NL :: joined_from fuel marker [] (skipn (S j) body))).
    { rewrite <- app_assoc. reflexivity. }
    transitivity (closesb d ((pending ++ firstn k (c :: s))
                             ++ (marker ++ firstn j body ++ ["]"%char])
                             ++ skipn (S j) body)).
    2:{ rewrite <- app_assoc, <- Hsplit. reflexivity. }
    rewrite !(closesb_app (pending ++ firstn k (c :: s))).
    destruct (depth_thru d (pending ++ firstn k (c :: s))) as [d'|] eqn:Ed; auto.
    apply depth_thru_pos in Ed; auto.
    rewrite closesb_nl, IH by auto. cbn [app].
    rewrite closesb_app, (depth_thru_match _ Ed Ej). reflexivity.
  - rewrite IH by auto. rewrite <- app_assoc, firstn_skipn. reflexivity.
Qed.

(** Every occurrence of the marker that starts in [pending] is unclosed. *)
Definition pending_unclosed (pending s : text) : Prop :=
  forall a r, pending ++ s = a ++ marker ++ r -> length a < length pending ->
  scan_close 1 r = None.

Lemma occurrence_before_nl pre post a r :
  pre ++ NL :: post = a ++ marker ++ r ->
  (exists r1, pre = a ++ marker ++ r1 /\ r = r1 ++ NL :: post) \/
  (exists a2, a = pre ++ NL :: a2 /\ post = a2 ++ marker ++ r).
Proof.
  intros H. apply app_eq_app in H as [l [[H1 H2]|[H1 H2]]].
  - apply app_eq_app in H2 as [l2 [[H3 H4]|[H3 H4]]].
    + destruct l2 as [|x l2].
      * left. exists []. rewrite app_nil_r in *. subst. simpl in H4. auto.
      * exfalso. simpl in H4. injection H4 as <- _.
        apply (marker_no_nl tag_no_space). rewrite H3. apply in_or_app. right. left. auto.
    + left. exists l2. subst. auto.
  - destruct l as [|x l].
    + exfalso. simpl in H2. apply (marker_no_nl tag_no_space).
      unfold marker_of in *. simpl in H2. discriminate H2.
    + simpl in H2. injection H2 as <- H2. right. exists l. subst. auto.
Qed.

Lemma joined_no_tag fuel : forall pending s,
  length s <= fuel -> pending_unclosed pending s ->
  ~ has_tag closes_balanced marker (joined_from fuel marker pending s).
Proof.
  assert (Hbase : forall pending s,
            pending_unclosed pending s ->
            (forall a b, s = a ++ b -> starts_with marker b = false) ->
            ~ has_tag closes_balanced marker (pending ++ s)).
  { intros pending s Hinv Hnone [a [r [Hs Hr]]].
    destruct (Nat.lt_ge_cases (length a) (length pending)) as [Hl|Hl].
    - apply Hr. eapply Hinv; eauto.
    - destruct (app_eq_app_ge _ _ _ _ Hs Hl) as [a2 [-> Hs2]].
      specialize (Hnone _ _ Hs2). rewrite starts_with_app in Hnone. discriminate. }
  induction fuel as [|fuel IH]; intros pending s Hl Hinv; cbn [joined_from].
  - destruct s; [|simpl in Hl; lia].
    apply Hbase; auto. intros a b Hs. symmetry in Hs. apply app_eq_nil in Hs as [_ ->].
    reflexivity.
  - destruct s as [|c s].
    + apply Hbase; auto. intros a b Hs. symmetry in Hs. apply app_eq_nil in Hs as [_ ->].
      reflexivity.
    + destruct (str_find marker (c :: s)) as [k|] eqn:Ek.
      2:{ apply Hbase; auto. apply str_find_none; auto. }
      pose proof (str_find_some _ _ Ek) as [_ Hmin].
      pose proof (str_find_bound _ _ Ek) as Hkb.
      pose proof (str_find_split _ _ Ek) as Hsplit.
      set (body := skipn (k + length marker) (c :: s)) in *.
      destruct (scan_close 1 body) as [j|] eqn:Ej.
      * (* a match: the span is replaced by a newline *)
        intros [a [r [Hs Hr]]].
        rewrite app_assoc in Hs. cbn [app] in Hs.
        apply occurrence_before_nl in Hs as [[r1 [Hpre ->]]|[a2 [-> Hpost]]].
        -- apply Hr. clear Hr. unfold closes_balanced.
           assert (Hc : closesb 1 (r1 ++ NL :: joined_from fuel marker [] (skipn (S j) body))
                        = closesb 1 (r1 ++ skipn k (c :: s))).
           { rewrite !closesb_app.
             destruct (depth_thru 1 r1) as [d'|] eqn:Ed; auto.
             apply depth_thru_pos in Ed; [|lia].
             rewrite closesb_nl, closesb_joined by auto. cbn [app].
             assert (Hk : skipn k (c :: s) =
                          (marker ++ firstn j body ++ ["]"%char]) ++ skipn (S j) body).
             { rewrite (str_find_skipn _ _ Ek). fold body.
               destruct (scan_close_split _ _ Ej) as [H _]. rewrite H at 1.
               rewrite <- !app_assoc. reflexivity. }
             rewrite Hk, closesb_app, (depth_thru_match _ Ed Ej). reflexivity. }
           assert (Hu : scan_close 1 (r1 ++ skipn k (c :: s)) = None).
           { destruct (Nat.lt_ge_cases (length a) (length pending)) as [Hla|Hla].
             - apply (Hinv a); auto.
               rewrite <- (firstn_skipn k (c :: s)) at 1.
               rewrite app_assoc, Hpre, <- !app_assoc. reflexivity.
             - destruct (app_eq_app_ge _ _ _ _ Hpre Hla) as [a2 [-> Ha2]].
               exfalso.
               assert (Hlen : length a2 < k).
               { apply (f_equal (@length _)) in Ha2.
                 rewrite length_firstn, !length_app in Ha2.
                 pose proof (marker_length tag). lia. }
               specialize (Hmin a2 (marker ++ r1 ++ skipn k (c :: s))).
               rewrite starts_with_app in Hmin.
               assert (Hs2 : c :: s = a2 ++ marker ++ r1 ++ skipn k (c :: s)).
               { rewrite <- (firstn_skipn k (c :: s)) at 1. rewrite Ha2, <- !app_assoc.
                 reflexivity. }
               specialize (Hmin Hs2 Hlen). discriminate. }
           unfold closesb in Hc. rewrite Hu in Hc.
           destruct (scan_close 1 (r1 ++ NL :: joined_from fuel marker [] (skipn (S j) body)));
             [discriminate|reflexivity].
        -- revert Hpost. intros Hpost.
           apply (IH [] (skipn (S j) body)).
           ++ rewrite length_skipn. unfold body. rewrite length_skipn.
              cbn [length] in Hl |- *. lia.
           ++ intros a' r' _ Hlt. simpl in Hlt. lia.
           ++ exists a2, r. auto.
      * (* unclosed: the slash joins the pending text *)
        apply IH.
        -- change (skipn (S k) (c :: s)) with (skipn k s).
           pose proof (skipn_length_le k s). cbn [length] in Hl. lia.
        -- intros a r Hs Hlt.
           rewrite <- app_assoc, firstn_skipn in Hs.
           destruct (Nat.lt_ge_cases (length a) (length pending)) as [Hla|Hla].
           ++ apply (Hinv a); auto.
           ++ destruct (app_eq_app_ge _ _ _ _ Hs Hla) as [a2 [-> Hs2]].
              assert (Hlen : length a2 <= k).
              { rewrite !length_app, length_firstn in Hlt.
                pose proof (marker_length tag). lia. }
              destruct (Nat.eq_dec (length a2) k) as [He|Hne].
              ** assert (Hr : r = body).
                 { unfold body. rewrite Hs2 at 1.
                   replace (k + length marker) with (length (a2 ++ marker))
                     by (rewrite length_app; lia).
                   rewrite app_assoc, skipn_app, skipn_all, Nat.sub_diag. reflexivity. }
                 subst r. exact Ej.
              ** exfalso. specialize (Hmin a2 (marker ++ r) Hs2).
                 rewrite starts_with_app in Hmin.
                 assert (length a2 < k) by lia. specialize (Hmin H). discriminate.
Qed.

Lemma join_parts_joined fuel : forall text0 cursor idx pending s,
  cursor + length pending = idx ->
  skipn cursor text0 = pending ++ s ->
  join_parts text0 cursor (iter_from fuel marker idx s)
  = joined_from fuel marker pending s.
Proof.
  induction fuel as [|fuel IH]; intros text0 cursor idx pending s Hidx Hskip;
    cbn [iter_from joined_from join_parts]; auto.
  destruct s as [|c s]; auto.
  destruct (str_find marker (c :: s)) as [k|] eqn:Ek; auto.
  pose proof (str_find_bound _ _ Ek) as Hkb.
  set (body := skipn (k + length marker) (c :: s)) in *.
  destruct (scan_close 1 body) as [j|] eqn:Ej.
  - cbn [join_parts start end_]. unfold slice.
    replace (idx + k - cursor) with (length pending + k) by lia.
    rewrite Hskip, firstn_app_2, <- app_assoc. f_equal. f_equal. f_equal.
    apply IH; [simpl; lia|]. cbn [app].
    replace (idx + k + length marker + j + 1)
      with ((length pending + (S j + (k + length marker))) + cursor) by lia.
    rewrite <- skipn_skipn, Hskip, skipn_app, skipn_all2 by lia.
    replace (length pending + (S j + (k + length marker)) - length pending)
      with (S j + (k + length marker)) by lia.
    rewrite <- skipn_skipn. reflexivity.
  - apply IH.
    + rewrite length_app, length_firstn, Nat.min_l; [lia|].
      pose proof (marker_length tag). lia.
    + rewrite <- app_assoc, firstn_skipn. exact Hskip.
Qed.

Lemma no_tag_iter s : ~ has_tag closes_balanced marker s ->
  forall fuel idx, iter_from fuel marker idx s = [].
Proof.
  intros Hn fuel. revert s Hn.
  induction fuel as [|fuel IH]; intros s Hn idx; cbn [iter_from]; auto.
  destruct s as [|c s]; auto.
  destruct (str_find marker (c :: s)) as [k|] eqn:Ek; auto.
  destruct (scan_close 1 (skipn (k + length marker) (c :: s))) as [j|] eqn:Ej.
  - exfalso. apply Hn.
    exists (firstn k (c :: s)), (skipn (k + length marker) (c :: s)).
    split; [apply str_find_split; auto|]. unfold closes_balanced. congruence.
  - apply IH. intros H. apply Hn.
    rewrite <- (firstn_skipn (S k) (c :: s)). apply has_tag_app. exact H.
Qed.

(** What the linear cleaner joins holds no closed tag. *)
Lemma joined_text_no_tag x :
  ~ has_tag closes_balanced marker
      (join_parts x 0 (_iter_tag_matches_linear x tag)).
Proof.
  unfold _iter_tag_matches_linear.
  rewrite (@join_parts_joined (length x) x 0 0 [] x) by reflexivity.
  apply joined_no_tag; auto. intros a r _ Hl. simpl in Hl. lia.
Qed.

(** The linear cleaner: cleaning twice is cleaning once, and the linear
    parser finds nothing in a cleaned text. *)
Lemma clean_linear_fixed x y :
  clean_thought_tags_linear x tag = Ok y ->
  clean_thought_tags_linear y tag = Ok y /\
  _iter_tag_matches_linear y tag = [].
Proof.
  unfold clean_thought_tags_linear.
  destruct (_validate_tag_name tag) as [[]|e]; cbn [bind]; [|discriminate].
  pose proof (joined_text_no_tag x) as Hx.
  assert (Hy : (~ has_tag closes_balanced marker y /\ runs_ok 0 y /\ strip y = y) ->
               (match _iter_tag_matches_linear y tag with
                | [] => Ok (strip (Re.sub nl3_pattern [NL; NL] y))
                | (_ :: _) as matches =>
                    Ok (strip (collapse_ws (join_parts y 0 matches)))
                end = Ok y) /\ _iter_tag_matches_linear y tag = []).
  { intros [H1 [H2 H3]]. unfold _iter_tag_matches_linear.
    rewrite (no_tag_iter H1). split; auto.
    rewrite (ReFacts.sub_no_match _ _ (runs_ok_no_match H2)), H3. reflexivity. }
  destruct (_iter_tag_matches_linear x tag) as [|m ms] eqn:Em.
  - cbn [join_parts skipn] in Hx. intros [= <-]. apply Hy. repeat split.
    + apply nl3_keeps_no_tag; auto. apply closes_balanced_ws_del.
    + apply tidy_strip_nl3.
    + apply strip_idem.
  - intros [= <-]. apply Hy.
    destruct (tidy_strip_collapse (join_parts x 0 (m :: ms))) as [_ [_ [H2 H3]]].
    repeat split; auto.
    apply collapse_keeps_no_tag; auto. apply closes_balanced_ws_del.
Qed.

End LinearCleaning.

Lemma thought_no_space : Forall (fun c => is_space c = false) thought_tag.
Proof. repeat constructor. Qed.

Lemma thought_no_bracket :
  Forall (fun c => Ascii.eqb c "[" = false /\ Ascii.eqb c "]" = false) thought_tag.
Proof. repeat constructor. Qed.

(** C8: for both cleaners (with the default tag name), cleaning a cleaned
    text returns it unchanged, and the matching parser finds no tag in a
    cleaned text. *)
Theorem clean_idempotent_and_parse_empty (x : text) :
  (exists y,
     clean_thought_tags x thought_tag = Ok y /\
     clean_thought_tags y thought_tag = Ok y /\
     parse_thought_tags y thought_tag = Ok []) /\
  (exists y,
     clean_thought_tags_linear x thought_tag = Ok y /\
     clean_thought_tags_linear y thought_tag = Ok y /\
     parse_thought_tags_linear y thought_tag = Ok []).
Proof.
  split.
  - exists (strip (collapse_ws (Re.sub (tag_ws_pattern thought_tag) [NL] x))).
    destruct (@clean_regex_fixed thought_tag thought_no_space x) as [H1 H2].
    unfold clean_thought_tags, parse_thought_tags. cbn [_validate_tag_name bind].
    change (_validate_tag_name thought_tag) with (@Ok unit tt). cbn [bind].
    rewrite H1, H2. auto.
  - assert (Hx : exists y, clean_thought_tags_linear x thought_tag = Ok y).
    { unfold clean_thought_tags_linear.
      change (_validate_tag_name thought_tag) with (@Ok unit tt). cbn [bind].
      destruct (_iter_tag_matches_linear x thought_tag); eauto. }
    destruct Hx as [y Hy]. exists y. split; auto.
    destruct (@clean_linear_fixed thought_tag thought_no_space thought_no_bracket x y Hy)
      as [H1 H2].
    split; auto. unfold parse_thought_tags_linear.
    change (_validate_tag_name thought_tag) with (@Ok unit tt). cbn [bind].
    rewrite H2. reflexivity.
Qed.

(** ** Rows and thoughts *)

Lemma text_eqb_eq a b : text_eqb a b = true <-> a = b.
Proof.
  revert b; induction a as [|x a IH]; intros [|y b]; simpl; split;
    try discriminate; auto.
  - rewrite andb_true_iff, Ascii.eqb_eq, IH. intros [-> ->]. reflexivity.
  - intros [= -> ->]. rewrite Ascii.eqb_refl. apply IH. reflexivity.
Qed.

Lemma text_eqb_refl a : text_eqb a a = true.
Proof. apply text_eqb_eq. reflexivity. Qed.

Lemma text_eqb_neq a b : text_eqb a b = false <-> a <> b.
Proof.
  split.
  - intros H E. apply text_eqb_eq in E. congruence.
  - intros H. destruct (text_eqb a b) eqn:E; auto. apply text_eqb_eq in E. contradiction.
Qed.

Lemma mem_In x l : mem x l = true <-> In x l.
Proof.
  unfold mem. rewrite existsb_exists. split.
  - intros [y [H1 H2]]. apply text_eqb_eq in H2. subst. auto.
  - intros H. exists x. split; auto. apply text_eqb_refl.
Qed.

Lemma is_nil_false {A} (l : list A) : is_nil l = false <-> l <> [].
Proof. destruct l; simpl; split; congruence. Qed.

Lemma Thought_new_Ok id0 ts s c q tg raw cl vec dim t :
  Thought_new id0 ts s c q tg raw cl vec dim = Ok t ->
  strip_whitespace s <> [] /\ strip_whitespace c <> [] /\
  Qle_bool 0 q && Qle_bool q 1 = true /\
  strip_whitespace raw <> [] /\ strip_whitespace cl <> [] /\ vec <> [] /\
  (0 < embedding_dim t)%Z /\ Z.of_nat (length vec) = embedding_dim t /\
  (forall d, dim = Some d -> d = embedding_dim t) /\
  t = mkThought (strip_whitespace id0) ts (strip_whitespace s) (strip_whitespace c) q
        (map strip_whitespace tg) (strip_whitespace raw) (strip_whitespace cl) vec
        (embedding_dim t).
Proof.
  unfold Thought_new.
  destruct (is_nil (strip_whitespace s)) eqn:E1; [discriminate|].
  destruct (is_nil (strip_whitespace c)) eqn:E2; [discriminate|].
  destruct (Qle_bool 0 q && Qle_bool q 1) eqn:E3; [|discriminate].
  destruct (is_nil (strip_whitespace raw)) eqn:E4; [discriminate|].
  destruct (is_nil (strip_whitespace cl)) eqn:E5; [discriminate|].
  destruct (is_nil vec) eqn:E6; [discriminate|].
  cbn [negb].
  set (d := match dim with Some d => d | None => Z.of_nat (length vec) end).
  destruct (d <=? 0)%Z eqn:E7; [discriminate|].
  destruct (Z.of_nat (length vec) =? d)%Z eqn:E8; [|discriminate].
  cbn [negb]. intros [= <-]. cbn [embedding_dim].
  apply is_nil_false in E1, E2, E4, E5, E6.
  apply Z.leb_gt in E7. apply Z.eqb_eq in E8.
  repeat split; auto. intros d0 ->. reflexivity.
Qed.

Lemma Thought_new_intro id0 ts s c q tg raw cl vec d :
  strip_whitespace s <> [] -> strip_whitespace c <> [] ->
  Qle_bool 0 q && Qle_bool q 1 = true ->
  strip_whitespace raw <> [] -> strip_whitespace cl <> [] -> vec <> [] ->
  (0 < d)%Z -> Z.of_nat (length vec) = d ->
  Thought_new id0 ts s c q tg raw cl vec (Some d)
  = Ok (mkThought (strip_whitespace id0) ts (strip_whitespace s) (strip_whitespace c) q
          (map strip_whitespace tg) (strip_whitespace raw) (strip_whitespace cl) vec d).
Proof.
  intros H1 H2 H3 H4 H5 H6 H7 H8. unfold Thought_new.
  apply is_nil_false in H1, H2, H4, H5, H6.
  rewrite H1, H2, H3, H4, H5, H6. cbn [negb].
  apply Z.leb_gt in H7. rewrite H7.
  apply Z.eqb_eq in H8. rewrite H8. reflexivity.
Qed.

Lemma map_strip_whitespace_idem l :
  map strip_whitespace (map strip_whitespace l) = map strip_whitespace l.
Proof. rewrite map_map. apply map_ext. intros. apply strip_whitespace_idem. Qed.

Lemma Thought_valid_fields t :
  Thought_valid t ->
  strip_whitespace (id t) = id t /\ strip_whitespace (session_id t) = session_id t /\
  strip_whitespace (category t) = category t /\ map strip_whitespace (tags t) = tags t /\
  strip_whitespace (raw_text t) = raw_text t /\
  strip_whitespace (cleaned_text t) = cleaned_text t /\
  session_id t <> [] /\ category t <> [] /\ raw_text t <> [] /\
  cleaned_text t <> [] /\ embedding_vector t <> [] /\
  Qle_bool 0 (confidence t) && Qle_bool (confidence t) 1 = true /\
  (0 < embedding_dim t)%Z /\
  Z.of_nat (length (embedding_vector t)) = embedding_dim t.
Proof.
  intros Hv. unfold Thought_valid in Hv.
  destruct (Thought_new_Ok _ _ _ _ _ _ _ _ _ _ Hv)
    as [H1 [H2 [H3 [H4 [H5 [H6 [H7 [H8 [_ Ht]]]]]]]]].
  assert (E1 : strip_whitespace (id t) = id t) by (rewrite Ht at 2; reflexivity).
  assert (E2 : strip_whitespace (session_id t) = session_id t) by (rewrite Ht at 2; reflexivity).
  assert (E3 : strip_whitespace (category t) = category t) by (rewrite Ht at 2; reflexivity).
  assert (E4 : map strip_whitespace (tags t) = tags t) by (rewrite Ht at 2; reflexivity).
  assert (E5 : strip_whitespace (raw_text t) = raw_text t) by (rewrite Ht at 2; reflexivity).
  assert (E6 : strip_whitespace (cleaned_text t) = cleaned_text t)
    by (rewrite Ht at 2; reflexivity).
  rewrite E2 in H1. rewrite E3 in H2. rewrite E5 in H4. rewrite E6 in H5.
  repeat split; auto.
Qed.

(** A valid thought goes through its row and comes back rehydrated. *)
Lemma row_round_trip t :
  Thought_valid t -> _row_to_thought (row_of_thought t) = Ok (rehydrated t).
Proof.
  intros Hv.
  destruct (Thought_valid_fields Hv)
    as [E1 [E2 [E3 [E4 [E5 [E6 [N1 [N2 [N3 [N4 [N5 [Hq [Hd Hl]]]]]]]]]]]]].
  unfold _row_to_thought, row_of_thought, _blob_to_vector, _vector_to_blob.
  cbn [r_embedding_blob r_embedding_dim r_id r_timestamp_utc r_session_id r_category
       r_confidence r_tags_json r_raw_text r_cleaned_text].
  rewrite length_map, Hl, Z.eqb_refl. cbn [negb bind].
  rewrite map_map.
  rewrite Thought_new_intro; auto; try congruence.
  - unfold rehydrated. rewrite E1, E2, E3, E4, E5, E6. reflexivity.
  - destruct (embedding_vector t); [congruence|discriminate].
  - rewrite length_map. exact Hl.
Qed.

(** ** Sorting *)

Lemma insert_desc_z_In {A} (key : A -> Z) x y l :
  In y (insert_desc_z key x l) <-> y = x \/ In y l.
Proof.
  induction l as [|z l IH]; simpl; [intuition|].
  destruct (key x <? key z)%Z; simpl; rewrite ?IH; intuition.
Qed.

Lemma sort_desc_z_In {A} (key : A -> Z) y l :
  In y (sort_desc_z key l) <-> In y l.
Proof.
  induction l as [|z l IH]; simpl; [tauto|].
  rewrite insert_desc_z_In, IH. intuition.
Qed.

Lemma insert_desc_z_length {A} (key : A -> Z) x l :
  length (insert_desc_z key x l) = S (length l).
Proof.
  induction l as [|z l IH]; simpl; auto.
  destruct (key x <? key z)%Z; simpl; auto.
Qed.

Lemma sort_desc_z_length {A} (key : A -> Z) l :
  length (sort_desc_z key l) = length l.
Proof.
  induction l as [|z l IH]; simpl; auto.
  rewrite insert_desc_z_length. auto.
Qed.

Lemma insert_desc_In {A} (key : A -> Q) x y l :
  In y (insert_desc key x l) <-> y = x \/ In y l.
Proof.
  induction l as [|z l IH]; simpl; [intuition|].
  destruct (Qltb (key x) (key z)); simpl; rewrite ?IH; intuition.
Qed.

Lemma sort_desc_In {A} (key : A -> Q) y l :
  In y (sort_desc key l) <-> In y l.
Proof.
  induction l as [|z l IH]; simpl; [tauto|].
  rewrite insert_desc_In, IH. intuition.
Qed.

Lemma insert_desc_length {A} (key : A -> Q) x l :
  length (insert_desc key x l) = S (length l).
Proof.
  induction l as [|z l IH]; simpl; auto.
  destruct (Qltb (key x) (key z)); simpl; auto.
Qed.

Lemma sort_desc_length {A} (key : A -> Q) l :
  length (sort_desc key l) = length l.
Proof.
  induction l as [|z l IH]; simpl; auto.
  rewrite insert_desc_length. auto.
Qed.

Lemma insert_asc_text_In {A} (key : A -> text) x y l :
  In y (insert_asc_text key x l) <-> y = x \/ In y l.
Proof.
  induction l as [|z l IH]; simpl; [intuition|].
  destruct (text_ltb (key z) (key x)); simpl; rewrite ?IH; intuition.
Qed.

Lemma sort_asc_text_In {A} (key : A -> text) y l :
  In y (sort_asc_text key l) <-> In y l.
Proof.
  induction l as [|z l IH]; simpl; [tauto|].
  rewrite insert_asc_text_In, IH. intuition.
Qed.

Lemma insert_asc_text_length {A} (key : A -> text) x l :
  length (insert_asc_text key x l) = S (length l).
Proof.
  induction l as [|z l IH]; simpl; auto.
  destruct (text_ltb (key z) (key x)); simpl; auto.
Qed.

Lemma sort_asc_text_length {A} (key : A -> text) l :
  length (sort_asc_text key l) = length l.
Proof.
  induction l as [|z l IH]; simpl; auto.
  rewrite insert_asc_text_length. auto.
Qed.

Lemma sql_scan_In filters rows r : In r (sql_scan filters rows) <-> In r rows.
Proof.
  unfold sql_scan. destruct (f_session_id filters), (f_category filters);
    try tauto. symmetry. apply in_rev.
Qed.

Lemma sql_scan_length filters rows : length (sql_scan filters rows) = length rows.
Proof.
  unfold sql_scan. destruct (f_session_id filters), (f_category filters);
    try reflexivity. apply length_rev.
Qed.

(** ** The tables *)

Lemma find_upsert_row_same rows x :
  find (fun r => text_eqb (r_id r) (r_id x)) (upsert_row rows x) = Some x.
Proof.
  induction rows as [|r rows IH]; simpl.
  - rewrite text_eqb_refl. reflexivity.
  - destruct (text_eqb (r_id r) (r_id x)) eqn:E; simpl.
    + rewrite text_eqb_refl. reflexivity.
    + rewrite E. exact IH.
Qed.

Lemma find_upsert_row_other rows x k :
  k <> r_id x ->
  find (fun r => text_eqb (r_id r) k) (upsert_row rows x)
  = find (fun r => text_eqb (r_id r) k) rows.
Proof.
  intros Hk. induction rows as [|r rows IH]; simpl.
  - destruct (text_eqb (r_id x) k) eqn:E; auto.
    apply text_eqb_eq in E. congruence.
  - destruct (text_eqb (r_id r) (r_id x)) eqn:E; simpl.
    + apply text_eqb_eq in E.
      destruct (text_eqb (r_id x) k) eqn:E1; [apply text_eqb_eq in E1; congruence|].
      rewrite E, E1. reflexivity.
    + destruct (text_eqb (r_id r) k); auto.
Qed.

Lemma upsert_row_ids rows x k :
  In k (map r_id (upsert_row rows x)) <-> k = r_id x \/ In k (map r_id rows).
Proof.
  induction rows as [|r rows IH]; simpl; [intuition|].
  destruct (text_eqb (r_id r) (r_id x)) eqn:E; simpl.
  - apply text_eqb_eq in E. rewrite E. intuition.
  - rewrite IH. intuition.
Qed.

Lemma upsert_row_Forall (P : ThoughtRow -> Prop) rows x :
  Forall P rows -> P x -> Forall P (upsert_row rows x).
Proof.
  intros Hr Hx. induction Hr as [|r rows Hp Hr IH]; simpl; auto.
  destruct (text_eqb (r_id r) (r_id x)); auto.
Qed.

Lemma insert_thoughts_spec fault ts : forall i ss rows,
  insert_thoughts fault i ss rows ts =
  if existsb fault (seq i (length ts)) then None
  else Some (batch_sessions ss ts, batch_rows rows ts).
Proof.
  induction ts as [|t ts IH]; intros i ss rows; simpl; auto.
  destruct (fault i); simpl; auto.
Qed.

Lemma batch_rows_find ts : forall rows t,
  In t ts ->
  exists t2, In t2 ts /\ id t2 = id t /\
    find (fun r => text_eqb (r_id r) (id t)) (batch_rows rows ts)
    = Some (row_of_thought t2).
Proof.
  induction ts as [|t0 ts IH] using rev_ind; intros rows t Hin; [destruct Hin|].
  unfold batch_rows in *. rewrite fold_left_app. simpl.
  destruct (list_eq_dec ascii_dec (id t) (id t0)) as [E|E].
  - exists t0. split; [apply in_or_app; right; left; auto|]. split; auto.
    rewrite E. change (id t0) with (r_id (row_of_thought t0)) at 1.
    apply find_upsert_row_same.
  - apply in_app_or in Hin as [Hin|[->|[]]]; [|congruence].
    destruct (IH rows t Hin) as [t2 [H1 [H2 H3]]].
    exists t2. split; [apply in_or_app; auto|]. split; auto.
    rewrite find_upsert_row_other; auto.
Qed.

Lemma batch_rows_ids ts : forall rows t,
  In t ts -> In (id t) (map r_id (batch_rows rows ts)).
Proof.
  induction ts as [|t0 ts IH] using rev_ind; intros rows t Hin; [destruct Hin|].
  unfold batch_rows in *. rewrite fold_left_app. simpl.
  apply upsert_row_ids. cbn [row_of_thought r_id].
  apply in_app_or in Hin as [Hin|[->|[]]]; auto.
Qed.

Lemma batch_rows_Forall (P : ThoughtRow -> Prop) ts : forall rows,
  Forall P rows -> Forall (fun t => P (row_of_thought t)) ts ->
  Forall P (batch_rows rows ts).
Proof.
  induction ts as [|t ts IH]; intros rows Hr Ht; simpl; auto.
  inversion Ht; subst. apply IH; auto. apply upsert_row_Forall; auto.
Qed.

(** ** The vector index *)

Lemma position_In x l n : position x l = Some n -> In x l.
Proof.
  revert n; induction l as [|y l IH]; intros n; simpl; [discriminate|].
  destruct (text_eqb y x) eqn:E.
  - apply text_eqb_eq in E. auto.
  - destruct (position x l); simpl; [|discriminate]. intros _. right. eapply IH; eauto.
Qed.

Lemma index_upsert_ok dim ix k vec :
  Z.of_nat (length vec) = dim ->
  exists ix', index_upsert dim ix k vec = Ok ix' /\
    forall x, In x (ix_ids ix') <-> In x (ix_ids ix) \/ x = k.
Proof.
  intros Hl. unfold index_upsert. rewrite length_map.
  apply Z.eqb_eq in Hl. rewrite Hl. cbn [negb].
  destruct (position k (ix_ids ix)) eqn:E.
  - eexists. split; [reflexivity|]. cbn [ix_ids]. intros x. split; auto.
    intros [H| ->]; auto. eapply position_In; eauto.
  - eexists. split; [reflexivity|]. cbn [ix_ids]. intros x.
    rewrite in_app_iff. simpl. intuition.
Qed.

Lemma upsert_all_ok dim ts : forall ix,
  Forall (fun t => Z.of_nat (length (embedding_vector t)) = dim) ts ->
  exists ix', upsert_all dim ix ts = (ix', Ok tt) /\
    forall x, In x (ix_ids ix') <-> In x (ix_ids ix) \/ In x (map id ts).
Proof.
  induction ts as [|t ts IH]; intros ix Hf; simpl.
  - exists ix. split; auto. intuition.
  - apply Forall_cons_iff in Hf as [Ht Hts].
    destruct (@index_upsert_ok dim ix (id t) (embedding_vector t) Ht) as [ix1 [E1 H1]].
    rewrite E1. destruct (IH ix1 Hts) as [ix2 [E2 H2]].
    exists ix2. split; auto. intros x. rewrite H2, H1. intuition.
Qed.

Lemma rebuild_items_ok dim rows :
  Forall (fun r => r_embedding_dim r = dim /\
                   Z.of_nat (length (r_embedding_blob r)) = r_embedding_dim r) rows ->
  exists items,
    map_result
      (fun row =>
         vec <- _blob_to_vector (r_embedding_blob row) (r_embedding_dim row) ;;
         Ok (r_id row, vec)) rows = Ok items /\
    map fst items = map r_id rows /\
    Forall (fun it => Z.of_nat (length (snd it)) = dim) items.
Proof.
  induction 1 as [|r rows [Hd Hl] Hr [items [E [Hi Hf]]]]; simpl.
  - exists []. auto.
  - unfold _blob_to_vector at 1. apply Z.eqb_eq in Hl as Hl'. rewrite Hl'. cbn [negb bind].
    rewrite E. cbn [bind]. eexists. split; [reflexivity|]. simpl. split.
    + f_equal. exact Hi.
    + constructor; auto. simpl. rewrite length_map. congruence.
Qed.

Lemma index_build_ok dim ix items :
  Forall (fun it => Z.of_nat (length (snd it)) = dim) items ->
  exists mat, index_build dim ix items = (mkIndex (map fst items) mat, Ok tt).
Proof.
  intros Hf. unfold index_build. destruct items as [|it items]; [eauto|].
  replace (forallb _ _) with true; [eauto|].
  symmetry. apply forallb_forall. intros row Hin.
  apply in_map_iff in Hin as [it' [<- Hin]]. rewrite length_map.
  apply Z.eqb_eq. rewrite Forall_forall in Hf. auto.
Qed.

Lemma rebuild_ok st :
  store_wf st ->
  exists mat, _rebuild_vector_index_locked st
              = (with_index st (mkIndex (map r_id (thoughts st)) mat), Ok tt).
Proof.
  intros Hw. unfold _rebuild_vector_index_locked.
  destruct (@rebuild_items_ok (store_embedding_dim st) (thoughts st) Hw) as [items [E [Hi Hf]]]. rewrite E.
  destruct (@index_build_ok (store_embedding_dim st) (vector_index st) items Hf) as [mat Em].
  rewrite Em, Hi. eauto.
Qed.

(** ** [batch_store] *)

Lemma row_of_valid_wf t :
  Thought_valid t ->
  Z.of_nat (length (r_embedding_blob (row_of_thought t)))
  = r_embedding_dim (row_of_thought t).
Proof.
  intros Hv. destruct (Thought_valid_fields Hv) as (_&_&_&_&_&_&_&_&_&_&_&_&_&Hl).
  cbn [row_of_thought r_embedding_blob r_embedding_dim]. unfold _vector_to_blob.
  rewrite length_map. exact Hl.
Qed.

Lemma dims_ok_Forall dim ts :
  existsb (fun t => negb (embedding_dim t =? dim)%Z) ts = false ->
  Forall (fun t => embedding_dim t = dim) ts.
Proof.
  intros H. apply Forall_forall. intros t Hin.
  destruct (embedding_dim t =? dim)%Z eqn:E; [apply Z.eqb_eq; auto|].
  assert (existsb (fun t => negb (embedding_dim t =? dim)%Z) ts = true); [|congruence].
  apply existsb_exists. exists t. rewrite E. auto.
Qed.

(** What a call of [batch_store] does, by cases. *)
Lemma batch_store_cases fault st ts :
  Forall Thought_valid ts ->
  (vector_backend st = FaissBackend -> store_wf st) ->
  if batch_fails fault st ts
  then exists e, batch_store fault st ts = (st, Err e)
  else exists ix,
    batch_store fault st ts
    = (with_index (with_tables st (batch_sessions (sessions st) ts)
                     (batch_rows (thoughts st) ts)) ix, Ok ts) /\
    (forall t, In t ts -> In (id t) (ix_ids ix)) /\
    (ts = [] -> ix = vector_index st) /\
    (vector_backend st = FaissBackend -> ts <> [] ->
     ix_ids ix = map r_id (batch_rows (thoughts st) ts)).
Proof.
  intros Hv Hw. unfold batch_fails, batch_store.
  destruct ts as [|t0 ts0]; [simpl; exists (vector_index st); destruct st; simpl; tauto|].
  set (ts := t0 :: ts0) in *.
  destruct (existsb (fun t => negb (embedding_dim t =? store_embedding_dim st)%Z) ts)
    eqn:Ed; cbn [orb]; [eauto|].
  rewrite insert_thoughts_spec.
  destruct (existsb fault (seq 0 (length ts))) eqn:Ef; [eauto|].
  apply dims_ok_Forall in Ed.
  destruct (vector_backend st) eqn:Eb.
  - destruct (@upsert_all_ok (store_embedding_dim st) ts (vector_index st)) as [ix [E Hix]].
    { rewrite Forall_forall in *. intros t Hin.
      destruct (Thought_valid_fields (Hv t Hin)) as (_&_&_&_&_&_&_&_&_&_&_&_&_&Hl).
      rewrite Hl. auto. }
    rewrite E. exists ix. split; [reflexivity|]. split; [|split; [discriminate|discriminate]].
    intros t Hin. apply Hix. right. apply in_map. exact Hin.
  - set (st1 := with_tables st _ _).
    assert (Hw1 : store_wf st1).
    { unfold store_wf. cbn [st1 with_tables thoughts store_embedding_dim].
      apply batch_rows_Forall; [apply Hw; reflexivity|].
      rewrite Forall_forall in *. intros t Hin. split.
      - cbn [row_of_thought r_embedding_dim]. auto.
      - apply row_of_valid_wf. auto. }
    destruct (@rebuild_ok st1 Hw1) as [mat E]. rewrite E.
    eexists. split; [reflexivity|]. cbn [ix_ids].
    split; [|split; [discriminate|reflexivity]].
    intros t Hin. cbn [st1 with_tables thoughts]. apply batch_rows_ids. exact Hin.
Qed.

Lemma map_result_Ok {A B} (f : A -> result B) l l' :
  map_result f l = Ok l' <-> Forall2 (fun x y => f x = Ok y) l l'.
Proof.
  revert l'; induction l as [|x l IH]; intros l'; simpl.
  - split; [intros [= <-]; constructor|inversion 1; reflexivity].
  - destruct (f x) as [y|e] eqn:E; cbn [bind].
    + destruct (map_result f l) as [ys|e] eqn:E2; cbn [bind].
      * split.
        -- intros [= <-]. constructor; auto. apply IH. reflexivity.
        -- inversion 1; subst. f_equal. f_equal; [congruence|].
           assert (Ok ys = Ok l'0) as [= ->] by (apply IH; auto). reflexivity.
      * split; [discriminate|]. inversion 1; subst.
        assert (Err e = Ok l'0) by (apply IH; auto). discriminate.
    + split; [discriminate|]. inversion 1; subst. congruence.
Qed.

Lemma map_result_total {A B} (f : A -> result B) l :
  Forall (fun x => exists y, f x = Ok y) l -> exists l', map_result f l = Ok l'.
Proof.
  induction 1 as [|x l [y Hy] Hl [l' IH]]; simpl; [eauto|].
  rewrite Hy, IH. cbn [bind]. eauto.
Qed.

Lemma Forall2_In_l {A B} (R : A -> B -> Prop) l l' x :
  Forall2 R l l' -> In x l -> exists y, In y l' /\ R x y.
Proof.
  induction 1 as [|a b l l' Hab H IH]; intros Hin; [destruct Hin|].
  destruct Hin as [->|Hin]; [exists b; simpl; auto|].
  destruct (IH Hin) as [y [H1 H2]]. exists y; simpl; auto.
Qed.

Lemma Forall2_In_r {A B} (R : A -> B -> Prop) l l' y :
  Forall2 R l l' -> In y l' -> exists x, In x l /\ R x y.
Proof.
  induction 1 as [|a b l l' Hab H IH]; intros Hin; [destruct Hin|].
  destruct Hin as [->|Hin]; [exists a; simpl; auto|].
  destruct (IH Hin) as [x [H1 H2]]. exists x; simpl; auto.
Qed.

Lemma Forall2_length_eq {A B} (R : A -> B -> Prop) l l' :
  Forall2 R l l' -> length l = length l'.
Proof. induction 1; simpl; auto. Qed.

(** ** The store invariant *)

Lemma store_inv_wf st : store_inv st -> store_wf st.
Proof.
  unfold store_inv, store_wf. apply Forall_impl.
  intros r [t [Hv [Hd ->]]]. split; [exact Hd|]. apply row_of_valid_wf. exact Hv.
Qed.

Lemma store_inv_decode st : store_inv st -> rows_decode st.
Proof.
  unfold store_inv, rows_decode. apply Forall_impl.
  intros r [t [Hv [Hd ->]]]. exists (rehydrated t). apply row_round_trip. exact Hv.
Qed.

Lemma new_store_inv dim b : store_inv (new_store dim b).
Proof. constructor. Qed.

Lemma batch_store_inv fault st ts st' r :
  store_inv st -> Forall Thought_valid ts ->
  batch_store fault st ts = (st', r) -> store_inv st'.
Proof.
  intros Hi Hv E.
  pose proof (@batch_store_cases fault st ts Hv (fun _ => store_inv_wf Hi)) as H.
  unfold batch_fails in H.
  destruct (existsb (fun t => negb (embedding_dim t =? store_embedding_dim st)%Z) ts)
    eqn:Ed; cbn [orb] in H.
  - destruct H as [e H]. rewrite H in E. injection E as <- _. exact Hi.
  - destruct (existsb fault (seq 0 (length ts))).
    + destruct H as [e H]. rewrite H in E. injection E as <- _. exact Hi.
    + destruct H as [ix [H _]]. rewrite H in E. injection E as <- _.
      unfold store_inv. cbn [with_index with_tables thoughts store_embedding_dim].
      apply batch_rows_Forall; [exact Hi|].
      apply dims_ok_Forall in Ed. rewrite Forall_forall in *.
      intros t Hin. exists t. auto.
Qed.

(** ** Reading back *)

Lemma sql_where_no_filters r : sql_where no_filters r = true.
Proof. reflexivity. Qed.

Lemma filter_all {A} (p : A -> bool) l :
  (forall x, In x l -> p x = true) -> filter p l = l.
Proof.
  induction l as [|x l IH]; simpl; intros H; auto.
  rewrite H by auto. f_equal. apply IH. auto.
Qed.

Lemma query_all_In st limit r :
  (Z.of_nat (length (thoughts st)) <= limit)%Z ->
  In r (_query_rows_locked st no_filters limit) <-> In r (thoughts st).
Proof.
  intros Hl. unfold _query_rows_locked.
  rewrite (filter_all (tags_any_test no_filters)) by reflexivity.
  rewrite (filter_all (sql_where no_filters)) by reflexivity.
  rewrite firstn_all2; [rewrite sort_desc_z_In; apply sql_scan_In|].
  rewrite sort_desc_z_length, sql_scan_length. lia.
Qed.

Lemma firstn_In {A} n (l : list A) x : In x (firstn n l) -> In x l.
Proof.
  revert l; induction n as [|n IH]; intros [|y l]; simpl; try tauto.
  intros [->|H]; auto.
Qed.

Lemma query_rows_incl st filters limit r :
  In r (_query_rows_locked st filters limit) -> In r (thoughts st).
Proof.
  unfold _query_rows_locked. intros H.
  apply filter_In in H as [H _]. apply firstn_In in H.
  apply sort_desc_z_In, sql_scan_In in H. apply filter_In in H as [H _]. exact H.
Qed.

Lemma rebuild_thoughts st :
  thoughts (fst (_rebuild_vector_index_locked st)) = thoughts st.
Proof.
  unfold _rebuild_vector_index_locked.
  destruct (map_result _ (thoughts st)); [|reflexivity].
  destruct (index_build _ _ _). reflexivity.
Qed.

(** Whenever [batch_store] returns, it returns its argument and the table
    holds the upserted rows. *)
Lemma batch_store_Ok fault st ts st' out :
  batch_store fault st ts = (st', Ok out) ->
  out = ts /\ thoughts st' = batch_rows (thoughts st) ts.
Proof.
  unfold batch_store. destruct ts as [|t0 ts0]; [intros [= <- <-]; auto|].
  set (ts := t0 :: ts0).
  destruct (existsb _ ts); [discriminate|].
  rewrite insert_thoughts_spec.
  destruct (existsb fault _); [discriminate|].
  destruct (vector_backend st).
  - destruct (upsert_all _ _ _) as [ix [u|e]]; [|discriminate].
    intros [= <- <-]. auto.
  - pose proof (rebuild_thoughts
                  (with_tables st (batch_sessions (sessions st) ts)
                     (batch_rows (thoughts st) ts))) as Hr.
    destruct (_rebuild_vector_index_locked _) as [st2 [u|e]]; [|discriminate].
    intros [= <- <-]. auto.
Qed.

Lemma rehydrated_exact t :
  embedding_vector (rehydrated t) = embedding_vector t -> rehydrated t = t.
Proof. destruct t. unfold rehydrated. simpl. intros ->. reflexivity. Qed.




Lemma retrieve_all_total st limit :
  store_inv st -> exists l, retrieve st no_filters limit = Ok l.
Proof.
  intros Hi. apply map_result_total. apply Forall_forall. intros r Hr.
  apply query_rows_incl in Hr. apply store_inv_decode in Hi.
  unfold rows_decode in Hi. rewrite Forall_forall in Hi. auto.
Qed.

(** C1: [batch_store] is atomic.  For a batch of validated thoughts given
    to a store whose rows were written by [batch_store]: if a thought has
    not the dimension of the store or an insert fails, the call raises and
    leaves the whole state (tables and vector index) as it was, so that
    [retrieve] and [get_thought_by_id] answer as before the call; otherwise
    the call returns the batch, and every thought of the batch is returned
    by [get_thought_by_id], is in the result of an unfiltered [retrieve]
    and has its id in the vector index. *)
Theorem batch_store_atomic fault st ts :
  store_inv st -> Forall Thought_valid ts ->
  (batch_fails fault st ts = true ->
   exists e, batch_store fault st ts = (st, Err e)) /\
  (batch_fails fault st ts = false ->
   exists st', batch_store fault st ts = (st', Ok ts) /\ store_inv st' /\
     forall t, In t ts ->
       (exists t2, In t2 ts /\ id t2 = id t /\
          get_thought_by_id st' (id t) = Ok (Some (rehydrated t2))) /\
       (forall limit, (Z.of_nat (length (thoughts st')) <= limit)%Z ->
          exists l, retrieve st' no_filters limit = Ok l /\
            exists t', In t' l /\ id t' = id t) /\
       In (id t) (ix_ids (vector_index st'))).
Proof.
  intros Hi Hv.
  pose proof (@batch_store_cases fault st ts Hv (fun _ => store_inv_wf Hi)) as H.
  split; intros Hf; rewrite Hf in H; [exact H|].
  destruct H as [ix [E [Hix _]]].
  eexists. split; [exact E|].
  pose proof (@batch_store_inv fault st ts _ _ Hi Hv E) as Hi'.
  split; [exact Hi'|]. intros t Hin.
  destruct (@batch_rows_find ts (thoughts st) t Hin) as [t2 [H1 [H2 H3]]].
  assert (Hv2 : Thought_valid t2) by (rewrite Forall_forall in Hv; auto).
  split; [|split].
  - exists t2. split; auto. split; auto.
    unfold get_thought_by_id. cbn [with_index with_tables thoughts].
    rewrite H3, (row_round_trip Hv2). reflexivity.
  - intros limit Hl.
    destruct (@retrieve_all_total _ limit Hi') as [l El].
    exists l. split; [exact El|].
    unfold retrieve in El. apply map_result_Ok in El.
    apply find_some in H3 as [H3 _].
    assert (Hq : In (row_of_thought t2)
                   (_query_rows_locked
                      (with_index (with_tables st (batch_sessions (sessions st) ts)
                                     (batch_rows (thoughts st) ts)) ix)
                      no_filters limit))
      by (apply query_all_In; auto).
    destruct (@Forall2_In_l _ _ _ _ _ _ El Hq) as [y [Hy1 Hy2]].
    exists y. split; auto.
    rewrite (row_round_trip Hv2) in Hy2. injection Hy2 as <-. exact H2.
  - cbn [with_index vector_index]. apply Hix. exact Hin.
Qed.

Lemma batch_store_atomic_witness :
  exists e,
    batch_store no_fault Examples.unit_store
      [Examples.tenth_thought; Examples.long_thought]
    = (Examples.unit_store, Err e).
Proof.
  refine (proj1 (@batch_store_atomic no_fault Examples.unit_store
                   [Examples.tenth_thought; Examples.long_thought] _ _) _).
  - apply new_store_inv.
  - repeat constructor; vm_compute; reflexivity.
  - vm_compute. reflexivity.
Defined.

(** ** Limits *)

Lemma clamp_nonpositive limit : (limit <= 0)%Z -> Z.to_nat (Z.max 1 limit) = 1.
Proof. intros H. rewrite Z.max_l by lia. reflexivity. Qed.

Lemma firstn_1 {A} (l : list A) : l <> [] -> exists x, firstn 1 l = [x] /\ In x l.
Proof. destruct l as [|x l]; [congruence|]. intros _. exists x. simpl. auto. Qed.

Lemma nonempty_length {A} (l : list A) : l <> [] <-> length l <> 0.
Proof. destruct l; simpl; split; congruence. Qed.

Lemma In_nonempty {A} (x : A) l : In x l -> l <> [].
Proof. destruct l; simpl; [tauto|congruence]. Qed.


Lemma score_row_total alpha d max_age now r :
  (exists t, _row_to_thought r = Ok t) ->
  exists s, score_row alpha d max_age now r = Ok s.
Proof. intros [t Ht]. unfold score_row. rewrite Ht. cbn [bind]. eauto. Qed.

Lemma surviving_rows_incl st candidates filters r :
  In r (surviving_rows st candidates filters) -> In r (thoughts st).
Proof.
  unfold surviving_rows, _fetch_rows_by_ids_locked. intros H.
  apply filter_In in H as [H _]. apply sort_asc_text_In in H.
  apply filter_In in H as [H _]. exact H.
Qed.

Lemma surviving_rows_nil st filters : surviving_rows st [] filters = [].
Proof.
  unfold surviving_rows, _fetch_rows_by_ids_locked. cbn.
  replace (filter (fun _ : ThoughtRow => false) (thoughts st)) with (@nil ThoughtRow);
    [reflexivity|].
  induction (thoughts st); simpl; auto.
Qed.

Lemma two_thoughts_inv : store_inv Examples.two_thoughts.
Proof.
  refine (@batch_store_inv no_fault Examples.unit_store
            [Examples.old_tagged; Examples.new_untagged] _
            (snd (batch_store no_fault Examples.unit_store
                    [Examples.old_tagged; Examples.new_untagged])) _ _ _).
  - apply new_store_inv.
  - repeat constructor; vm_compute; reflexivity.
  - apply surjective_pairing.
Defined.

(** ** Stable descending sort *)

Lemma Qltb_true a b : Qltb a b = true <-> (a < b)%Q.
Proof.
  unfold Qltb. rewrite negb_true_iff. split.
  - intros H. apply Qnot_le_lt. intros Hle. apply Qle_bool_iff in Hle. congruence.
  - intros H. destruct (Qle_bool b a) eqn:E; auto.
    apply Qle_bool_iff in E. apply Qle_not_lt in E. contradiction.
Qed.

Lemma Qltb_false a b : Qltb a b = false <-> (b <= a)%Q.
Proof.
  unfold Qltb. rewrite negb_false_iff. apply Qle_bool_iff.
Qed.

Section SortDesc.
Context {A : Type} (key : A -> Q).

Local Abbreviation ge := (key_ge key).

Lemma insert_desc_sorted x l :
  StronglySorted ge l -> StronglySorted ge (insert_desc key x l).
Proof.
  induction 1 as [|y l Hs IH Hy]; simpl.
  - constructor; constructor.
  - destruct (Qltb (key x) (key y)) eqn:E.
    + constructor; auto. apply Forall_forall. intros z Hz.
      apply insert_desc_In in Hz as [-> | Hz].
      * apply Qltb_true in E. unfold key_ge. apply Qlt_le_weak. exact E.
      * rewrite Forall_forall in Hy. auto.
    + apply Qltb_false in E. constructor; [constructor; auto|].
      constructor; [exact E|]. apply Forall_forall. intros z Hz.
      rewrite Forall_forall in Hy. unfold key_ge. eapply Qle_trans; [apply Hy; exact Hz|exact E].
Qed.

Lemma sort_desc_sorted l : StronglySorted ge (sort_desc key l).
Proof.
  induction l as [|x l IH]; simpl; [constructor|]. apply insert_desc_sorted. exact IH.
Qed.

Lemma firstn_sorted n l : StronglySorted ge l -> StronglySorted ge (firstn n l).
Proof.
  intros H. revert n. induction H as [|y l Hs IH Hy]; intros [|n]; simpl;
    try constructor; auto.
  apply Forall_forall. intros z Hz. apply firstn_In in Hz.
  rewrite Forall_forall in Hy. auto.
Qed.

(** Items of equal key keep the order they had. *)
Lemma insert_desc_stable q x l :
  filter (fun it => Qeq_bool (key it) q) (insert_desc key x l)
  = filter (fun it => Qeq_bool (key it) q) (x :: l).
Proof.
  induction l as [|y l IH]; [reflexivity|].
  cbn [insert_desc]. destruct (Qltb (key x) (key y)) eqn:E; [|reflexivity].
  cbn [filter] in *. rewrite IH.
  destruct (Qeq_bool (key y) q) eqn:Ey; [|reflexivity].
  destruct (Qeq_bool (key x) q) eqn:Ex; [|reflexivity].
  apply Qeq_bool_iff in Ex, Ey. apply Qltb_true in E.
  rewrite Ex, Ey in E. apply Qlt_irrefl in E. contradiction.
Qed.

Lemma sort_desc_stable q l :
  filter (fun it => Qeq_bool (key it) q) (sort_desc key l)
  = filter (fun it => Qeq_bool (key it) q) l.
Proof.
  induction l as [|x l IH]; [reflexivity|].
  cbn [sort_desc]. rewrite insert_desc_stable. cbn [filter]. rewrite IH. reflexivity.
Qed.

End SortDesc.

(** ** Recency *)

Lemma py_max_l a b : (a <= py_max a b)%Q.
Proof.
  unfold py_max. destruct (Qltb a b) eqn:E; [|apply Qle_refl].
  apply Qltb_true in E. apply Qlt_le_weak. exact E.
Qed.

Lemma py_max_r a b : (b <= py_max a b)%Q.
Proof.
  unfold py_max. destruct (Qltb a b) eqn:E; [apply Qle_refl|].
  apply Qltb_false in E. exact E.
Qed.

Lemma max_age_fold ages : forall init,
  (init <= fold_left py_max ages init)%Q /\
  forall a, In a ages -> (a <= fold_left py_max ages init)%Q.
Proof.
  induction ages as [|x ages IH]; intros init; simpl.
  - split; [apply Qle_refl|tauto].
  - destruct (IH (py_max init x)) as [H1 H2]. split.
    + eapply Qle_trans; [apply py_max_l|exact H1].
    + intros a [->|Ha]; auto. eapply Qle_trans; [apply py_max_r|exact H1].
Qed.

Lemma age_nonneg now ts : (0 <= age_of now ts)%Q.
Proof. unfold age_of. apply py_max_l. Qed.

Lemma recency_bounds age max_age :
  (0 <= age)%Q -> (age <= max_age)%Q -> (1 <= max_age)%Q ->
  (0 <= 1 - age / max_age)%Q /\ (1 - age / max_age <= 1)%Q.
Proof.
  intros H0 H1 H2.
  assert (Hp : (0 < max_age)%Q) by lra.
  assert (Hl : (0 <= age / max_age)%Q).
  { apply Qle_shift_div_l; auto. lra. }
  assert (Hu : (age / max_age <= 1)%Q).
  { apply Qle_shift_div_r; auto. lra. }
  split; lra.
Qed.

Lemma score_row_Ok alpha candidates max_age now row it :
  score_row alpha (dict_of_pairs candidates) max_age now row = Ok it ->
  scored_from alpha candidates max_age now row it.
Proof.
  unfold score_row, scored_from. destruct (_row_to_thought row) as [t|e]; [|discriminate].
  cbn [bind]. intros [= <-]. cbn. auto.
Qed.

Lemma Forall2_impl_In {A B} (P Q : A -> B -> Prop) l l' :
  (forall x y, In x l -> P x y -> Q x y) -> Forall2 P l l' -> Forall2 Q l l'.
Proof.
  intros H F. induction F as [|x y l l' Hxy F IH]; constructor.
  - apply H; simpl; auto.
  - apply IH. intros; apply H; simpl; auto.
Qed.

(** ** Sorted lists *)

Lemma StronglySorted_filter {A} (R : A -> A -> Prop) (p : A -> bool) l :
  StronglySorted R l -> StronglySorted R (filter p l).
Proof.
  induction 1 as [|x l Hs IH Hx]; simpl; [constructor|].
  destruct (p x); [|exact IH]. constructor; [exact IH|].
  apply Forall_forall. intros y Hy. apply filter_In in Hy as [Hy _].
  rewrite Forall_forall in Hx. auto.
Qed.

Lemma StronglySorted_firstn {A} (R : A -> A -> Prop) n l :
  StronglySorted R l -> StronglySorted R (firstn n l).
Proof.
  intros H. revert n. induction H as [|x l Hs IH Hx]; intros [|n]; simpl;
    try constructor; auto.
  apply Forall_forall. intros y Hy. apply firstn_In in Hy.
  rewrite Forall_forall in Hx. auto.
Qed.

Lemma StronglySorted_Forall2 {A B} (R : A -> A -> Prop) (S : B -> B -> Prop)
  (T : A -> B -> Prop) l l' :
  (forall a a' b b', T a b -> T a' b' -> R a a' -> S b b') ->
  Forall2 T l l' -> StronglySorted R l -> StronglySorted S l'.
Proof.
  intros H F. induction F as [|a b l l' Hab F IH]; intros Hs; [constructor|].
  inversion Hs as [|? ? Hs' Ha]; subst. constructor; [auto|].
  apply Forall_forall. intros b' Hb'.
  destruct (@Forall2_In_r _ _ _ _ _ _ F Hb') as [a' [Ha' Hab']].
  rewrite Forall_forall in Ha. eauto.
Qed.

(** * The regex parser and the linear parser find the same tags *)

(** ** The mapping of a parser *)

Lemma str_of_nat_inj a b : str_of_nat a = str_of_nat b -> a = b.
Proof.
  unfold str_of_nat, T. intros H.
  apply (f_equal string_of_list_ascii) in H.
  rewrite !string_of_list_ascii_of_string in H.
  apply (f_equal NilEmpty.uint_of_string) in H. rewrite !NilEmpty.usu in H.
  injection H as H. apply Unsigned.to_uint_inj. exact H.
Qed.

Lemma key_of_inj tag a b : key_of tag a = key_of tag b -> a = b.
Proof.
  unfold key_of. intros H. apply app_inv_head in H. apply app_inv_head in H.
  apply str_of_nat_inj. exact H.
Qed.

Lemma dict_set_fresh {V} (d : dict V) k v :
  ~ In k (dict_keys d) -> dict_set d k v = d ++ [(k, v)].
Proof.
  induction d as [|[k' v'] d IH]; intros H; cbn; [reflexivity|].
  destruct (text_eqb k' k) eqn:E.
  - apply text_eqb_eq in E. exfalso. apply H. left. exact E.
  - rewrite IH; [reflexivity|]. intros Hin. apply H. right. exact Hin.
Qed.

Lemma fill_dict_numbered tag cs : forall idx d,
  (forall k, In k (dict_keys d) -> exists i, i < idx /\ k = key_of tag i) ->
  fill_dict tag idx cs d
  = d ++ combine (map (key_of tag) (seq idx (length cs))) (map strip cs).
Proof.
  induction cs as [|c cs IH]; intros idx d Hd; cbn [fill_dict length seq map combine].
  - rewrite app_nil_r. reflexivity.
  - fold (key_of tag idx). rewrite dict_set_fresh.
    + rewrite IH.
      * rewrite <- app_assoc. reflexivity.
      * intros k Hk. unfold dict_keys in Hk. rewrite map_app in Hk.
        apply in_app_or in Hk as [Hk|[<-|[]]].
        -- destruct (Hd k Hk) as [i [Hi ->]]. exists i. split; [lia|reflexivity].
        -- exists idx. split; [lia|reflexivity].
    + intros Hin. destruct (Hd _ Hin) as [i [Hi He]].
      apply key_of_inj in He. lia.
Qed.

Lemma combine_fst {A B} (l : list A) : forall (l' : list B),
  length l = length l' -> map fst (combine l l') = l.
Proof.
  induction l as [|a l IH]; intros [|b l'] H; simpl in *; try discriminate; auto.
  f_equal. apply IH. lia.
Qed.

Lemma combine_snd {A B} (l : list A) : forall (l' : list B),
  length l = length l' -> map snd (combine l l') = l'.
Proof.
  induction l as [|a l IH]; intros [|b l'] H; simpl in *; try discriminate; auto.
  f_equal. apply IH. lia.
Qed.

Lemma NoDup_map_inj {A B} (f : A -> B) l :
  (forall a b, f a = f b -> a = b) -> NoDup l -> NoDup (map f l).
Proof.
  intros Hf. induction 1 as [|x l Hx Hn IH]; simpl; constructor; auto.
  intros Hin. apply in_map_iff in Hin as [y [Hy Hin]]. apply Hf in Hy. subst. auto.
Qed.

(** ** The closing brackets *)

(** The bracket that balances is the first closing bracket or a later
    one. *)
Lemma scan_close_index s : forall d j,
  scan_close d s = Some j -> exists j', index_of "]"%char s = Some j' /\ j' <= j.
Proof.
  induction s as [|c s IH]; intros d j; cbn [scan_close index_of]; [discriminate|].
  destruct (Ascii.eqb c "[") eqn:E1.
  - assert (E2 : Ascii.eqb c "]" = false)
      by (apply Ascii.eqb_eq in E1; subst c; reflexivity).
    rewrite E2. destruct (scan_close (d + 1) s) as [j0|] eqn:E; [|discriminate].
    cbn [option_map]. intros [= <-]. destruct (IH _ _ E) as [j' [-> Hle]].
    exists (S j'). split; [reflexivity|lia].
  - destruct (Ascii.eqb c "]") eqn:E2.
    + intros _. exists 0. split; [reflexivity|lia].
    + destruct (scan_close d s) as [j0|] eqn:E; [|discriminate].
      cbn [option_map]. intros [= <-]. destruct (IH _ _ E) as [j' [-> Hle]].
      exists (S j'). split; [reflexivity|lia].
Qed.

Lemma starts_with_before_close p : forall s rest,
  ~ In "]"%char p -> starts_with p s = false ->
  starts_with p (s ++ "]"%char :: rest) = false.
Proof.
  induction p as [|a p IH]; intros s rest Hp H; [discriminate H|].
  destruct s as [|b s]; cbn [app starts_with] in *.
  - destruct (Ascii.eqb a "]") eqn:E; [|reflexivity].
    apply Ascii.eqb_eq in E. exfalso. apply Hp. left. exact E.
  - destruct (Ascii.eqb a b); [|reflexivity]. cbn [andb] in *.
    apply IH; [|exact H]. intros Hin. apply Hp. right. exact Hin.
Qed.

(** The unclosed markers, read along the suffixes of the text. *)
Lemma no_unclosed_suffix x tag a b :
  no_unclosed_tags x tag = true ->
  x = a ++ b -> starts_with (marker_of tag) b = true ->
  scan_close 1 (skipn (length (marker_of tag)) b) <> None.
Proof.
  unfold no_unclosed_tags. intros H -> Hs.
  rewrite forallb_forall in H. specialize (H (length a)).
  assert (Hb : b <> []).
  { intros ->. unfold marker_of in Hs. discriminate Hs. }
  assert (Hin : In (length a) (seq 0 (length (a ++ b)))).
  { apply in_seq. rewrite length_app. destruct b; [congruence|simpl; lia]. }
  specialize (H Hin).
  assert (E1 : skipn (length a) (a ++ b) = b)
    by (rewrite skipn_app, skipn_all, Nat.sub_diag; reflexivity).
  assert (E2 : skipn (length a + length (marker_of tag)) (a ++ b)
               = skipn (length (marker_of tag)) b)
    by (rewrite Nat.add_comm, <- skipn_skipn, E1; reflexivity).
  rewrite E1, E2, Hs in H. cbn [implb] in H.
  destruct (scan_close 1 (skipn (length (marker_of tag)) b)); [discriminate|discriminate H].
Qed.

Section SameTags.

Variable tag : text.
Hypothesis tag_no_close : ~ In "]"%char tag.

Local Abbreviation marker := (marker_of tag).

(** Where the marker does not occur, up to a closing bracket, the regex
    scan finds nothing. *)
Lemma findall_gap u : forall rest,
  (forall a b, u = a ++ b -> starts_with marker b = false) ->
  Re.findall (tag_pattern tag) (u ++ "]"%char :: rest)
  = Re.findall (tag_pattern tag) rest.
Proof.
  induction u as [|c u IH]; intros rest H; cbn [app]; rewrite ReFacts.findall_cons.
  - unfold tag_pattern, marker_of. cbn. reflexivity.
  - assert (E : starts_with marker (c :: u ++ "]"%char :: rest) = false).
    { apply (@starts_with_before_close marker (c :: u) rest).
      - apply (marker_no_close tag_no_close).
      - apply (H [] (c :: u)). reflexivity. }
    unfold tag_pattern at 1. rewrite E. apply IH.
    intros a b ->. apply (H (c :: a) b). reflexivity.
Qed.

(** The regex scan finds a match where the linear scan finds one, and its
    content is the head of the content of the linear scan. *)
Lemma regex_follows_linear fuel : forall idx s,
  length s <= fuel ->
  (forall a b, s = a ++ b -> starts_with marker b = true ->
     scan_close 1 (skipn (length marker) b) <> None) ->
  Forall (fun m => str_find marker (content m) = None) (iter_from fuel marker idx s) ->
  Forall2 (fun c m => exists tail, content m = c ++ tail)
    (Re.findall (tag_pattern tag) s) (iter_from fuel marker idx s).
Proof.
  induction fuel as [|fuel IH]; intros idx s Hl Hclosed Hnest.
  - destruct s; simpl in *; [constructor|lia].
  - cbn [iter_from] in *. destruct s as [|c s]; [constructor|].
    destruct (str_find marker (c :: s)) as [k|] eqn:Ef.
    2:{ rewrite (@findall_no_marker tag); auto. }
    pose proof (str_find_some _ _ Ef) as [Hk _].
    pose proof (str_find_le _ _ Ef) as Hkl.
    rewrite (@findall_skip_to tag _ _ Ef).
    pose proof (starts_with_split _ _ Hk) as Hs1.
    rewrite skipn_skipn in Hs1. rewrite (Nat.add_comm (length marker) k) in Hs1.
    set (body := skipn (k + length marker) (c :: s)) in *.
    assert (Hbl : length body <= fuel).
    { pose proof (f_equal (@length _) Hs1) as Hlen.
      rewrite length_app, (marker_length tag) in Hlen.
      pose proof (skipn_length_le k (c :: s)). simpl in *. lia. }
    assert (Hpat : tag_pattern tag (skipn k (c :: s)) =
                   match index_of "]"%char body with
                   | Some j => Some (firstn j body, length marker + j + 1)
                   | None => None
                   end).
    { unfold tag_pattern. rewrite Hk, skipn_skipn.
      rewrite (Nat.add_comm (length marker) k). reflexivity. }
    assert (Hcons : skipn k (c :: s) = "/"%char :: tl marker ++ body).
    { rewrite Hs1. reflexivity. }
    assert (Hsc : scan_close 1 body <> None).
    { assert (Eb : skipn (length marker) (skipn k (c :: s)) = body)
        by (rewrite skipn_skipn, (Nat.add_comm (length marker) k); reflexivity).
      rewrite <- Eb. apply (Hclosed (firstn k (c :: s)) (skipn k (c :: s))); [|exact Hk].
      symmetry. apply firstn_skipn. }
    destruct (scan_close 1 body) as [j|] eqn:Ej; [|congruence].
    destruct (scan_close_index _ _ Ej) as [j' [Ei Hle]].
    pose proof (scan_close_lt _ _ Ej) as Hjl.
    destruct (scan_close_split _ _ Ej) as [Hsplit _].
    rewrite Hcons, ReFacts.findall_cons, <- Hcons, Hpat, Ei.
    rewrite (Nat.add_1_r (length marker + j')).
    assert (Hrest : skipn (length marker + j') (tl marker ++ body) = skipn (S j') body).
    { rewrite (marker_length tag). unfold marker_of.
      change (tl (T "/" ++ tag ++ T "[")) with (tag ++ T "[").
      replace (S (length tag + 1) + j') with (S j' + length (tag ++ T "["))
        by (rewrite length_app; simpl; lia).
      rewrite <- skipn_skipn, skipn_app, skipn_all, Nat.sub_diag.
      reflexivity. }
    rewrite Hrest.
    apply Forall_cons_iff in Hnest as [Hm Hms]. cbn [content] in Hm.
    assert (Hnext : Forall2 (fun c0 m => exists tail, content m = c0 ++ tail)
                      (Re.findall (tag_pattern tag) (skipn (S j) body))
                      (iter_from fuel marker (idx + k + length marker + j + 1)
                         (skipn (S j) body))).
    { apply IH; [pose proof (skipn_length_le (S j) body); lia| |exact Hms].
      intros a b Hab. apply (Hclosed (firstn (S j + (k + length marker)) (c :: s) ++ a) b).
      rewrite <- app_assoc, <- Hab. unfold body. rewrite skipn_skipn.
      symmetry. apply firstn_skipn. }
    constructor.
    + cbn [content]. exists (skipn j' (firstn j body)).
      rewrite <- (firstn_skipn j' (firstn j body)) at 1.
      rewrite firstn_firstn, Nat.min_l by exact Hle. reflexivity.
    + destruct (Nat.eq_dec j' j) as [->|Hne]; [exact Hnext|].
      assert (Hgap : skipn (S j') body
                     = skipn (S j') (firstn j body) ++ "]"%char :: skipn (S j) body).
      { rewrite Hsplit at 1. rewrite skipn_app.
        rewrite length_firstn, Nat.min_l by lia.
        replace (S j' - j) with 0 by lia. reflexivity. }
      rewrite Hgap, findall_gap; [exact Hnext|].
      intros a b Hab. apply (str_find_none _ Hm (firstn (S j') (firstn j body) ++ a) b).
      rewrite <- app_assoc, <- Hab. symmetry. apply firstn_skipn.
Qed.

End SameTags.

Lemma parser_keys tag cs :
  dict_keys (fill_dict tag 0 cs []) = map (key_of tag) (seq 0 (length cs)).
Proof.
  rewrite fill_dict_numbered by (intros k []). cbn [app].
  unfold dict_keys. apply combine_fst.
  rewrite !length_map, length_seq. reflexivity.
Qed.

(** C7, amended: for a tag name without a closing bracket and an input in
    which every marker is closed by a balancing bracket and no tag starts
    inside the bracket-balanced content of another tag, the two parsers find
    the same tags: the regex parser has a match for each match of the linear
    parser, in the same order, whose content is the head of the content of
    the linear match (up to its first closing bracket), so both mappings
    have the same keys and the keys of the regex parser are among the keys
    of the linear parser, nested brackets in a content included.  When
    moreover no content captured by the regex parser holds an opening
    bracket, the two mappings are equal. *)
Theorem regex_keys_subset_linear (x tag_name : text) :
  ~ In "]"%char tag_name ->
  no_unclosed_tags x tag_name = true ->
  no_nested_tags x tag_name ->
  Forall2 (fun c m => exists tail, content m = c ++ tail)
    (regex_matches x tag_name) (_iter_tag_matches_linear x tag_name) /\
  (forall dr dl,
     parse_thought_tags x tag_name = Ok dr ->
     parse_thought_tags_linear x tag_name = Ok dl ->
     dict_keys dr = dict_keys dl /\ incl (dict_keys dr) (dict_keys dl)) /\
  (regex_contents_flat x tag_name ->
   parse_thought_tags_linear x tag_name = parse_thought_tags x tag_name).
Proof.
  intros Htag Hclosed Hnest.
  assert (Hf : Forall2 (fun c m => exists tail, content m = c ++ tail)
                 (regex_matches x tag_name) (_iter_tag_matches_linear x tag_name)).
  { unfold regex_matches, _iter_tag_matches_linear.
    apply (regex_follows_linear tag_name Htag); [lia| |exact Hnest].
    intros a b Hab Hs. eapply no_unclosed_suffix; eauto. }
  split; [exact Hf|]. split.
  - intros dr dl Hr Hl.
    unfold parse_thought_tags, parse_thought_tags_linear in *.
    destruct (_validate_tag_name tag_name); [|discriminate].
    cbn [bind] in *. injection Hr as <-. injection Hl as <-.
    assert (E : dict_keys (fill_dict tag_name 0 (regex_matches x tag_name) [])
                = dict_keys (fill_dict tag_name 0
                               (map content (_iter_tag_matches_linear x tag_name)) [])).
    { rewrite (parser_keys tag_name (regex_matches x tag_name)).
      rewrite (parser_keys tag_name
                 (map content (_iter_tag_matches_linear x tag_name))).
      rewrite length_map. f_equal. f_equal. exact (Forall2_length Hf). }
    split; [exact E|]. rewrite E. apply incl_refl.
  - intros Hflat.
    unfold parse_thought_tags_linear, parse_thought_tags, _iter_tag_matches_linear.
    destruct (_validate_tag_name tag_name); [|reflexivity]. cbn [bind].
    rewrite linear_matches_regex; auto.
Qed.

Lemma regex_keys_subset_linear_witness :
  exists dr dl,
    parse_thought_tags (T "Start /thought[a [x] b] mid /thought[c] end") thought_tag
    = Ok dr /\
    parse_thought_tags_linear (T "Start /thought[a [x] b] mid /thought[c] end")
      thought_tag = Ok dl /\
    dict_get dr (T "thought_0") = Some (T "a [x") /\
    dict_get dl (T "thought_0") = Some (T "a [x] b") /\
    dict_keys dr = dict_keys dl /\ incl (dict_keys dr) (dict_keys dl).
Proof.
  do 2 eexists.
  assert (Er : parse_thought_tags (T "Start /thought[a [x] b] mid /thought[c] end")
                 thought_tag = Ok _) by (vm_compute; reflexivity).
  assert (El : parse_thought_tags_linear
                 (T "Start /thought[a [x] b] mid /thought[c] end") thought_tag = Ok _)
    by (vm_compute; reflexivity).
  split; [exact Er|]. split; [exact El|].
  split; [reflexivity|]. split; [reflexivity|].
  refine (proj1 (proj2 (@regex_keys_subset_linear
                          (T "Start /thought[a [x] b] mid /thought[c] end")
                          thought_tag _ _ _)) _ _ Er El).
  - vm_compute. intuition discriminate.
  - vm_compute. reflexivity.
  - unfold no_nested_tags. vm_compute. repeat constructor.
Defined.

(** * The loops terminate within their fuel *)

Lemma filter_length_le {A} (p : A -> bool) l : length (filter p l) <= length l.
Proof. induction l as [|x l IH]; simpl; [lia|]. destruct (p x); simpl; lia. Qed.

Lemma filter_length_lt {A} (p q : A -> bool) l x :
  (forall y, q y = true -> p y = true) ->
  In x l -> p x = true -> q x = false ->
  length (filter q l) < length (filter p l).
Proof.
  intros Hqp. induction l as [|a l IH]; intros Hin Hp Hq; [destruct Hin|].
  assert (Hle : length (filter q l) <= length (filter p l)).
  { clear - Hqp. induction l as [|b l IH]; simpl; [lia|].
    destruct (q b) eqn:Eq; [rewrite (Hqp b Eq); simpl; lia|].
    destruct (p b); simpl; lia. }
  simpl. destruct Hin as [->|Hin].
  - rewrite Hp, Hq. simpl. lia.
  - specialize (IH Hin Hp Hq).
    destruct (q a) eqn:Eq; [rewrite (Hqp a Eq); simpl; lia|].
    destruct (p a); simpl; lia.
Qed.

Lemma mem_app_r x l : mem x (l ++ [x]) = true.
Proof. apply mem_In. apply in_or_app. right. left. reflexivity. Qed.

Lemma mem_app_mono x y l : mem x l = true -> mem x (l ++ [y]) = true.
Proof. rewrite !mem_In. intros H. apply in_or_app. auto. Qed.

(** Every round of [get_session_lineage] that goes on takes a row of
    [sessions] that was not in the lineage. *)
Lemma lineage_loop_fuel st : forall fuel current lineage,
  length (filter (fun s => negb (mem (s_session_id s) lineage)) (sessions st)) < fuel ->
  lineage_loop fuel st current lineage <> None.
Proof.
  induction fuel as [|fuel IH]; intros current lineage Hm; [lia|].
  destruct current as [[|c cs]|]; cbn [lineage_loop]; try discriminate.
  destruct (mem (c :: cs) lineage) eqn:Em; [discriminate|].
  unfold get_session_parent.
  destruct (find (fun s => text_eqb (s_session_id s) (c :: cs)) (sessions st))
    as [row|] eqn:Ef.
  - apply find_some in Ef as [Hin Heq]. apply text_eqb_eq in Heq.
    apply IH.
    assert (Hlt : length (filter (fun s => negb (mem (s_session_id s) (lineage ++ [c :: cs])))
                            (sessions st))
                  < length (filter (fun s => negb (mem (s_session_id s) lineage))
                              (sessions st))).
    { apply (@filter_length_lt _ _ _ _ row); auto.
      - intros y Hy. apply negb_true_iff in Hy. apply negb_true_iff.
        destruct (mem (s_session_id y) lineage) eqn:E; auto.
        apply (@mem_app_mono _ (c :: cs) _) in E.
        exact (eq_trans (eq_sym E) Hy).
      - rewrite Heq, Em. reflexivity.
      - rewrite Heq, mem_app_r. reflexivity. }
    exact (Nat.lt_le_trans _ _ _ Hlt (proj1 (Nat.lt_succ_r _ _) Hm)).
  - clear IH Hm. destruct fuel as [|f]; simpl; discriminate.
Qed.

Lemma get_session_lineage_fuel st sid (include_self : bool) :
  lineage_loop (S (length (sessions st))) st
    (if include_self then Some sid else get_session_parent st sid) []
  = Some (get_session_lineage st sid include_self).
Proof.
  unfold get_session_lineage.
  destruct (lineage_loop _ st _ []) as [l|] eqn:E; [reflexivity|].
  exfalso. revert E. apply lineage_loop_fuel.
  pose proof (filter_length_le (fun s => negb (mem (s_session_id s) []))
                (sessions st)). lia.
Qed.

Lemma unseen_add st seen x :
  mem x seen = false -> In x (map e_target_id (graph_edges st)) ->
  S (length (unseen st (seen ++ [x]))) <= length (unseen st seen).
Proof.
  intros Hx Hin. unfold unseen.
  set (A := nodup (list_eq_dec ascii_dec)
              (filter (fun y => negb (mem y (seen ++ [x])))
                 (map e_target_id (graph_edges st)))).
  set (B := nodup (list_eq_dec ascii_dec)
              (filter (fun y => negb (mem y seen)) (map e_target_id (graph_edges st)))).
  change (length (x :: A) <= length B). apply NoDup_incl_length.
  - constructor; [|apply NoDup_nodup].
    unfold A. rewrite nodup_In, filter_In, mem_app_r. intros [_ H]. discriminate.
  - intros y [<-|Hy].
    + unfold B. rewrite nodup_In, filter_In, Hx. auto.
    + unfold A in Hy. unfold B. rewrite nodup_In, filter_In in *.
      destruct Hy as [H1 H2]. split; auto. apply negb_true_iff in H2.
      apply negb_true_iff. destruct (mem y seen) eqn:E; auto.
      apply (@mem_app_mono _ x _) in E.
      exact (eq_trans (eq_sym E) H2).
Qed.

Lemma visit_rows_measure st relations rows depth : forall seen out queue seen' out' queue',
  incl rows (graph_edges st) ->
  visit_rows relations rows depth seen out queue = (seen', out', queue') ->
  length queue' + length (unseen st seen') <= length queue + length (unseen st seen).
Proof.
  induction rows as [|row rows IH]; intros seen out queue seen' out' queue' Hi;
    cbn [visit_rows].
  - intros [= <- _ <-]. lia.
  - assert (Hi' : incl rows (graph_edges st)) by (intros e He; apply Hi; right; exact He).
    destruct (match relations with
              | None => false
              | Some [] => false
              | Some rels => negb (mem (e_relation row) rels)
              end); [apply IH; exact Hi'|].
    destruct (mem (e_target_id row) seen) eqn:Em; [apply IH; exact Hi'|].
    intros H. apply IH in H; [|exact Hi'].
    assert (Hu := @unseen_add st seen (e_target_id row) Em
                    (in_map e_target_id _ _ (Hi row (or_introl eq_refl)))).
    rewrite length_app in H. simpl in H. lia.
Qed.

(** Every round of [neighbors] takes an entry off the queue, and an entry
    is put on the queue with a target that was not seen. *)
Lemma bfs_fuel st hops relations limit : forall fuel seen out queue,
  length queue + length (unseen st seen) <= fuel ->
  bfs fuel st hops relations limit seen out queue <> None.
Proof.
  induction fuel as [|fuel IH]; intros seen out queue Hm.
  - destruct queue as [|[node depth] queue]; cbn [bfs]; [discriminate|].
    simpl in Hm. lia.
  - destruct queue as [|[node depth] queue]; cbn [bfs]; [discriminate|].
    destruct (negb (Z.of_nat (length out) <? limit)%Z); [discriminate|].
    simpl in Hm. destruct (hops <=? depth)%Z; [apply IH; lia|].
    destruct (visit_rows _ _ depth seen out queue) as [[seen' out'] queue'] eqn:Ev.
    apply (@visit_rows_measure st) in Ev.
    + apply IH. lia.
    + intros e He. apply firstn_In in He. apply filter_In in He as [He _]. exact He.
Qed.

Lemma neighbors_fuel st thought_id hops relations limit :
  (0 < hops)%Z ->
  bfs (S (length (graph_edges st))) st hops relations limit
    [thought_id] [] [(thought_id, 0%Z)]
  = Some (neighbors st thought_id hops relations limit).
Proof.
  intros Hh. unfold neighbors.
  replace (hops <=? 0)%Z with false by (symmetry; apply Z.leb_gt; exact Hh).
  destruct (bfs _ st hops relations limit _ _ _) as [out|] eqn:E; [reflexivity|].
  exfalso. revert E. apply bfs_fuel. unfold unseen.
  pose proof (NoDup_incl_length
                (NoDup_nodup (list_eq_dec ascii_dec)
                   (filter (fun x => negb (mem x [thought_id]))
                      (map e_target_id (graph_edges st))))
                (fun x H => proj1 (nodup_In _ _ x) H)) as H1.
  pose proof (filter_length_le (fun x => negb (mem x [thought_id]))
                (map e_target_id (graph_edges st))) as H2.
  rewrite length_map in H2. cbn [length Nat.add]. apply le_n_S.
  exact (Nat.le_trans _ _ _ H1 H2).
Qed.

(** * The graph *)

Lemma insert_edges_Some fault edges : forall i es es',
  insert_edges fault i es edges = Some es' ->
  es' = es ++ filter (fun e => negb (text_eqb (e_source_id e) (e_target_id e))) edges.
Proof.
  induction edges as [|e rest IH]; intros i es es'; simpl.
  - intros [= <-]. rewrite app_nil_r. reflexivity.
  - destruct (text_eqb (e_source_id e) (e_target_id e)); cbn [negb].
    + apply IH.
    + destruct (fault i); [discriminate|]. intros H. apply IH in H.
      rewrite H, <- app_assoc. reflexivity.
Qed.

Lemma insert_edges_no_fault edges : forall i es,
  insert_edges no_fault i es edges
  = Some (es ++ filter (fun e => negb (text_eqb (e_source_id e) (e_target_id e))) edges).
Proof.
  induction edges as [|e rest IH]; intros i es; simpl.
  - rewrite app_nil_r. reflexivity.
  - destruct (text_eqb (e_source_id e) (e_target_id e)); cbn [negb].
    + apply IH.
    + rewrite IH, <- app_assoc. reflexivity.
Qed.

(** [link_many] either leaves the state or appends the edges that are not
    self-edges; nothing else changes. *)
Lemma link_many_cases fault st edges st' r :
  link_many fault st edges = (st', r) ->
  (st' = st /\ (r = Ok tt -> edges = [])) \/
  (r = Ok tt /\
   st' = with_edges st
           (graph_edges st
            ++ filter (fun e => negb (text_eqb (e_source_id e) (e_target_id e))) edges)).
Proof.
  unfold link_many. destruct edges as [|e rest].
  - intros [= <- <-]. left. auto.
  - destruct (insert_edges fault 0 (graph_edges st) (e :: rest)) as [es|] eqn:E.
    + intros [= <- <-]. right. split; auto. apply insert_edges_Some in E. rewrite E.
      reflexivity.
    + intros [= <- <-]. left. split; auto. discriminate.
Qed.

Lemma link_many_no_self fault st edges st' r :
  no_self_edges st -> link_many fault st edges = (st', r) -> no_self_edges st'.
Proof.
  intros Hn H. apply link_many_cases in H as [[-> _]|[_ ->]]; [exact Hn|].
  unfold no_self_edges. cbn [with_edges graph_edges]. apply Forall_app. split; [exact Hn|].
  apply Forall_forall. intros e He. apply filter_In in He as [_ He].
  apply negb_true_iff, text_eqb_neq in He. exact He.
Qed.

(** [link] raises and leaves the state, or drops a self-edge, or appends
    one or two edges that satisfy the invariant. *)
Lemma link_cases fault st s t rel w bi st' r :
  link fault st s t rel w bi = (st', r) ->
  (st' = st /\ exists e, r = Err e) \/
  (st' = st /\ r = Ok tt /\ s = t) \/
  (r = Ok tt /\ s <> t /\ (0 <= w)%Q /\
   st' = with_edges st
           (graph_edges st ++ mkEdgeRow s t rel w
              :: (if bi then [mkEdgeRow t s rel w] else []))).
Proof.
  unfold link. destruct (is_nil s || is_nil t) eqn:E0; [intros [= <- <-]; eauto|].
  destruct (text_eqb s t) eqn:E1.
  { apply text_eqb_eq in E1. intros [= <- <-]. auto. }
  destruct (Qltb w 0) eqn:E2; [intros [= <- <-]; eauto|].
  assert (E4 : text_eqb t s = false)
    by (apply text_eqb_neq; apply text_eqb_neq in E1; congruence).
  apply text_eqb_neq in E1 as E1'. apply Qltb_false in E2.
  intros H. apply link_many_cases in H as [[-> Hr]|[-> ->]].
  - destruct r as [[]|e]; [|eauto]. specialize (Hr eq_refl). discriminate.
  - right. right. repeat (split; [assumption || reflexivity|]).
    f_equal. f_equal. cbn [app filter e_source_id e_target_id].
    rewrite E1. cbn [negb]. destruct bi; cbn [filter e_source_id e_target_id];
      rewrite ?E4; reflexivity.
Qed.

Lemma link_edges_ok fault st s t rel w bi st' r :
  edges_ok st -> link fault st s t rel w bi = (st', r) -> edges_ok st'.
Proof.
  intros Hok H.
  apply link_cases in H as [[-> _]|[[-> _]|[_ [Hn [Hw ->]]]]]; try exact Hok.
  unfold edges_ok. cbn [with_edges graph_edges]. apply Forall_app. split; [exact Hok|].
  constructor; [split; auto|]. destruct bi; constructor; [|constructor].
  split; cbn; auto.
Qed.

Lemma with_edges_same st : with_edges st (graph_edges st) = st.
Proof. destruct st. reflexivity. Qed.

Lemma semantic_search_with_edges cosine now st es q f l a m :
  semantic_search cosine now (with_edges st es) q f l a m
  = semantic_search cosine now st q f l a m.
Proof. reflexivity. Qed.

Lemma link_nearest_edges faults t thr nearest : forall k st st' r,
  link_nearest faults k st t thr nearest = (st', r) ->
  exists created rest,
    st' = with_edges st (graph_edges st ++ created) /\
    semantic_edges t thr nearest = created ++ rest /\
    (r = Ok tt -> rest = []) /\
    Forall edge_ok created.
Proof.
  induction nearest as [|item nearest IH]; intros k st st' r; cbn [link_nearest].
  - intros [= <- <-]. exists [], []. rewrite app_nil_r, with_edges_same. auto.
  - unfold semantic_edges. cbn [filter].
    destruct (text_eqb (id (thought item)) (id t)) eqn:E1; cbn [negb andb].
    { apply IH. }
    destruct (Qltb (semantic_score item) thr) eqn:E2; cbn [negb andb].
    { apply IH. }
    cbn [map]. fold (semantic_edges t thr nearest).
    destruct (link (faults k) st (id (thought item)) (id t) (T "semantic-similarity")
                (semantic_score item) false) as [st1 r1] eqn:El.
    apply link_cases in El as [[-> [e ->]]|[[_ [_ Heq]]|[-> [Hn [Hw ->]]]]].
    + intros [= <- <-]. exists [], (mkEdgeRow (id (thought item)) (id t)
                                     (T "semantic-similarity") (semantic_score item)
                                   :: semantic_edges t thr nearest).
      rewrite app_nil_r, with_edges_same. repeat split; auto. discriminate.
    + apply text_eqb_neq in E1. contradiction.
    + intros H. apply IH in H as [created [rest [-> [Hs [Hr Hf]]]]].
      exists (mkEdgeRow (id (thought item)) (id t) (T "semantic-similarity")
                (semantic_score item) :: created), rest.
      cbn [with_edges graph_edges store_embedding_dim vector_backend sessions thoughts
           vector_index graph_nodes].
      rewrite <- app_assoc. cbn [app]. rewrite Hs. repeat split; auto.
      constructor; auto. split; cbn; auto.
Qed.

Lemma hd_error_In {A} (l : list A) x : hd_error l = Some x -> In x l.
Proof. destruct l; simpl; [discriminate|]. intros [= ->]. auto. Qed.

Lemma previous_node_neq st t row :
  previous_node st t = Some row -> n_thought_id row <> id t.
Proof.
  unfold previous_node. intros H. apply hd_error_In in H.
  apply sort_desc_z_In in H. apply filter_In in H as [_ H].
  apply andb_true_iff in H as [H _]. apply andb_true_iff in H as [_ H].
  apply negb_true_iff, text_eqb_neq in H. exact H.
Qed.

Lemma batch_store_graph fault st ts st' r :
  batch_store fault st ts = (st', r) ->
  graph_edges st' = graph_edges st /\ graph_nodes st' = graph_nodes st.
Proof.
  unfold batch_store. destruct ts as [|t0 ts0]; [intros [= <- _]; auto|].
  destruct (existsb _ (t0 :: ts0)); [intros [= <- _]; auto|].
  destruct (insert_thoughts _ _ _ _ _) as [[ss rows]|]; [|intros [= <- _]; auto].
  destruct (vector_backend st).
  - destruct (upsert_all _ _ _) as [ix u]. intros [= <- _]. auto.
  - unfold _rebuild_vector_index_locked.
    destruct (map_result _ _); [|intros [= <- _]; auto].
    destruct (index_build _ _ _). intros [= <- _]. auto.
Qed.

Lemma store_missing_graph st t b st' r :
  store_missing st t b = (st', r) ->
  graph_edges st' = graph_edges st /\ graph_nodes st' = graph_nodes st.
Proof.
  unfold store_missing. destruct b; [|intros [= <- _]; auto].
  destruct (get_thought_by_id st (id t)) as [[t1|]|e]; try (intros [= <- _]; auto).
  unfold store. destruct (batch_store no_fault st [t]) as [st1 r1] eqn:E.
  apply batch_store_graph in E.
  destruct r1 as [[|t0 l]|e]; intros [= <- _]; exact E.
Qed.

(** The edge table after [add_thought]: the table before, then a prefix of
    the intended edges, each satisfying the invariant. *)
Lemma add_thought_edges cosine now faults st t sim sn thr tl st' r :
  add_thought cosine now faults st t sim sn thr tl = (st', r) ->
  exists created rest,
    graph_edges st' = graph_edges st ++ created /\
    intended_edges cosine now st t sim sn thr tl = created ++ rest /\
    (forall t0, r = Ok t0 -> rest = [] /\ t0 = t) /\
    Forall edge_ok created.
Proof.
  unfold add_thought, intended_edges.
  destruct (store_missing st t sim) as [st0 [u|e]] eqn:Es;
    apply store_missing_graph in Es as [Ee _].
  2:{ intros [= <- <-]. exists [], []. rewrite app_nil_r. repeat split; auto.
      discriminate. }
  cbv zeta.
  assert (E1 : graph_edges (add_node st0 t) = graph_edges st) by exact Ee.
  generalize dependent (add_node st0 t). intros st1 E1.
  (* the temporal edge *)
  assert (Ht : forall st2 r2,
             (if tl then _link_temporal_successor (faults 0) st1 t else (st1, Ok tt))
             = (st2, r2) ->
             (st2 = st1 /\ r2 = Ok tt /\ temporal_edges st1 t tl = []) \/
             (st2 = st1 /\ exists e, r2 = Err e) \/
             (r2 = Ok tt /\ exists e0, temporal_edges st1 t tl = [e0] /\ edge_ok e0 /\
                st2 = with_edges st1 (graph_edges st1 ++ [e0]))).
  { intros st2 r2. unfold temporal_edges, _link_temporal_successor.
    destruct tl; [|intros [= <- <-]; auto].
    destruct (previous_node st1 t) as [row|] eqn:Ep; [|intros [= <- <-]; auto].
    apply previous_node_neq in Ep. intros H.
    apply link_cases in H as [[-> He]|[[_ [_ Heq]]|[-> [Hn [Hw ->]]]]]; auto.
    - contradiction.
    - right. right. split; auto. eexists. split; [reflexivity|]. split; auto.
      split; cbn; auto. }
  destruct (if tl then _link_temporal_successor (faults 0) st1 t else (st1, Ok tt))
    as [st2 r2] eqn:El.
  specialize (Ht st2 r2 eq_refl).
  destruct Ht as [[-> [-> Hte]]|[[-> [e ->]]|[-> [e0 [Hte [Hok ->]]]]]].
  - (* no temporal edge *)
    rewrite Hte. cbn [app].
    destruct (0 <? sn)%Z.
    2:{ intros [= <- <-]. exists [], []. rewrite app_nil_r.
        repeat split; auto; congruence. }
    destruct (semantic_search cosine now st1 (embedding_vector t) no_filters (sn + 5) 1 500)
      as [nearest|e].
    2:{ intros [= <- <-]. exists [], []. rewrite app_nil_r.
        repeat split; auto; discriminate. }
    destruct (link_nearest faults 1 st1 t thr nearest) as [st3 r3] eqn:En.
    apply link_nearest_edges in En as [created [rest [-> [Hs [Hr Hf]]]]].
    destruct r3 as [[]|e]; intros [= <- <-]; exists created, rest;
      cbn [with_edges graph_edges]; rewrite E1;
      repeat split; auto; try discriminate; congruence.
  - (* the temporal link raises *)
    intros [= <- <-]. exists [], (temporal_edges st1 t tl ++
      (if (0 <? sn)%Z then
         match semantic_search cosine now st1 (embedding_vector t) no_filters (sn + 5) 1 500
         with Ok nearest => semantic_edges t thr nearest | Err _ => [] end
       else [])).
    rewrite app_nil_r. repeat split; auto; discriminate.
  - (* the temporal edge is committed *)
    rewrite Hte. rewrite semantic_search_with_edges.
    destruct (0 <? sn)%Z.
    2:{ intros [= <- <-]. exists [e0], []. cbn [with_edges graph_edges]. rewrite E1.
        repeat split; auto; congruence. }
    destruct (semantic_search cosine now st1 (embedding_vector t) no_filters (sn + 5) 1 500)
      as [nearest|e].
    2:{ intros [= <- <-]. exists [e0], []. cbn [with_edges graph_edges]. rewrite E1.
        repeat split; auto; discriminate. }
    destruct (link_nearest faults 1 _ t thr nearest) as [st3 r3] eqn:En.
    apply link_nearest_edges in En as [created [rest [-> [Hs [Hr Hf]]]]].
    destruct r3 as [[]|e]; intros [= <- <-]; exists (e0 :: created), rest;
      cbn [app with_edges graph_edges]; rewrite Hs, E1, <- app_assoc;
      repeat split; auto; try discriminate; congruence.
Qed.

(** C2: the invariant of the edge table and [link_many].  [link] and
    [add_thought] keep every edge with different ends and a weight that is
    not negative, and [link_many] never stores a self-edge; but [link_many]
    does not look at the weight: given the edge from [a] to [b] of weight
    [-1] it returns without raising and the edge is in the table, while
    [link] rejects the same edge. *)
Theorem link_many_accepts_negative_weight :
  (forall fault st s t rel w bi st' r,
     edges_ok st -> link fault st s t rel w bi = (st', r) -> edges_ok st') /\
  (forall cosine now faults st t sim sn thr tl st' r,
     edges_ok st -> add_thought cosine now faults st t sim sn thr tl = (st', r) ->
     edges_ok st') /\
  (forall fault st edges st' r,
     no_self_edges st -> link_many fault st edges = (st', r) -> no_self_edges st') /\
  (exists st',
     link_many no_fault Examples.unit_store [Examples.negative_edge] = (st', Ok tt) /\
     graph_edges st' = [Examples.negative_edge] /\ ~ edges_ok st') /\
  link no_fault Examples.unit_store (T "a") (T "b") (T "explicit-reference") (-1) false
  = (Examples.unit_store, Err (ValueError "weight must be non-negative")).
Proof.
  split; [|split; [|split; [|split]]].
  - intros. eapply link_edges_ok; eauto.
  - intros cosine now faults st t sim sn thr tl st' r Hok H.
    apply add_thought_edges in H as [created [rest [He [_ [_ Hf]]]]].
    unfold edges_ok. rewrite He. apply Forall_app. split; assumption.
  - intros. eapply link_many_no_self; eauto.
  - eexists. split; [reflexivity|]. split; [reflexivity|].
    intros H. inversion H as [|e l [_ Hw] _]; subst.
    apply Qle_bool_iff in Hw. discriminate Hw.
  - reflexivity.
Qed.

(** C5, counterexample: thought [a] (vector [[1.0]]) is in the graph;
    [add_thought] of thought [b] (vector [[-1.0]], same session, later)
    with [semantic_threshold = -1] commits the temporal edge from [a] to
    [b], then raises on the semantic edge of weight [-1]: the call fails and
    one of its edges is visible. *)
Lemma add_thought_not_atomic :
  graph_edges Examples.graph_with_a = [] /\
  exists st' e,
    add_thought Examples.cosine1 10 Examples.no_faults Examples.graph_with_a
      Examples.thought_b true 3 (-1) true = (st', Err e) /\
    graph_edges st' = [mkEdgeRow (T "a") (T "b") (T "temporal-successor") 1] /\
    intended_edges Examples.cosine1 10 Examples.graph_with_a Examples.thought_b
      true 3 (-1) true
    = [mkEdgeRow (T "a") (T "b") (T "temporal-successor") 1;
       mkEdgeRow (T "a") (T "b") (T "semantic-similarity") (-1)].
Proof.
  split; [vm_compute; reflexivity|].
  eexists. eexists. split; [vm_compute; reflexivity|].
  split; vm_compute; reflexivity.
Qed.

(** C5, amended: every edge of one [add_thought] call is committed by its
    own call of [link], the temporal edge first, then the semantic edges in
    the order of the search result.  After the call the edge table is the
    table before the call followed by a prefix of the edges the call set out
    to create: all of them when the call returns, those committed before the
    failure when it raises. *)
Theorem add_thought_edges_prefix cosine now faults st t sim sn thr tl st' r :
  add_thought cosine now faults st t sim sn thr tl = (st', r) ->
  exists created rest,
    graph_edges st' = graph_edges st ++ created /\
    intended_edges cosine now st t sim sn thr tl = created ++ rest /\
    (forall t0, r = Ok t0 -> rest = [] /\ t0 = t).
Proof.
  intros H. apply add_thought_edges in H as [created [rest [H1 [H2 [H3 _]]]]].
  exists created, rest. auto.
Qed.

Lemma add_thought_edges_prefix_witness :
  exists created rest,
    graph_edges
      (fst (add_thought Examples.cosine1 10 Examples.no_faults Examples.graph_with_a
              Examples.thought_b true 3 (-1) true))
    = graph_edges Examples.graph_with_a ++ created /\
    intended_edges Examples.cosine1 10 Examples.graph_with_a Examples.thought_b
      true 3 (-1) true = created ++ rest /\
    (forall t0, Err (ValueError "weight must be non-negative") = Ok t0 ->
       rest = [] /\ t0 = Examples.thought_b).
Proof.
  refine (@add_thought_edges_prefix Examples.cosine1 10 Examples.no_faults
            Examples.graph_with_a Examples.thought_b true 3 (-1) true
            (fst (add_thought Examples.cosine1 10 Examples.no_faults
                    Examples.graph_with_a Examples.thought_b true 3 (-1) true))
            (Err (ValueError "weight must be non-negative")) _).
  vm_compute. reflexivity.
Defined.

(** * Recall from prior sessions *)

Lemma dict_get_set_same {V} (d : dict V) k v : dict_get (dict_set d k v) k = Some v.
Proof.
  induction d as [|[k' v'] d IH]; simpl.
  - rewrite text_eqb_refl. reflexivity.
  - destruct (text_eqb k' k) eqn:E; simpl; rewrite E; auto.
Qed.

Lemma dict_get_set_other {V} (d : dict V) k v k' :
  k' <> k -> dict_get (dict_set d k v) k' = dict_get d k'.
Proof.
  intros Hk. induction d as [|[k0 v0] d IH]; simpl.
  - destruct (text_eqb k k') eqn:E; auto. apply text_eqb_eq in E. congruence.
  - destruct (text_eqb k0 k) eqn:E; simpl.
    + apply text_eqb_eq in E. subst k0.
      destruct (text_eqb k k') eqn:E1; auto. apply text_eqb_eq in E1. congruence.
    + destruct (text_eqb k0 k'); auto.
Qed.

Lemma dict_get_dec {V} (d : dict V) k v k' :
  dict_get (dict_set d k v) k' = if text_eqb k k' then Some v else dict_get d k'.
Proof.
  destruct (text_eqb k k') eqn:E.
  - apply text_eqb_eq in E. subst. apply dict_get_set_same.
  - apply dict_get_set_other. apply text_eqb_neq in E. congruence.
Qed.

Lemma dict_of_pairs_acc {V} (l : list (text * V)) : forall acc k,
  (forall v, dict_get (fold_left (fun d kv => dict_set d (fst kv) (snd kv)) l acc) k
             = Some v -> In (k, v) l \/ dict_get acc k = Some v) /\
  ((exists v, In (k, v) l) \/ (exists v, dict_get acc k = Some v) ->
   exists v, dict_get (fold_left (fun d kv => dict_set d (fst kv) (snd kv)) l acc) k
             = Some v).
Proof.
  induction l as [|[k0 v0] l IH]; intros acc k; cbn [fold_left fst snd].
  - split; [auto|]. intros [[v []]|H]; exact H.
  - destruct (IH (dict_set acc k0 v0) k) as [H1 H2]. split.
    + intros v Hv. apply H1 in Hv as [Hv|Hv]; [left; right; exact Hv|].
      rewrite dict_get_dec in Hv. destruct (text_eqb k0 k) eqn:E; auto.
      apply text_eqb_eq in E. injection Hv as <-. subst. left. left. reflexivity.
    + intros H. apply H2. rewrite dict_get_dec.
      destruct (text_eqb k0 k) eqn:E; [right; eauto|].
      destruct H as [[v [Hv|Hv]]|H]; [|left; eauto|right; exact H].
      injection Hv as -> _. rewrite text_eqb_refl in E. discriminate.
Qed.

Lemma dict_of_pairs_get {V} (l : list (text * V)) k v :
  dict_get (dict_of_pairs l) k = Some v -> In (k, v) l.
Proof.
  intros H. apply (proj1 (dict_of_pairs_acc l [] k)) in H as [H|H]; [exact H|discriminate].
Qed.

Lemma dict_of_pairs_has {V} (l : list (text * V)) k v :
  In (k, v) l -> exists v', dict_get (dict_of_pairs l) k = Some v'.
Proof. intros H. apply (proj2 (dict_of_pairs_acc l [] k)). left. eauto. Qed.

Lemma dict_get_In {V} (d : dict V) k v : dict_get d k = Some v -> In v (dict_values d).
Proof.
  induction d as [|[k' v'] d IH]; simpl; [discriminate|].
  destruct (text_eqb k' k); [intros [= ->]; auto|auto].
Qed.

(** The inner loop: entries stay, and every new entry is a decayed
    neighbour under a key that was free. *)
Lemma expand_neighbors_spec st lineage item ns : forall d d',
  expand_neighbors st lineage item ns d = Ok d' ->
  (forall k it, dict_get d k = Some it -> dict_get d' k = Some it) /\
  (forall k it, dict_get d' k = Some it ->
     dict_get d k = Some it \/
     (dict_get d k = None /\ In k ns /\
      exists t, get_thought_by_id st k = Ok (Some t) /\
        mem (session_id t) lineage = true /\ it = decayed item t)).
Proof.
  induction ns as [|n ns IH]; intros d d'; cbn [expand_neighbors].
  - intros [= <-]. auto.
  - destruct (dict_get d n) as [old|] eqn:Eg.
    { intros H. apply IH in H as [H1 H2]. split; [exact H1|].
      intros k it Hk. apply H2 in Hk as [Hk|[Hk [Hin Ht]]]; [auto|].
      right. split; auto. split; [right; exact Hin|exact Ht]. }
    destruct (get_thought_by_id st n) as [[t|]|e] eqn:Et; cbn [bind]; [| |discriminate].
    2:{ intros H. apply IH in H as [H1 H2]. split; [exact H1|].
        intros k it Hk. apply H2 in Hk as [Hk|[Hk [Hin Ht]]]; [auto|].
        right. split; auto. split; [right; exact Hin|exact Ht]. }
    destruct (mem (session_id t) lineage) eqn:Em; cbn [negb].
    2:{ intros H. apply IH in H as [H1 H2]. split; [exact H1|].
        intros k it Hk. apply H2 in Hk as [Hk|[Hk [Hin Ht]]]; [auto|].
        right. split; auto. split; [right; exact Hin|exact Ht]. }
    intros H. apply IH in H as [H1 H2]. split.
    + intros k it Hk. apply H1. rewrite dict_get_dec.
      destruct (text_eqb n k) eqn:E; [|exact Hk].
      apply text_eqb_eq in E. congruence.
    + intros k it Hk. apply H2 in Hk as [Hk|[Hk [Hin Ht]]].
      * rewrite dict_get_dec in Hk. destruct (text_eqb n k) eqn:E; [|auto].
        apply text_eqb_eq in E. subst k. injection Hk as <-.
        right. split; [exact Eg|]. split; [left; reflexivity|]. exists t. auto.
      * rewrite dict_get_dec in Hk. destruct (text_eqb n k) eqn:E; [discriminate|].
        right. split; [exact Hk|]. split; [right; exact Hin|exact Ht].
Qed.

Lemma expand_seeds_spec st lineage hops seeds : forall d d',
  expand_seeds st lineage hops seeds d = Ok d' ->
  (forall k it, dict_get d k = Some it -> dict_get d' k = Some it) /\
  (forall k it, dict_get d' k = Some it ->
     dict_get d k = Some it \/
     (dict_get d k = None /\ reached_from st lineage hops seeds k it)).
Proof.
  induction seeds as [|seed seeds IH]; intros d d'; cbn [expand_seeds].
  - intros [= <-]. auto.
  - destruct (expand_neighbors st lineage seed _ d) as [d1|e] eqn:E1; [|discriminate].
    cbn [bind]. intros H. apply IH in H as [H1 H2].
    apply expand_neighbors_spec in E1 as [G1 G2]. split; [auto|].
    intros k it Hk. apply H2 in Hk as [Hk|[Hk [s [t [Hs Hr]]]]].
    + apply G2 in Hk as [Hk|[Hk [Hin [t [Ht [Hm ->]]]]]]; [auto|].
      right. split; [exact Hk|]. exists seed, t. simpl. auto.
    + right. split.
      * destruct (dict_get d k) as [old|] eqn:Ed; [|reflexivity].
        apply G1 in Ed. congruence.
      * exists s, t. split; [right; exact Hs|exact Hr].
Qed.

(** The inner loop gives a decayed item to every neighbour that has no
    entry yet and is stored in a session of the lineage. *)
Lemma expand_neighbors_adds st lineage item ns : forall d d' k t,
  expand_neighbors st lineage item ns d = Ok d' ->
  dict_get d k = None -> In k ns ->
  get_thought_by_id st k = Ok (Some t) -> mem (session_id t) lineage = true ->
  dict_get d' k = Some (decayed item t).
Proof.
  induction ns as [|n ns IH]; intros d d' k t H Hd Hin Ht Hm; [destruct Hin|].
  cbn [expand_neighbors] in H.
  destruct (list_eq_dec ascii_dec n k) as [->|Hne].
  - rewrite Hd, Ht in H. cbn [bind] in H. rewrite Hm in H. cbn [negb] in H.
    apply expand_neighbors_spec in H as [H1 _]. apply H1.
    apply dict_get_set_same.
  - destruct Hin as [Hin|Hin]; [congruence|].
    assert (Hk : forall v, dict_get (dict_set d n v) k = None)
      by (intros v; rewrite dict_get_set_other by congruence; exact Hd).
    destruct (dict_get d n); [eapply IH; eauto|].
    destruct (get_thought_by_id st n) as [[t0|]|e]; cbn [bind] in H;
      [|eapply IH; eauto|discriminate].
    destruct (negb (mem (session_id t0) lineage)); eapply IH; eauto.
Qed.

(** The outer loop: the first seed that reaches a free id gives it its
    decayed item. *)
Lemma expand_seeds_first st lineage hops pre : forall seed post d d' k t,
  expand_seeds st lineage hops (pre ++ seed :: post) d = Ok d' ->
  dict_get d k = None ->
  (forall s, In s pre -> ~ In k (neighbors st (id (thought s)) hops None 25)) ->
  In k (neighbors st (id (thought seed)) hops None 25) ->
  get_thought_by_id st k = Ok (Some t) -> mem (session_id t) lineage = true ->
  dict_get d' k = Some (decayed seed t).
Proof.
  induction pre as [|s pre IH]; intros seed post d d' k t H Hd Hpre Hin Ht Hm;
    cbn [app expand_seeds] in H.
  - destruct (expand_neighbors st lineage seed _ d) as [d1|e] eqn:E1; [|discriminate].
    cbn [bind] in H. apply expand_seeds_spec in H as [H1 _]. apply H1.
    eapply expand_neighbors_adds; eauto.
  - destruct (expand_neighbors st lineage s _ d) as [d1|e] eqn:E1; [|discriminate].
    cbn [bind] in H. eapply IH; eauto.
    + destruct (dict_get d1 k) as [v|] eqn:E; [|reflexivity].
      apply expand_neighbors_spec in E1 as [_ G2].
      apply G2 in E as [E|[_ [Hk _]]]; [congruence|].
      exfalso. apply (Hpre s); [left; reflexivity|exact Hk].
    + intros s' Hs'. apply Hpre. right. exact Hs'.
Qed.

(** Keys of a dict are distinct. *)
Lemma dict_set_keys {V} (d : dict V) k v :
  dict_keys (dict_set d k v)
  = if mem k (dict_keys d) then dict_keys d else dict_keys d ++ [k].
Proof.
  unfold mem, dict_keys. induction d as [|[k' v'] d IH]; cbn; [reflexivity|].
  destruct (text_eqb k' k) eqn:E.
  - apply text_eqb_eq in E. subst. rewrite text_eqb_refl. reflexivity.
  - assert (E' : text_eqb k k' = false)
      by (apply text_eqb_neq; apply text_eqb_neq in E; congruence).
    rewrite E'. cbn. rewrite IH. destruct (existsb _ _); reflexivity.
Qed.

Lemma dict_set_nodup {V} (d : dict V) k v :
  NoDup (dict_keys d) -> NoDup (dict_keys (dict_set d k v)).
Proof.
  intros H. rewrite dict_set_keys. destruct (mem k (dict_keys d)) eqn:E; [exact H|].
  apply NoDup_app; [exact H|constructor; [simpl; tauto|constructor]|].
  intros x Hx [<-|[]]. apply mem_In in Hx. congruence.
Qed.

Lemma dict_of_pairs_nodup {V} (l : list (text * V)) : NoDup (dict_keys (dict_of_pairs l)).
Proof.
  unfold dict_of_pairs.
  assert (H : forall acc, NoDup (dict_keys acc) ->
            NoDup (dict_keys (fold_left (fun d kv => dict_set d (fst kv) (snd kv)) l acc))).
  { induction l as [|kv l IH]; intros acc Ha; simpl; auto.
    apply IH. apply dict_set_nodup. exact Ha. }
  apply H. constructor.
Qed.

Lemma dict_values_get {V} (d : dict V) v :
  NoDup (dict_keys d) -> In v (dict_values d) -> exists k, dict_get d k = Some v.
Proof.
  induction d as [|[k' v'] d IH]; cbn; [tauto|].
  intros Hn [->|Hin].
  - exists k'. rewrite text_eqb_refl. reflexivity.
  - inversion Hn as [|? ? Hk Hd]; subst. destruct (IH Hd Hin) as [k Hk'].
    exists k. destruct (text_eqb k' k) eqn:E; [|exact Hk'].
    apply text_eqb_eq in E. subst k'. exfalso. apply Hk.
    clear - Hk'. induction d as [|[k0 v0] d IH]; cbn in *; [discriminate|].
    destruct (text_eqb k0 k) eqn:E; [apply text_eqb_eq in E; auto|auto].
Qed.

Lemma expand_neighbors_nodup st lineage item ns : forall d d',
  expand_neighbors st lineage item ns d = Ok d' ->
  NoDup (dict_keys d) -> NoDup (dict_keys d').
Proof.
  induction ns as [|n ns IH]; intros d d'; cbn [expand_neighbors].
  - intros [= <-]. auto.
  - destruct (dict_get d n); [apply IH|].
    destruct (get_thought_by_id st n) as [[t|]|e]; cbn [bind]; [|apply IH|discriminate].
    destruct (negb (mem (session_id t) lineage)); [apply IH|].
    intros H Hn. eapply IH; [exact H|]. apply dict_set_nodup. exact Hn.
Qed.

Lemma expand_seeds_nodup st lineage hops seeds : forall d d',
  expand_seeds st lineage hops seeds d = Ok d' ->
  NoDup (dict_keys d) -> NoDup (dict_keys d').
Proof.
  induction seeds as [|seed seeds IH]; intros d d'; cbn [expand_seeds].
  - intros [= <-]. auto.
  - destruct (expand_neighbors st lineage seed _ d) as [d1|e] eqn:E1; [|discriminate].
    cbn [bind]. intros H Hn. eapply IH; [exact H|].
    eapply expand_neighbors_nodup; eauto.
Qed.

Lemma py_firstn_In {A} n (l : list A) x : In x (py_firstn n l) -> In x l.
Proof. unfold py_firstn. destruct (0 <=? n)%Z; apply firstn_In. Qed.

Lemma py_firstn_sorted {A} (key : A -> Q) n l :
  StronglySorted (key_ge key) l -> StronglySorted (key_ge key) (py_firstn n l).
Proof. unfold py_firstn. destruct (0 <=? n)%Z; apply firstn_sorted. Qed.


Lemma dict_values_In {V} (d : dict V) v :
  NoDup (dict_keys d) -> (In v (dict_values d) <-> exists k, dict_get d k = Some v).
Proof.
  intros Hn. split; [apply dict_values_get; exact Hn|].
  intros [k Hk]. eapply dict_get_In; eauto.
Qed.

Lemma py_firstn_all {A} (n : Z) (l : list A) :
  (Z.of_nat (length l) <= n)%Z -> py_firstn n l = l.
Proof.
  intros H. unfold py_firstn. replace (0 <=? n)%Z with true by (symmetry; apply Z.leb_le; lia).
  apply firstn_all2. lia.
Qed.



(** * The reflection engine *)

(** ** The reads return *)

Lemma get_thought_by_id_total st k :
  store_inv st -> exists o, get_thought_by_id st k = Ok o.
Proof.
  intros Hi. unfold get_thought_by_id.
  destruct (find _ (thoughts st)) as [row|] eqn:E; [|eauto].
  apply find_some in E as [E _]. apply store_inv_decode in Hi.
  unfold rows_decode in Hi. rewrite Forall_forall in Hi.
  destruct (Hi row E) as [t Ht]. rewrite Ht. cbn [bind]. eauto.
Qed.

Lemma index_search_total cosine dim ix query top_k :
  Z.of_nat (length query) = dim ->
  exists c, index_search cosine dim ix query top_k = Ok c.
Proof.
  intros Hq. unfold index_search. destruct (ix_matrix ix); [eauto|].
  rewrite length_map. apply Z.eqb_eq in Hq. rewrite Hq. cbn [negb]. eauto.
Qed.

Lemma rank_candidates_total now st candidates filters limit alpha :
  store_inv st -> exists r, rank_candidates now st candidates filters limit alpha = Ok r.
Proof.
  intros Hi. unfold rank_candidates. destruct candidates as [|c cs]; [eauto|].
  destruct (surviving_rows st (c :: cs) filters) as [|r0 rs] eqn:Es; [eauto|].
  rewrite <- Es.
  match goal with
  | |- context [map_result ?f ?l] => destruct (@map_result_total _ _ f l) as [scored E]
  end.
  { apply Forall_forall. intros r Hr. apply score_row_total.
    apply store_inv_decode in Hi. unfold rows_decode in Hi.
    rewrite Forall_forall in Hi. apply Hi. eapply surviving_rows_incl; eauto. }
  rewrite E. cbn [bind]. eauto.
Qed.

Lemma semantic_search_total cosine now st query filters limit alpha mc :
  store_inv st -> Qle_bool 0 alpha && Qle_bool alpha 1 = true ->
  Z.of_nat (length query) = store_embedding_dim st ->
  exists r, semantic_search cosine now st query filters limit alpha mc = Ok r.
Proof.
  intros Hi Ha Hq. unfold semantic_search. rewrite Ha. cbn [negb].
  destruct (@index_search_total cosine (store_embedding_dim st) (vector_index st) query
              (Z.max (limit * 10) (Z.min mc 1000)) Hq) as [c Hc].
  rewrite Hc. cbn [bind]. apply rank_candidates_total. exact Hi.
Qed.

Lemma expand_neighbors_total st lineage item ns : forall d,
  store_inv st -> exists d', expand_neighbors st lineage item ns d = Ok d'.
Proof.
  induction ns as [|k ns IH]; intros d Hi; cbn [expand_neighbors]; [eauto|].
  destruct (dict_get d k); [auto|].
  destruct (@get_thought_by_id_total st k Hi) as [[t|] Ht]; rewrite Ht; cbn [bind]; auto.
  destruct (negb (mem (session_id t) lineage)); auto.
Qed.

Lemma expand_seeds_total st lineage hops seeds : forall d,
  store_inv st -> exists d', expand_seeds st lineage hops seeds d = Ok d'.
Proof.
  induction seeds as [|s seeds IH]; intros d Hi; cbn [expand_seeds]; [eauto|].
  destruct (@expand_neighbors_total st lineage s
              (neighbors st (id (thought s)) hops None 25) d Hi) as [d1 E].
  rewrite E. cbn [bind]. auto.
Qed.

Lemma recall_total cosine now st query sid graph limit alpha hops :
  store_inv st -> Qle_bool 0 alpha && Qle_bool alpha 1 = true ->
  Z.of_nat (length query) = store_embedding_dim st ->
  exists r, recall_from_prior_sessions cosine now st query sid graph limit alpha hops = Ok r.
Proof.
  intros Hi Ha Hq. unfold recall_from_prior_sessions.
  destruct (get_session_lineage st sid false) as [|l0 ls]; [eauto|].
  destruct (@semantic_search_total cosine now st query no_filters (Z.max 30 (limit * 4))
              alpha 500 Hi Ha Hq) as [found E].
  rewrite E. cbn [bind]. destruct (negb graph || (hops <=? 0)%Z); [eauto|].
  match goal with
  | |- context [expand_seeds ?a ?b ?c ?d ?e] =>
      destruct (@expand_seeds_total a b c d e Hi) as [d' E']
  end.
  rewrite E'. cbn [bind]. eauto.
Qed.

(** ** The thoughts built from the parsed tags *)

Lemma Thought_new_valid id0 ts s c q tg raw cl vec dim t :
  Thought_new id0 ts s c q tg raw cl vec dim = Ok t -> Thought_valid t.
Proof.
  intros H. destruct (Thought_new_Ok _ _ _ _ _ _ _ _ _ _ H)
    as [H1 [H2 [H3 [H4 [H5 [H6 [H7 [H8 [_ Ht]]]]]]]]].
  unfold Thought_valid. rewrite Ht at 1 2 3 4 5 6 7 8 9 10.
  cbn [id timestamp_utc session_id category confidence tags raw_text cleaned_text
       embedding_vector embedding_dim].
  rewrite Thought_new_intro; rewrite ?strip_whitespace_idem, ?map_strip_whitespace_idem; auto.
  rewrite <- Ht. reflexivity.
Qed.

Lemma py_clamp_unit q :
  Qle_bool 0 (py_max 0 (py_min 1 q)) && Qle_bool (py_max 0 (py_min 1 q)) 1 = true.
Proof.
  apply andb_true_iff. split; apply Qle_bool_iff; [apply py_max_l|].
  unfold py_max, py_min.
  destruct (Qltb q 1) eqn:E1.
  - destruct (Qltb 0 q) eqn:E2; [|discriminate].
    apply Qltb_true in E1. apply Qlt_le_weak. exact E1.
  - destruct (Qltb 0 1) eqn:E2; [apply Qle_refl|discriminate].
Qed.

Lemma parse_one_item env dc conf n m p :
  strip dc <> [] ->
  parse_one env dc conf n m = Some p ->
  strip (p_category p) <> [] /\
  Qle_bool 0 (p_confidence p) && Qle_bool (p_confidence p) 1 = true /\
  strip (p_content p) <> [].
Proof.
  intros Hdc. unfold parse_one.
  destruct (is_nil (strip (snd m))) eqn:E; [discriminate|].
  intros [= <-]. cbn [p_category p_confidence p_content]. split; [|split].
  - match goal with
    | |- context [if is_nil ?c then _ else _] => destruct (is_nil c) eqn:Ec; [exact Hdc|]
    end.
    apply is_nil_false in Ec.
    match goal with
    | |- context [dict_get ?d ?k] => destruct (dict_get d k)
    end; rewrite strip_idem; exact Ec.
  - apply py_clamp_unit.
  - rewrite strip_idem. apply is_nil_false. exact E.
Qed.

Lemma parse_matches_items env dc conf ms : forall n,
  strip dc <> [] ->
  Forall (fun p => strip (p_category p) <> [] /\
                   Qle_bool 0 (p_confidence p) && Qle_bool (p_confidence p) 1 = true /\
                   strip (p_content p) <> [])
    (parse_matches env dc conf n ms).
Proof.
  induction ms as [|m ms IH]; intros n Hdc; cbn [parse_matches]; [constructor|].
  destruct (parse_one env dc conf n m) as [p|] eqn:E; [|auto].
  constructor; [eapply parse_one_item; eauto|auto].
Qed.

Lemma parse_matches_nonempty env dc conf ms : forall n,
  parse_matches env dc conf n ms <> [] <->
  exists m, In m ms /\ strip (snd m) <> [].
Proof.
  induction ms as [|m ms IH]; intros n; cbn [parse_matches].
  - split; [congruence|intros [m [[] _]]].
  - unfold parse_one at 1. destruct (is_nil (strip (snd m))) eqn:E.
    + rewrite IH. split.
      * intros [m' [H1 H2]]. exists m'. simpl. auto.
      * intros [m' [[<-|H1] H2]]; [|eauto].
        destruct (strip (snd m)); [congruence|discriminate].
    + split; [|discriminate]. intros _. exists m. split; [left; reflexivity|].
      apply is_nil_false. exact E.
Qed.

Lemma parse_nonempty_iff env n s dc conf :
  parse_structured_thoughts env n s dc conf <> [] <-> parseable s.
Proof. apply parse_matches_nonempty. Qed.

Lemma reflection_thought_total env now session mode item :
  strip session <> [] -> (0 < dimension env)%Z ->
  (forall s, Z.of_nat (length (embed env s)) = dimension env) ->
  strip (p_category item) <> [] ->
  Qle_bool 0 (p_confidence item) && Qle_bool (p_confidence item) 1 = true ->
  strip (p_content item) <> [] ->
  exists t, reflection_thought env now session mode item = Ok t /\
    Thought_valid t /\ embedding_dim t = dimension env.
Proof.
  intros Hs Hd He Hc Hq Hb. unfold reflection_thought.
  apply strip_whitespace_nonempty in Hs, Hc, Hb.
  assert (Hv : embed env (p_content item) <> []).
  { intros E. specialize (He (p_content item)). rewrite E in He. simpl in He. lia. }
  eexists. split; [apply Thought_new_intro; auto; rewrite He; exact Hd|].
  split.
  - eapply Thought_new_valid. apply Thought_new_intro; auto. rewrite He. exact Hd.
  - cbn [embedding_dim]. apply He.
Qed.

Lemma existsb_no_fault l : existsb no_fault l = false.
Proof. induction l; simpl; auto. Qed.

Lemma create_session_ok st sid parent :
  strip sid <> [] ->
  exists ss, create_session st sid parent None = (with_tables st ss (thoughts st), Ok tt).
Proof.
  intros H. unfold create_session. apply is_nil_false in H. rewrite H. eauto.
Qed.

(** ** One cycle *)

(** The cycle up to the graph stage: the recall, the prompt, the session
    and the batch all succeed; what is left is the graph stage. *)
Lemma reflect_run env now n st graph query sid mode top_k rsid llm :
  reflect_ready env st sid rsid ->
  dict_get REFLECTION_TEMPLATES mode <> None ->
  exists prompt recalled ss to_store st2,
    let st1 := with_tables st ss (thoughts st) in
    length to_store
    = length (parse_structured_thoughts env (n + 2) (llm prompt)
                (if text_eqb mode (T "planning") then T "plan" else T "reflection")
                (9 # 10)) /\
    (match to_store with
     | [] => (st1, Ok [])
     | _ :: _ => batch_store no_fault st1 to_store
     end) = (st2, Ok to_store) /\
    reflect env now n st graph query sid mode top_k rsid (Some llm)
    = match (if graph then
               match add_reflections env now st2 to_store recalled [] with
               | (st3, Err e) => (st3, Err e)
               | (st3, Ok pending_edges) =>
                   match pending_edges with
                   | [] => (st3, Ok tt)
                   | _ :: _ => link_many no_fault st3 pending_edges
                   end
               end
             else (st2, Ok tt)) with
      | (st4, Err e) => (st4, Err e)
      | (st4, Ok _) =>
          (st4, Ok (mkReflectionResult (llm prompt) prompt recalled to_store))
      end.
Proof.
  intros [Hi [Hd [Hdim [He [Hs Hr]]]]] Hm.
  unfold reflect.
  destruct (dict_get REFLECTION_TEMPLATES mode) as [tpl|] eqn:Em; [|congruence].
  assert (Hq : Z.of_nat (length (embed env query)) = store_embedding_dim st)
    by (rewrite He; exact Hdim).
  destruct (@semantic_search_total (cosine env) now st (embed env query)
              (mkFilters (Some sid) None None None None None) top_k (95 # 100) 500
              Hi eq_refl Hq) as [current_hits E1].
  rewrite E1.
  destruct (@recall_total (cosine env) now st (embed env query) sid graph top_k
              (95 # 100) 1 Hi eq_refl Hq) as [prior_hits E2].
  rewrite E2. cbv zeta.
  set (recalled := firstn (Z.to_nat (Z.max 1 top_k))
                     (dict_values
                        (dict_of_pairs
                           (map (fun hit => (id (thought hit), thought hit))
                              (current_hits ++ prior_hits))))).
  unfold build_reflection_prompt. rewrite Em.
  match goal with
  | |- context [llm ?p] => set (prompt := p)
  end.
  set (dc := if text_eqb mode (T "planning") then T "plan" else T "reflection").
  set (parsed := parse_structured_thoughts env (n + 2) (llm prompt) dc (9 # 10)).
  set (session := match rsid with
                  | Some ((_ :: _) as r) => r
                  | _ => sid
                  end).
  assert (Hsess : strip session <> []).
  { unfold session. destruct rsid as [[|c r]|]; auto. apply (Hr (c :: r) eq_refl); discriminate. }
  assert (Hcs : exists ss,
             match rsid with
             | Some ((_ :: _) as r) =>
                 if negb (text_eqb r sid)
                 then create_session st r (Some sid) None
                 else create_session st sid None None
             | _ => create_session st sid None None
             end = (with_tables st ss (thoughts st), Ok tt)).
  { destruct rsid as [[|c r]|]; try (apply create_session_ok; exact Hs).
    destruct (negb (text_eqb (c :: r) sid)); apply create_session_ok; auto;
      try (apply (Hr (c :: r) eq_refl); discriminate). }
  destruct Hcs as [ss Hcs]. rewrite Hcs.
  set (st1 := with_tables st ss (thoughts st)).
  assert (Hi1 : store_inv st1) by exact Hi.
  assert (Hdc : strip dc <> []) by (unfold dc; destruct (text_eqb _ _); discriminate).
  assert (Hts : exists to_store,
             map_result (reflection_thought env now session mode) parsed = Ok to_store /\
             Forall Thought_valid to_store /\
             Forall (fun t => embedding_dim t = dimension env) to_store /\
             length to_store = length parsed).
  { pose proof (@parse_matches_items env dc (9 # 10)
                  (Re.findall _THOUGHT_PATTERN (llm prompt)) (n + 2) Hdc) as Hp.
    fold (parse_structured_thoughts env (n + 2) (llm prompt) dc (9 # 10)) in Hp.
    fold parsed in Hp. clearbody parsed.
    induction Hp as [|item items [Hc [Hq' Hb]] Hp IH]; cbn [map_result].
    - exists []. repeat split; constructor.
    - destruct (@reflection_thought_total env now session mode item Hsess Hd He Hc Hq' Hb)
        as [t [Et [Hv Hdim']]].
      destruct IH as [ts [Ets [Hvs [Hds Hl]]]].
      rewrite Et, Ets. cbn [bind]. exists (t :: ts).
      repeat split; try constructor; auto. simpl. congruence. }
  destruct Hts as [to_store [Ets [Hvs [Hds Hl]]]]. rewrite Ets.
  assert (Hbs : exists st2,
             match to_store with
             | [] => (st1, Ok [])
             | _ :: _ => batch_store no_fault st1 to_store
             end = (st2, Ok to_store)).
  { destruct to_store as [|t0 ts0] eqn:Eto; [eauto|]. rewrite <- Eto in *.
    pose proof (@batch_store_cases no_fault st1 to_store Hvs
                  (fun _ => store_inv_wf Hi1)) as Hc.
    replace (batch_fails no_fault st1 to_store) with false in Hc.
    - destruct Hc as [ix [Hc _]]. eauto.
    - symmetry. unfold batch_fails. rewrite existsb_no_fault, orb_false_r.
      destruct (existsb _ to_store) eqn:Eb; [|reflexivity].
      apply existsb_exists in Eb as [t [Hin Hne]].
      rewrite Forall_forall in Hds. rewrite (Hds t Hin) in Hne.
      cbn [st1 with_tables store_embedding_dim] in Hne.
      rewrite Hdim, Z.eqb_refl in Hne. discriminate. }
  destruct Hbs as [st2 Hbs].
  exists prompt, recalled, ss, to_store, st2. cbv zeta. fold st1.
  split; [exact Hl|]. split; [exact Hbs|].
  rewrite Hbs. reflexivity.
Qed.

(** ** The scan of the tags *)

Lemma lower_lt_inv c : lower c = "<"%char -> c = "<"%char.
Proof.
  unfold lower. destruct ((65 <=? nat_of_ascii c) && (nat_of_ascii c <=? 90)) eqn:E; auto.
  apply andb_true_iff in E as [E1 E2]. apply Nat.leb_le in E1, E2.
  intros H. apply (f_equal nat_of_ascii) in H.
  rewrite nat_ascii_embedding in H by lia.
  change (nat_of_ascii "<"%char) with 60 in H. lia.
Qed.

Lemma starts_with_ci_nth p : forall s,
  starts_with_ci p s = true ->
  forall k, k < length p ->
    exists c, nth_error s k = Some c /\ lower c = nth k p "000"%char.
Proof.
  induction p as [|a p IH]; intros s H k Hk; [simpl in Hk; lia|].
  destruct s as [|b s]; [discriminate|]. simpl in H.
  apply andb_true_iff in H as [H1 H2]. apply Ascii.eqb_eq in H1.
  destruct k as [|k]; simpl.
  - exists b. auto.
  - apply IH; auto. simpl in Hk. lia.
Qed.

Lemma starts_with_ci_self p r :
  map lower p = p -> starts_with_ci p (p ++ r) = true.
Proof.
  induction p as [|a p IH]; intros H; simpl; auto.
  injection H as Ha Hp. rewrite Ha, Ascii.eqb_refl. simpl. auto.
Qed.

Lemma index_of_nth c s i :
  index_of c s = Some i ->
  nth_error s i = Some c /\ forall k, k < i -> nth_error s k <> Some c.
Proof.
  revert i. induction s as [|a s IH]; intros i; simpl; [discriminate|].
  destruct (Ascii.eqb a c) eqn:E.
  - intros [= <-]. apply Ascii.eqb_eq in E. subst. split; auto. intros k Hk; lia.
  - destruct (index_of c s) as [i'|]; [|discriminate]. simpl. intros [= <-].
    destruct (IH i' eq_refl) as [H1 H2]. split; auto.
    intros [|k] Hk; simpl.
    + intros [= ->]. rewrite Ascii.eqb_refl in E. discriminate.
    + apply H2. lia.
Qed.

Lemma index_of_app_notin c a r :
  ~ In c a -> index_of c (a ++ c :: r) = Some (length a).
Proof.
  induction a as [|x a IH]; intros H; simpl.
  - rewrite Ascii.eqb_refl. reflexivity.
  - destruct (Ascii.eqb x c) eqn:E.
    + apply Ascii.eqb_eq in E. subst. exfalso. apply H. left. reflexivity.
    + rewrite IH; [reflexivity|]. intros Hin. apply H. right. exact Hin.
Qed.

Lemma find_ci_starts p : forall s j,
  find_ci p s = Some j -> starts_with_ci p (skipn j s) = true.
Proof.
  induction s as [|a s IH]; intros j; simpl.
  - destruct (starts_with_ci p []) eqn:E; [|discriminate]. intros [= <-]. exact E.
  - destruct (starts_with_ci p (a :: s)) eqn:E.
    + intros [= <-]. exact E.
    + destruct (find_ci p s) as [j'|] eqn:Ej; [|discriminate]. simpl.
      intros [= <-]. simpl. apply IH. reflexivity.
Qed.

Lemma find_ci_clean p body r :
  ~ In "<"%char body -> starts_with_ci ("<"%char :: p) r = true ->
  find_ci ("<"%char :: p) (body ++ r) = Some (length body).
Proof.
  intros Hb Hr. induction body as [|c body IH].
  - simpl app. destruct r as [|x r]; [discriminate|].
    cbn [find_ci]. rewrite Hr. reflexivity.
  - cbn [app find_ci starts_with_ci length].
    destruct (Ascii.eqb "<"%char (lower c)) eqn:E.
    + apply Ascii.eqb_eq in E. symmetry in E. apply lower_lt_inv in E.
      exfalso. apply Hb. left. auto.
    + cbn [andb]. rewrite IH; [reflexivity|]. intros Hin. apply Hb. right. exact Hin.
Qed.

Lemma drop_while_keeps p s c :
  In c s -> p c = false -> In c (drop_while p s).
Proof.
  induction s as [|a s IH]; intros Hin Hp; [destruct Hin|]. simpl.
  destruct (p a) eqn:E; [|exact Hin].
  destruct Hin as [->|Hin]; [congruence|auto].
Qed.

Lemma strip_nonblank s c : In c s -> is_space c = false -> strip s <> [].
Proof.
  intros Hin Hc. unfold strip.
  assert (H : In c (rev (drop_while is_space (rev (drop_while is_space s))))).
  { apply in_rev. rewrite rev_involutive. apply drop_while_keeps; auto.
    apply in_rev. rewrite rev_involutive. apply drop_while_keeps; auto. }
  intros E. rewrite E in H. destruct H.
Qed.

Lemma skipn_app_len {A} (a b : list A) : skipn (length a) (a ++ b) = b.
Proof. induction a; simpl; auto. Qed.

Lemma firstn_app_len {A} (a b : list A) : firstn (length a) (a ++ b) = a.
Proof. induction a; simpl; auto. f_equal. auto. Qed.

Lemma thought_pattern_inv s g1 g2 len :
  _THOUGHT_PATTERN s = Some ((g1, g2), len) ->
  exists i j,
    starts_with_ci open_tag s = true /\
    index_of ">"%char (skipn 8 s) = Some i /\
    find_ci close_tag (skipn (9 + i) s) = Some j /\
    g2 = firstn j (skipn (9 + i) s) /\
    len = 9 + i + j + 10.
Proof.
  unfold _THOUGHT_PATTERN. destruct (starts_with_ci open_tag s) eqn:E1; [|discriminate].
  change (length open_tag) with 8. change (length close_tag) with 10.
  destruct (skipn 8 s) as [|c r1] eqn:Er; [discriminate|].
  destruct (is_word c); [discriminate|].
  destruct (index_of ">"%char (c :: r1)) as [i|] eqn:E2; [|discriminate].
  assert (Es : skipn (S i) (c :: r1) = skipn (9 + i) s).
  { rewrite <- Er, skipn_skipn. f_equal. lia. }
  rewrite Es.
  destruct (find_ci close_tag (skipn (9 + i) s)) as [j|] eqn:E3; [|discriminate].
  intros [= <- <- <-]. exists i, j. repeat split; auto; lia.
Qed.

Lemma open_tag_lt k : 0 < k < 8 -> lower "<"%char <> nth k open_tag "000"%char.
Proof.
  intros Hk. do 8 (destruct k as [|k]; [try lia; discriminate|]). lia.
Qed.

Lemma close_tag_lt k : 0 < k < 10 -> lower "<"%char <> nth k close_tag "000"%char.
Proof.
  intros Hk. do 10 (destruct k as [|k]; [try lia; discriminate|]). lia.
Qed.

Section TagInText.
Variables pre attrs body post : text.
Hypothesis attrs_closed : ~ In ">"%char attrs.
Hypothesis attrs_boundary :
  match attrs with
  | [] => True
  | c :: _ => is_word c = false
  end.
Hypothesis body_plain : ~ In "<"%char body.
Hypothesis body_nonblank : strip body <> [].

Let tail : text := body ++ close_tag ++ post.
Let s : text := pre ++ open_tag ++ attrs ++ ">"%char :: tail.
Let P : nat := length pre.
Let Q : nat := length pre + 8 + length attrs.

Lemma tag_head : nth_error s P = Some "<"%char /\ nth_error s (S P) = Some "t"%char.
Proof.
  unfold s, P. split.
  - rewrite nth_error_app2 by lia. rewrite Nat.sub_diag. reflexivity.
  - rewrite nth_error_app2 by lia.
    replace (S (length pre) - length pre) with 1 by lia. reflexivity.
Qed.

Lemma tag_open_free k : P <= k < Q -> nth_error s k <> Some ">"%char.
Proof.
  unfold s, P, Q. intros [H1 H2]. rewrite nth_error_app2 by lia.
  remember (k - length pre) as m eqn:Em.
  assert (Hm : m < 8 + length attrs) by lia. clear Em H1 H2.
  rewrite app_assoc. rewrite nth_error_app1 by (rewrite length_app; simpl; lia).
  intros H. apply nth_error_In in H. apply in_app_or in H as [H|H].
  - revert H. clear. simpl. intuition discriminate.
  - contradiction.
Qed.

Lemma tag_close_at : nth_error s Q = Some ">"%char.
Proof.
  unfold s, Q. rewrite !app_assoc. rewrite nth_error_app2; rewrite !length_app; simpl.
  - replace (_ - _) with 0 by lia. reflexivity.
  - lia.
Qed.

Lemma tag_tail : skipn (S Q) s = tail.
Proof.
  unfold s, Q.
  replace (pre ++ open_tag ++ attrs ++ ">"%char :: tail)
    with ((pre ++ open_tag ++ attrs ++ [">"%char]) ++ tail)
    by (rewrite <- !app_assoc; reflexivity).
  replace (S (length pre + 8 + length attrs))
    with (length (pre ++ open_tag ++ attrs ++ [">"%char]))
    by (rewrite !length_app; simpl; lia).
  apply skipn_app_len.
Qed.

Lemma tail_close : find_ci close_tag tail = Some (length body).
Proof.
  unfold tail. apply find_ci_clean; [exact body_plain|].
  apply (@starts_with_ci_self close_tag post). reflexivity.
Qed.

(** The pattern matches at the tag and captures its content. *)
Lemma pattern_at_tag :
  pre = [] ->
  _THOUGHT_PATTERN s = Some ((attrs, body), 9 + length attrs + length body + 10).
Proof.
  intros Hpre. unfold s. rewrite Hpre. cbn [app].
  unfold _THOUGHT_PATTERN.
  rewrite (@starts_with_ci_self open_tag (attrs ++ ">"%char :: tail)) by reflexivity.
  rewrite skipn_app_len.
  assert (Hw : exists c r, attrs ++ ">"%char :: tail = c :: r /\ is_word c = false).
  { destruct attrs as [|c r]; [exists ">"%char, tail; auto|].
    exists c, (r ++ ">"%char :: tail). auto. }
  destruct Hw as [c [r [Ec Hw]]].
  destruct (attrs ++ ">"%char :: tail) as [|c' r'] eqn:Ea; [discriminate|].
  injection Ec as -> ->. rewrite Hw. rewrite <- Ea.
  rewrite index_of_app_notin by exact attrs_closed.
  replace (skipn (S (length attrs)) (attrs ++ ">"%char :: tail)) with tail.
  2:{ replace (attrs ++ ">"%char :: tail) with ((attrs ++ [">"%char]) ++ tail)
        by (rewrite <- app_assoc; reflexivity).
      replace (S (length attrs)) with (length (attrs ++ [">"%char]))
        by (rewrite length_app; simpl; lia).
      symmetry. apply skipn_app_len. }
  rewrite tail_close. rewrite firstn_app_len. unfold tail. rewrite firstn_app_len.
  change (length open_tag) with 8. change (length close_tag) with 10.
  reflexivity.
Qed.

(** A match that starts before the tag and runs into it captures a
    content that is not blank. *)
Lemma pattern_over_tag g1 g2 len :
  pre <> [] ->
  _THOUGHT_PATTERN s = Some ((g1, g2), len) ->
  P < len ->
  strip g2 <> [].
Proof.
  intros Hpre Hm Hlen.
  apply thought_pattern_inv in Hm as [i [j [H1 [H2 [H3 [-> ->]]]]]].
  destruct tag_head as [Hlt Ht].
  assert (HP : 0 < P) by (unfold P; destruct pre; [congruence|simpl; lia]).
  (* the opening literal lies before the tag *)
  assert (HP8 : 8 <= P).
  { destruct (le_lt_dec 8 P) as [|Hl]; auto. exfalso.
    destruct (@starts_with_ci_nth open_tag s H1 P Hl) as [c [Hc Hlow]].
    rewrite Hlt in Hc. injection Hc as <-.
    revert Hlow. apply open_tag_lt. lia. }
  apply index_of_nth in H2 as [Hi Hmin].
  rewrite nth_error_skipn in Hi.
  destruct (le_lt_dec P (8 + i)) as [Hge|Hlt'].
  - (* the first [>] is the one of the tag *)
    assert (HQ : 8 + i = Q).
    { destruct (Nat.lt_trichotomy (8 + i) Q) as [Hl|[He|Hg]]; auto; exfalso.
      - apply (@tag_open_free (8 + i)); auto.
      - apply (Hmin (Q - 8)); [unfold Q in *; lia|].
        rewrite nth_error_skipn. replace (8 + (Q - 8)) with Q by (unfold Q; lia).
        apply tag_close_at. }
    replace (9 + i) with (S Q) in * by lia.
    rewrite tag_tail in *. rewrite tail_close in H3. injection H3 as <-.
    unfold tail. rewrite firstn_app_len. exact body_nonblank.
  - (* the content runs over the head of the tag *)
    apply find_ci_starts in H3.
    assert (Hc : forall k, k < 10 ->
               exists c, nth_error s (9 + i + j + k) = Some c /\
                         lower c = nth k close_tag "000"%char).
    { intros k Hk.
      destruct (@starts_with_ci_nth close_tag _ H3 k Hk) as [c [Hc Hl]].
      rewrite !nth_error_skipn in Hc. exists c. split; auto.
      rewrite <- Hc. f_equal. lia. }
    assert (Hj : P < 9 + i + j).
    { destruct (le_lt_dec (9 + i + j) P) as [Hle|]; auto. exfalso.
      destruct (Hc (P - (9 + i + j))) as [c [Hc1 Hc2]]; [lia|].
      replace (9 + i + j + (P - (9 + i + j))) with P in Hc1 by lia.
      rewrite Hlt in Hc1. injection Hc1 as <-.
      destruct (Nat.eq_dec P (9 + i + j)) as [E|E].
      + destruct (Hc 1) as [c [Hd1 Hd2]]; [lia|].
        replace (9 + i + j + 1) with (S P) in Hd1 by lia.
        rewrite Ht in Hd1. injection Hd1 as <-. discriminate Hd2.
      + revert Hc2. apply close_tag_lt. lia. }
    apply (@strip_nonblank _ "<"%char); [|reflexivity].
    apply (@nth_error_In _ _ (P - (9 + i))).
    rewrite nth_error_firstn, nth_error_skipn.
    replace (9 + i + (P - (9 + i))) with P by lia.
    replace (P - (9 + i) <? j) with true by (symmetry; apply Nat.ltb_lt; lia).
    exact Hlt.
Qed.

End TagInText.

(** A well-formed tag with a content that is not blank is found by the
    scan, wherever it stands, or a match that swallows it is. *)
Lemma tag_found attrs body post :
  ~ In ">"%char attrs ->
  match attrs with
  | [] => True
  | c :: _ => is_word c = false
  end ->
  ~ In "<"%char body ->
  strip body <> [] ->
  forall pre,
    parseable (pre ++ open_tag ++ attrs ++ ">"%char :: body ++ close_tag ++ post).
Proof.
  intros Ha Hw Hb Hn pre. len_ind pre IH.
  destruct pre as [|c pre].
  - pose proof (@pattern_at_tag [] attrs body post Ha Hw Hb eq_refl) as Hm.
    cbn [app] in *. change (open_tag ++ ?r) with ("<"%char :: skipn 1 open_tag ++ r) in *.
    unfold parseable. rewrite ReFacts.findall_cons, Hm.
    exists (attrs, body). split; [left; reflexivity|exact Hn].
  - set (rest := open_tag ++ attrs ++ ">"%char :: body ++ close_tag ++ post) in *.
    assert (Htail : parseable (pre ++ rest)) by (apply IH; simpl; lia).
    unfold parseable. cbn [app]. rewrite ReFacts.findall_cons.
    destruct (_THOUGHT_PATTERN (c :: pre ++ rest)) as [[[g1 g2] [|n]]|] eqn:Em;
      try exact Htail.
    destruct (le_lt_dec n (length pre)) as [Hle|Hgt].
    + assert (Hs : skipn n (pre ++ rest) = skipn n pre ++ rest).
      { rewrite skipn_app. replace (n - length pre) with 0 by lia. reflexivity. }
      rewrite Hs.
      destruct (IH (skipn n pre)) as [m [Hin Hm]].
      { rewrite length_skipn. simpl. lia. }
      exists m. split; [right; exact Hin|exact Hm].
    + exists (g1, g2). split; [left; reflexivity|]. cbn [snd].
      apply (@pattern_over_tag (c :: pre) attrs body post Ha Hb Hn g1 g2 (S n));
        [discriminate|exact Em|simpl; lia].
Qed.

Lemma well_formed_parseable s : well_formed_tag s -> parseable s.
Proof.
  intros [pre [attrs [body [post [-> [Ha [Hw [Hb Hn]]]]]]]].
  apply tag_found; assumption.
Qed.

(** C4, counterexample: the model answers [<thought></thought>].  The tag
    is well formed and the pattern matches it, but its content is empty and
    the parser drops it: the cycle returns with no stored reflection. *)
Lemma reflect_empty_tag_stores_nothing :
  Re.findall _THOUGHT_PATTERN (Examples.empty_tag_llm []) = [([], [])] /\
  exists st' r,
    reflect Examples.env1 10 0 Examples.unit_store false (T "q") (T "s1")
      (T "reasoning") 8 None (Some Examples.empty_tag_llm) = (st', Ok r) /\
    reflection_text r = T "<thought></thought>" /\
    stored_reflections r = [].
Proof.
  split; [vm_compute; reflexivity|].
  eexists. eexists. split; [vm_compute; reflexivity|]. split; reflexivity.
Qed.

(** C4, amended: for a supported mode, a store written by [batch_store],
    an embedder of the dimension of the store and session ids that are not
    blank.  If the parser keeps no tag of the output, the cycle returns a
    result without stored reflections and leaves the thoughts as they were.
    If the output holds a well-formed tag whose content is not blank, every
    result the cycle returns has at least one stored reflection; without a
    graph the cycle returns, and every stored reflection is in the table. *)
Theorem reflect_stores_parsed env now n st graph query sid mode top_k rsid llm :
  reflect_ready env st sid rsid ->
  dict_get REFLECTION_TEMPLATES mode <> None ->
  let call := reflect env now n st graph query sid mode top_k rsid (Some llm) in
  ((forall p, ~ parseable (llm p)) ->
   exists r, snd call = Ok r /\ stored_reflections r = [] /\
     thoughts (fst call) = thoughts st) /\
  ((forall p, well_formed_tag (llm p)) ->
   (forall r, snd call = Ok r -> stored_reflections r <> []) /\
   (graph = false ->
    exists r, snd call = Ok r /\
      forall t, In t (stored_reflections r) ->
        In (id t) (map r_id (thoughts (fst call))))).
Proof.
  intros Hready Hmode call.
  destruct (@reflect_run env now n st graph query sid mode top_k rsid llm Hready Hmode)
    as [prompt [recalled [ss [to_store [st2 [Hl [Hb Hrun]]]]]]].
  fold call in Hrun. cbv zeta in Hl, Hb. split.
  - intros Hno.
    assert (Hp : parse_structured_thoughts env (n + 2) (llm prompt)
                   (if text_eqb mode (T "planning") then T "plan" else T "reflection")
                   (9 # 10) = []).
    { match goal with
      | |- ?l = [] => destruct l eqn:E; [reflexivity|]
      end.
      exfalso. apply (Hno prompt).
      apply (parse_nonempty_iff env (n + 2) (llm prompt)
               (if text_eqb mode (T "planning") then T "plan" else T "reflection")
               (9 # 10)).
      rewrite E. discriminate. }
    rewrite Hp in Hl. destruct to_store; [|discriminate].
    injection Hb as <-. rewrite Hrun. destruct graph; cbn; eauto.
  - intros Hwf.
    assert (Hne : to_store <> []).
    { intros E. rewrite E in Hl. symmetry in Hl. apply length_zero_iff_nil in Hl.
      revert Hl. apply parse_nonempty_iff. apply well_formed_parseable. apply Hwf. }
    split.
    + intros r Hr. rewrite Hrun in Hr.
      destruct (if graph then _ else _) as [st4 [u|e]]; [|discriminate].
      cbn in Hr. injection Hr as <-. exact Hne.
    + intros ->. rewrite Hrun. cbn. eexists. split; [reflexivity|].
      cbn [stored_reflections]. intros t Hin.
      destruct to_store as [|t0 ts0] eqn:Eto; [congruence|]. rewrite <- Eto in *.
      apply batch_store_Ok in Hb as [_ Hrows]. rewrite Hrows.
      apply batch_rows_ids. exact Hin.
Qed.

Lemma note_llm_well_formed p : well_formed_tag (Examples.note_llm p).
Proof.
  exists (T "ok "), (T " category=" ++ [DQ] ++ T "plan" ++ [DQ]), (T "ship it"), (T ".").
  split; [reflexivity|]. split; [simpl; intuition discriminate|].
  split; [reflexivity|]. split; [simpl; intuition discriminate|].
  vm_compute. discriminate.
Defined.

Lemma env1_ready : reflect_ready Examples.env1 Examples.unit_store (T "s1") None.
Proof.
  split; [apply new_store_inv|]. split; [reflexivity|]. split; [reflexivity|].
  split; [intros s; reflexivity|]. split; [vm_compute; discriminate|].
  intros r H. discriminate H.
Defined.

Lemma reflect_stores_parsed_witness :
  exists r,
    snd (reflect Examples.env1 10 0 Examples.unit_store false (T "q") (T "s1")
           (T "planning") 8 None (Some Examples.note_llm)) = Ok r /\
    forall t, In t (stored_reflections r) ->
      In (id t)
        (map r_id
           (thoughts
              (fst (reflect Examples.env1 10 0 Examples.unit_store false (T "q")
                      (T "s1") (T "planning") 8 None (Some Examples.note_llm))))).
Proof.
  refine (proj2 (proj2 (@reflect_stores_parsed Examples.env1 10 0 Examples.unit_store
                          false (T "q") (T "s1") (T "planning") 8 None
                          Examples.note_llm _ _) _) eq_refl).
  - exact env1_ready.
  - vm_compute. discriminate.
  - exact note_llm_well_formed.
Defined.
(** * Limits and ranking of the searches *)

(** ** The first row of a sort *)

(** A stable descending sort puts first the first element of the list that
    has the largest key. *)
Lemma sort_desc_z_head {A} (key : A -> Z) l : forall top rest,
  sort_desc_z key l = top :: rest ->
  (forall r, In r l -> (key r <= key top)%Z) /\
  exists pre post, l = pre ++ top :: post /\
    forall r, In r pre -> (key r < key top)%Z.
Proof.
  induction l as [|x l IH]; intros top rest; cbn [sort_desc_z]; [discriminate|].
  destruct (sort_desc_z key l) as [|top' rest'] eqn:Es.
  - assert (l = []) by (apply length_zero_iff_nil; rewrite <- (sort_desc_z_length key l), Es;
                        reflexivity).
    subst l. cbn. intros [= <- <-]. split.
    + intros r [->|[]]. lia.
    + exists [], []. split; [reflexivity|intros r []].
  - destruct (IH top' rest' eq_refl) as [Hmax [pre [post [El Hpre]]]].
    cbn [insert_desc_z]. destruct (key x <? key top')%Z eqn:E.
    + apply Z.ltb_lt in E. intros [= <- <-]. split.
      * intros r [->|Hr]; [lia|auto].
      * exists (x :: pre), post. split; [rewrite El; reflexivity|].
        intros r [->|Hr]; auto.
    + apply Z.ltb_ge in E. intros [= <- <-]. split.
      * intros r [->|Hr]; [lia|]. specialize (Hmax r Hr). lia.
      * exists [], l. split; [reflexivity|intros r []].
Qed.

Lemma sort_desc_z_nil {A} (key : A -> Z) l : sort_desc_z key l = [] -> l = [].
Proof.
  intros E. apply length_zero_iff_nil. rewrite <- (sort_desc_z_length key l), E.
  reflexivity.
Qed.

(** The first row of the SELECT of [_query_rows_locked]. *)
Lemma query_head filters rows top rest :
  sort_desc_z r_timestamp_utc (sql_scan filters (filter (sql_where filters) rows))
  = top :: rest ->
  most_recent filters rows top.
Proof.
  intros E. apply sort_desc_z_head in E as [Hmax [pre [post [El Hpre]]]].
  unfold most_recent. unfold sql_scan in *.
  assert (Hrev : match f_session_id filters, f_category filters with
                 | None, None =>
                     filter (sql_where filters) rows = rev post ++ top :: rev pre
                 | _, _ => filter (sql_where filters) rows = pre ++ top :: post
                 end).
  { destruct (f_session_id filters), (f_category filters); try exact El.
    apply (f_equal (@rev _)) in El. rewrite rev_involutive in El. rewrite El.
    rewrite rev_app_distr. cbn [rev]. rewrite <- app_assoc. reflexivity. }
  assert (Hall : forall r, In r (filter (sql_where filters) rows) ->
                   (r_timestamp_utc r <= r_timestamp_utc top)%Z).
  { intros r Hr. apply Hmax.
    destruct (f_session_id filters), (f_category filters); try exact Hr.
    apply in_rev in Hr. exact Hr. }
  destruct (f_session_id filters), (f_category filters);
    try (exists pre, post; split; [exact Hrev|]; split; [|exact Hpre];
         intros r Hr; apply Hall; rewrite Hrev;
         apply in_app_or in Hr as [Hr|Hr]; apply in_or_app; [left|right; right]; exact Hr).
  exists (rev post), (rev pre). split; [exact Hrev|]. split.
  - intros r Hr. apply Hall. rewrite Hrev.
    apply in_app_or in Hr as [Hr|Hr]; apply in_or_app; [left|right; right]; exact Hr.
  - intros r Hr. apply Hpre. apply in_rev. exact Hr.
Qed.

(** ** What [semantic_search] computes *)

Lemma semantic_search_Ok cosine now st query filters limit alpha max_candidates result :
  semantic_search cosine now st query filters limit alpha max_candidates = Ok result ->
  Qle_bool 0 alpha && Qle_bool alpha 1 = true /\
  exists candidates scored,
    index_search cosine (store_embedding_dim st) (vector_index st) query
      (Z.max (limit * 10) (Z.min max_candidates 1000)) = Ok candidates /\
    Forall2 (scored_from alpha candidates
               (max_age_of (map (fun r => age_of now (r_timestamp_utc r))
                              (surviving_rows st candidates filters))) now)
      (surviving_rows st candidates filters) scored /\
    result = firstn (Z.to_nat (Z.max 1 limit)) (sort_desc score scored).
Proof.
  unfold semantic_search.
  destruct (Qle_bool 0 alpha && Qle_bool alpha 1) eqn:Ha; [|discriminate].
  cbn [negb].
  destruct (index_search _ _ _ _ _) as [candidates|e]; [|discriminate].
  cbn [bind]. intros H. split; [reflexivity|]. exists candidates.
  unfold rank_candidates in H.
  destruct candidates as [|c cs].
  { injection H as <-. exists []. rewrite surviving_rows_nil.
    split; [reflexivity|]. split; [constructor|]. symmetry. apply firstn_nil. }
  set (cands := c :: cs) in *. clearbody cands.
  destruct (surviving_rows st cands filters) as [|r0 rs] eqn:Es.
  { injection H as <-. exists []. split; [reflexivity|]. split; [constructor|].
    symmetry. apply firstn_nil. }
  rewrite <- Es in *. clear Es r0 rs.
  destruct (map_result _ (surviving_rows st cands filters)) as [scored|e] eqn:Em;
    [|discriminate].
  cbn [bind] in H. injection H as <-. exists scored.
  split; [reflexivity|]. split; [|reflexivity].
  apply map_result_Ok in Em. revert Em. apply Forall2_impl_In.
  intros r it _. apply score_row_Ok.
Qed.

(** ** The clamped limit *)



(** ** The order of the ids *)

Lemma nat_of_ascii_inj x y : nat_of_ascii x = nat_of_ascii y -> x = y.
Proof.
  intros H. rewrite <- (ascii_nat_embedding x), <- (ascii_nat_embedding y), H.
  reflexivity.
Qed.

Lemma text_ltb_irrefl a : text_ltb a a = false.
Proof.
  induction a as [|x a IH]; cbn [text_ltb]; [reflexivity|].
  rewrite Nat.ltb_irrefl, Nat.eqb_refl, IH. reflexivity.
Qed.

Lemma text_ltb_cons x a y b :
  text_ltb (x :: a) (y :: b) = true <->
  nat_of_ascii x < nat_of_ascii y \/ (x = y /\ text_ltb a b = true).
Proof.
  cbn [text_ltb]. rewrite orb_true_iff, andb_true_iff, Nat.ltb_lt, Nat.eqb_eq.
  split; intros [H|[H1 H2]]; auto.
  - right. split; [apply nat_of_ascii_inj; exact H1|exact H2].
  - right. subst. auto.
Qed.

Lemma text_ltb_trans a : forall b c,
  text_ltb a b = true -> text_ltb b c = true -> text_ltb a c = true.
Proof.
  induction a as [|x a IH]; intros [|y b] [|z c]; try (cbn; congruence).
  rewrite !text_ltb_cons. intros [H1|[-> H1]] [H2|[-> H2]].
  - left. lia.
  - left. exact H1.
  - left. exact H2.
  - right. split; [reflexivity|]. eapply IH; eauto.
Qed.

Lemma text_ltb_total a : forall b,
  text_ltb a b = true \/ a = b \/ text_ltb b a = true.
Proof.
  induction a as [|x a IH]; intros [|y b]; try (cbn [text_ltb]; auto; fail).
  rewrite !text_ltb_cons.
  destruct (Nat.lt_total (nat_of_ascii x) (nat_of_ascii y)) as [H|[H|H]]; auto.
  apply nat_of_ascii_inj in H. subst y.
  destruct (IH b) as [H|[->|H]]; auto.
Qed.

(** Not below: the order in which a stable ascending sort may leave two
    elements. *)
Lemma text_not_below_trans x y z :
  text_ltb y x = false -> text_ltb z y = false -> text_ltb z x = false.
Proof.
  intros H1 H2. destruct (text_ltb z x) eqn:E; [|reflexivity].
  destruct (text_ltb_total y x) as [H|[->|H]]; [congruence|congruence|].
  rewrite (text_ltb_trans _ _ _ E H) in H2. discriminate.
Qed.

Lemma text_ltb_asym x y : text_ltb x y = true -> text_ltb y x = false.
Proof.
  intros H. destruct (text_ltb y x) eqn:E; [|reflexivity].
  rewrite <- (text_ltb_irrefl x). symmetry. eapply text_ltb_trans; eauto.
Qed.

Lemma insert_asc_text_sorted {A} (key : A -> text) x l :
  StronglySorted (fun a b => text_ltb (key b) (key a) = false) l ->
  StronglySorted (fun a b => text_ltb (key b) (key a) = false)
    (insert_asc_text key x l).
Proof.
  induction 1 as [|y l Hs IH Hy]; cbn [insert_asc_text].
  - constructor; constructor.
  - destruct (text_ltb (key y) (key x)) eqn:E.
    + constructor; [exact IH|]. apply Forall_forall. intros z Hz.
      apply insert_asc_text_In in Hz as [->|Hz].
      * apply text_ltb_asym. exact E.
      * rewrite Forall_forall in Hy. auto.
    + constructor; [constructor; auto|]. constructor; [exact E|].
      apply Forall_forall. intros z Hz. rewrite Forall_forall in Hy.
      eapply text_not_below_trans; [exact E|]. auto.
Qed.

Lemma sort_asc_text_sorted {A} (key : A -> text) l :
  StronglySorted (fun a b => text_ltb (key b) (key a) = false) (sort_asc_text key l).
Proof.
  induction l as [|x l IH]; cbn [sort_asc_text]; [constructor|].
  apply insert_asc_text_sorted. exact IH.
Qed.

Lemma surviving_rows_ascending st candidates filters :
  id_ascending (surviving_rows st candidates filters).
Proof.
  unfold id_ascending, surviving_rows, _fetch_rows_by_ids_locked.
  apply StronglySorted_filter. apply sort_asc_text_sorted.
Qed.

(** ** Ranking *)

Lemma max_age_attained ages : forall init,
  fold_left py_max ages init = init \/ In (fold_left py_max ages init) ages.
Proof.
  induction ages as [|x ages IH]; intros init; cbn [fold_left]; [auto|].
  destruct (IH (py_max init x)) as [E|Hin]; [|right; right; exact Hin].
  rewrite E. unfold py_max. destruct (Qltb init x); [right; left; reflexivity|auto].
Qed.

Lemma plane_store_inv : store_inv Examples.plane_store.
Proof.
  refine (@batch_store_inv no_fault (new_store 2 NumpyBackend)
            [Examples.north_a; Examples.east_b] _
            (snd (batch_store no_fault (new_store 2 NumpyBackend)
                    [Examples.north_a; Examples.east_b])) _ _ _).
  - apply new_store_inv.
  - repeat constructor; vm_compute; reflexivity.
  - apply surjective_pairing.
Defined.




(** * Further properties of the store *)

(** ** Sessions *)

Lemma find_insert_session_other ss p k :
  k <> p ->
  find (fun s => text_eqb (s_session_id s) k) (insert_session_if_absent ss p)
  = find (fun s => text_eqb (s_session_id s) k) ss.
Proof.
  intros Hk. unfold insert_session_if_absent. destruct (existsb _ ss); [reflexivity|].
  induction ss as [|s ss IH]; simpl.
  - destruct (text_eqb p k) eqn:E; auto. apply text_eqb_eq in E. congruence.
  - destruct (text_eqb (s_session_id s) k); auto.
Qed.

Lemma find_insert_session_same ss p :
  exists row, find (fun s => text_eqb (s_session_id s) p) (insert_session_if_absent ss p)
              = Some row /\
    (find (fun s => text_eqb (s_session_id s) p) ss = None ->
     row = mkSessionRow p None) /\
    (forall old, find (fun s => text_eqb (s_session_id s) p) ss = Some old -> row = old).
Proof.
  unfold insert_session_if_absent.
  destruct (existsb (fun s => text_eqb (s_session_id s) p) ss) eqn:E.
  - apply existsb_exists in E as [x [Hx Hp]].
    destruct (find (fun s => text_eqb (s_session_id s) p) ss) as [row|] eqn:Ef.
    + exists row. repeat split; congruence.
    + exfalso. eapply find_none in Ef; eauto. congruence.
  - assert (Ef : find (fun s => text_eqb (s_session_id s) p) ss = None).
    { destruct (find _ ss) as [row|] eqn:Ef; auto.
      apply find_some in Ef as [H1 H2].
      assert (existsb (fun s => text_eqb (s_session_id s) p) ss = true)
        by (apply existsb_exists; eauto). congruence. }
    exists (mkSessionRow p None). split; [|split; [auto|congruence]].
    clear E. induction ss as [|s ss IH]; simpl in *.
    + rewrite text_eqb_refl. reflexivity.
    + destruct (text_eqb (s_session_id s) p); [discriminate|auto].
Qed.

Lemma find_upsert_session_same ss sid parent :
  find (fun s => text_eqb (s_session_id s) sid) (upsert_session ss sid parent)
  = Some (mkSessionRow sid parent).
Proof.
  induction ss as [|s ss IH]; simpl.
  - rewrite text_eqb_refl. reflexivity.
  - destruct (text_eqb (s_session_id s) sid) eqn:E; simpl.
    + rewrite text_eqb_refl. reflexivity.
    + rewrite E. exact IH.
Qed.

Lemma find_upsert_session_other ss sid parent k :
  k <> sid ->
  find (fun s => text_eqb (s_session_id s) k) (upsert_session ss sid parent)
  = find (fun s => text_eqb (s_session_id s) k) ss.
Proof.
  intros Hk. induction ss as [|s ss IH]; simpl.
  - destruct (text_eqb sid k) eqn:E; auto. apply text_eqb_eq in E. congruence.
  - destruct (text_eqb (s_session_id s) sid) eqn:E; simpl.
    + apply text_eqb_eq in E.
      destruct (text_eqb sid k) eqn:E1; [apply text_eqb_eq in E1; congruence|].
      rewrite E, E1. reflexivity.
    + destruct (text_eqb (s_session_id s) k); auto.
Qed.

Lemma insert_session_parents ss p k :
  match find (fun s => text_eqb (s_session_id s) k) (insert_session_if_absent ss p) with
  | Some s => s_parent_session_id s
  | None => None
  end
  = match find (fun s => text_eqb (s_session_id s) k) ss with
    | Some s => s_parent_session_id s
    | None => None
    end.
Proof.
  destruct (list_eq_dec ascii_dec k p) as [->|Hkp].
  - destruct (find_insert_session_same ss p) as [row [H [H0 H1]]].
    rewrite H.
    destruct (find (fun s => text_eqb (s_session_id s) p) ss) as [old|].
    + rewrite (H1 old eq_refl). reflexivity.
    + rewrite (H0 eq_refl). reflexivity.
  - rewrite find_insert_session_other by exact Hkp. reflexivity.
Qed.

(** X1: [create_session] and [get_session_parent].  A blank [session_id] is
    rejected and nothing is written.  Otherwise, when [json.dumps] accepts
    the metadata (or none is given), the call succeeds; the session then has
    exactly the parent given (also when it replaces an earlier one), a
    parent that is not blank has a row, the parent of every other session
    is what it was, and the thoughts are untouched.  When [json.dumps]
    raises, the call raises that exception and the session is not written,
    but the row of a parent that is not blank has been inserted and nothing
    is rolled back: the reads that follow see that row, the parents, the
    thoughts, the index and the edges being what they were. *)
Theorem create_session_sets_parent st sid parent metadata :
  (strip sid = [] ->
   exists e, create_session st sid parent metadata = (st, Err e)) /\
  (strip sid <> [] -> (forall e, metadata <> Some (Err e)) ->
   exists st', create_session st sid parent metadata = (st', Ok tt) /\
     get_session_parent st' sid = parent /\
     (forall p, parent = Some p -> strip p <> [] ->
        exists row, find (fun s => text_eqb (s_session_id s) p) (sessions st') = Some row) /\
     (forall k, k <> sid -> get_session_parent st' k = get_session_parent st k) /\
     thoughts st' = thoughts st /\ vector_index st' = vector_index st /\
     graph_edges st' = graph_edges st) /\
  (strip sid <> [] -> forall e, metadata = Some (Err e) ->
   exists st', create_session st sid parent metadata = (st', Err e) /\
     (forall k, get_session_parent st' k = get_session_parent st k) /\
     (forall p, parent = Some p -> strip p <> [] ->
        exists row, find (fun s => text_eqb (s_session_id s) p) (sessions st') = Some row) /\
     (find (fun s => text_eqb (s_session_id s) sid) (sessions st') = None <->
      find (fun s => text_eqb (s_session_id s) sid) (sessions st) = None /\
      forall p, parent = Some p -> strip p <> [] -> p <> sid) /\
     thoughts st' = thoughts st /\ vector_index st' = vector_index st /\
     graph_edges st' = graph_edges st).
Proof.
  unfold create_session. split; [|split]; intros Hs.
  - rewrite Hs. simpl. eauto.
  - intros Hm. apply is_nil_false in Hs. rewrite Hs.
    assert (Em : forall (A : Type) (x : result text -> A) (y : A),
               match metadata with
               | Some (Err e) => x (Err e)
               | _ => y
               end = y).
    { intros A x y. destruct metadata as [[j|e]|]; auto. destruct (Hm e eq_refl). }
    rewrite (Em _ (fun m => match m with
                            | Err e => (with_tables st _ (thoughts st), Err e)
                            | Ok _ => (st, Ok tt)
                            end)).
    eexists. split; [reflexivity|].
    unfold get_session_parent. cbn [with_tables sessions thoughts vector_index graph_edges].
    split; [rewrite find_upsert_session_same; reflexivity|].
    split; [|split; [|auto]].
    + intros p -> Hp. apply is_nil_false in Hp. rewrite Hp.
      destruct (list_eq_dec ascii_dec p sid) as [->|Hne].
      * rewrite find_upsert_session_same. eauto.
      * rewrite find_upsert_session_other by exact Hne.
        destruct (find_insert_session_same (sessions st) p) as [row [H _]]. eauto.
    + intros k Hk. rewrite find_upsert_session_other by exact Hk.
      destruct parent as [p|]; [|reflexivity].
      destruct (is_nil (strip p)); [reflexivity|].
      apply insert_session_parents.
  - intros e ->. apply is_nil_false in Hs. rewrite Hs.
    eexists. split; [reflexivity|].
    unfold get_session_parent. cbn [with_tables sessions thoughts vector_index graph_edges].
    split; [|split; [|split; [|auto]]].
    + intros k. destruct parent as [p|]; [|reflexivity].
      destruct (is_nil (strip p)); [reflexivity|].
      apply insert_session_parents.
    + intros p -> Hp. apply is_nil_false in Hp. rewrite Hp.
      destruct (find_insert_session_same (sessions st) p) as [row [H _]]. eauto.
    + destruct parent as [p|].
      2:{ split; [intros H; split; [exact H|discriminate]|intros [H _]; exact H]. }
      destruct (is_nil (strip p)) eqn:Ep.
      { split; [intros H; split; [exact H|]|intros [H _]; exact H].
        intros p0 [= <-] Hp. apply is_nil_false in Hp. congruence. }
      destruct (list_eq_dec ascii_dec p sid) as [->|Hne].
      * destruct (find_insert_session_same (sessions st) sid) as [row [H _]].
        rewrite H. split; [discriminate|].
        intros [_ H2]. exfalso. apply (H2 sid eq_refl); [|reflexivity].
        apply is_nil_false. exact Ep.
      * rewrite find_insert_session_other by (intros E; apply Hne; symmetry; exact E).
        split; [intros H; split; [exact H|]|intros [H _]; exact H].
        intros p0 [= <-] _. exact Hne.
Qed.

Lemma create_session_sets_parent_witness :
  exists st',
    create_session Examples.unit_store (T "s") (Some (T "p"))
      (Some (Err (TypeError "Object of type set is not JSON serializable")))
    = (st', Err (TypeError "Object of type set is not JSON serializable")) /\
    map s_session_id (sessions st') = [T "p"] /\
    get_session_parent st' (T "s") = None /\
    thoughts st' = thoughts Examples.unit_store.
Proof.
  assert (Hs : strip (T "s") <> []) by (vm_compute; discriminate).
  destruct (proj2 (proj2 (@create_session_sets_parent Examples.unit_store (T "s")
                            (Some (T "p"))
                            (Some (Err (TypeError
                               "Object of type set is not JSON serializable")))))
              Hs _ eq_refl)
    as [st' [E [Hp [_ [_ [Ht _]]]]]].
  exists st'. split; [exact E|]. split.
  - pose proof E as E'. vm_compute in E'. injection E' as <-. reflexivity.
  - split; [rewrite Hp; reflexivity|exact Ht].
Defined.

Lemma parent_chain_snoc st l c :
  parent_chain st l ->
  (l <> [] -> get_session_parent st (last l []) = Some c) ->
  parent_chain st (l ++ [c]).
Proof.
  induction l as [|a l IH]; intros Hc Hl; [exact I|].
  destruct l as [|b l].
  - simpl. split; [apply Hl; discriminate|exact I].
  - destruct Hc as [Hab Hc]. cbn [app parent_chain]. split; [exact Hab|].
    apply IH; [exact Hc|]. intros _. apply Hl. discriminate.
Qed.

Lemma last_snoc {A} (l : list A) c d : last (l ++ [c]) d = c.
Proof. apply last_last. Qed.

Lemma lineage_loop_spec st : forall fuel current lineage out,
  lineage_loop fuel st current lineage = Some out ->
  NoDup lineage -> ~ In [] lineage -> parent_chain st lineage ->
  (lineage <> [] -> get_session_parent st (last lineage []) = current) ->
  NoDup out /\ ~ In [] out /\ parent_chain st out /\
  (exists rest, out = lineage ++ rest) /\
  (lineage = [] ->
   hd_error out = match current with
                  | Some (c :: cs) => Some (c :: cs)
                  | _ => None
                  end) /\
  (out <> [] -> lineage_ends st out).
Proof.
  induction fuel as [|fuel IH]; intros current lineage out H Hn He Hc Hl.
  - destruct current as [[|c cs]|]; cbn [lineage_loop] in H.
    + injection H as <-. repeat split; auto.
      * exists []. rewrite app_nil_r. reflexivity.
      * intros ->. reflexivity.
      * intros Hne. unfold lineage_ends. rewrite (Hl Hne). exact I.
    + destruct (mem (c :: cs) lineage) eqn:Em; [|discriminate].
      injection H as <-. repeat split; auto.
      * exists []. rewrite app_nil_r. reflexivity.
      * intros ->. discriminate Em.
      * intros Hne. unfold lineage_ends. rewrite (Hl Hne). apply mem_In. exact Em.
    + injection H as <-. repeat split; auto.
      * exists []. rewrite app_nil_r. reflexivity.
      * intros ->. reflexivity.
      * intros Hne. unfold lineage_ends. rewrite (Hl Hne). exact I.
  - destruct current as [[|c cs]|]; cbn [lineage_loop] in H.
    + injection H as <-. repeat split; auto.
      * exists []. rewrite app_nil_r. reflexivity.
      * intros ->. reflexivity.
      * intros Hne. unfold lineage_ends. rewrite (Hl Hne). exact I.
    + destruct (mem (c :: cs) lineage) eqn:Em.
      * injection H as <-. repeat split; auto.
        -- exists []. rewrite app_nil_r. reflexivity.
        -- intros ->. discriminate Em.
        -- intros Hne. unfold lineage_ends. rewrite (Hl Hne). apply mem_In. exact Em.
      * apply IH in H.
        -- destruct H as [H1 [H2 [H3 [[rest Hr] [_ H5]]]]].
           repeat split; auto.
           ++ exists ((c :: cs) :: rest). rewrite Hr, <- app_assoc. reflexivity.
           ++ intros ->. rewrite Hr. reflexivity.
        -- apply NoDup_app; [exact Hn|constructor; [simpl; tauto|constructor]|].
           intros x Hx [<-|[]]. apply mem_In in Hx. congruence.
        -- intros Hin. apply in_app_or in Hin as [Hin|[Hin|[]]]; [auto|discriminate].
        -- apply parent_chain_snoc; auto.
        -- intros _. rewrite last_snoc. reflexivity.
    + injection H as <-. repeat split; auto.
      * exists []. rewrite app_nil_r. reflexivity.
      * intros ->. reflexivity.
      * intros Hne. unfold lineage_ends. rewrite (Hl Hne). exact I.
Qed.

(** X2: [get_session_lineage].  The loop ends after at most one round per
    row of [sessions], also when the parent links form a cycle.  The list
    has no duplicate and no empty id, each element is followed by its
    parent, it starts with the session itself ([include_self]) or with its
    parent, and it stops only at a session without parent, with an empty
    parent, or whose parent is in the list already. *)
Theorem get_session_lineage_chain st sid (include_self : bool) :
  let start := if include_self then Some sid else get_session_parent st sid in
  let l := get_session_lineage st sid include_self in
  lineage_loop (S (length (sessions st))) st start [] = Some l /\
  NoDup l /\ ~ In [] l /\ parent_chain st l /\
  hd_error l = match start with
               | Some (c :: cs) => Some (c :: cs)
               | _ => None
               end /\
  (l <> [] -> lineage_ends st l).
Proof.
  intros start l.
  pose proof (get_session_lineage_fuel st sid include_self) as Hf.
  fold start l in Hf. split; [exact Hf|].
  apply lineage_loop_spec in Hf.
  - destruct Hf as [H1 [H2 [H3 [_ [H4 H5]]]]]. specialize (H4 eq_refl). auto.
  - constructor.
  - intros [].
  - exact I.
  - congruence.
Qed.

(** ** Reading *)

Lemma insert_desc_z_sorted {A} (key : A -> Z) x l :
  StronglySorted (fun a b => (key b <= key a)%Z) l ->
  StronglySorted (fun a b => (key b <= key a)%Z) (insert_desc_z key x l).
Proof.
  induction 1 as [|y l Hs IH Hy]; simpl.
  - constructor; constructor.
  - destruct (key x <? key y)%Z eqn:E.
    + apply Z.ltb_lt in E. constructor; auto. apply Forall_forall. intros z Hz.
      apply insert_desc_z_In in Hz as [-> | Hz]; [lia|].
      rewrite Forall_forall in Hy. auto.
    + apply Z.ltb_ge in E. constructor; [constructor; auto|].
      constructor; [exact E|]. apply Forall_forall. intros z Hz.
      rewrite Forall_forall in Hy. specialize (Hy z Hz). lia.
Qed.

Lemma sort_desc_z_sorted {A} (key : A -> Z) l :
  StronglySorted (fun a b => (key b <= key a)%Z) (sort_desc_z key l).
Proof.
  induction l as [|x l IH]; simpl; [constructor|]. apply insert_desc_z_sorted. exact IH.
Qed.

Lemma row_to_thought_timestamp row t :
  _row_to_thought row = Ok t -> timestamp_utc t = r_timestamp_utc row.
Proof.
  unfold _row_to_thought. destruct (_blob_to_vector _ _) as [v|e]; [|discriminate].
  cbn [bind]. intros H. apply Thought_new_Ok in H.
  destruct H as (_&_&_&_&_&_&_&_&_&->). reflexivity.
Qed.

Lemma query_rows_spec st filters limit row :
  In row (_query_rows_locked st filters limit) ->
  In row (thoughts st) /\ _row_matches_filters row filters = true.
Proof.
  unfold _query_rows_locked, _row_matches_filters. intros H.
  apply filter_In in H as [H Ht]. apply firstn_In in H.
  apply sort_desc_z_In, sql_scan_In in H. apply filter_In in H as [H Hw].
  rewrite Hw, Ht. auto.
Qed.

Lemma firstn_length_le {A} n (l : list A) : length (firstn n l) <= n.
Proof. rewrite length_firstn. lia. Qed.

(** X3: [retrieve].  On a store written by [batch_store] the call returns;
    it returns at most [max(1, limit)] thoughts, the most recent first,
    each read from a row that passes all the filters; and when no more than
    [max(1, limit)] rows pass the filters of the WHERE clause, every row
    that passes all the filters is returned. *)
Theorem retrieve_sorted_and_filtered st filters limit :
  store_inv st ->
  exists out, retrieve st filters limit = Ok out /\
    length out <= Z.to_nat (Z.max 1 limit) /\
    StronglySorted (fun a b => (timestamp_utc b <= timestamp_utc a)%Z) out /\
    (forall t, In t out ->
       exists row, In row (thoughts st) /\ _row_to_thought row = Ok t /\
         _row_matches_filters row filters = true) /\
    (length (filter (sql_where filters) (thoughts st)) <= Z.to_nat (Z.max 1 limit) ->
     forall row, In row (thoughts st) -> _row_matches_filters row filters = true ->
       exists t, In t out /\ _row_to_thought row = Ok t).
Proof.
  intros Hi.
  assert (Hd : Forall (fun r => exists y, _row_to_thought r = Ok y)
                 (_query_rows_locked st filters limit)).
  { apply Forall_forall. intros r Hr. apply query_rows_spec in Hr as [Hr _].
    apply store_inv_decode in Hi. unfold rows_decode in Hi.
    rewrite Forall_forall in Hi. auto. }
  destruct (map_result_total _ Hd) as [out E]. exists out. split; [exact E|].
  unfold retrieve in E. apply map_result_Ok in E.
  split; [|split; [|split]].
  - rewrite <- (Forall2_length_eq E). unfold _query_rows_locked.
    eapply Nat.le_trans; [apply filter_length_le|apply firstn_length_le].
  - eapply (@StronglySorted_Forall2 _ _
              (fun a b => (r_timestamp_utc b <= r_timestamp_utc a)%Z)); [|exact E|].
    + intros a a' b b' Ha Ha' H.
      rewrite (row_to_thought_timestamp _ Ha), (row_to_thought_timestamp _ Ha'). exact H.
    + unfold _query_rows_locked. apply StronglySorted_filter, StronglySorted_firstn.
      apply sort_desc_z_sorted.
  - intros t Ht. destruct (@Forall2_In_r _ _ _ _ _ _ E Ht) as [row [Hr Hrow]].
    apply query_rows_spec in Hr as [H1 H2]. eauto.
  - intros Hlen row Hin Hm. unfold _row_matches_filters in Hm.
    apply andb_true_iff in Hm as [Hw Ht].
    assert (Hq : In row (_query_rows_locked st filters limit)).
    { unfold _query_rows_locked. apply filter_In. split; [|exact Ht].
      rewrite firstn_all2 by (rewrite sort_desc_z_length, sql_scan_length; exact Hlen).
      apply sort_desc_z_In, sql_scan_In. apply filter_In. auto. }
    destruct (@Forall2_In_l _ _ _ _ _ _ E Hq) as [t [H1 H2]]. eauto.
Qed.

Lemma retrieve_sorted_and_filtered_witness :
  exists out, retrieve Examples.two_thoughts Examples.tagged_x 5 = Ok out /\
    length out <= 5.
Proof.
  destruct (@retrieve_sorted_and_filtered Examples.two_thoughts Examples.tagged_x 5
              two_thoughts_inv) as [out [H1 [H2 _]]].
  exists out. split; [exact H1|exact H2].
Defined.

(** ** The table and the index stay in step *)

Lemma upsert_row_keys rows x :
  map r_id (upsert_row rows x)
  = if mem (r_id x) (map r_id rows) then map r_id rows else map r_id rows ++ [r_id x].
Proof.
  unfold mem. induction rows as [|r rows IH]; cbn; [reflexivity|].
  destruct (text_eqb (r_id r) (r_id x)) eqn:E.
  - apply text_eqb_eq in E. cbn [map]. rewrite <- E, text_eqb_refl. reflexivity.
  - assert (E' : text_eqb (r_id x) (r_id r) = false)
      by (apply text_eqb_neq; apply text_eqb_neq in E; congruence).
    rewrite E'. cbn. rewrite IH. destruct (existsb _ _); reflexivity.
Qed.

Lemma NoDup_snoc {A} (l : list A) x : NoDup l -> ~ In x l -> NoDup (l ++ [x]).
Proof.
  intros Hn Hx. apply NoDup_app; [exact Hn|constructor; [simpl; tauto|constructor]|].
  intros y Hy [<-|[]]. contradiction.
Qed.

Lemma upsert_row_nodup rows x :
  NoDup (map r_id rows) -> NoDup (map r_id (upsert_row rows x)).
Proof.
  intros H. rewrite upsert_row_keys. destruct (mem (r_id x) (map r_id rows)) eqn:E; auto.
  apply NoDup_snoc; auto. intros Hin. apply mem_In in Hin. congruence.
Qed.

Lemma batch_rows_nodup ts : forall rows,
  NoDup (map r_id rows) -> NoDup (map r_id (batch_rows rows ts)).
Proof.
  induction ts as [|t ts IH]; intros rows H; simpl; auto.
  apply IH. apply upsert_row_nodup. exact H.
Qed.

Lemma batch_rows_keys ts : forall rows k,
  In k (map r_id (batch_rows rows ts)) <-> In k (map r_id rows) \/ In k (map id ts).
Proof.
  induction ts as [|t ts IH]; intros rows k; [simpl; tauto|].
  unfold batch_rows in *. cbn [fold_left map]. rewrite IH, upsert_row_ids.
  cbn [row_of_thought r_id In]. intuition (subst; auto).
Qed.

Lemma position_None x l : position x l = None -> ~ In x l.
Proof.
  induction l as [|y l IH]; simpl; [tauto|].
  destruct (text_eqb y x) eqn:E; [discriminate|].
  destruct (position x l); [discriminate|]. intros _ [->|H].
  - rewrite text_eqb_refl in E. discriminate.
  - apply IH; auto.
Qed.

Lemma set_nth_length {A} n (x : A) l : length (set_nth n x l) = length l.
Proof.
  revert n; induction l as [|y l IH]; intros [|n]; simpl; auto.
Qed.

Lemma index_upsert_sync dim ix k vec :
  Z.of_nat (length vec) = dim ->
  NoDup (ix_ids ix) -> length (ix_ids ix) = length (ix_matrix ix) ->
  exists ix', index_upsert dim ix k vec = Ok ix' /\
    NoDup (ix_ids ix') /\ length (ix_ids ix') = length (ix_matrix ix') /\
    forall x, In x (ix_ids ix') <-> In x (ix_ids ix) \/ x = k.
Proof.
  intros Hl Hn Hlen. unfold index_upsert. rewrite length_map.
  apply Z.eqb_eq in Hl. rewrite Hl. cbn [negb].
  destruct (position k (ix_ids ix)) eqn:E.
  - eexists. split; [reflexivity|]. cbn [ix_ids ix_matrix].
    rewrite set_nth_length. repeat split; auto.
    intros [H| ->]; auto. eapply position_In; eauto.
  - apply position_None in E. eexists. split; [reflexivity|]. cbn [ix_ids ix_matrix].
    rewrite !length_app, Hlen. split; [apply NoDup_snoc; auto|]. split; [reflexivity|].
    intros x. rewrite in_app_iff. simpl. intuition.
Qed.

Lemma upsert_all_sync dim ts : forall ix,
  Forall (fun t => Z.of_nat (length (embedding_vector t)) = dim) ts ->
  NoDup (ix_ids ix) -> length (ix_ids ix) = length (ix_matrix ix) ->
  exists ix', upsert_all dim ix ts = (ix', Ok tt) /\
    NoDup (ix_ids ix') /\ length (ix_ids ix') = length (ix_matrix ix') /\
    forall x, In x (ix_ids ix') <-> In x (ix_ids ix) \/ In x (map id ts).
Proof.
  induction ts as [|t ts IH]; intros ix Hf Hn Hl; simpl.
  - exists ix. repeat split; auto. intuition.
  - apply Forall_cons_iff in Hf as [Ht Hts].
    destruct (@index_upsert_sync dim ix (id t) (embedding_vector t) Ht Hn Hl)
      as [ix1 [E1 [Hn1 [Hl1 H1]]]].
    rewrite E1. destruct (IH ix1 Hts Hn1 Hl1) as [ix2 [E2 [Hn2 [Hl2 H2]]]].
    exists ix2. repeat split; auto; rewrite H2, H1; intuition.
Qed.

Lemma rebuild_sync st :
  store_wf st ->
  exists ix, _rebuild_vector_index_locked st = (with_index st ix, Ok tt) /\
    ix_ids ix = map r_id (thoughts st) /\ length (ix_ids ix) = length (ix_matrix ix).
Proof.
  intros Hw. unfold _rebuild_vector_index_locked.
  destruct (@rebuild_items_ok (store_embedding_dim st) (thoughts st) Hw)
    as [items [E [Hi Hf]]].
  rewrite E. unfold index_build. destruct items as [|it items].
  - eexists. split; [reflexivity|]. cbn [ix_ids ix_matrix]. simpl in Hi. auto.
  - set (its := it :: items) in *.
    replace (forallb _ _) with true.
    + eexists. split; [reflexivity|]. cbn [ix_ids ix_matrix]. split; [exact Hi|].
      rewrite !length_map. reflexivity.
    + symmetry. apply forallb_forall. intros row Hin.
      apply in_map_iff in Hin as [it' [<- Hin]]. rewrite length_map.
      apply Z.eqb_eq. rewrite Forall_forall in Hf. auto.
Qed.

(** X4: the vector index follows the table.  On a store written by
    [batch_store], whose ids are unique and whose index holds exactly the
    stored ids, a call of [batch_store] with validated thoughts, whether it
    succeeds or fails, leaves a store of the same kind: every id once in
    the table, and the index with one vector for each stored thought and
    for nothing else. *)
Theorem batch_store_keeps_index_in_step fault st ts st' r :
  store_inv st -> Forall Thought_valid ts ->
  table_ids_unique st -> index_synced st ->
  batch_store fault st ts = (st', r) ->
  store_inv st' /\ table_ids_unique st' /\ index_synced st'.
Proof.
  intros Hi Hv Hu [Hn [Hl Hs]] E.
  split; [exact (@batch_store_inv fault st ts st' r Hi Hv E)|].
  revert E. unfold batch_store. destruct ts as [|t0 ts0]; [intros [= <- _]; repeat split; auto; apply Hs|].
  set (ts := t0 :: ts0) in *. clearbody ts.
  destruct (existsb (fun t => negb (embedding_dim t =? store_embedding_dim st)%Z) ts)
    eqn:Ed; [intros [= <- _]; repeat split; auto; apply Hs|].
  rewrite insert_thoughts_spec.
  destruct (existsb fault (seq 0 (length ts))); [intros [= <- _]; repeat split; auto; apply Hs|].
  apply dims_ok_Forall in Ed.
  assert (Hu' : NoDup (map r_id (batch_rows (thoughts st) ts)))
    by (apply batch_rows_nodup; exact Hu).
  destruct (vector_backend st) eqn:Eb.
  - destruct (@upsert_all_sync (store_embedding_dim st) ts (vector_index st))
      as [ix [Eu [Hn' [Hl' Hs']]]]; auto.
    { rewrite Forall_forall in *. intros t Hin.
      destruct (Thought_valid_fields (Hv t Hin)) as (_&_&_&_&_&_&_&_&_&_&_&_&_&Hlen).
      rewrite Hlen. auto. }
    rewrite Eu. intros [= <- _].
    unfold table_ids_unique, index_synced.
    cbn [with_index with_tables thoughts vector_index].
    repeat split; auto.
    + intros H. apply batch_rows_keys. apply Hs' in H.
      destruct H as [H|H]; [left; apply Hs; exact H|right; exact H].
    + intros H. apply Hs'. apply batch_rows_keys in H.
      destruct H as [H|H]; [left; apply Hs; exact H|right; exact H].
  - set (st1 := with_tables st (batch_sessions (sessions st) ts)
                  (batch_rows (thoughts st) ts)).
    assert (Hw1 : store_wf st1).
    { unfold store_wf. cbn [st1 with_tables thoughts store_embedding_dim].
      apply batch_rows_Forall; [apply (store_inv_wf Hi)|].
      rewrite Forall_forall in *. intros t Hin. split.
      - cbn [row_of_thought r_embedding_dim]. auto.
      - apply row_of_valid_wf. auto. }
    destruct (@rebuild_sync st1 Hw1) as [ix [Er [Hids Hlen]]]. rewrite Er.
    intros [= <- _]. unfold table_ids_unique, index_synced.
    cbn [with_index st1 with_tables thoughts vector_index] in *.
    rewrite Hids. repeat split; auto. rewrite <- Hids. exact Hlen.
Qed.

Lemma new_store_in_step dim b :
  store_inv (new_store dim b) /\ table_ids_unique (new_store dim b) /\
  index_synced (new_store dim b).
Proof.
  split; [apply new_store_inv|]. split; [constructor|].
  split; [constructor|]. split; [reflexivity|]. intros k. reflexivity.
Defined.

Lemma batch_store_keeps_index_in_step_witness :
  store_inv Examples.two_thoughts /\ table_ids_unique Examples.two_thoughts /\
  index_synced Examples.two_thoughts.
Proof.
  refine (@batch_store_keeps_index_in_step no_fault Examples.unit_store
            [Examples.old_tagged; Examples.new_untagged] Examples.two_thoughts
            (snd (batch_store no_fault Examples.unit_store
                    [Examples.old_tagged; Examples.new_untagged])) _ _ _ _ _).
  - apply new_store_inv.
  - repeat constructor; vm_compute; reflexivity.
  - constructor.
  - apply new_store_in_step.
  - apply surjective_pairing.
Defined.

(** ** Upsert by id *)

Lemma upsert_row_length rows x :
  length (upsert_row rows x)
  = if mem (r_id x) (map r_id rows) then length rows else S (length rows).
Proof.
  rewrite <- (length_map r_id (upsert_row rows x)), upsert_row_keys.
  destruct (mem (r_id x) (map r_id rows)); rewrite ?length_app, length_map; simpl; lia.
Qed.

(** X5: [store] is an upsert by id.  When [store t] returns, the table has
    one more row if the id of [t] was new and as many rows as before if it
    was not (the earlier row of that id is replaced); what
    [get_thought_by_id] returns for any other id is what it returned before,
    and the graph tables are untouched. *)
Theorem store_replaces_only_its_id fault st t st' t0 :
  store fault st t = (st', Ok t0) ->
  length (thoughts st')
  = (if mem (id t) (map r_id (thoughts st)) then length (thoughts st)
     else S (length (thoughts st))) /\
  (forall k, k <> id t -> get_thought_by_id st' k = get_thought_by_id st k) /\
  graph_edges st' = graph_edges st /\ graph_nodes st' = graph_nodes st.
Proof.
  unfold store. destruct (batch_store fault st [t]) as [st1 [out|e]] eqn:E.
  2:{ discriminate. }
  destruct (batch_store_graph _ _ _ E) as [Hg1 Hg2].
  destruct (batch_store_Ok _ _ _ E) as [-> Hrows].
  intros [= <- _]. unfold batch_rows in Hrows. cbn [fold_left] in Hrows.
  split; [|split; [|auto]].
  - rewrite Hrows, upsert_row_length. reflexivity.
  - intros k Hk. unfold get_thought_by_id. rewrite Hrows.
    rewrite find_upsert_row_other by exact Hk. reflexivity.
Qed.

Lemma store_replaces_only_its_id_witness :
  length (thoughts (fst (store no_fault Examples.two_thoughts Examples.old_tagged))) = 2.
Proof.
  refine (proj1 (@store_replaces_only_its_id no_fault Examples.two_thoughts
                   Examples.old_tagged _ Examples.old_tagged _)).
  vm_compute. reflexivity.
Defined.

(** ** What a search returns *)

Lemma dict_keys_get {V} (d : dict V) k :
  In k (dict_keys d) -> exists v, dict_get d k = Some v.
Proof.
  induction d as [|[k' v'] d IH]; cbn; [tauto|].
  destruct (text_eqb k' k) eqn:E; [eauto|].
  intros [->|H]; [rewrite text_eqb_refl in E; discriminate|auto].
Qed.

Lemma index_search_ids cosine dim ix query top_k candidates kv :
  index_search cosine dim ix query top_k = Ok candidates ->
  In kv candidates -> In (fst kv) (ix_ids ix).
Proof.
  unfold index_search. destruct (ix_matrix ix); [intros [= <-] []|].
  destruct (negb _); [discriminate|]. intros [= <-] H.
  apply firstn_In, sort_desc_In in H. destruct kv as [k v].
  apply in_combine_l in H. exact H.
Qed.

Lemma surviving_rows_spec st candidates filters row :
  In row (surviving_rows st candidates filters) ->
  In row (thoughts st) /\ _row_matches_filters row filters = true /\
  exists v, In (r_id row, v) candidates.
Proof.
  unfold surviving_rows, _fetch_rows_by_ids_locked. intros H.
  apply filter_In in H as [H Hm]. apply sort_asc_text_In in H.
  apply filter_In in H as [H Hk].
  repeat split; auto. apply mem_In in Hk.
  apply dict_keys_get in Hk as [v Hv]. apply dict_of_pairs_get in Hv. eauto.
Qed.

(** X6: what [semantic_search] returns.  Every call that returns gives at
    most [max(1, limit)] items; each item is read from a stored row that
    passes all the filters and whose id is in the vector index, with the
    similarity the index gave to that id or to an earlier candidate of the
    same id. *)
Theorem semantic_search_results_from_store cosine now st query filters limit alpha
  max_candidates out :
  semantic_search cosine now st query filters limit alpha max_candidates = Ok out ->
  length out <= Z.to_nat (Z.max 1 limit) /\
  forall it, In it out ->
    exists row, In row (thoughts st) /\ _row_to_thought row = Ok (thought it) /\
      _row_matches_filters row filters = true /\
      In (r_id row) (ix_ids (vector_index st)).
Proof.
  unfold semantic_search. destruct (negb _); [discriminate|].
  destruct (index_search cosine (store_embedding_dim st) (vector_index st) query _)
    as [candidates|e] eqn:Ec; [|discriminate].
  cbn [bind]. unfold rank_candidates.
  destruct candidates as [|c cs]; [intros [= <-]; split; [simpl; lia|intros it []]|].
  set (cands := c :: cs) in *. clearbody cands.
  destruct (surviving_rows st cands filters) as [|r0 rs] eqn:Es;
    [intros [= <-]; split; [simpl; lia|intros it []]|].
  rewrite <- Es. clear Es r0 rs.
  destruct (map_result _ (surviving_rows st cands filters)) as [scored|e] eqn:Em;
    [|discriminate].
  cbn [bind]. intros [= <-]. split; [apply firstn_length_le|].
  intros it Hit. apply firstn_In, sort_desc_In in Hit.
  apply map_result_Ok in Em.
  destruct (@Forall2_In_r _ _ _ _ _ _ Em Hit) as [row [Hrow Hs]].
  apply score_row_Ok in Hs. destruct Hs as [Ht _].
  apply surviving_rows_spec in Hrow as [H1 [H2 [v Hv]]].
  exists row. repeat split; auto.
  exact (@index_search_ids _ _ _ _ _ _ (r_id row, v) Ec Hv).
Qed.

Lemma semantic_search_results_from_store_witness :
  exists out,
    semantic_search Examples.cosine1 10 Examples.two_thoughts [Examples.one_float]
      no_filters 1 (9 # 10) 500 = Ok out /\
    length out <= 1.
Proof.
  eexists.
  assert (E : semantic_search Examples.cosine1 10 Examples.two_thoughts
                [Examples.one_float] no_filters 1 (9 # 10) 500 = Ok _)
    by (vm_compute; reflexivity).
  split; [exact E|].
  exact (proj1 (@semantic_search_results_from_store _ _ _ _ _ _ _ _ _ E)).
Defined.

(** ** Validation of a thought *)

(** X7: the constructor of [Thought].  Every string is stripped as
    pydantic does it (the Unicode white space: the separators U+001C to
    U+001F, which [str.strip] removes, are kept).  The constructor accepts
    its arguments exactly when the stripped session id, category, raw text
    and cleaned text are not empty, the confidence lies in [0,1], the
    vector is not empty and [embedding_dim] (when given) is the length of
    the vector.  The record built has every string stripped and
    [embedding_dim] set to the length of the vector, and building a thought
    again from the fields of a thought that was accepted gives the same
    thought. *)
Theorem Thought_accepts_and_normalises id0 ts s c q tg raw cl vec dim :
  ((exists t, Thought_new id0 ts s c q tg raw cl vec dim = Ok t) <->
   strip_whitespace s <> [] /\ strip_whitespace c <> [] /\
   (0 <= q)%Q /\ (q <= 1)%Q /\
   strip_whitespace raw <> [] /\ strip_whitespace cl <> [] /\ vec <> [] /\
   (forall d, dim = Some d -> d = Z.of_nat (length vec))) /\
  (forall t, Thought_new id0 ts s c q tg raw cl vec dim = Ok t ->
     t = mkThought (strip_whitespace id0) ts (strip_whitespace s) (strip_whitespace c) q
           (map strip_whitespace tg) (strip_whitespace raw) (strip_whitespace cl) vec
           (Z.of_nat (length vec)) /\
     Thought_valid t).
Proof.
  split; [split|].
  - intros [t H]. pose proof (Thought_new_Ok _ _ _ _ _ _ _ _ _ _ H)
      as [H1 [H2 [H3 [H4 [H5 [H6 [H7 [H8 [H9 _]]]]]]]]].
    apply andb_true_iff in H3 as [Ha Hb]. apply Qle_bool_iff in Ha, Hb.
    repeat split; auto. intros d Hd. rewrite (H9 d Hd). auto.
  - intros [H1 [H2 [Ha [Hb [H4 [H5 [H6 H9]]]]]]].
    assert (H3 : Qle_bool 0 q && Qle_bool q 1 = true)
      by (apply andb_true_iff; split; apply Qle_bool_iff; auto).
    assert (Hpos : (0 < Z.of_nat (length vec))%Z) by (destruct vec; [congruence|simpl; lia]).
    destruct dim as [d|].
    + rewrite (H9 d eq_refl). eexists. apply Thought_new_intro; auto.
    + unfold Thought_new. apply is_nil_false in H1, H2, H4, H5, H6.
      rewrite H1, H2, H3, H4, H5, H6. cbn [negb].
      apply Z.leb_gt in Hpos. rewrite Hpos, Z.eqb_refl. cbn [negb]. eauto.
  - intros t H. split; [|eapply Thought_new_valid; eauto].
    pose proof (Thought_new_Ok _ _ _ _ _ _ _ _ _ _ H)
      as [_ [_ [_ [_ [_ [_ [_ [H8 [_ Ht]]]]]]]]].
    rewrite H8. exact Ht.
Qed.

Lemma Thought_accepts_and_normalises_witness :
  exists t,
    Thought_new (T "t1") 0 [ascii_of_nat 28] (T "fact") (1 # 2) [T " x "]
      (T " a" ++ [ascii_of_nat 31]) (T "clean") [Examples.one_float] None = Ok t /\
    session_id t = [ascii_of_nat 28] /\
    raw_text t = T "a" ++ [ascii_of_nat 31] /\
    tags t = [T "x"] /\
    strip [ascii_of_nat 28] = [].
Proof.
  destruct (@Thought_accepts_and_normalises (T "t1") 0 [ascii_of_nat 28] (T "fact")
              (1 # 2) [T " x "] (T " a" ++ [ascii_of_nat 31]) (T "clean")
              [Examples.one_float] None) as [Hiff Hrec].
  destruct (proj2 Hiff) as [t Ht].
  { repeat split; vm_compute; discriminate. }
  exists t. split; [exact Ht|].
  destruct (Hrec t Ht) as [-> _].
  repeat split; reflexivity.
Defined.

(** * Further properties of the graph *)

(** ** Transactions of edges *)

Lemma insert_edges_closed fault edges : forall i es,
  insert_edges fault i es edges
  = if edge_fault fault i edges then None
    else Some (es ++ filter not_self edges).
Proof.
  unfold edge_fault.
  induction edges as [|e rest IH]; intros i es; cbn [insert_edges length seq combine existsb filter].
  - rewrite app_nil_r. reflexivity.
  - unfold not_self at 1 3. cbn [fst snd].
    destruct (text_eqb (e_source_id e) (e_target_id e)); cbn [negb].
    + rewrite andb_false_r. cbn [orb]. apply IH.
    + rewrite andb_true_r. destruct (fault i); cbn [orb]; [reflexivity|].
      rewrite IH, <- app_assoc. reflexivity.
Qed.

(** X8: [link_many] is one transaction.  If the INSERT of an edge that is
    not a self-edge fails, the call raises and the state is what it was: no
    edge of the list is stored.  Otherwise the call returns and the edge
    table is the table before followed by the edges of the list that are not
    self-edges, in the order of the list; self-edges are dropped without an
    error, and nothing else changes. *)
Theorem link_many_all_or_nothing fault st edges :
  (edge_fault fault 0 edges = true ->
   exists e, link_many fault st edges = (st, Err e)) /\
  (edge_fault fault 0 edges = false ->
   link_many fault st edges
   = (with_edges st (graph_edges st ++ filter not_self edges), Ok tt)).
Proof.
  unfold link_many. destruct edges as [|e0 rest].
  - split; [discriminate|]. intros _. cbn [filter]. rewrite app_nil_r, with_edges_same.
    reflexivity.
  - rewrite insert_edges_closed. split; intros ->; eauto.
Qed.

(** X9: [link].  An empty id or a negative weight is rejected, a self-edge
    is dropped without an error; in these cases and when an INSERT fails,
    the edge table is what it was.  Otherwise the edge is appended, together
    with its reverse when [bidirectional] is set: the two edges are stored
    both or not at all.  The thoughts and the node table never change. *)
Theorem link_pair_atomic fault st s t rel w bi st' r :
  link fault st s t rel w bi = (st', r) ->
  thoughts st' = thoughts st /\ graph_nodes st' = graph_nodes st /\
  ((graph_edges st' = graph_edges st /\
    (r = Ok tt -> s = t) /\
    ((s = [] \/ t = [] \/ (s <> t /\ (w < 0)%Q)) -> exists e, r = Err e)) \/
   (r = Ok tt /\ s <> [] /\ t <> [] /\ s <> t /\ (0 <= w)%Q /\
    graph_edges st'
    = graph_edges st ++ mkEdgeRow s t rel w
        :: (if bi then [mkEdgeRow t s rel w] else []))).
Proof.
  unfold link.
  destruct (is_nil s || is_nil t) eqn:E0.
  { intros [= <- <-]. repeat split; auto. left. repeat split; eauto. discriminate. }
  apply orb_false_iff in E0 as [Es Et]. apply is_nil_false in Es, Et.
  destruct (text_eqb s t) eqn:E1.
  { apply text_eqb_eq in E1. intros [= <- <-]. repeat split; auto. left.
    repeat split; auto. intros [H|[H|[H _]]]; congruence. }
  apply text_eqb_neq in E1 as Hne.
  destruct (Qltb w 0) eqn:E2.
  { intros [= <- <-]. repeat split; auto. left. repeat split; eauto. discriminate. }
  apply Qltb_false in E2.
  intros H. apply link_many_cases in H as [[-> Hr]|[-> ->]].
  - repeat split; auto. left. repeat split; auto.
    + intros Hok. specialize (Hr Hok). discriminate.
    + intros [H|[H|[_ H]]]; try congruence.
      apply Qlt_not_le in H. contradiction.
  - repeat split; auto. right. repeat split; auto.
    cbn [with_edges graph_edges]. f_equal.
    assert (E4 : text_eqb t s = false) by (apply text_eqb_neq; congruence).
    cbn [app filter e_source_id e_target_id]. rewrite E1. cbn [negb].
    destruct bi; cbn [filter e_source_id e_target_id]; rewrite ?E4; reflexivity.
Qed.

Lemma link_pair_atomic_witness :
  graph_edges (fst (link no_fault Examples.unit_store (T "a") (T "b") (T "causal") 1 true))
  = [mkEdgeRow (T "a") (T "b") (T "causal") 1; mkEdgeRow (T "b") (T "a") (T "causal") 1].
Proof.
  destruct (@link_pair_atomic no_fault Examples.unit_store (T "a") (T "b") (T "causal")
              1 true
              (fst (link no_fault Examples.unit_store (T "a") (T "b") (T "causal") 1 true))
              (Ok tt) eq_refl)
    as [_ [_ [[_ [H _]]|[_ [_ [_ [_ [_ H]]]]]]]].
  - specialize (H eq_refl). discriminate H.
  - exact H.
Defined.

(** ** Nodes *)

Lemma find_upsert_node_same ns n :
  find (fun x => text_eqb (n_thought_id x) (n_thought_id n)) (upsert_node ns n) = Some n.
Proof.
  induction ns as [|m ns IH]; simpl.
  - rewrite text_eqb_refl. reflexivity.
  - destruct (text_eqb (n_thought_id m) (n_thought_id n)) eqn:E; simpl.
    + rewrite text_eqb_refl. reflexivity.
    + rewrite E. exact IH.
Qed.

Lemma find_upsert_node_other ns n k :
  k <> n_thought_id n ->
  find (fun x => text_eqb (n_thought_id x) k) (upsert_node ns n)
  = find (fun x => text_eqb (n_thought_id x) k) ns.
Proof.
  intros Hk. induction ns as [|m ns IH]; simpl.
  - destruct (text_eqb (n_thought_id n) k) eqn:E; auto.
    apply text_eqb_eq in E. congruence.
  - destruct (text_eqb (n_thought_id m) (n_thought_id n)) eqn:E; simpl.
    + apply text_eqb_eq in E.
      destruct (text_eqb (n_thought_id n) k) eqn:E1; [apply text_eqb_eq in E1; congruence|].
      rewrite E, E1. reflexivity.
    + destruct (text_eqb (n_thought_id m) k); auto.
Qed.

Lemma upsert_node_keys ns n :
  map n_thought_id (upsert_node ns n)
  = if mem (n_thought_id n) (map n_thought_id ns) then map n_thought_id ns
    else map n_thought_id ns ++ [n_thought_id n].
Proof.
  unfold mem. induction ns as [|m ns IH]; cbn; [reflexivity|].
  destruct (text_eqb (n_thought_id m) (n_thought_id n)) eqn:E.
  - apply text_eqb_eq in E. cbn [map]. rewrite <- E, text_eqb_refl. reflexivity.
  - assert (E' : text_eqb (n_thought_id n) (n_thought_id m) = false)
      by (apply text_eqb_neq; apply text_eqb_neq in E; congruence).
    rewrite E'. cbn. rewrite IH. destruct (existsb _ _); reflexivity.
Qed.

Lemma link_keeps_nodes fault st s t rel w bi st' r :
  link fault st s t rel w bi = (st', r) ->
  graph_nodes st' = graph_nodes st /\ thoughts st' = thoughts st.
Proof.
  intros H. apply link_cases in H as [[-> _]|[[-> _]|[_ [_ [_ ->]]]]]; auto.
Qed.

(** The nodes and the thoughts after the node was written. *)
Lemma add_thought_tables cosine now faults st t sim sn thr tl st' r :
  add_thought cosine now faults st t sim sn thr tl = (st', r) ->
  (exists e, r = Err e /\ graph_nodes st' = graph_nodes st) \/
  (exists st0 u, store_missing st t sim = (st0, Ok u) /\
     graph_nodes st' = graph_nodes (add_node st0 t) /\ thoughts st' = thoughts st0).
Proof.
  unfold add_thought.
  destruct (store_missing st t sim) as [st0 [u|e]] eqn:Es.
  2:{ apply store_missing_graph in Es as [_ Hn]. intros [= <- <-]. left. eauto. }
  intros H. right. exists st0, u. split; [reflexivity|].
  change (thoughts st0) with (thoughts (add_node st0 t)).
  revert H. cbv zeta. generalize (add_node st0 t). intros st1.
  assert (Ht : forall st2 r2,
             (if tl then _link_temporal_successor (faults 0) st1 t else (st1, Ok tt))
             = (st2, r2) ->
             graph_nodes st2 = graph_nodes st1 /\ thoughts st2 = thoughts st1).
  { intros st2 r2. destruct tl; [|intros [= <- _]; auto].
    unfold _link_temporal_successor. destruct (previous_node st1 t); [|intros [= <- _]; auto].
    apply link_keeps_nodes. }
  destruct (if tl then _link_temporal_successor (faults 0) st1 t else (st1, Ok tt))
    as [st2 r2].
  destruct (Ht st2 r2 eq_refl) as [Hn Hth]. rewrite <- Hn, <- Hth.
  destruct r2 as [u2|e2]; [|intros [= <- _]; auto].
  destruct (0 <? sn)%Z; [|intros [= <- _]; auto].
  destruct (semantic_search _ _ _ _ _ _ _ _) as [nearest|e]; [|intros [= <- _]; auto].
  destruct (link_nearest faults 1 st2 t thr nearest) as [st3 r3] eqn:En.
  apply link_nearest_edges in En as [created [rest [-> _]]].
  destruct r3; intros [= <- _]; auto.
Qed.

(** X10: the node of [add_thought].  When the call returns, the node table
    holds for the id of the thought the session and the timestamp of the
    thought given (an earlier node of that id is replaced, and unique ids
    stay unique), and the node of every other id is what it was.  With
    [store_if_missing] unset the thoughts are untouched; with it set, a
    stored thought of the same id is never overwritten. *)
Theorem add_thought_registers_node cosine now faults st t sim sn thr tl st' t0 :
  add_thought cosine now faults st t sim sn thr tl = (st', Ok t0) ->
  find (fun n => text_eqb (n_thought_id n) (id t)) (graph_nodes st')
  = Some (mkNodeRow (id t) (session_id t) (timestamp_utc t)) /\
  (forall k, k <> id t ->
     find (fun n => text_eqb (n_thought_id n) k) (graph_nodes st')
     = find (fun n => text_eqb (n_thought_id n) k) (graph_nodes st)) /\
  (node_ids_unique st -> node_ids_unique st') /\
  (sim = false -> thoughts st' = thoughts st) /\
  (forall old, get_thought_by_id st (id t) = Ok (Some old) -> thoughts st' = thoughts st).
Proof.
  intros H. apply add_thought_tables in H as [[e [He _]]|[st0 [u [Es [Hn Ht]]]]];
    [discriminate|].
  pose proof (store_missing_graph _ _ _ Es) as [_ Hn0].
  rewrite Hn. unfold add_node. cbn [with_nodes graph_nodes]. rewrite Hn0.
  split; [|split; [|split; [|split]]].
  - apply (find_upsert_node_same (graph_nodes st)
             (mkNodeRow (id t) (session_id t) (timestamp_utc t))).
  - intros k Hk. apply find_upsert_node_other. exact Hk.
  - unfold node_ids_unique. rewrite Hn. unfold add_node. cbn [with_nodes graph_nodes].
    rewrite Hn0, upsert_node_keys. intros Hu.
    destruct (mem _ (map n_thought_id (graph_nodes st))) eqn:E; auto.
    apply NoDup_snoc; auto. intros Hin. apply mem_In in Hin. congruence.
  - intros ->. rewrite Ht. unfold store_missing in Es. injection Es as <- _. reflexivity.
  - intros old Ho. rewrite Ht. unfold store_missing in Es. rewrite Ho in Es.
    destruct sim; injection Es as <- _; reflexivity.
Qed.

Lemma add_thought_registers_node_witness :
  find (fun n => text_eqb (n_thought_id n) (T "a")) (graph_nodes Examples.graph_with_a)
  = Some (mkNodeRow (T "a") (T "s1") 1).
Proof.
  refine (proj1 (@add_thought_registers_node Examples.cosine1 10 Examples.no_faults
                   Examples.unit_store Examples.thought_a true 3 (8 # 10) true
                   Examples.graph_with_a Examples.thought_a _)).
  vm_compute. reflexivity.
Defined.

(** ** Neighbours *)

Lemma visit_rows_inv st relations hops start node m rows depth :
  forall seen out queue seen' out' queue',
  Forall (fun e => In e (graph_edges st) /\ e_source_id e = node) rows ->
  walk st relations m start node -> Z.of_nat m = depth -> (depth < hops)%Z ->
  visit_rows relations rows depth seen out queue = (seen', out', queue') ->
  bfs_inv st relations hops start seen out queue ->
  bfs_inv st relations hops start seen' out' queue'.
Proof.
  induction rows as [|row rows IH]; intros seen out queue seen' out' queue' Hr Hw Hm Hd;
    cbn [visit_rows].
  - intros [= <- <- <-]. auto.
  - apply Forall_cons_iff in Hr as [[Hin Hsrc] Hr].
    assert (Hskip : match relations with
                    | None => false
                    | Some [] => false
                    | Some rels => negb (mem (e_relation row) rels)
                    end = negb (allowed relations (e_relation row))).
    { unfold allowed. destruct relations as [[|x l]|]; reflexivity. }
    rewrite Hskip.
    destruct (allowed relations (e_relation row)) eqn:Ea; cbn [negb]; [|eauto].
    destruct (mem (e_target_id row) seen) eqn:Es; [eauto|].
    intros H Hinv. eapply IH; eauto.
    destruct Hinv as [Hseen [Hnd [Hout Hq]]].
    assert (Hstep : walk st relations (S m) start (e_target_id row)).
    { eapply walk_step; [exact Hw|]. exists row. auto. }
    unfold bfs_inv. split; [rewrite Hseen; reflexivity|]. split; [|split].
    + apply NoDup_snoc; auto. intros Hx. apply mem_In in Hx. congruence.
    + apply Forall_app. split; auto. constructor; [|constructor].
      exists (S m). split; [lia|]. split; [lia|exact Hstep].
    + apply Forall_app. split; auto. constructor; [|constructor].
      exists (S m). cbn [fst snd]. split; [lia|exact Hstep].
Qed.

Lemma bfs_inv_result st relations hops start limit : forall fuel seen out queue res,
  bfs fuel st hops relations limit seen out queue = Some res ->
  bfs_inv st relations hops start seen out queue ->
  NoDup (start :: res) /\ Forall (within_hops st relations hops start) res.
Proof.
  induction fuel as [|fuel IH]; intros seen out queue res H Hinv.
  - destruct queue as [|[node depth] queue]; cbn [bfs] in H.
    + injection H as <-. destruct Hinv as [-> [H1 [H2 _]]]. auto.
    + destruct (negb _); [|discriminate]. injection H as <-.
      destruct Hinv as [-> [H1 [H2 _]]]. auto.
  - destruct queue as [|[node depth] queue]; cbn [bfs] in H.
    + injection H as <-. destruct Hinv as [-> [H1 [H2 _]]]. auto.
    + destruct (negb _).
      { injection H as <-. destruct Hinv as [-> [H1 [H2 _]]]. auto. }
      destruct Hinv as [Hseen [Hnd [Hout Hq]]].
      apply Forall_cons_iff in Hq as [[m [Hm Hw]] Hq]. cbn [fst snd] in Hm, Hw.
      destruct (hops <=? depth)%Z eqn:Eh.
      { eapply IH; [exact H|]. unfold bfs_inv. auto. }
      apply Z.leb_gt in Eh.
      destruct (visit_rows _ _ depth seen out queue) as [[seen' out'] queue'] eqn:Ev.
      eapply IH; [exact H|].
      refine (@visit_rows_inv st relations hops start node m _ depth seen out queue
                seen' out' queue' _ Hw Hm Eh Ev _).
      * apply Forall_forall. intros e He. apply firstn_In in He.
        apply filter_In in He as [He Hs]. apply text_eqb_eq in Hs. auto.
      * unfold bfs_inv. auto.
Qed.

(** X11: [neighbors].  With [hops <= 0] or [limit <= 0] the result is
    empty.  In every case the walk ends within its bound, the result has no
    duplicate and never holds the start id, and every id in it is reached
    from the start by at least one and at most [hops] edges of the table
    whose relation passes the filter. *)
Theorem neighbors_within_hops st thought_id hops relations limit :
  let out := neighbors st thought_id hops relations limit in
  NoDup out /\ ~ In thought_id out /\
  Forall (within_hops st relations hops thought_id) out /\
  ((hops <= 0)%Z \/ (limit <= 0)%Z -> out = []) /\
  ((0 < hops)%Z ->
   bfs (S (length (graph_edges st))) st hops relations limit
     [thought_id] [] [(thought_id, 0%Z)] = Some out).
Proof.
  intros out.
  destruct (Z_lt_le_dec 0 hops) as [Hh|Hh].
  - pose proof (neighbors_fuel st thought_id relations limit Hh) as Hf. fold out in Hf.
    destruct (@bfs_inv_result st relations hops thought_id limit _ _ _ _ _ Hf)
      as [Hn Hw].
    { unfold bfs_inv. split; [reflexivity|]. split; [repeat constructor; simpl; tauto|].
      split; [constructor|]. constructor; [|constructor].
      exists 0. split; [reflexivity|constructor]. }
    inversion Hn as [|? ? Hx Hn']; subst.
    repeat split; auto. intros [H|H]; [lia|].
    cbn [bfs length] in Hf.
    replace (Z.of_nat 0 <? limit)%Z with false in Hf
      by (symmetry; apply Z.ltb_ge; simpl; lia).
    cbn [negb] in Hf. injection Hf as <-. reflexivity.
  - assert (E : out = []).
    { unfold out, neighbors. replace (hops <=? 0)%Z with true; [reflexivity|].
      symmetry. apply Z.leb_le. exact Hh. }
    rewrite E. repeat split; auto; try constructor. intros H. lia.
Qed.

(** * Paths and ranges of the graph *)

(** ** [find_paths] ends *)

Lemma queue_weight_app width max_depth a b :
  queue_weight width max_depth (a ++ b)
  = queue_weight width max_depth a + queue_weight width max_depth b.
Proof. unfold queue_weight. rewrite map_app, list_sum_app. reflexivity. Qed.

Lemma extend_path_weight width max_depth relations target_id limit path adj :
  forall paths queue paths' queue',
  extend_path relations target_id limit path adj paths queue = (paths', queue') ->
  queue_weight width max_depth queue'
  <= queue_weight width max_depth queue
     + length adj * path_weight width (edges_left max_depth (path ++ [target_id])).
Proof.
  assert (Hsame : forall x, edges_left max_depth (path ++ [x])
                            = edges_left max_depth (path ++ [target_id])).
  { intros x. unfold edges_left. rewrite !length_app. reflexivity. }
  induction adj as [|[nxt rel] adj IH]; intros paths queue paths' queue';
    cbn [extend_path length].
  - intros [= _ <-]. lia.
  - destruct (match relations with
              | None => false
              | Some [] => false
              | Some rels => negb (mem rel rels)
              end); [intros H; apply IH in H; lia|].
    destruct (mem nxt path); [intros H; apply IH in H; lia|].
    destruct (text_eqb nxt target_id).
    + destruct (limit <=? _)%Z; [intros [= _ <-]; lia|].
      intros H; apply IH in H; lia.
    + intros H. apply IH in H. rewrite queue_weight_app in H.
      assert (Hone : queue_weight width max_depth [path ++ [nxt]]
                     = path_weight width (edges_left max_depth (path ++ [target_id]))).
      { unfold queue_weight. cbn [map list_sum]. rewrite Hsame. apply Nat.add_0_r. }
      rewrite Hone in H. lia.
Qed.

Lemma adjacency_length st node : length (adjacency_of st node) <= length (graph_edges st).
Proof. unfold adjacency_of. rewrite length_map. apply filter_length_le. Qed.

Lemma queue_weight_cons width max_depth p q :
  queue_weight width max_depth (p :: q)
  = path_weight width (edges_left max_depth p) + queue_weight width max_depth q.
Proof. reflexivity. Qed.

Lemma path_weight_pos width d : 1 <= path_weight width d.
Proof. destruct d; simpl; lia. Qed.

Lemma find_loop_fuel st target_id max_depth limit relations :
  forall fuel paths queue,
  queue_weight (length (graph_edges st)) max_depth queue <= fuel ->
  find_loop fuel st target_id max_depth limit relations paths queue <> None.
Proof.
  set (width := length (graph_edges st)).
  induction fuel as [|fuel IH]; intros paths queue Hm.
  - destruct queue as [|path queue]; cbn [find_loop]; [discriminate|].
    rewrite queue_weight_cons in Hm.
    pose proof (path_weight_pos width (edges_left max_depth path)). lia.
  - destruct queue as [|path queue]; cbn [find_loop]; [discriminate|].
    destruct (negb _); [discriminate|].
    rewrite queue_weight_cons in Hm.
    destruct (max_depth <=? Z.of_nat (length path) - 1)%Z eqn:Ed.
    + apply IH. pose proof (path_weight_pos width (edges_left max_depth path)). lia.
    + apply Z.leb_gt in Ed.
      destruct (extend_path _ _ _ path _ paths queue) as [paths' queue'] eqn:Ee.
      apply (@extend_path_weight width max_depth) in Ee.
      apply IH.
      assert (Hl : edges_left max_depth path
                   = S (edges_left max_depth (path ++ [target_id]))).
      { unfold edges_left. rewrite length_app. simpl. lia. }
      rewrite Hl in Hm. cbn [path_weight] in Hm.
      pose proof (adjacency_length st (last path [])) as Ha. fold width in Ha.
      nia.
Qed.

(** ** [find_paths] returns paths *)

Lemma path_ok_snoc st relations p x :
  path_ok st relations p ->
  (p <> [] -> edge_step st relations (last p []) x) ->
  path_ok st relations (p ++ [x]).
Proof.
  induction p as [|a p IH]; intros Hp Hl; [exact I|].
  destruct p as [|b p].
  - simpl. split; [apply Hl; discriminate|exact I].
  - destruct Hp as [Hab Hp]. cbn [app path_ok]. split; [exact Hab|].
    apply IH; [exact Hp|]. intros _. apply Hl. discriminate.
Qed.

Lemma adjacency_edges st node nxt rel :
  In (nxt, rel) (adjacency_of st node) ->
  exists e, In e (graph_edges st) /\ e_source_id e = node /\ e_target_id e = nxt /\
    e_relation e = rel.
Proof.
  unfold adjacency_of. intros H. apply in_map_iff in H as [e [[= <- <-] He]].
  apply filter_In in He as [He Hs]. apply text_eqb_eq in Hs. eauto.
Qed.

Lemma extend_path_sound st relations source_id target_id max_depth limit path adj :
  path_from st relations source_id max_depth path ->
  (Z.of_nat (length path) - 1 < max_depth)%Z ->
  (forall nxt rel, In (nxt, rel) adj ->
     exists e, In e (graph_edges st) /\ e_source_id e = last path [] /\
       e_target_id e = nxt /\ e_relation e = rel) ->
  forall paths queue paths' queue',
  extend_path relations target_id limit path adj paths queue = (paths', queue') ->
  (Z.of_nat (length paths) < limit)%Z ->
  Forall (fun p => path_from st relations source_id max_depth p /\
                   last p [] = target_id) paths ->
  Forall (path_from st relations source_id max_depth) queue ->
  (Z.of_nat (length paths') <= limit)%Z /\
  Forall (fun p => path_from st relations source_id max_depth p /\
                   last p [] = target_id) paths' /\
  Forall (path_from st relations source_id max_depth) queue'.
Proof.
  intros [Hhd [Hnd [Hok Hlen]]] Hd.
  induction adj as [|[nxt rel] adj IH]; intros Hadj paths queue paths' queue';
    cbn [extend_path].
  - intros [= <- <-] Hl Hp Hq. repeat split; auto. lia.
  - assert (Hadj' : forall nxt rel, In (nxt, rel) adj ->
               exists e, In e (graph_edges st) /\ e_source_id e = last path [] /\
                 e_target_id e = nxt /\ e_relation e = rel)
      by (intros; apply Hadj; right; assumption).
    assert (Hskip : match relations with
                    | None => false
                    | Some [] => false
                    | Some rels => negb (mem rel rels)
                    end = negb (allowed relations rel)).
    { unfold allowed. destruct relations as [[|x l]|]; reflexivity. }
    rewrite Hskip.
    destruct (allowed relations rel) eqn:Ea; cbn [negb]; [|apply IH; exact Hadj'].
    destruct (mem nxt path) eqn:Em; [apply IH; exact Hadj'|].
    assert (Hnew : path_from st relations source_id max_depth (path ++ [nxt])).
    { destruct (Hadj nxt rel (or_introl eq_refl)) as [e [He [Hs [Ht Hr]]]].
      unfold path_from. split; [destruct path; [discriminate|exact Hhd]|].
      split; [apply NoDup_snoc; auto; intros Hin; apply mem_In in Hin; congruence|].
      split.
      - apply path_ok_snoc; auto. intros _. exists e. rewrite Hr. auto.
      - rewrite length_app. simpl. lia. }
    destruct (text_eqb nxt target_id) eqn:Et.
    + apply text_eqb_eq in Et.
      assert (Hp' : forall paths,
                Forall (fun p => path_from st relations source_id max_depth p /\
                                 last p [] = target_id) paths ->
                Forall (fun p => path_from st relations source_id max_depth p /\
                                 last p [] = target_id) (paths ++ [path ++ [nxt]])).
      { intros ps Hps. apply Forall_app. split; auto. constructor; [|constructor].
        split; [exact Hnew|]. rewrite last_snoc. exact Et. }
      destruct (limit <=? Z.of_nat (length (paths ++ [path ++ [nxt]])))%Z eqn:El.
      * intros [= <- <-] Hl Hp Hq. rewrite length_app in *. simpl in *.
        repeat split; auto. lia.
      * apply Z.leb_gt in El. intros H Hl Hp Hq.
        eapply (IH Hadj'); eauto.
    + intros H Hl Hp Hq. eapply (IH Hadj'); eauto.
      apply Forall_app. split; auto.
Qed.

Lemma find_loop_sound st relations source_id target_id max_depth limit :
  forall fuel paths queue out,
  find_loop fuel st target_id max_depth limit relations paths queue = Some out ->
  (Z.of_nat (length paths) <= Z.max 0 limit)%Z ->
  Forall (fun p => path_from st relations source_id max_depth p /\
                   last p [] = target_id) paths ->
  Forall (path_from st relations source_id max_depth) queue ->
  (Z.of_nat (length out) <= Z.max 0 limit)%Z /\
  Forall (fun p => path_from st relations source_id max_depth p /\
                   last p [] = target_id) out.
Proof.
  induction fuel as [|fuel IH]; intros paths queue out H Hl Hp Hq.
  - destruct queue as [|path queue]; cbn [find_loop] in H.
    + injection H as <-. auto.
    + destruct (negb _); [|discriminate]. injection H as <-. auto.
  - destruct queue as [|path queue]; cbn [find_loop] in H.
    + injection H as <-. auto.
    + destruct (Z.of_nat (length paths) <? limit)%Z eqn:Elt; cbn [negb] in H.
      2:{ injection H as <-. auto. }
      apply Z.ltb_lt in Elt. apply Forall_cons_iff in Hq as [Hpath Hq].
      destruct (max_depth <=? Z.of_nat (length path) - 1)%Z eqn:Ed.
      { eapply IH; eauto. }
      apply Z.leb_gt in Ed.
      destruct (extend_path _ _ _ path _ paths queue) as [paths' queue'] eqn:Ee.
      destruct (@extend_path_sound st relations source_id target_id max_depth limit
                  path (adjacency_of st (last path [])) Hpath Ed
                  (fun nxt rel H => adjacency_edges _ _ _ _ H)
                  paths queue paths' queue' Ee Elt Hp Hq) as [H1 [H2 H3]].
      eapply IH; eauto. lia.
Qed.

(** X12: [find_paths].  With equal ends the result is the single path of
    the source alone, whatever the limit.  Otherwise the search ends within
    its bound, it returns at most [limit] paths (none for [limit <= 0]),
    and each of them starts at the source, ends at the target, repeats no
    node, follows edges of the table whose relation passes the filter, and
    has at most [max_depth] edges. *)
Theorem find_paths_simple_paths st source_id target_id max_depth limit relations :
  let out := find_paths st source_id target_id max_depth limit relations in
  (source_id = target_id -> out = [[source_id]]) /\
  (source_id <> target_id ->
   find_loop (path_weight (length (graph_edges st)) (Z.to_nat max_depth))
     st target_id max_depth limit relations [] [[source_id]] = Some out /\
   (Z.of_nat (length out) <= Z.max 0 limit)%Z /\
   Forall (fun p => path_from st relations source_id max_depth p /\
                    last p [] = target_id) out).
Proof.
  intros out. unfold out, find_paths. split.
  - intros ->. rewrite text_eqb_refl. reflexivity.
  - intros Hne. apply text_eqb_neq in Hne as E. rewrite E.
    destruct (find_loop _ st target_id max_depth limit relations [] [[source_id]])
      as [res|] eqn:Ef.
    + split; [reflexivity|].
      destruct (Z_lt_le_dec max_depth 0) as [Hneg|Hpos].
      * (* no edge allowed: the first round drops the only path *)
        destruct (path_weight _ _) as [|f] in Ef; cbn [find_loop] in Ef.
        -- destruct (negb _) in Ef; [|discriminate]. injection Ef as <-.
           split; [simpl; lia|constructor].
        -- destruct (negb _) in Ef; [injection Ef as <-; split; [simpl; lia|constructor]|].
           replace (max_depth <=? Z.of_nat (length [source_id]) - 1)%Z with true in Ef
             by (symmetry; apply Z.leb_le; simpl; lia).
           destruct f; cbn [find_loop] in Ef; injection Ef as <-;
             split; try constructor; simpl; lia.
      * eapply (@find_loop_sound st relations source_id); [exact Ef| | |].
        -- simpl. lia.
        -- constructor.
        -- constructor; [|constructor]. unfold path_from. simpl.
           repeat split; auto; try lia. constructor; [simpl; tauto|constructor].
    + exfalso. revert Ef. apply find_loop_fuel.
      rewrite queue_weight_cons. unfold edges_left. simpl length.
      replace (max_depth - (Z.of_nat 1 - 1))%Z with max_depth by lia.
      unfold queue_weight. simpl. lia.
Qed.

(** ** [temporal_range] *)

Lemma insert_asc_z_In {A} (key : A -> Z) x y l :
  In y (insert_asc_z key x l) <-> y = x \/ In y l.
Proof.
  induction l as [|z l IH]; simpl; [intuition|].
  destruct (key z <? key x)%Z; simpl; rewrite ?IH; intuition.
Qed.

Lemma sort_asc_z_In {A} (key : A -> Z) y l : In y (sort_asc_z key l) <-> In y l.
Proof.
  induction l as [|z l IH]; simpl; [tauto|].
  rewrite insert_asc_z_In, IH. intuition.
Qed.

Lemma insert_asc_z_sorted {A} (key : A -> Z) x l :
  StronglySorted (fun a b => (key a <= key b)%Z) l ->
  StronglySorted (fun a b => (key a <= key b)%Z) (insert_asc_z key x l).
Proof.
  induction 1 as [|y l Hs IH Hy]; simpl.
  - constructor; constructor.
  - destruct (key y <? key x)%Z eqn:E.
    + apply Z.ltb_lt in E. constructor; auto. apply Forall_forall. intros z Hz.
      apply insert_asc_z_In in Hz as [-> | Hz]; [lia|].
      rewrite Forall_forall in Hy. auto.
    + apply Z.ltb_ge in E. constructor; [constructor; auto|].
      constructor; [exact E|]. apply Forall_forall. intros z Hz.
      rewrite Forall_forall in Hy. specialize (Hy z Hz). lia.
Qed.

Lemma sort_asc_z_sorted {A} (key : A -> Z) l :
  StronglySorted (fun a b => (key a <= key b)%Z) (sort_asc_z key l).
Proof.
  induction l as [|x l IH]; simpl; [constructor|]. apply insert_asc_z_sorted. exact IH.
Qed.

Lemma temporal_rows_hit st a b sess p :
  In p (temporal_rows st a b sess) <-> temporal_hit st a b sess p.
Proof.
  unfold temporal_rows, temporal_hit. rewrite in_flat_map. split.
  - intros [n [Hn Hp]]. apply filter_In in Hn as [Hn Hc].
    apply in_map_iff in Hp as [r [<- Hr]]. apply filter_In in Hr as [Hr Hid].
    apply text_eqb_eq in Hid. cbn [fst snd].
    apply andb_true_iff in Hc as [Hc Hs]. apply andb_true_iff in Hc as [H1 H2].
    apply Z.leb_le in H1, H2. repeat split; auto.
    intros s ->. cbn in Hs. apply text_eqb_eq in Hs. exact Hs.
  - destruct p as [n r]. cbn [fst snd]. intros [Hn [Hr [Hid [[H1 H2] Hs]]]].
    exists n. split.
    + apply filter_In. split; [exact Hn|].
      apply Z.leb_le in H1, H2. rewrite H1, H2. cbn [andb].
      destruct sess as [s|]; [|reflexivity]. cbn. apply text_eqb_eq. auto.
    + apply in_map_iff. exists r. split; [reflexivity|].
      apply filter_In. split; [exact Hr|]. apply text_eqb_eq. exact Hid.
Qed.

(** X13: [temporal_range].  On a store written by [batch_store] the call
    returns.  It returns at most [max(1, limit)] thoughts, each the stored
    thought of a node whose timestamp lies in the range (and whose session
    is the one asked for), in the order of the timestamps of the nodes,
    earliest first; when the JOIN has no more than [max(1, limit)] rows,
    the thought of every such node is returned. *)
Theorem temporal_range_in_range st start_time_utc end_time_utc session_id0 limit :
  store_inv st ->
  exists out pairs,
    temporal_range st start_time_utc end_time_utc session_id0 limit = Ok out /\
    length out <= Z.to_nat (Z.max 1 limit) /\
    Forall2 (fun p t => _row_to_thought (snd p) = Ok t) pairs out /\
    Forall (temporal_hit st start_time_utc end_time_utc session_id0) pairs /\
    StronglySorted (fun p q => (n_timestamp_utc (fst p) <= n_timestamp_utc (fst q))%Z)
      pairs /\
    (length (temporal_rows st start_time_utc end_time_utc session_id0)
     <= Z.to_nat (Z.max 1 limit) ->
     forall p, temporal_hit st start_time_utc end_time_utc session_id0 p -> In p pairs).
Proof.
  intros Hi. unfold temporal_range.
  set (pairs := firstn (Z.to_nat (Z.max 1 limit))
                  (sort_asc_z (fun p => n_timestamp_utc (fst p))
                     (temporal_rows st start_time_utc end_time_utc session_id0))).
  assert (Hhit : Forall (temporal_hit st start_time_utc end_time_utc session_id0) pairs).
  { apply Forall_forall. intros p Hp. unfold pairs in Hp.
    apply firstn_In, sort_asc_z_In in Hp. apply temporal_rows_hit. exact Hp. }
  assert (Hd : Forall (fun p => exists y, _row_to_thought (snd p) = Ok y) pairs).
  { apply Forall_forall. intros p Hp. rewrite Forall_forall in Hhit.
    destruct (Hhit p Hp) as [_ [Hr _]].
    apply store_inv_decode in Hi. unfold rows_decode in Hi.
    rewrite Forall_forall in Hi. auto. }
  destruct (map_result_total (fun p => _row_to_thought (snd p)) Hd) as [out E].
  exists out, pairs. split; [exact E|]. apply map_result_Ok in E.
  split; [|split; [exact E|split; [exact Hhit|split]]].
  - rewrite <- (Forall2_length_eq E). apply firstn_length_le.
  - apply StronglySorted_firstn.
    apply (sort_asc_z_sorted (fun p : NodeRow * ThoughtRow => n_timestamp_utc (fst p))).
  - intros Hlen p Hp. unfold pairs. rewrite firstn_all2.
    + apply sort_asc_z_In. apply temporal_rows_hit. exact Hp.
    + assert (Hl : forall (l : list (NodeRow * ThoughtRow)),
                length (sort_asc_z (fun p => n_timestamp_utc (fst p)) l) = length l).
      { induction l as [|x l IH]; simpl; auto. rewrite <- IH.
        generalize (sort_asc_z (fun p => n_timestamp_utc (fst p)) l). intros l'.
        induction l' as [|y l' IH']; simpl; auto.
        destruct (_ <? _)%Z; simpl; auto. }
      rewrite Hl. exact Hlen.
Qed.

Lemma graph_with_a_inv : store_inv Examples.graph_with_a.
Proof.
  assert (E : thoughts Examples.graph_with_a = [row_of_thought Examples.thought_a])
    by (vm_compute; reflexivity).
  unfold store_inv. rewrite E. constructor; [|constructor].
  exists Examples.thought_a. repeat split; vm_compute; reflexivity.
Defined.

Lemma temporal_range_in_range_witness :
  exists out, temporal_range Examples.graph_with_a 0 5 None 10 = Ok out /\
    length out <= 10.
Proof.
  destruct (@temporal_range_in_range Examples.graph_with_a 0 5 None 10 graph_with_a_inv)
    as [out [pairs [H1 [H2 _]]]].
  exists out. split; [exact H1|exact H2].
Defined.

(** * Further properties of the parsers and of the engine *)

(** ** The mapping of a parser *)

Lemma validate_ok tag : strip tag <> [] -> _validate_tag_name tag = Ok tt.
Proof. unfold _validate_tag_name. destruct (strip tag); [congruence|reflexivity]. Qed.

Lemma validate_blank tag : strip tag = [] -> exists e, _validate_tag_name tag = Err e.
Proof. unfold _validate_tag_name. intros ->. eauto. Qed.

(** X14: the mapping of the parsers.  For a tag name that is not blank,
    both parsers return one entry for each tag found, in the order of the
    text: the [i]-th entry has the key [tag_name_i] and the content of the
    [i]-th tag, stripped; the keys are distinct, so no tag is lost.  A
    blank tag name is rejected by both. *)
Theorem parse_entries_numbered x tag_name :
  (strip tag_name <> [] ->
   parse_thought_tags x tag_name = Ok (numbered tag_name (regex_matches x tag_name)) /\
   parse_thought_tags_linear x tag_name
   = Ok (numbered tag_name (map content (_iter_tag_matches_linear x tag_name))) /\
   forall cs, NoDup (dict_keys (numbered tag_name cs)) /\
              length (numbered tag_name cs) = length cs /\
              dict_values (numbered tag_name cs) = map strip cs) /\
  (strip tag_name = [] ->
   (exists e, parse_thought_tags x tag_name = Err e) /\
   (exists e, parse_thought_tags_linear x tag_name = Err e)).
Proof.
  split; intros Ht.
  - unfold parse_thought_tags, parse_thought_tags_linear.
    rewrite (validate_ok _ Ht). cbn [bind]. unfold numbered.
    rewrite !fill_dict_numbered by (intros k []). cbn [app].
    split; [reflexivity|]. split; [reflexivity|]. intros cs.
    assert (Hl : length (map (key_of tag_name) (seq 0 (length cs)))
                 = length (map strip cs))
      by (rewrite !length_map, length_seq; reflexivity).
    split; [|split].
    + unfold dict_keys. rewrite combine_fst by exact Hl.
      apply NoDup_map_inj; [|apply seq_NoDup].
      intros a b. apply key_of_inj.
    + rewrite length_combine, Hl, Nat.min_id, length_map. reflexivity.
    + unfold dict_values. apply combine_snd. exact Hl.
  - unfold parse_thought_tags, parse_thought_tags_linear.
    destruct (validate_blank _ Ht) as [e ->]. cbn [bind]. eauto.
Qed.

(** ** [parse_and_clean] *)

Lemma tag_ws_no_marker tag s :
  str_find (marker_of tag) s = None -> Re.sub (tag_ws_pattern tag) [NL] s = s.
Proof.
  intros Hf. apply ReFacts.sub_no_match. intros a b Hs.
  unfold tag_ws_pattern, tag_pattern.
  assert (E : starts_with (marker_of tag) (drop_while is_space b) = false).
  { apply (str_find_none _ Hf (a ++ take_while is_space b)).
    rewrite <- app_assoc, take_drop_while. exact Hs. }
  rewrite E. reflexivity.
Qed.

Lemma iter_no_marker tag s : str_find (marker_of tag) s = None ->
  _iter_tag_matches_linear s tag = [].
Proof.
  intros Hf. unfold _iter_tag_matches_linear. destruct s as [|c s]; [reflexivity|].
  cbn [length iter_from]. rewrite Hf. reflexivity.
Qed.

(** X15: a text without the marker.  If [/tag_name[] does not occur in the
    text, [parse_and_clean] returns an empty mapping, and as cleaned text
    the text with its whitespace normalised: the regex variant removes the
    blanks next to newlines, cuts the runs of newlines to two and strips;
    the linear variant only cuts the runs of newlines and strips.  No
    other character is touched. *)
Theorem parse_and_clean_without_marker x tag_name (linear : bool) :
  strip tag_name <> [] ->
  str_find (marker_of tag_name) x = None ->
  parse_and_clean x tag_name linear
  = Ok (if linear then strip (Re.sub nl3_pattern [NL; NL] x)
        else strip (collapse_ws x), []).
Proof.
  intros Ht Hf. unfold parse_and_clean, parse_thought_tags, parse_thought_tags_linear,
    clean_thought_tags, clean_thought_tags_linear.
  rewrite (validate_ok _ Ht). cbn [bind]. destruct linear.
  - rewrite (iter_no_marker _ _ Hf). reflexivity.
  - unfold regex_matches. rewrite (findall_no_marker _ _ Hf), (tag_ws_no_marker _ _ Hf).
    reflexivity.
Qed.

Lemma parse_and_clean_without_marker_witness :
  parse_and_clean (T "a  b") thought_tag false = Ok (T "a  b", []).
Proof.
  refine (@parse_and_clean_without_marker (T "a  b") thought_tag false _ _).
  - vm_compute. discriminate.
  - vm_compute. reflexivity.
Defined.

(** X16: [parse_and_clean] on its own output.  For a tag name without
    whitespace and brackets, the cleaned text that [parse_and_clean]
    returns is a fixed point: given this text, the same variant returns it
    unchanged, with an empty mapping. *)
Theorem parse_and_clean_fixed x tag_name (linear : bool) c d :
  plain_tag tag_name ->
  parse_and_clean x tag_name linear = Ok (c, d) ->
  parse_and_clean c tag_name linear = Ok (c, []).
Proof.
  intros [Hs Hb]. unfold parse_and_clean. destruct linear.
  - unfold parse_thought_tags_linear at 1 2.
    destruct (_validate_tag_name tag_name) as [[]|e] eqn:Ev; [|discriminate].
    cbn [bind].
    destruct (clean_thought_tags_linear x tag_name) as [y|e] eqn:Ec; [|discriminate].
    cbn [bind]. intros [= <- _].
    destruct (@clean_linear_fixed tag_name Hs Hb x y Ec) as [H1 H2].
    rewrite H1, H2. reflexivity.
  - unfold parse_thought_tags at 1 2, clean_thought_tags at 1 2.
    destruct (_validate_tag_name tag_name) as [[]|e] eqn:Ev; [|discriminate].
    cbn [bind]. intros [= <- _].
    destruct (@clean_regex_fixed tag_name Hs x) as [H1 H2].
    cbv zeta in H1, H2. rewrite H1, H2. reflexivity.
Qed.

Lemma parse_and_clean_fixed_witness :
  parse_and_clean (T "a") (T "note") true = Ok (T "a", []).
Proof.
  refine (@parse_and_clean_fixed (T "a /note[x [y]] ") (T "note") true (T "a")
            [(T "note_0", T "x [y]")] _ _).
  - split; repeat constructor.
  - vm_compute. reflexivity.
Defined.

(** ** Recall and the lineage *)

Lemma recall_in_lineage cosine now st query sid (graph : bool) limit alpha hops out :
  recall_from_prior_sessions cosine now st query sid graph limit alpha hops = Ok out ->
  forall it, In it out ->
    In (session_id (thought it)) (get_session_lineage st sid false).
Proof.
  unfold recall_from_prior_sessions.
  destruct (get_session_lineage st sid false) as [|l0 ls] eqn:El.
  { intros [= <-] it []. }
  rewrite <- El. clear El l0 ls.
  destruct (semantic_search _ _ _ _ _ _ _ _) as [found|e]; [|discriminate].
  cbn [bind].
  set (lineage := get_session_lineage st sid false).
  set (semantic := filter (fun item => mem (session_id (thought item)) lineage) found).
  assert (Hsem : forall it, In it semantic -> In (session_id (thought it)) lineage).
  { intros it Hit. apply filter_In in Hit as [_ Hm]. apply mem_In. exact Hm. }
  destruct (negb graph || (hops <=? 0)%Z).
  - intros [= <-] it Hit. apply py_firstn_In in Hit. auto.
  - destruct (expand_seeds st lineage hops (firstn 5 semantic) _) as [merged|e] eqn:Ex;
      [|discriminate].
    cbn [bind]. intros [= <-].
    pose proof (expand_seeds_nodup _ _ _ _ _ Ex (dict_of_pairs_nodup _)) as Hnd.
    apply expand_seeds_spec in Ex as [_ H2].
    intros it Hit. apply py_firstn_In, sort_desc_In in Hit.
    destruct (@dict_values_get _ merged it Hnd Hit) as [k Hk].
    apply H2 in Hk as [Hk|[_ [seed [t [_ [_ [_ [Hm ->]]]]]]]].
    + apply dict_of_pairs_get in Hk. apply in_map_iff in Hk as [y [[= _ <-] Hy]].
      auto.
    + cbn [decayed thought]. apply mem_In. exact Hm.
Qed.

(** X17: [recall_from_prior_sessions] stays in the lineage.  Every thought
    returned, found by the search or reached through the graph, belongs to
    a session of the lineage of the current session (its ancestors); with an
    empty lineage the result is empty. *)
Theorem recall_sessions_in_lineage cosine now st query sid (graph : bool) limit alpha
  hops out :
  recall_from_prior_sessions cosine now st query sid graph limit alpha hops = Ok out ->
  (get_session_lineage st sid false = [] -> out = []) /\
  forall it, In it out ->
    In (session_id (thought it)) (get_session_lineage st sid false).
Proof.
  intros E. pose proof (recall_in_lineage _ _ _ _ _ _ _ _ _ E) as Hall.
  split; [|exact Hall].
  intros El. destruct out as [|it rest]; [reflexivity|].
  specialize (Hall it (or_introl eq_refl)). rewrite El in Hall. destruct Hall.
Qed.

Lemma recall_sessions_in_lineage_witness :
  exists out,
    recall_from_prior_sessions Examples.cosine1 10 Examples.recall_store
      [Examples.one_float] (T "s2") true 10 1 1 = Ok out /\
    forall it, In it out ->
      In (session_id (thought it)) (get_session_lineage Examples.recall_store (T "s2") false).
Proof.
  eexists.
  assert (E : recall_from_prior_sessions Examples.cosine1 10 Examples.recall_store
                [Examples.one_float] (T "s2") true 10 1 1 = Ok _)
    by (vm_compute; reflexivity).
  split; [exact E|].
  exact (proj2 (@recall_sessions_in_lineage _ _ _ _ _ _ _ _ _ _ E)).
Defined.

(** ** The parser of structured thoughts *)

Lemma parse_matches_length env dc conf ms : forall n,
  length (parse_matches env dc conf n ms) <= length ms.
Proof.
  induction ms as [|m ms IH]; intros n; cbn [parse_matches]; [simpl; lia|].
  destruct (parse_one env dc conf n m).
  - simpl. specialize (IH (S n)). lia.
  - specialize (IH n). simpl. lia.
Qed.

Lemma parse_one_content env dc conf n m p :
  parse_one env dc conf n m = Some p ->
  p_content p = strip (snd m) /\ p_content p <> [].
Proof.
  unfold parse_one. destruct (is_nil (strip (snd m))) eqn:E; [discriminate|].
  intros [= <-]. cbn [p_content]. split; [reflexivity|]. apply is_nil_false. exact E.
Qed.

(** X18: what [parse_structured_thoughts] returns.  With a default
    category that is not blank, every item has a content that is stripped
    and not empty, a category that is not blank, and a confidence within
    [0,1] (a value outside is clamped, a value that is not a number is
    replaced by the default and clamped); there are at most as many items as
    tags matched, and none exactly when every matched tag has a blank
    content. *)
Theorem parse_structured_items_valid env n s default_category default_confidence :
  strip default_category <> [] ->
  let items := parse_structured_thoughts env n s default_category default_confidence in
  Forall (fun p => strip (p_content p) = p_content p /\ p_content p <> [] /\
                   strip (p_category p) <> [] /\
                   (0 <= p_confidence p)%Q /\ (p_confidence p <= 1)%Q) items /\
  length items <= length (Re.findall _THOUGHT_PATTERN s) /\
  (items = [] <->
   Forall (fun m => strip (snd m) = []) (Re.findall _THOUGHT_PATTERN s)).
Proof.
  intros Hdc items. subst items. unfold parse_structured_thoughts.
  split; [|split].
  - generalize (Re.findall _THOUGHT_PATTERN s). intros ms. revert n.
    induction ms as [|m ms IH]; intros n; cbn [parse_matches]; [constructor|].
    destruct (parse_one env default_category default_confidence n m) as [p|] eqn:E; auto.
    constructor; [|auto].
    destruct (parse_one_item _ _ _ _ _ Hdc E) as [H1 [H2 H3]].
    destruct (parse_one_content _ _ _ _ _ E) as [H4 H5].
    apply andb_true_iff in H2 as [Ha Hb]. apply Qle_bool_iff in Ha, Hb.
    repeat split; auto. rewrite H4. apply strip_idem.
  - apply parse_matches_length.
  - pose proof (parse_matches_nonempty env default_category default_confidence
                  (Re.findall _THOUGHT_PATTERN s) n) as Hn.
    split.
    + intros E. apply Forall_forall. intros m Hm.
      destruct (strip (snd m)) eqn:Es; [reflexivity|]. exfalso.
      apply (proj2 Hn); [|exact E]. exists m. split; [exact Hm|]. rewrite Es. discriminate.
    + intros Hf.
      destruct (parse_matches _ _ _ n _) as [|p ps] eqn:E; [reflexivity|]. exfalso.
      destruct (proj1 Hn) as [m [Hm Hs]]; [discriminate|].
      rewrite Forall_forall in Hf. auto.
Qed.

Lemma parse_structured_items_valid_witness :
  length (parse_structured_thoughts Examples.env1 0 (Examples.note_llm [])
            (T "reflection") (9 # 10))
  <= length (Re.findall _THOUGHT_PATTERN (Examples.note_llm [])).
Proof.
  refine (proj1 (proj2 (@parse_structured_items_valid Examples.env1 0
                          (Examples.note_llm []) (T "reflection") (9 # 10) _))).
  vm_compute. discriminate.
Defined.

(** ** The pipeline [parse_and_store] *)

Lemma parse_regex_values x tag d :
  parse_thought_tags x tag = Ok d ->
  d = numbered tag (regex_matches x tag) /\
  dict_values d = map strip (regex_matches x tag).
Proof.
  unfold parse_thought_tags. destruct (_validate_tag_name tag); [|discriminate].
  cbn [bind]. intros [= <-]. rewrite fill_dict_numbered by (intros k []). cbn [app].
  split; [reflexivity|]. unfold numbered, dict_values. apply combine_snd.
  rewrite !length_map, length_seq. reflexivity.
Qed.

Lemma parse_linear_values x tag d :
  parse_thought_tags_linear x tag = Ok d ->
  d = numbered tag (map content (_iter_tag_matches_linear x tag)) /\
  dict_values d = map strip (map content (_iter_tag_matches_linear x tag)).
Proof.
  unfold parse_thought_tags_linear. destruct (_validate_tag_name tag); [|discriminate].
  cbn [bind]. intros [= <-]. rewrite fill_dict_numbered by (intros k []). cbn [app].
  split; [reflexivity|]. unfold numbered, dict_values. apply combine_snd.
  rewrite !length_map, length_seq. reflexivity.
Qed.

Lemma thought_objects_spec env now sid cat conf tags contents : forall n ts,
  thought_objects env now n sid cat conf tags contents = Ok ts ->
  Forall Thought_valid ts /\
  Forall2 (fun c t => strip c <> [] /\ raw_text t = strip_whitespace c /\
                      cleaned_text t = strip c /\
                      session_id t = strip_whitespace sid /\
                      category t = strip_whitespace cat /\ timestamp_utc t = now /\
                      embedding_vector t = embed env (strip c))
          contents ts.
Proof.
  induction contents as [|c cs IH]; intros n ts; cbn [thought_objects].
  - intros [= <-]. split; constructor.
  - destruct (Thought_new _ _ _ _ _ _ _ _ _ _) as [t|e] eqn:Et; [|discriminate].
    cbn [bind].
    destruct (thought_objects env now (S n) sid cat conf tags cs) as [ts'|e] eqn:Ets;
      [|discriminate].
    cbn [bind]. intros [= <-]. destruct (IH _ _ Ets) as [H1 H2].
    pose proof (Thought_new_valid _ _ _ _ _ _ _ _ _ _ Et) as Hv.
    destruct (Thought_new_Ok _ _ _ _ _ _ _ _ _ _ Et)
      as [_ [_ [_ [_ [Hc [_ [_ [_ [_ Ht]]]]]]]]].
    split; constructor; auto.
    rewrite Ht. cbn [raw_text cleaned_text session_id category timestamp_utc
                     embedding_vector].
    rewrite strip_whitespace_strip in *. repeat split; auto.
Qed.

Lemma Forall2_map_l {A B C} (f : A -> B) (P : B -> C -> Prop) l l' :
  Forall2 P (map f l) l' -> Forall2 (fun a c => P (f a) c) l l'.
Proof.
  revert l'. induction l as [|a l IH]; intros l' H; inversion H; subst; constructor; auto.
Qed.

(** X19: [parse_and_store] persists all or nothing.  On a store whose rows
    were written by [batch_store], a call that raises (a blank session id or
    tag name, a tag whose content is blank, a vector that has not the
    dimension of the store, a failing insert) leaves the whole state as it
    was: no thought of the text is stored. *)
Theorem parse_and_store_error_keeps_state env now n fault st raw sid cat conf tags tag
  (lf : bool) st' e :
  store_inv st ->
  parse_and_store env now n fault st raw sid cat conf tags tag lf = (st', Err e) ->
  st' = st.
Proof.
  intros Hi. unfold parse_and_store.
  destruct (is_nil (strip sid)); [intros [= <- _]; reflexivity|].
  destruct (parse_thought_tags raw tag) as [d|e1]; [|intros [= <- _]; reflexivity].
  destruct (clean_thought_tags raw tag) as [c0|e1]; [|intros [= <- _]; reflexivity].
  match goal with
  | |- (match ?ch with Ok _ => _ | Err _ => _ end) = _ -> _ =>
      destruct ch as [[[m cl] used]|e1]; [|intros [= <- _]; reflexivity]
  end.
  destruct (thought_objects _ _ _ _ _ _ _ _) as [objs|e1] eqn:Eo;
    [|intros [= <- _]; reflexivity].
  destruct objs as [|o objs]; [discriminate|].
  apply thought_objects_spec in Eo as [Hv _].
  pose proof (@batch_store_cases fault st (o :: objs) Hv (fun _ => store_inv_wf Hi)) as H.
  destruct (batch_fails fault st (o :: objs)).
  - destruct H as [e2 ->]. intros [= <- _]. reflexivity.
  - destruct H as [ix [-> _]]. discriminate.
Qed.

Lemma parse_and_store_error_keeps_state_witness :
  exists e,
    parse_and_store Examples.env1 0 0 no_fault Examples.two_thoughts
      (T "a /thought[x] b /thought[ ]") (T "s") (T "reasoning") (9 # 10) None
      thought_tag true
    = (Examples.two_thoughts, Err e).
Proof.
  eexists.
  assert (E : parse_and_store Examples.env1 0 0 no_fault Examples.two_thoughts
                (T "a /thought[x] b /thought[ ]") (T "s") (T "reasoning") (9 # 10) None
                thought_tag true = (_, Err _)) by (vm_compute; reflexivity).
  refine (eq_trans E (f_equal (fun s => (s, _)) _)).
  exact (@parse_and_store_error_keeps_state _ _ _ _ _ _ _ _ _ _ _ _ _ _
           two_thoughts_inv E).
Defined.

(** X20: what a successful [parse_and_store] stored.  The result tells
    which parser was used (the linear one only when the fallback is on); its
    cleaned text and its thoughts are those of [parse_and_clean] with that
    parser: one thought for each tag found, in the order of the text, whose
    raw and cleaned text are the stripped content of the tag (which is not
    blank), in the session given (stripped as pydantic strips it: the
    separators U+001C to U+001F stay), embedded from that content and
    stamped with the time of the call; and every one is read back from the
    store by [get_thought_by_id]. *)
Theorem parse_and_store_result env now n fault st raw sid cat conf tags tag (lf : bool)
  st' res :
  parse_and_store env now n fault st raw sid cat conf tags tag lf = (st', Ok res) ->
  (used_linear_fallback res = true -> lf = true) /\
  parse_and_clean raw tag (used_linear_fallback res)
  = Ok (cleaned_output res,
        numbered tag (tag_contents (used_linear_fallback res) raw tag)) /\
  Forall2 (fun c t => strip c <> [] /\ raw_text t = strip c /\
                      cleaned_text t = strip c /\
                      session_id t = strip_whitespace sid /\
                      timestamp_utc t = now /\
                      embedding_vector t = embed env (strip c))
    (tag_contents (used_linear_fallback res) raw tag) (stored_thoughts res) /\
  forall t, In t (stored_thoughts res) ->
    exists t2, In t2 (stored_thoughts res) /\ id t2 = id t /\
      get_thought_by_id st' (id t) = Ok (Some (rehydrated t2)).
Proof.
  unfold parse_and_store.
  destruct (is_nil (strip sid)); [discriminate|].
  destruct (parse_thought_tags raw tag) as [d|e1] eqn:Ep; [|discriminate].
  destruct (clean_thought_tags raw tag) as [c0|e1] eqn:Ec; [|discriminate].
  match goal with
  | |- (match ?ch with Ok _ => _ | Err _ => _ end) = _ -> _ =>
      destruct ch as [[[m cl] used]|e1] eqn:Ech; [|discriminate]
  end.
  assert (Hch : (used = true -> lf = true) /\
                parse_and_clean raw tag used = Ok (cl, m) /\
                m = numbered tag (tag_contents used raw tag) /\
                dict_values m = map strip (tag_contents used raw tag)).
  { destruct (parse_regex_values _ _ Ep) as [Hd Hdv].
    assert (Hreg : Ok (d, c0, false) = Ok (m, cl, used) ->
                   (used = true -> lf = true) /\
                   parse_and_clean raw tag used = Ok (cl, m) /\
                   m = numbered tag (tag_contents used raw tag) /\
                   dict_values m = map strip (tag_contents used raw tag)).
    { intros [= <- <- <-]. split; [discriminate|]. unfold parse_and_clean.
      rewrite Ep, Ec. cbn [bind tag_contents]. auto. }
    destruct lf; [|exact (Hreg Ech)].
    destruct (parse_thought_tags_linear raw tag) as [dl|e1] eqn:El; [|discriminate].
    destruct (should_use_linear d dl); [|exact (Hreg Ech)].
    destruct (clean_thought_tags_linear raw tag) as [c1|e1] eqn:Ecl; [|discriminate].
    injection Ech as <- <- <-. split; [reflexivity|]. unfold parse_and_clean.
    rewrite El, Ecl. cbn [bind tag_contents].
    destruct (parse_linear_values _ _ El) as [H1 H2]. auto. }
  clear Ech. destruct Hch as [Hlf [Hpc [Hm Hdv]]].
  destruct (thought_objects _ _ _ _ _ _ _ _) as [objs|e1] eqn:Eo; [|discriminate].
  apply thought_objects_spec in Eo as [Hv Hf]. rewrite Hdv in Hf.
  apply Forall2_map_l in Hf.
  assert (Hf' : Forall2 (fun c t => strip c <> [] /\ raw_text t = strip c /\
                      cleaned_text t = strip c /\
                      session_id t = strip_whitespace sid /\
                      timestamp_utc t = now /\
                      embedding_vector t = embed env (strip c))
                  (tag_contents used raw tag) objs).
  { eapply Forall2_impl; [|exact Hf]. cbv beta. intros c t.
    rewrite strip_whitespace_strip, !strip_idem.
    intros [H1 [H2 [H3 [H4 [_ [H5 H6]]]]]]. auto 10. }
  destruct objs as [|o objs].
  - intros [= <- <-]. cbn [used_linear_fallback cleaned_output stored_thoughts].
    rewrite <- Hm. repeat split; auto. intros t [].
  - destruct (batch_store fault st (o :: objs)) as [st2 [out|e1]] eqn:Eb; [|discriminate].
    intros [= <- <-]. cbn [used_linear_fallback cleaned_output stored_thoughts].
    rewrite <- Hm. repeat split; auto.
    intros t Hin. apply batch_store_Ok in Eb as [_ Eb].
    destruct (@batch_rows_find (o :: objs) (thoughts st) t Hin) as [t2 [H1 [H2 H3]]].
    assert (Hv2 : Thought_valid t2) by (rewrite Forall_forall in Hv; auto).
    exists t2. split; auto. split; auto.
    unfold get_thought_by_id. rewrite Eb, H3, (row_round_trip Hv2). reflexivity.
Qed.

Lemma parse_and_store_result_witness :
  exists st' res,
    parse_and_store Examples.env1 0 0 no_fault Examples.unit_store
      (T "a /thought[x [y]] b") (T "s") (T "reasoning") (9 # 10) None
      thought_tag true = (st', Ok res) /\
    used_linear_fallback res = true /\
    map raw_text (stored_thoughts res) = [T "x [y]"] /\
    forall t, In t (stored_thoughts res) ->
      exists t2, In t2 (stored_thoughts res) /\ id t2 = id t /\
        get_thought_by_id st' (id t) = Ok (Some (rehydrated t2)).
Proof.
  do 2 eexists.
  assert (E : parse_and_store Examples.env1 0 0 no_fault Examples.unit_store
                (T "a /thought[x [y]] b") (T "s") (T "reasoning") (9 # 10) None
                thought_tag true = (_, Ok _)) by (vm_compute; reflexivity).
  split; [exact E|]. split; [reflexivity|]. split; [reflexivity|].
  exact (proj2 (proj2 (proj2 (@parse_and_store_result _ _ _ _ _ _ _ _ _ _ _ _ _ _ E)))).
Defined.

(** ** The reflection cycle *)

Lemma semantic_search_session cosine now st query sid limit alpha max_candidates out it :
  semantic_search cosine now st query (mkFilters (Some sid) None None None None None)
    limit alpha max_candidates = Ok out ->
  In it out -> session_id (thought it) = strip_whitespace sid.
Proof.
  unfold semantic_search. destruct (negb _); [discriminate|].
  destruct (index_search _ _ _ _ _) as [candidates|e]; [|discriminate].
  cbn [bind]. unfold rank_candidates.
  destruct candidates as [|c cs]; [intros [= <-] []|].
  set (cands := c :: cs) in *. clearbody cands.
  destruct (surviving_rows st cands _) as [|r0 rs] eqn:Es; [intros [= <-] []|].
  rewrite <- Es. clear Es r0 rs.
  destruct (map_result _ (surviving_rows st cands _)) as [scored|e] eqn:Em;
    [|discriminate].
  cbn [bind]. intros [= <-] Hit. apply firstn_In, sort_desc_In in Hit.
  apply map_result_Ok in Em.
  destruct (@Forall2_In_r _ _ _ _ _ _ Em Hit) as [row [Hrow Hs]].
  apply score_row_Ok in Hs. destruct Hs as [Ht _].
  apply surviving_rows_spec in Hrow as [_ [H2 _]].
  unfold _row_matches_filters, sql_where in H2. cbn in H2.
  rewrite ?andb_true_r in H2.
  apply text_eqb_eq in H2. rewrite <- H2.
  unfold _row_to_thought in Ht. destruct (_blob_to_vector _ _) as [v|e]; [|discriminate].
  cbn [bind] in Ht. apply Thought_new_Ok in Ht.
  destruct Ht as (_&_&_&_&_&_&_&_&_&->). reflexivity.
Qed.

Lemma dict_set_Forall {V} (P : text * V -> Prop) d k v :
  Forall P d -> (forall k', text_eqb k' k = true -> P (k', v)) ->
  Forall P (dict_set d k v).
Proof.
  intros Hd Hk. induction d as [|[k' v'] d IH]; cbn [dict_set].
  - constructor; [|constructor]. apply Hk. apply text_eqb_refl.
  - apply Forall_cons_iff in Hd as [H1 H2].
    destruct (text_eqb k' k) eqn:E; constructor; auto.
Qed.

Lemma NoDup_firstn {A} (l : list A) : forall n, NoDup l -> NoDup (firstn n l).
Proof.
  induction l as [|x l IH]; intros [|n] H; cbn [firstn]; try constructor.
  - inversion H; subst. intros Hin. apply firstn_In in Hin. auto.
  - inversion H; subst. auto.
Qed.

Lemma merged_hits (hits : list ScoredThought) :
  let merged := dict_of_pairs (map (fun hit => (id (thought hit), thought hit)) hits) in
  NoDup (map id (dict_values merged)) /\
  forall t, In t (dict_values merged) -> exists hit, In hit hits /\ thought hit = t.
Proof.
  intros merged.
  assert (Hk : Forall (fun kv : text * Thought => fst kv = id (snd kv)) merged).
  { unfold merged, dict_of_pairs.
    generalize (@nil (text * Thought)) (@Forall_nil (text * Thought)
                                          (fun kv => fst kv = id (snd kv))).
    induction hits as [|h hits IH]; intros acc Ha; cbn [map fold_left]; [exact Ha|].
    apply IH. apply dict_set_Forall; [exact Ha|].
    cbn [fst snd]. intros k' E. apply text_eqb_eq. exact E. }
  assert (Hn : NoDup (dict_keys merged)) by apply dict_of_pairs_nodup.
  split.
  - replace (map id (dict_values merged)) with (dict_keys merged); [exact Hn|].
    unfold dict_keys, dict_values. rewrite map_map. apply map_ext_in.
    intros kv Hin. rewrite Forall_forall in Hk. apply Hk. exact Hin.
  - intros t Hin. destruct (@dict_values_get _ merged t Hn Hin) as [k Hg].
    apply dict_of_pairs_get, in_map_iff in Hg as [hit [[= _ <-] Hh]]. eauto.
Qed.

Lemma add_thought_keeps_thoughts cosine now faults st t sn thr tl st' r :
  add_thought cosine now faults st t false sn thr tl = (st', r) ->
  thoughts st' = thoughts st.
Proof.
  unfold add_thought, store_missing. cbv zeta.
  change (thoughts st) with (thoughts (add_node st t)).
  generalize (add_node st t). intros st1.
  assert (Ht : forall st2 r2,
             (if tl then _link_temporal_successor (faults 0) st1 t else (st1, Ok tt))
             = (st2, r2) -> thoughts st2 = thoughts st1).
  { intros st2 r2. destruct tl; [|intros [= <- _]; auto].
    unfold _link_temporal_successor.
    destruct (previous_node st1 t); [|intros [= <- _]; auto].
    intros H. apply link_keeps_nodes in H. apply H. }
  destruct (if tl then _link_temporal_successor (faults 0) st1 t else (st1, Ok tt))
    as [st2 r2].
  rewrite <- (Ht st2 r2 eq_refl).
  destruct r2 as [u2|e2]; [|intros [= <- _]; auto].
  destruct (0 <? sn)%Z; [|intros [= <- _]; auto].
  destruct (semantic_search _ _ _ _ _ _ _ _) as [nearest|e]; [|intros [= <- _]; auto].
  destruct (link_nearest faults 1 st2 t thr nearest) as [st3 r3] eqn:En.
  apply link_nearest_edges in En as [created [rest [-> _]]].
  destruct r3; intros [= <- _]; auto.
Qed.

Lemma add_reflections_thoughts env now recalled stored : forall st pending st' r,
  add_reflections env now st stored recalled pending = (st', r) ->
  thoughts st' = thoughts st.
Proof.
  induction stored as [|t ts IH]; intros st pending st' r; cbn [add_reflections].
  - intros [= <- _]. reflexivity.
  - destruct (add_thought _ _ _ st t false 0 _ true) as [sta [ua|e]] eqn:Et;
      apply add_thought_keeps_thoughts in Et.
    + intros Ea. apply IH in Ea. rewrite Ea. exact Et.
    + intros [= <- _]. exact Et.
Qed.

(** X21: what a reflection cycle recalls and stores.  Every cycle that
    returns had a supported mode; it recalled at most [max(1, top_k)]
    thoughts, with distinct ids, each from the current session or from a
    session of its lineage; and every reflection it stored is in the
    reflection session (the current one when none, or an empty one, is
    given), tagged [reflection] and with the mode, with the same raw and
    cleaned text, and is among the thoughts of the store.  Session ids and
    tags are read from the thoughts, hence stripped as pydantic strips them
    (the separators U+001C to U+001F stay). *)
Theorem reflect_recalls_and_stores env now n st (graph : bool) query sid mode top_k rsid
  llm st' res :
  reflect env now n st graph query sid mode top_k rsid llm = (st', Ok res) ->
  dict_get REFLECTION_TEMPLATES mode <> None /\
  length (recalled_thoughts res) <= Z.to_nat (Z.max 1 top_k) /\
  NoDup (map id (recalled_thoughts res)) /\
  (forall t, In t (recalled_thoughts res) ->
     session_id t = strip_whitespace sid \/
     In (session_id t) (get_session_lineage st sid false)) /\
  forall t, In t (stored_reflections res) ->
    session_id t = strip_whitespace (match rsid with
                                     | Some ((_ :: _) as r) => r
                                     | _ => sid
                                     end) /\
    tags t = [T "reflection"; strip_whitespace mode] /\
    cleaned_text t = raw_text t /\
    In (id t) (map r_id (thoughts st')).
Proof.
  unfold reflect.
  destruct (dict_get REFLECTION_TEMPLATES mode) as [tpl|] eqn:Emode; [|discriminate].
  destruct (semantic_search _ _ _ _ _ _ _ _) as [current_hits|e] eqn:E1; [|discriminate].
  destruct (recall_from_prior_sessions _ _ _ _ _ _ _ _ _) as [prior_hits|e] eqn:E2;
    [|discriminate].
  cbv zeta.
  destruct (merged_hits (current_hits ++ prior_hits)) as [Hnd Hfrom].
  set (merged := dict_of_pairs _) in *.
  set (recalled := firstn (Z.to_nat (Z.max 1 top_k)) (dict_values merged)).
  assert (Hrec : length recalled <= Z.to_nat (Z.max 1 top_k) /\
                 NoDup (map id recalled) /\
                 forall t, In t recalled ->
                   session_id t = strip_whitespace sid \/
                   In (session_id t) (get_session_lineage st sid false)).
  { split; [apply firstn_length_le|]. split.
    - unfold recalled. rewrite <- firstn_map. apply NoDup_firstn. exact Hnd.
    - intros t Hin. apply firstn_In in Hin. destruct (Hfrom t Hin) as [hit [Hh <-]].
      apply in_app_or in Hh as [Hh|Hh].
      + left. eapply semantic_search_session; [exact E1|exact Hh].
      + right. eapply recall_in_lineage; [exact E2|exact Hh]. }
  clearbody recalled. clear E1 E2 Hnd Hfrom.
  destruct (build_reflection_prompt _ _ _) as [prompt|e]; [|discriminate].
  set (text0 := match llm with
                | None => _default_reflection_text env n mode query recalled
                | Some f => f prompt
                end).
  clearbody text0.
  set (session := match rsid with
                  | Some ((_ :: _) as r) => r
                  | _ => sid
                  end).
  set (created := match rsid with
                  | Some ((_ :: _) as r) =>
                      if negb (text_eqb r sid)
                      then create_session st r (Some sid) None
                      else create_session st sid None None
                  | _ => create_session st sid None None
                  end).
  assert (Hst1 : thoughts (fst created) = thoughts st).
  { unfold created, create_session. clear.
    destruct rsid as [[|c r]|];
      repeat match goal with
             | |- context [if ?b then _ else _] => destruct b
             end; reflexivity. }
  destruct created as [st1 [u|e]]; [|discriminate]. cbn [fst] in Hst1.
  destruct (map_result _ _) as [to_store|e] eqn:Em; [|discriminate].
  apply map_result_Ok in Em.
  assert (Hts : Forall (fun t => Thought_valid t /\ session_id t = strip_whitespace session /\
                                tags t = [T "reflection"; strip_whitespace mode] /\
                                cleaned_text t = raw_text t) to_store).
  { apply Forall_forall. intros t Hin.
    destruct (@Forall2_In_r _ _ _ _ _ _ Em Hin) as [item [_ Hit]].
    unfold reflection_thought in Hit. cbv zeta in Hit.
    split; [exact (Thought_new_valid _ _ _ _ _ _ _ _ _ _ Hit)|].
    apply Thought_new_Ok in Hit. destruct Hit as (_&_&_&_&_&_&_&_&_&->).
    cbn [session_id tags raw_text cleaned_text map]. auto. }
  clear Em.
  set (batch := match to_store with
                | [] => (st1, Ok [])
                | _ :: _ => batch_store no_fault st1 to_store
                end).
  assert (Hb : forall st2 stored, batch = (st2, Ok stored) ->
               stored = to_store /\
               forall t, In t stored -> In (id t) (map r_id (thoughts st2))).
  { unfold batch. intros st2 stored Eb.
    destruct to_store as [|t0 ts];
      [injection Eb as <- <-; split; [reflexivity|intros t []]|].
    apply batch_store_Ok in Eb as [-> Eb]. split; [reflexivity|].
    intros t Hin. rewrite Eb.
    destruct (@batch_rows_find (t0 :: ts) (thoughts st1) t Hin) as [t2 [_ [H2 H3]]].
    apply find_some in H3 as [H3 _]. apply in_map_iff.
    exists (row_of_thought t2). split; [exact H2|exact H3]. }
  destruct batch as [st2 [stored|e]]; [|discriminate].
  destruct (Hb st2 stored eq_refl) as [-> Hin2]. clear Hb.
  assert (Hfin : forall st4,
             thoughts st4 = thoughts st2 ->
             (st4, Ok (mkReflectionResult text0 prompt recalled to_store)) = (st', Ok res) ->
             Some tpl <> None /\
             length (recalled_thoughts res) <= Z.to_nat (Z.max 1 top_k) /\
             NoDup (map id (recalled_thoughts res)) /\
             (forall t, In t (recalled_thoughts res) ->
                session_id t = strip_whitespace sid \/
                In (session_id t) (get_session_lineage st sid false)) /\
             forall t, In t (stored_reflections res) ->
               session_id t = strip_whitespace session /\
               tags t = [T "reflection"; strip_whitespace mode] /\
               cleaned_text t = raw_text t /\
               In (id t) (map r_id (thoughts st'))).
  { intros st4 H4 [= <- <-]. cbn [recalled_thoughts stored_reflections].
    split; [discriminate|]. destruct Hrec as [Hr1 [Hr2 Hr3]].
    repeat (split; [assumption|]).
    intros t Hin. rewrite Forall_forall in Hts. destruct (Hts t Hin) as [_ [Ha [Hb Hc]]].
    rewrite H4. auto. }
  destruct graph; [|intros H; exact (Hfin _ eq_refl H)].
  destruct (add_reflections env now st2 to_store recalled []) as [st3 [pend|e]] eqn:Ea;
    [|discriminate].
  apply add_reflections_thoughts in Ea.
  destruct pend as [|p ps]; [intros H; exact (Hfin _ Ea H)|].
  destruct (link_many no_fault st3 (p :: ps)) as [stl [ul|e]] eqn:Elm; [|discriminate].
  intros H. refine (Hfin _ _ H). rewrite <- Ea.
  apply link_many_cases in Elm as [[-> _]|[_ ->]]; reflexivity.
Qed.

Lemma reflect_recalls_and_stores_witness :
  exists st' res,
    reflect Examples.env1 10 0 Examples.recall_store true (T "q") (T "s2")
      (T "reasoning") 8 (Some (T "r1")) (Some Examples.note_llm) = (st', Ok res) /\
    map id (recalled_thoughts res) = [T "a"; T "b"] /\
    NoDup (map id (recalled_thoughts res)) /\
    forall t, In t (stored_reflections res) ->
      session_id t = T "r1" /\
      tags t = [T "reflection"; T "reasoning"] /\
      cleaned_text t = raw_text t /\
      In (id t) (map r_id (thoughts st')).
Proof.
  do 2 eexists.
  assert (E : reflect Examples.env1 10 0 Examples.recall_store true (T "q") (T "s2")
                (T "reasoning") 8 (Some (T "r1")) (Some Examples.note_llm)
              = (_, Ok _)) by (vm_compute; reflexivity).
  split; [exact E|]. split; [reflexivity|].
  destruct (@reflect_recalls_and_stores _ _ _ _ _ _ _ _ _ _ _ _ _ E)
    as [_ [_ [Hn [_ Hs]]]].
  split; [exact Hn|exact Hs].
Defined.
